(** * Web Editor V2: locator, position tracker, event controller,
      transaction manager, message listener, toolbar and canvas overlay

    A shallow embedding of the TypeScript sources of the in-page visual
    editor (web-editor-v2/core, with the toolbar and the canvas overlay
    the editor wires to it) together with the properties its
    specification states about them and further properties read off the
    code.

    Conventions of the embedding.
    - JavaScript strings are [string]: sequences of code units below
      256.  White space and letter case are those of ECMAScript on that
      range: [trim] and [\s] take the ASCII white space and U+00A0,
      [toLowerCase] maps A to Z and the capitals U+00C0 to U+00DE.
      U+FFFD, which is outside the range, is written as its three UTF-8
      bytes.
    - Time stamps and the merge window of the transaction manager are
      integers ([Z]); its history cap is a whole number, [NaN] or an
      infinity.  Rectangle coordinates are rationals ([Q]); the
      subtraction in the comparison of the position tracker rounds as
      that of the doubles does ([Double.round]); [Math.floor] and
      [Math.round] of a rational are [Qfloor] of it and of it plus one
      half.
    - Closures over mutable variables become explicit state records; a
      callback handed in by the caller becomes an entry appended to a
      trace of calls.
    - The browser (DOM tree, selector engine, layout, hit testing) is not
      part of the repository.  The document tree and the selector engine
      are modelled in [Dom] and [Css]; layout and hit testing enter the
      position tracker and the event controller as section variables. *)

From Stdlib Require Import ZArith QArith Qabs Qminmax Qround Qpower List String Ascii Lia Lqa
  Bool.
From stdpp Require Import base option list strings gmap.
Import ListNotations.

Local Open Scope string_scope.
Local Open Scope bool_scope.

(* ===================================================================== *)
(** * JavaScript string primitives                                        *)
(* ===================================================================== *)

Module Str.

Definition code (c : ascii) : nat := nat_of_ascii c.

Definition in_range (lo hi : nat) (c : ascii) : bool :=
  (lo <=? code c)%nat && (code c <=? hi)%nat.

Definition is_digit (c : ascii) : bool := in_range 48 57 c.
Definition is_upper (c : ascii) : bool := in_range 65 90 c.
Definition is_lower (c : ascii) : bool := in_range 97 122 c.
Definition is_alpha (c : ascii) : bool := is_upper c || is_lower c.
Definition is_alnum (c : ascii) : bool := is_digit c || is_alpha c.

(** The code units [String.prototype.trim] strips and [\s] matches: the
    ASCII white space and U+00A0 (the other white space of ECMAScript
    lies above the range of the model). *)
Definition is_space (c : ascii) : bool :=
  in_range 9 13 c || (code c =? 32)%nat || (code c =? 160)%nat.

(** The code units [toLowerCase] changes: A to Z and the capitals of
    U+00C0 to U+00DE, the multiplication sign U+00D7 apart. *)
Definition has_lower_case (c : ascii) : bool :=
  is_upper c || (in_range 192 222 c && negb (code c =? 215)%nat).

Definition lower_char (c : ascii) : ascii :=
  if has_lower_case c then ascii_of_nat (code c + 32) else c.

Fixpoint toLowerCase (s : string) : string :=
  match s with
  | "" => ""
  | String c r => String (lower_char c) (toLowerCase r)
  end.

Fixpoint trimStart (s : string) : string :=
  match s with
  | "" => ""
  | String c r => if is_space c then trimStart r else s
  end.

Fixpoint trimEnd (s : string) : string :=
  match s with
  | "" => ""
  | String c r =>
      match trimEnd r with
      | "" => if is_space c then "" else String c ""
      | r' => String c r'
      end
  end.

(** [s.trim()] *)
Definition trim (s : string) : string := trimEnd (trimStart s).

(** [s.startsWith(p)] *)
Fixpoint startsWith (p s : string) : bool :=
  match p, s with
  | "", _ => true
  | String a p', String b s' => bool_decide (a = b) && startsWith p' s'
  | _, "" => false
  end.

(** [s.includes(c)] for a one-character needle. *)
Fixpoint includes_char (c : ascii) (s : string) : bool :=
  match s with
  | "" => false
  | String d r => bool_decide (c = d) || includes_char c r
  end.

(** [parts.join(sep)] *)
Fixpoint join (sep : string) (parts : list string) : string :=
  match parts with
  | [] => ""
  | [p] => p
  | p :: rest => p ++ sep ++ join sep rest
  end.

(** [s.split(c)] for a one-character separator: never empty. *)
Fixpoint split (sep : ascii) (s : string) : list string :=
  match s with
  | "" => [""]
  | String c r =>
      if bool_decide (c = sep) then "" :: split sep r
      else match split sep r with
           | [] => [String c ""]
           | p :: ps => String c p :: ps
           end
  end.

(** [s.slice(0, n)] *)
Fixpoint take (n : nat) (s : string) : string :=
  match n, s with
  | S n', String c r => String c (take n' r)
  | _, _ => ""
  end.

(** Digits of [Number.prototype.toString(radix)] for an integer. *)
Definition digit_char (d : N) : ascii :=
  if (d <? 10)%N then ascii_of_N (48 + d) else ascii_of_N (87 + d).

Fixpoint digits_fuel (fuel : nat) (radix n : N) (acc : string) : string :=
  match fuel with
  | O => acc
  | S f =>
      let acc' := String (digit_char (n mod radix)) acc in
      if (n / radix =? 0)%N then acc' else digits_fuel f radix (n / radix) acc'
  end.

Definition N_toString (radix n : N) : string :=
  digits_fuel (S (N.to_nat (N.log2 n))) radix n "".

Definition Z_toString (radix : N) (z : Z) : string :=
  if (z <? 0)%Z then "-" ++ N_toString radix (Z.abs_N z)
  else N_toString radix (Z.abs_N z).

Definition nat_toString (n : nat) : string := N_toString 10 (N.of_nat n).

End Str.

(* ===================================================================== *)
(** * JavaScript numbers                                                  *)
(* ===================================================================== *)

(** The arithmetic of JavaScript is that of the doubles: an operation
    gives the double nearest to the exact result, the one with the even
    last digit where two are as near.  [round] is that rounding on the
    rationals; a result of magnitude [2^1024] or more stands for an
    infinity. *)

Module Double.
Local Open Scope Q_scope.

Definition pow2 (e : Z) : Q := 2 ^ e.

(** The [b] with [2^b <= x < 2^(b+1)], for a positive [x]. *)
Definition exponent (x : Q) : Z :=
  let k := (Z.log2 (Qnum x) - Z.log2 (Z.pos (Qden x)))%Z in
  if Qle_bool (pow2 k) x then k else (k - 1)%Z.

(** The nearest whole number, the even one of two. *)
Definition nearest_even (y : Q) : Z :=
  let f := Qfloor y in
  match Qcompare (y - inject_Z f) (1 # 2) with
  | Lt => f
  | Gt => (f + 1)%Z
  | Eq => if Z.even f then f else (f + 1)%Z
  end.

(** The doubles around [x] are the multiples of [2^e] with [e] 52 below
    the exponent of [x], and no less than -1074. *)
Definition ulp_exponent (x : Q) : Z := Z.max (exponent x - 52) (-1074).

Definition round_magnitude (x : Q) : Q :=
  let e := ulp_exponent x in
  inject_Z (nearest_even (x / pow2 e)) * pow2 e.

Definition round (x : Q) : Q :=
  match Qcompare x 0 with
  | Eq => 0
  | Gt => round_magnitude x
  | Lt => - round_magnitude (- x)
  end.

End Double.

(* ===================================================================== *)
(** * The document tree                                                   *)
(* ===================================================================== *)

(** The part of the DOM the editor reads and writes.  Every element is an
    HTML element; documents embed no frames.  An element is referred to by
    its position in the tree, so a reference stays meaningful across the
    style writes of the transaction manager. *)

Module Dom.

(** An element node: [tagName] as the DOM reports it (upper case for HTML
    elements), the [id] attribute, the class list, the remaining
    attributes, [textContent], the inline style declaration, an attached
    shadow root ([true] for mode [open]) and the child elements. *)
#[local] Unset Elimination Schemes.
Inductive element : Type :=
  Element (tagName : string) (id : string) (classList : list string)
          (attributes : list (string * string)) (textContent : string)
          (style : gmap string string)
          (shadow : option (bool * list element))
          (children : list element).
#[local] Set Elimination Schemes.

Definition tagName (e : element) : string :=
  match e with Element t _ _ _ _ _ _ _ => t end.
Definition id (e : element) : string :=
  match e with Element _ i _ _ _ _ _ _ => i end.
Definition classList (e : element) : list string :=
  match e with Element _ _ c _ _ _ _ _ => c end.
Definition attributes (e : element) : list (string * string) :=
  match e with Element _ _ _ a _ _ _ _ => a end.
Definition textContent (e : element) : string :=
  match e with Element _ _ _ _ t _ _ _ => t end.
Definition style (e : element) : gmap string string :=
  match e with Element _ _ _ _ _ s _ _ => s end.
Definition shadow (e : element) : option (bool * list element) :=
  match e with Element _ _ _ _ _ _ s _ => s end.
Definition children (e : element) : list element :=
  match e with Element _ _ _ _ _ _ _ c => c end.

Definition set_style (s : gmap string string) (e : element) : element :=
  match e with Element t i c a x _ sh k => Element t i c a x s sh k end.

(** A document is the list of element children of the document node. *)
Definition document := list element.

(** One step up the tree: to the parent through the child list, or from a
    shadow root to its host. *)
Inductive step := Child (i : nat) | Shadow.

#[export] Instance step_eq_dec : EqDecision step.
Proof. solve_decision. Defined.

(** A node reference, innermost step first: [[]] is the document node,
    [Child i :: p] the [i]-th child element of [p], [Shadow :: h] the
    shadow root of the host [h]. *)
Definition ref := list step.

Inductive node :=
| Root (kids : list element)     (* the document or a shadow root *)
| Elem (e : element).

Definition kids_of (n : node) : list element :=
  match n with Root k => k | Elem e => children e end.

Definition enter (n : node) (s : step) : option node :=
  match s with
  | Child i => Elem <$> kids_of n !! i
  | Shadow =>
      match n with
      | Elem e => (fun sh : bool * list element => Root (snd sh)) <$> shadow e
      | Root _ => None
      end
  end.

(** Follow a path given outermost step first. *)
Fixpoint descend (n : node) (path : list step) : option node :=
  match path with
  | [] => Some n
  | s :: path' => match enter n s with
                  | Some n' => descend n' path'
                  | None => None
                  end
  end.

Definition node_at (d : document) (r : ref) : option node :=
  descend (Root d) (rev r).

Definition element_at (d : document) (r : ref) : option element :=
  match node_at d r with Some (Elem e) => Some e | _ => None end.

Definition is_element_ref (r : ref) : bool :=
  match r with Child _ :: _ => true | _ => false end.

(** [node.parentNode] *)
Definition parentNode (r : ref) : option ref :=
  match r with
  | Child _ :: p => Some p
  | _ => None
  end.

(** [element.parentElement]: the parent when it is an element. *)
Definition parentElement (r : ref) : option ref :=
  match r with
  | Child _ :: p => if is_element_ref p then Some p else None
  | _ => None
  end.

(** [element.getRootNode()] for an element of the document. *)
Fixpoint getRootNode (r : ref) : ref :=
  match r with
  | [] => []
  | Shadow :: _ => r
  | Child _ :: p => getRootNode p
  end.

(** [root instanceof ShadowRoot] *)
Definition isShadowRoot (r : ref) : bool :=
  match r with Shadow :: _ => true | _ => false end.

(** [shadowRoot.host] *)
Definition host (r : ref) : option ref :=
  match r with Shadow :: h => Some h | _ => None end.

(** [element.shadowRoot]: [null] unless an open shadow root is attached. *)
Definition shadowRoot (d : document) (r : ref) : option ref :=
  match element_at d r with
  | Some e => match shadow e with
              | Some (true, _) => Some (Shadow :: r)
              | _ => None
              end
  | None => None
  end.

(** [parent.children] of a root or an element. *)
Definition childNodes (d : document) (r : ref) : list element :=
  match node_at d r with Some n => kids_of n | None => [] end.

(** The elements of the tree below a node, in document order, shadow
    trees excluded: what a selector query on that node can return. *)
Fixpoint subtree (r : ref) (e : element) : list ref :=
  r :: (fix forest (i : nat) (ks : list element) : list ref :=
          match ks with
          | [] => []
          | k :: ks' => (subtree (Child i :: r) k ++ forest (S i) ks')%list
          end) 0%nat (children e).

Fixpoint forest (r : ref) (i : nat) (ks : list element) : list ref :=
  match ks with
  | [] => []
  | k :: ks' => (subtree (Child i :: r) k ++ forest r (S i) ks')%list
  end.

Definition descendants (d : document) (r : ref) : list ref :=
  forest r 0 (childNodes d r).

(** [element.getAttribute(name)] for the attributes kept in the list. *)
Fixpoint getAttribute (attrs : list (string * string)) (name : string) : option string :=
  match attrs with
  | [] => None
  | (k, v) :: rest => if bool_decide (k = name) then Some v else getAttribute rest name
  end.

(** Rewrite the element at the end of a path (outermost step first). *)
Fixpoint update_list {A} (i : nat) (f : A -> A) (l : list A) : list A :=
  match l, i with
  | [], _ => []
  | x :: l', O => f x :: l'
  | x :: l', S i' => x :: update_list i' f l'
  end.

Fixpoint update_path (path : list step) (f : element -> element) (e : element) : element :=
  match path with
  | [] => f e
  | Child i :: path' =>
      match e with
      | Element t a c at' x s sh k =>
          Element t a c at' x s sh (update_list i (update_path path' f) k)
      end
  | Shadow :: path' =>
      match e with
      | Element t a c at' x s sh k =>
          match sh with
          | Some (m, sk) =>
              match path' with
              | Child i :: path'' =>
                  Element t a c at' x s (Some (m, update_list i (update_path path'' f) sk)) k
              | _ => e
              end
          | None => e
          end
      end
  end.

Definition update_element (d : document) (r : ref) (f : element -> element) : document :=
  match rev r with
  | Child i :: path => update_list i (update_path path f) d
  | _ => d
  end.

(** Induction on an element with the hypothesis for all its children. *)

Section ElementInduction.
Variable P : element -> Prop.
Hypothesis step :
  forall t i c a x s sh k, Forall P k -> P (Element t i c a x s sh k).

Fixpoint element_children_ind (e : element) : P e :=
  match e with
  | Element t i c a x s sh k =>
      step t i c a x s sh k
        ((fix all (l : list element) : Forall P l :=
            match l with
            | [] => @List.Forall_nil _ P
            | y :: l' => @List.Forall_cons _ P y l' (element_children_ind y) (all l')
            end) k)
  end.
End ElementInduction.

End Dom.

(* ===================================================================== *)
(** * The selector engine                                                 *)
(* ===================================================================== *)

(** [querySelectorAll] for the fragment of CSS the locator emits:
    compound selectors made of a type selector or [*], [#id], [.class],
    [[attr="value"]] and [:nth-of-type(n)], chained by the child
    combinator.  Identifiers and strings are read with their backslash
    escapes.  Every other string is a syntax error, which the DOM reports
    by throwing; here the query returns [None]. *)

Module Css.
Import Dom.

Inductive simple :=
| Tag (name : string)
| Universal
| Id (name : string)
| Class (name : string)
| AttrEq (name value : string)
| NthOfType (n : nat).

Definition compound := list simple.

(** A complex selector [c1 > c2 > ... > cn], leftmost compound first. *)
Definition complex := list compound.

(** ** Tokens *)

Definition is_ws (c : ascii) : bool :=
  let n := Str.code c in
  (n =? 9)%nat || (n =? 10)%nat || (n =? 12)%nat || (n =? 13)%nat || (n =? 32)%nat.

Definition is_newline (c : ascii) : bool :=
  let n := Str.code c in (n =? 10)%nat || (n =? 12)%nat || (n =? 13)%nat.

Definition is_hex (c : ascii) : bool :=
  Str.is_digit c || Str.in_range 97 102 c || Str.in_range 65 70 c.

Definition hex_value (c : ascii) : nat :=
  if Str.is_digit c then Str.code c - 48
  else if Str.in_range 97 102 c then Str.code c - 87
  else Str.code c - 55.

Definition is_name_start (c : ascii) : bool :=
  Str.is_alpha c || (Str.code c =? 95)%nat || (128 <=? Str.code c)%nat.

Definition is_name_char (c : ascii) : bool :=
  is_name_start c || Str.is_digit c || (Str.code c =? 45)%nat.

Definition backslash : ascii := ascii_of_nat 92.
Definition dquote : ascii := ascii_of_nat 34.

(** U+FFFD REPLACEMENT CHARACTER, as UTF-8. *)
Definition replacement : string :=
  String (ascii_of_nat 239) (String (ascii_of_nat 191) (String (ascii_of_nat 189) "")).

Fixpoint skip_ws (s : string) : string :=
  match s with
  | String c r => if is_ws c then skip_ws r else s
  | "" => ""
  end.

(** Up to [n] hexadecimal digits: their value and the rest. *)
Fixpoint take_hex (n : nat) (acc : nat) (s : string) : nat * string :=
  match n, s with
  | S n', String c r =>
      if is_hex c then take_hex n' (16 * acc + hex_value c) r else (acc, s)
  | _, _ => (acc, s)
  end.

Definition code_point (v : nat) : string :=
  if (v =? 0)%nat || (255 <? v)%nat then replacement
  else String (ascii_of_nat v) "".

(** The code point an escape stands for, read after the backslash. *)
Definition consume_escape (s : string) : string * string :=
  match s with
  | "" => (replacement, "")
  | String c r =>
      if is_hex c then
        let '(v, r') := take_hex 6 0 s in
        (code_point v,
         match r' with
         | String w r'' => if is_ws w then r'' else r'
         | "" => ""
         end)
      else (String c "", r)
  end.

(** A backslash not followed by a newline starts an escape. *)
Definition valid_escape (s : string) : bool :=
  match s with
  | String c r =>
      bool_decide (c = backslash) &&
      match r with String d _ => negb (is_newline d) | "" => true end
  | "" => false
  end.

Fixpoint consume_name (fuel : nat) (s : string) : string * string :=
  match fuel with
  | O => ("", s)
  | S fuel' =>
      match s with
      | "" => ("", "")
      | String c r =>
          if is_name_char c then
            let '(n, r') := consume_name fuel' r in (String c n, r')
          else if valid_escape s then
            let '(e, r') := consume_escape r in
            let '(n, r'') := consume_name fuel' r' in (e ++ n, r'')
          else ("", s)
      end
  end.

(** Whether the input starts an identifier. *)
Definition starts_ident (s : string) : bool :=
  match s with
  | "" => false
  | String c r =>
      if (Str.code c =? 45)%nat then
        match r with
        | String d _ => is_name_start d || (Str.code d =? 45)%nat || valid_escape r
        | "" => false
        end
      else is_name_start c || valid_escape s
  end.

Definition parse_ident (s : string) : option (string * string) :=
  if starts_ident s then Some (consume_name (S (String.length s)) s) else None.

(** The body of a string token, after the opening quote. *)
Fixpoint consume_string (fuel : nat) (quote : ascii) (s : string) : option (string * string) :=
  match fuel with
  | O => None
  | S fuel' =>
      match s with
      | "" => None
      | String c r =>
          if bool_decide (c = quote) then Some ("", r)
          else if is_newline c then None
          else if bool_decide (c = backslash) then
            match r with
            | "" => Some ("", "")
            | String d r' =>
                if is_newline d then consume_string fuel' quote r'
                else
                  let '(e, r'') := consume_escape r in
                  match consume_string fuel' quote r'' with
                  | Some (v, rest) => Some (e ++ v, rest)
                  | None => None
                  end
            end
          else
            match consume_string fuel' quote r with
            | Some (v, rest) => Some (String c v, rest)
            | None => None
            end
      end
  end.

Fixpoint consume_digits (acc : nat) (s : string) : nat * string :=
  match s with
  | String c r =>
      if Str.is_digit c then consume_digits (10 * acc + (Str.code c - 48)) r
      else (acc, s)
  | "" => (acc, "")
  end.

Definition expect (c : ascii) (s : string) : option string :=
  match s with
  | String d r => if bool_decide (c = d) then Some r else None
  | "" => None
  end.

Fixpoint expect_word (w s : string) : option string :=
  match w with
  | "" => Some s
  | String c w' =>
      match s with
      | String d r =>
          if bool_decide (Str.lower_char d = c) then expect_word w' r else None
      | "" => None
      end
  end.

(** ** Selectors *)

(** [[name="value"]], read after the opening bracket. *)
Definition parse_attribute (s : string) : option (simple * string) :=
  '(name, s1) ← parse_ident (skip_ws s);
  s2 ← expect "=" (skip_ws s1);
  '(value, s3) ←
     match skip_ws s2 with
     | String q r =>
         if bool_decide (q = dquote) || bool_decide (q = "'"%char)
         then consume_string (S (String.length r)) q r
         else parse_ident (String q r)
     | "" => None
     end;
  s4 ← expect "]" (skip_ws s3);
  Some (AttrEq name value, s4).

(** [:nth-of-type(n)], read after the colon. *)
Definition parse_nth_of_type (s : string) : option (simple * string) :=
  s1 ← expect_word "nth-of-type(" s;
  match skip_ws s1 with
  | String c r =>
      if Str.is_digit c then
        let '(n, s2) := consume_digits 0 (String c r) in
        s3 ← expect ")" (skip_ws s2);
        Some (NthOfType n, s3)
      else None
  | "" => None
  end.

(** The [#id], [.class], [[attr]] and [:pseudo] parts of a compound. *)
Fixpoint parse_subclasses (fuel : nat) (s : string) : option (list simple * string) :=
  match fuel with
  | O => None
  | S fuel' =>
      match s with
      | String c r =>
          let continue (p : option (simple * string)) :=
            '(x, s') ← p;
            '(xs, s'') ← parse_subclasses fuel' s';
            Some (x :: xs, s'') in
          if bool_decide (c = "#"%char) then
            continue ('(n, s') ← parse_ident r; Some (Id n, s'))
          else if bool_decide (c = "."%char) then
            continue ('(n, s') ← parse_ident r; Some (Class n, s'))
          else if bool_decide (c = "["%char) then continue (parse_attribute r)
          else if bool_decide (c = ":"%char) then continue (parse_nth_of_type r)
          else Some ([], s)
      | "" => Some ([], "")
      end
  end.

Definition parse_compound (s : string) : option (compound * string) :=
  let fuel := S (String.length s) in
  '(c, s') ←
    match s with
    | String "*" r =>
        '(xs, s') ← parse_subclasses fuel r; Some (Universal :: xs, s')
    | _ =>
        match parse_ident s with
        | Some (n, r) =>
            '(xs, s') ← parse_subclasses fuel r; Some (Tag n :: xs, s')
        | None => parse_subclasses fuel s
        end
    end;
  match c with
  | [] => None
  | _ => Some (c, s')
  end.

(** The compounds after the first, each introduced by [>]. *)
Fixpoint parse_chain (fuel : nat) (s : string) : option (list compound) :=
  match fuel with
  | O => None
  | S fuel' =>
      match skip_ws s with
      | "" => Some []
      | String c r =>
          if bool_decide (c = ">"%char) then
            '(x, s') ← parse_compound (skip_ws r);
            xs ← parse_chain fuel' s';
            Some (x :: xs)
          else None
      end
  end.

Definition parse (s : string) : option complex :=
  '(x, s') ← parse_compound (skip_ws s);
  xs ← parse_chain (S (String.length s)) s';
  Some (x :: xs).

(** ** Matching *)

Definition same_type (a b : element) : bool :=
  bool_decide (tagName a = tagName b).

(** One-based position of child [i] among the siblings of its type. *)
Definition index_of_type (sibs : list element) (i : nat) : nat :=
  match sibs !! i with
  | Some e => length (filter (fun s => same_type s e = true) (take (S i) sibs))
  | None => 0
  end.

Definition siblings (d : document) (r : ref) : list element :=
  match parentNode r with
  | Some p => childNodes d p
  | None => []
  end.

Definition child_index (r : ref) : nat :=
  match r with Child i :: _ => i | _ => 0 end.

Definition matches_simple (d : document) (r : ref) (e : element) (s : simple) : bool :=
  match s with
  | Tag n => bool_decide (Str.toLowerCase n = Str.toLowerCase (tagName e))
  | Universal => true
  | Id n => bool_decide (id e = n)
  | Class n => bool_decide (n ∈ classList e)
  | AttrEq n v => bool_decide (getAttribute (attributes e) n = Some v)
  | NthOfType n => (index_of_type (siblings d r) (child_index r) =? n)%nat
  end.

Definition matches_compound (d : document) (r : ref) (c : compound) : bool :=
  match element_at d r with
  | Some e => forallb (matches_simple d r e) c
  | None => false
  end.

(** The compounds innermost first: the subject, then its parent, ... *)
Fixpoint matches_chain (d : document) (cs : list compound) (r : ref) : bool :=
  match cs with
  | [] => true
  | [c] => matches_compound d r c
  | c :: cs' =>
      matches_compound d r c &&
      match parentElement r with
      | Some p => matches_chain d cs' p
      | None => false
      end
  end.

Definition matches (d : document) (sel : complex) (r : ref) : bool :=
  matches_chain d (rev sel) r.

(** [root.querySelectorAll(selector)]; [None] when it throws. *)
Definition querySelectorAll (d : document) (root : ref) (selector : string)
  : option (list ref) :=
  sel ← parse selector;
  Some (filter (fun r => matches d sel r = true) (descendants d root)).

(** [root.querySelector(selector)]; [None] when it throws, [Some None]
    when nothing matches. *)
Definition querySelector (d : document) (root : ref) (selector : string)
  : option (option ref) :=
  head <$> querySelectorAll d root selector.

End Css.

(* ===================================================================== *)
(** * core/locator.ts                                                     *)
(* ===================================================================== *)

Module Locator.
Import Dom.

(** [ElementLocator] of common/web-editor-types; the optional
    [debugSource], which the locator never sets, is left out. *)
Record ElementLocator := {
  selectors : list string;
  fingerprint : string;
  path : list nat;
  frameChain : option (list string);
  shadowHostChain : option (list string);
}.

Record SelectorGenerationOptions := {
  opt_root : option ref;
  opt_maxCandidates : option nat;
}.

Definition DEFAULT_MAX_CANDIDATES : nat := 5.
Definition FINGERPRINT_TEXT_MAX_LENGTH : nat := 32.
Definition FINGERPRINT_MAX_CLASSES : nat := 8.
Definition UNIQUE_DATA_ATTRS : list string :=
  ["data-testid"; "data-test-id"; "data-test"; "data-qa"; "data-cy";
   "name"; "title"; "alt"].
Definition MAX_CLASS_COMBO_DEPTH : nat := 3.

(** ** CSS escape utility *)

(** The polyfill branch of [cssEscape], the one written out in the
    source, one code unit at a time; [i] is the index of the head of [s]
    in the whole string.  (Where the browser has [CSS.escape], that is
    called instead.) *)
Fixpoint cssEscape_from (i : nat) (firstCodeUnit : ascii) (len : nat) (s : string) : string :=
  match s with
  | "" => ""
  | String c rest =>
      let codeUnit := Str.code c in
      let chunk :=
        if (codeUnit =? 0)%nat then Css.replacement
        else if ((1 <=? codeUnit)%nat && (codeUnit <=? 31)%nat)
                || (codeUnit =? 127)%nat
                || ((i =? 0)%nat && Str.is_digit c)
                || ((i =? 1)%nat && Str.is_digit c && (Str.code firstCodeUnit =? 45)%nat)
        then String Css.backslash (Str.N_toString 16 (N.of_nat codeUnit) ++ " ")
        else if (i =? 0)%nat && (len =? 1)%nat && (codeUnit =? 45)%nat
        then String Css.backslash (String c "")
        else if Str.is_alnum c || (codeUnit =? 45)%nat || (codeUnit =? 95)%nat
        then String c ""
        else String Css.backslash (String c "") in
      chunk ++ cssEscape_from (S i) firstCodeUnit len rest
  end.

Definition cssEscape (value : string) : string :=
  match value with
  | "" => ""
  | String c _ => cssEscape_from 0 c (String.length value) value
  end.

(** ** Query helpers *)

Definition getQueryRoot (element : ref) : ref :=
  let root := getRootNode element in
  if isShadowRoot root then root else [].

Definition safeQuerySelector (d : document) (root : ref) (selector : string) : option ref :=
  match Css.querySelector d root selector with
  | Some found => found
  | None => None
  end.

Definition isUnique (d : document) (root : ref) (selector : string) : bool :=
  match Css.querySelectorAll d root selector with
  | Some found => (length found =? 1)%nat
  | None => false
  end.

(** The element a reference denotes; the empty element when it denotes
    none. *)
Definition the_element (d : document) (r : ref) : element :=
  default (Element "" "" [] [] "" ∅ None []) (element_at d r).

Definition tag_of (d : document) (r : ref) : string :=
  Str.toLowerCase (tagName (the_element d r)).

(** ** Selector generation strategies *)

Definition tryIdSelector (d : document) (element root : ref) : option string :=
  let id := Str.trim (id (the_element d element)) in
  if bool_decide (id = "") then None
  else
    let selector := "#" ++ cssEscape id in
    if isUnique d root selector then Some selector else None.

Definition dq : string := String Css.dquote "".

Fixpoint tryDataAttrs (d : document) (element root : ref) (attrs : list string) : option string :=
  match attrs with
  | [] => None
  | attr :: rest =>
      match Str.trim <$> getAttribute (attributes (the_element d element)) attr with
      | Some value =>
          if bool_decide (value = "") then tryDataAttrs d element root rest
          else
            let attrOnly := "[" ++ attr ++ "=" ++ dq ++ cssEscape value ++ dq ++ "]" in
            if isUnique d root attrOnly then Some attrOnly
            else
              let withTag := tag_of d element ++ attrOnly in
              if isUnique d root withTag then Some withTag
              else tryDataAttrs d element root rest
      | None => tryDataAttrs d element root rest
      end
  end.

Definition tryDataAttrSelector (d : document) (element root : ref) : option string :=
  tryDataAttrs d element root UNIQUE_DATA_ATTRS.

(** The test [/^[a-zA-Z_][a-zA-Z0-9_-]*$/]. *)
Definition is_plain_class (c : string) : bool :=
  match c with
  | "" => false
  | String a r =>
      (Str.is_alpha a || (Str.code a =? 95)%nat) &&
      forallb (fun x => Str.is_alnum x || (Str.code x =? 95)%nat || (Str.code x =? 45)%nat)
              (list_ascii_of_string r)
  end.

(** The pairs [(i, j)] with [i < j < limit], in loop order. *)
Definition class_pairs (limit : nat) : list (nat * nat) :=
  flat_map (fun i => map (fun j => (i, j)) (seq (S i) (limit - S i))) (seq 0 limit).

Definition tryClassSelector (d : document) (element root : ref) : option string :=
  let tag := tag_of d element in
  let classes := filter (fun c => is_plain_class c = true) (classList (the_element d element)) in
  match classes with
  | [] => None
  | _ =>
      let single := map (fun cls => "." ++ cssEscape cls) classes in
      let tagged := map (fun cls => tag ++ "." ++ cssEscape cls) classes in
      let limit := Nat.min (length classes) MAX_CLASS_COMBO_DEPTH in
      let combos :=
        map (fun ij : nat * nat =>
               "." ++ cssEscape (default "" (classes !! fst ij))
                   ++ "." ++ cssEscape (default "" (classes !! snd ij)))
            (class_pairs limit) in
      List.find (isUnique d root) (single ++ tagged ++ combos)%list
  end.

(** The positions of the siblings that have the tag name of [e]. *)
Definition sameTagSiblings (siblings : list element) (e : element) : list nat :=
  map fst (filter (fun js : nat * element => tagName (snd js) = tagName e)
                  (zip (seq 0 (length siblings)) siblings)).

(** [list.indexOf(x)] on a list that holds [x]. *)
Fixpoint indexOf (x : nat) (l : list nat) : nat :=
  match l with
  | [] => 0
  | y :: l' => if bool_decide (x = y) then 0 else S (indexOf x l')
  end.

(** The loop of [buildPathSelector]: the segments from [current] up. *)
Fixpoint path_segments (d : document) (isDocument : bool) (current : ref)
  (segments : list string) : list string :=
  match current with
  | Child i :: parentNode =>
      let e := the_element d current in
      let tag := Str.toLowerCase (tagName e) in
      if isDocument && bool_decide (tag = "body") then segments
      else
        let siblings := childNodes d parentNode in
        let same := sameTagSiblings siblings e in
        let selector :=
          if (1 <? length same)%nat
          then tag ++ ":nth-of-type(" ++ Str.nat_toString (indexOf i same + 1) ++ ")"
          else tag in
        if is_element_ref parentNode
        then path_segments d isDocument parentNode (selector :: segments)
        else selector :: segments
  | _ => segments
  end.

Definition buildPathSelector (d : document) (element root : ref) : string :=
  let isDocument := negb (isShadowRoot root) in
  let path := Str.join " > " (path_segments d isDocument element []) in
  if isDocument then "body > " ++ path
  else if bool_decide (path = "") then "*" else path.

(** ** Public API: selector generation *)

(** [push] of [generateSelectorCandidates]. *)
Definition push (candidates : list string) (selector : option string) : list string :=
  match selector with
  | None => candidates
  | Some selector =>
      let s := Str.trim selector in
      if bool_decide (s = "") || bool_decide (s ∈ candidates) then candidates
      else (candidates ++ [s])%list
  end.

Definition generateSelectorCandidates (d : document) (element : ref)
  (options : SelectorGenerationOptions) : list string :=
  let root := default (getQueryRoot element) (opt_root options) in
  let maxCandidates := Nat.max 1 (default DEFAULT_MAX_CANDIDATES (opt_maxCandidates options)) in
  let candidates := [] in
  let candidates := push candidates (tryIdSelector d element root) in
  let candidates := push candidates (tryDataAttrSelector d element root) in
  let candidates := push candidates (tryClassSelector d element root) in
  let candidates := push candidates (Some (buildPathSelector d element root)) in
  take maxCandidates candidates.

Definition generateCssSelector (d : document) (element : ref)
  (options : SelectorGenerationOptions) : string :=
  default "" (head (generateSelectorCandidates d element options)).

(** ** Shadow DOM utilities *)

Fixpoint shadowHostChain_loop (fuel : nat) (d : document) (current : ref)
  (chain : list string) : list string :=
  match fuel with
  | O => chain
  | S fuel' =>
      let root := getRootNode current in
      if negb (isShadowRoot root) then chain
      else match host root with
           | None => chain
           | Some host =>
               let hostRoot := getQueryRoot host in
               let hostSelector :=
                 generateCssSelector d host
                   {| opt_root := Some hostRoot; opt_maxCandidates := None |} in
               if bool_decide (hostSelector = "") then chain
               else shadowHostChain_loop fuel' d host (hostSelector :: chain)
           end
  end.

Definition getShadowHostChain (d : document) (element : ref) : option (list string) :=
  match shadowHostChain_loop (S (length element)) d element [] with
  | [] => None
  | chain => Some chain
  end.

(** ** Fingerprints *)

(** [text.replace(/\s+/g, ' ')] *)
Fixpoint collapse_spaces (in_run : bool) (s : string) : string :=
  match s with
  | "" => ""
  | String c r =>
      if Str.is_space c
      then if in_run then collapse_spaces true r else String " " (collapse_spaces true r)
      else String c (collapse_spaces false r)
  end.

Definition normalizeText (text : string) (maxLength : nat) : string :=
  Str.take maxLength (Str.trim (collapse_spaces false text)).

Definition computeFingerprint (e : element) : string :=
  let parts := [Str.toLowerCase (tagName e)] in
  let id := Str.trim (id e) in
  let parts := if bool_decide (id = "") then parts else (parts ++ [("id=" ++ id)%string])%list in
  let classes := take FINGERPRINT_MAX_CLASSES (classList e) in
  let parts :=
    match classes with
    | [] => parts
    | _ => (parts ++ [("class=" ++ Str.join "." classes)%string])%list
    end in
  let text := normalizeText (textContent e) FINGERPRINT_TEXT_MAX_LENGTH in
  let parts := if bool_decide (text = "") then parts else (parts ++ [("text=" ++ text)%string])%list in
  Str.join "|" parts.

(** ** DOM path *)

Fixpoint computeDomPath_loop (current : ref) (path : list nat) : list nat :=
  match current with
  | Child index :: parentNode =>
      if is_element_ref parentNode
      then computeDomPath_loop parentNode (index :: path)
      else index :: path
  | _ => path
  end.

Definition computeDomPath (element : ref) : list nat :=
  computeDomPath_loop element [].

(** ** Public API: locator creation and resolution *)

Definition createElementLocator (d : document) (element : ref) : ElementLocator :=
  let root := getQueryRoot element in
  {| selectors :=
       generateSelectorCandidates d element
         {| opt_root := Some root; opt_maxCandidates := Some DEFAULT_MAX_CANDIDATES |};
     fingerprint := computeFingerprint (the_element d element);
     path := computeDomPath element;
     frameChain := None;
     shadowHostChain := getShadowHostChain d element |}.

Definition isSelectorUnique (d : document) (root : ref) (selector : string) : bool :=
  match Css.querySelectorAll d root selector with
  | Some found => (length found =? 1)%nat
  | None => false
  end.

Definition verifyFingerprint (e : element) (fingerprint : string) : bool :=
  let currentFingerprint := computeFingerprint e in
  let storedParts := Str.split "|" fingerprint in
  let currentParts := Str.split "|" currentFingerprint in
  if negb (bool_decide (head storedParts = head currentParts)) then false
  else
    let storedId := List.find (Str.startsWith "id=") storedParts in
    let currentId := List.find (Str.startsWith "id=") currentParts in
    match storedId with
    | Some _ => bool_decide (storedId = currentId)
    | None => true
    end.

(** The traversal of the shadow host chain: the query root it ends in. *)
Fixpoint resolveShadowHostChain (d : document) (queryRoot : ref) (chain : list string)
  : option ref :=
  match chain with
  | [] => Some queryRoot
  | hostSelector :: rest =>
      if negb (isSelectorUnique d queryRoot hostSelector) then None
      else match safeQuerySelector d queryRoot hostSelector with
           | None => None
           | Some host =>
               match shadowRoot d host with
               | None => None
               | Some shadowRoot => resolveShadowHostChain d shadowRoot rest
               end
           end
  end.

(** The loop over the selector candidates. *)
Fixpoint trySelectors (d : document) (queryRoot : ref) (fingerprint : string)
  (candidates : list string) : option ref :=
  match candidates with
  | [] => None
  | selector :: rest =>
      if negb (isSelectorUnique d queryRoot selector)
      then trySelectors d queryRoot fingerprint rest
      else match safeQuerySelector d queryRoot selector with
           | None => trySelectors d queryRoot fingerprint rest
           | Some element =>
               if negb (bool_decide (fingerprint = ""))
                  && negb (verifyFingerprint (the_element d element) fingerprint)
               then trySelectors d queryRoot fingerprint rest
               else Some element
           end
  end.

(** The traversal of the frame chain.  No element of a modelled document
    is an [HTMLIFrameElement], so the first hop already returns [null]. *)
Definition resolveFrameChain (d : document) (chain : list string) : option ref :=
  match chain with
  | [] => Some []
  | _ :: _ => None
  end.

Definition locateElement (d : document) (locator : ElementLocator) : option ref :=
  match resolveFrameChain d (default [] (frameChain locator)) with
  | None => None
  | Some doc =>
      match resolveShadowHostChain d doc (default [] (shadowHostChain locator)) with
      | None => None
      | Some queryRoot => trySelectors d queryRoot (fingerprint locator) (selectors locator)
      end
  end.

Definition locatorKey (locator : ElementLocator) : string :=
  let selectors := Str.join "|" (selectors locator) in
  let shadow := default "" (Str.join ">" <$> shadowHostChain locator) in
  let frame := default "" (Str.join ">" <$> frameChain locator) in
  "frame:" ++ frame ++ "|shadow:" ++ shadow ++ "|sel:" ++ selectors.

End Locator.

(* ===================================================================== *)
(** * core/transaction-manager.ts                                         *)
(* ===================================================================== *)

Module TransactionManager.
Import Locator.

(** ** Types (common/web-editor-types) *)

Inductive TransactionType := style | text | move | structure.

#[export] Instance TransactionType_eq_dec : EqDecision TransactionType.
Proof. solve_decision. Defined.

(** A snapshot; [styles] is the record of changed style properties. *)
Record TransactionSnapshot := {
  locator : ElementLocator;
  html : option string;
  styles : option (gmap string string);
  snapshot_text : option string;
}.

(** A transaction; the optional [moveData] and [structureData], which the
    manager never sets, are left out. *)
Record Transaction := {
  id : string;
  type : TransactionType;
  targetLocator : ElementLocator;
  before : TransactionSnapshot;
  after : TransactionSnapshot;
  timestamp : Z;
  merged : bool;
}.

Inductive TransactionChangeAction :=
| push | merge | undo_action | redo_action | clear_action | rollback_action.

Record TransactionChangeEvent := {
  action : TransactionChangeAction;
  transaction : option Transaction;
  undoCount : nat;
  redoCount : nat;
}.

(** The number handed in as [maxHistory]: a whole number, or one of
    [NaN], [Infinity] and [-Infinity].  (A cap with a fractional part is
    outside the model.) *)
Inductive whole_number := Whole (n : Z) | NaN | PlusInfinity | MinusInfinity.

(** The options that steer the stacks.  [now] lists what the time
    source returns, call after call.  The callbacks [onChange] and
    [onApplyError] are traced; the key bindings only forward to [undo]
    and [redo]. *)
Record TransactionManagerOptions := {
  opt_maxHistory : option whole_number;
  opt_mergeWindowMs : option Z;
  now : nat -> Z;
}.

(** A call of a callback of the options. *)
Inductive call :=
| onChange (event : TransactionChangeEvent)
| onApplyError (message : string).

(** The variables the manager closes over, the module-level
    [transactionSeq], the number of readings of the clock so far, and the
    trace of callback calls. *)
Record state := {
  undoStack : list Transaction;
  redoStack : list Transaction;
  isDisposed : bool;
  transactionSeq : N;
  ticks : nat;
  trace : list call;
}.

Definition initial : state :=
  {| undoStack := []; redoStack := []; isDisposed := false;
     transactionSeq := 0; ticks := 0; trace := [] |}.

Definition DEFAULT_MAX_HISTORY : Z := 100.
Definition DEFAULT_MERGE_WINDOW_MS : Z := 800.

(** [Math.max(1, options.maxHistory ?? DEFAULT_MAX_HISTORY)] *)
Definition maxHistory (options : TransactionManagerOptions) : whole_number :=
  match default (Whole DEFAULT_MAX_HISTORY) (opt_maxHistory options) with
  | Whole n => Whole (Z.max 1 n)
  | NaN => NaN
  | PlusInfinity => PlusInfinity
  | MinusInfinity => Whole 1
  end.

Definition mergeWindowMs (options : TransactionManagerOptions) : Z :=
  Z.max 0 (default DEFAULT_MERGE_WINDOW_MS (opt_mergeWindowMs options)).

(** ** Style helpers *)

Fixpoint camel_to_kebab (p : string) : string :=
  match p with
  | "" => ""
  | String c r =>
      if Str.is_upper c
      then String "-" (String (Str.lower_char c) (camel_to_kebab r))
      else String c (camel_to_kebab r)
  end.

Definition normalizePropertyName (property : string) : string :=
  let p := Str.trim property in
  if bool_decide (p = "") then ""
  else if Str.startsWith "--" p then p
  else if Str.includes_char "-" p then Str.toLowerCase p
  else Str.toLowerCase (camel_to_kebab p).

(** [style.getPropertyValue], [setProperty] and [removeProperty] act on
    the inline declaration of the element as on a map. *)
Definition readStyleValue (style : gmap string string) (property : string) : string :=
  let prop := normalizePropertyName property in
  if bool_decide (prop = "") then ""
  else Str.trim (default "" (style !! prop)).

Definition writeStyleValue (style : gmap string string) (property value : string)
  : gmap string string :=
  let prop := normalizePropertyName property in
  if bool_decide (prop = "") then style
  else
    let v := Str.trim value in
    if bool_decide (v = "") then delete prop style else <[prop := v]> style.

Definition write_inline (d : Dom.document) (target : Dom.ref) (property value : string)
  : Dom.document :=
  Dom.update_element d target
    (fun e => Dom.set_style (writeStyleValue (Dom.style e) property value) e).

(** The entries of the snapshot are written one after the other. *)
Definition applyStylesSnapshot (d : Dom.document) (element : Dom.ref)
  (styles : option (gmap string string)) : Dom.document :=
  match styles with
  | None => d
  | Some styles =>
      fold_left (fun d (pv : string * string) => write_inline d element (fst pv) (snd pv))
                (map_to_list styles) d
  end.

(** ** Transaction helpers *)

Definition generateTransactionId (timestamp : Z) (seq : N) : string :=
  "tx_" ++ Str.Z_toString 36 timestamp ++ "_" ++ Str.N_toString 36 seq.

Definition createStyleTransaction (id : string) (locator : ElementLocator)
  (property beforeValue afterValue : string) (timestamp : Z) : Transaction :=
  let prop := normalizePropertyName property in
  let beforeSnapshot :=
    {| locator := locator; html := None;
       styles := Some {[ prop := beforeValue ]}; snapshot_text := None |} in
  let afterSnapshot :=
    {| locator := locator; html := None;
       styles := Some {[ prop := afterValue ]}; snapshot_text := None |} in
  {| id := id; type := style; targetLocator := locator;
     before := beforeSnapshot; after := afterSnapshot;
     timestamp := timestamp; merged := false |}.

Definition keys (styles : option (gmap string string)) : gset string :=
  match styles with Some m => dom m | None => ∅ end.

Definition getSingleStyleProperty (tx : Transaction) : option string :=
  match elements (keys (styles (before tx)) ∪ keys (styles (after tx))) with
  | [k] => Some k
  | _ => None
  end.

(** A property name that is [null] or the empty string is falsy. *)
Definition falsy (prop : option string) : bool :=
  match prop with
  | Some p => bool_decide (p = "")
  | None => true
  end.

Definition canMerge (prev next : Transaction) (mergeWindowMs : Z) : bool :=
  if negb (bool_decide (type prev = style)) || negb (bool_decide (type next = style))
  then false
  else if (mergeWindowMs <? Z.abs (timestamp next - timestamp prev))%Z then false
  else if negb (bool_decide (locatorKey (targetLocator prev) = locatorKey (targetLocator next)))
  then false
  else
    let prevProp := getSingleStyleProperty prev in
    let nextProp := getSingleStyleProperty next in
    if falsy prevProp || falsy nextProp || negb (bool_decide (prevProp = nextProp))
    then false
    else true.

(** [mergeInto]: the rewritten [prev], or [None] where it returns
    [false]. *)
Definition mergeInto (prev next : Transaction) : option Transaction :=
  match getSingleStyleProperty prev with
  | Some prop =>
      if bool_decide (prop = "") then None
      else
        match styles (after next) ≫= (fun m => m !! prop) with
        | None => None
        | Some nextValue =>
            let after' :=
              {| locator := locator (after prev); html := html (after prev);
                 styles := Some (<[prop := nextValue]> (default ∅ (styles (after prev))));
                 snapshot_text := snapshot_text (after prev) |} in
            Some {| id := id prev; type := type prev;
                    targetLocator := targetLocator prev;
                    before := before prev; after := after';
                    timestamp := timestamp next; merged := true |}
        end
  | None => None
  end.

(** [applyTransaction]: the document after the write, or [None] where it
    returns [false]. *)
Definition applyTransaction (d : Dom.document) (tx : Transaction) (undoing : bool)
  : option Dom.document :=
  if negb (bool_decide (type tx = style)) then Some d
  else
    match locateElement d (targetLocator tx) with
    | None => None
    | Some target =>
        let snapshot := if undoing then before tx else after tx in
        Some (applyStylesSnapshot d target (styles snapshot))
    end.

(** ** The manager *)

Section Manager.
Variable options : TransactionManagerOptions.

Definition emit (action : TransactionChangeAction) (transaction : option Transaction)
  (s : state) : state :=
  {| undoStack := undoStack s; redoStack := redoStack s; isDisposed := isDisposed s;
     transactionSeq := transactionSeq s; ticks := ticks s;
     trace := trace s ++ [onChange {| action := action; transaction := transaction;
                                      undoCount := length (undoStack s);
                                      redoCount := length (redoStack s) |}] |}.

Definition report (message : string) (s : state) : state :=
  {| undoStack := undoStack s; redoStack := redoStack s; isDisposed := isDisposed s;
     transactionSeq := transactionSeq s; ticks := ticks s;
     trace := trace s ++ [onApplyError message] |}.

Definition with_stacks (undo redo : list Transaction) (s : state) : state :=
  {| undoStack := undo; redoStack := redo; isDisposed := isDisposed s;
     transactionSeq := transactionSeq s; ticks := ticks s; trace := trace s |}.

(** One reading of the clock. *)
Definition read_clock (s : state) : Z * state :=
  (now options (ticks s),
   {| undoStack := undoStack s; redoStack := redoStack s; isDisposed := isDisposed s;
      transactionSeq := transactionSeq s; ticks := S (ticks s); trace := trace s |}).

(** [generateTransactionId(now())] with its increment of the counter. *)
Definition fresh_id (s : state) : string * state :=
  let '(t, s) := read_clock s in
  let seq := (transactionSeq s + 1)%N in
  (generateTransactionId t seq,
   {| undoStack := undoStack s; redoStack := redoStack s; isDisposed := isDisposed s;
      transactionSeq := seq; ticks := ticks s; trace := trace s |}).

(** [undoStack.splice(0, undoStack.length - maxHistory)] when
    [undoStack.length > maxHistory], which is never so for [NaN] and
    [Infinity]. *)
Definition enforceMaxHistory (stack : list Transaction) : list Transaction :=
  match maxHistory options with
  | Whole m =>
      if (m <? Z.of_nat (length stack))%Z
      then drop (Z.to_nat (Z.of_nat (length stack) - m)) stack
      else stack
  | MinusInfinity => []
  | NaN | PlusInfinity => stack
  end.

(** The stack without its last entry, and that entry: [stack.pop()]. *)
Definition pop (stack : list Transaction) : option (list Transaction * Transaction) :=
  match reverse stack with
  | [] => None
  | tx :: rest => Some (reverse rest, tx)
  end.

Definition pushTransaction (tx : Transaction) (allowMerge : bool) (s : state) : state :=
  let hadRedo := (0 <? length (redoStack s))%nat in
  let s := if hadRedo then with_stacks (undoStack s) [] s else s in
  let merged_top :=
    if negb hadRedo && allowMerge then
      match pop (undoStack s) with
      | Some (rest, last) =>
          if canMerge last tx (mergeWindowMs options)
          then (fun last' => (rest, last')) <$> mergeInto last tx
          else None
      | None => None
      end
    else None in
  match merged_top with
  | Some (rest, last') =>
      emit merge (Some last') (with_stacks (rest ++ [last']) (redoStack s) s)
  | None =>
      emit push (Some tx)
        (with_stacks (enforceMaxHistory (undoStack s ++ [tx])) (redoStack s) s)
  end.

(** [options?.merge !== false] *)
Definition allows_merge (merge_option : option bool) : bool :=
  negb (bool_decide (merge_option = Some false)).

Definition recordStyle (locator : ElementLocator) (property beforeValue afterValue : string)
  (merge_option : option bool) (s : state) : option Transaction * state :=
  if isDisposed s then (None, s)
  else
    let prop := normalizePropertyName property in
    if bool_decide (prop = "") then (None, s)
    else
      let before := Str.trim beforeValue in
      let after := Str.trim afterValue in
      if bool_decide (before = after) then (None, s)
      else
        let '(id, s) := fresh_id s in
        let '(t, s) := read_clock s in
        let tx := createStyleTransaction id locator prop before after t in
        (Some tx, pushTransaction tx (allows_merge merge_option) s).

(** The handle of an edit in progress: its three public fields, then the
    variables its methods close over.  The methods read and write
    [inlineStyle], the declaration object [beginStyle] took from the
    target, wherever the element is by then: a method is given what that
    declaration holds when it is called, and gives back what it holds
    after. *)
Record StyleTransactionHandle := {
  handle_id : string;
  property : string;
  handle_targetLocator : ElementLocator;
  beforeValue : string;
  completed : bool;
}.

Definition complete (h : StyleTransactionHandle) : StyleTransactionHandle :=
  {| handle_id := handle_id h; property := property h;
     handle_targetLocator := handle_targetLocator h;
     beforeValue := beforeValue h; completed := true |}.

Definition inline_style (d : Dom.document) (target : Dom.ref) : gmap string string :=
  Dom.style (Locator.the_element d target).

Definition beginStyle (d : Dom.document) (target : Dom.ref) (property : string) (s : state)
  : option StyleTransactionHandle * state :=
  if isDisposed s then (None, s)
  else
    match Dom.element_at d target with
    | None => (None, s)
    | Some e =>
        let prop := normalizePropertyName property in
        if bool_decide (prop = "") then (None, s)
        else
          let locator := createElementLocator d target in
          let beforeValue := readStyleValue (Dom.style e) prop in
          let '(id, s) := fresh_id s in
          (Some {| handle_id := id; property := prop; handle_targetLocator := locator;
                   beforeValue := beforeValue; completed := false |}, s)
    end.

Definition set (inlineStyle : gmap string string) (h : StyleTransactionHandle)
  (value : string) (s : state) : gmap string string :=
  if completed h || isDisposed s then inlineStyle
  else writeStyleValue inlineStyle (property h) value.

Definition commit (inlineStyle : gmap string string) (h : StyleTransactionHandle)
  (merge_option : option bool) (s : state)
  : option Transaction * StyleTransactionHandle * state :=
  if completed h || isDisposed s then (None, h, s)
  else
    let h := complete h in
    let afterValue := readStyleValue inlineStyle (property h) in
    if bool_decide (afterValue = beforeValue h) then (None, h, s)
    else
      let '(t, s) := read_clock s in
      let tx := createStyleTransaction (handle_id h) (handle_targetLocator h)
                  (property h) (beforeValue h) afterValue t in
      (Some tx, h, pushTransaction tx (allows_merge merge_option) s).

Definition rollback (inlineStyle : gmap string string) (h : StyleTransactionHandle)
  (s : state) : gmap string string * StyleTransactionHandle * state :=
  if completed h || isDisposed s then (inlineStyle, h, s)
  else (writeStyleValue inlineStyle (property h) (beforeValue h), complete h,
        emit rollback_action None s).

(** [beginStyle], [set] and [commit] in one go: the declaration is that
    of [target] in the document at hand. *)
Definition applyStyle (d : Dom.document) (target : Dom.ref) (property value : string)
  (merge_option : option bool) (s : state)
  : option Transaction * Dom.document * state :=
  match beginStyle d target property s with
  | (None, s) => (None, d, s)
  | (Some handle, s) =>
      let inlineStyle := set (inline_style d target) handle value s in
      let '(tx, _, s) := commit inlineStyle handle merge_option s in
      (tx, Dom.update_element d target (Dom.set_style inlineStyle), s)
  end.

Definition undo (d : Dom.document) (s : state)
  : option Transaction * Dom.document * state :=
  if isDisposed s then (None, d, s)
  else
    match pop (undoStack s) with
    | None => (None, d, s)
    | Some (rest, tx) =>
        match applyTransaction d tx true with
        | None =>
            (None, d,
             report ("Failed to locate element for undo: " ++ id tx)
               (with_stacks (rest ++ [tx]) (redoStack s) s))
        | Some d' =>
            (Some tx, d', emit undo_action (Some tx) (with_stacks rest (redoStack s ++ [tx]) s))
        end
    end.

Definition redo (d : Dom.document) (s : state)
  : option Transaction * Dom.document * state :=
  if isDisposed s then (None, d, s)
  else
    match pop (redoStack s) with
    | None => (None, d, s)
    | Some (rest, tx) =>
        match applyTransaction d tx false with
        | None =>
            (None, d,
             report ("Failed to locate element for redo: " ++ id tx)
               (with_stacks (undoStack s) (rest ++ [tx]) s))
        | Some d' =>
            (Some tx, d',
             emit redo_action (Some tx)
               (with_stacks (enforceMaxHistory (undoStack s ++ [tx])) rest s))
        end
    end.

Definition canUndo (s : state) : bool := (0 <? length (undoStack s))%nat.
Definition canRedo (s : state) : bool := (0 <? length (redoStack s))%nat.
Definition getUndoStack (s : state) : list Transaction := undoStack s.
Definition getRedoStack (s : state) : list Transaction := redoStack s.

Definition clear (s : state) : state := emit clear_action None (with_stacks [] [] s).

Definition dispose (s : state) : state :=
  {| undoStack := []; redoStack := []; isDisposed := true;
     transactionSeq := transactionSeq s; ticks := ticks s; trace := trace s |}.

End Manager.

End TransactionManager.

(* ===================================================================== *)
(** * core/position-tracker.ts                                            *)
(* ===================================================================== *)

Module PositionTracker.

(** A JavaScript number as layout reports it: a finite value, or one of
    [NaN], [Infinity], [-Infinity]. *)
Inductive number := Finite (q : Q) | NotFinite.

Record DOMRect := {
  rect_left : number; rect_top : number; rect_width : number; rect_height : number;
}.

Record ViewportRect := { left : Q; top : Q; width : Q; height : Q }.

Record TrackedRects := {
  hover : option ViewportRect;
  selection : option ViewportRect;
}.

Definition RECT_EPSILON : Q := 1 # 2.

Definition Qltb (a b : Q) : bool := negb (Qle_bool b a).

Definition toViewportRect (domRect : DOMRect) : option ViewportRect :=
  match rect_left domRect, rect_top domRect, rect_width domRect, rect_height domRect with
  | Finite left, Finite top, Finite width, Finite height =>
      Some {| left := left; top := top;
              width := Qmax 0 width; height := Qmax 0 height |}
  | _, _, _, _ => None
  end.

(** [Math.abs(a - b) < RECT_EPSILON]; the subtraction rounds.  (Where it
    gives an infinity, [round] gives [2^1024] or more, and the test fails
    alike.) *)
Definition approximatelyEqual (a b : Q) : bool :=
  Qltb (Qabs (Double.round (a - b))) RECT_EPSILON.

(** The test [a === b] holds for two [null]s; two rectangles read at
    different times are different objects and are compared by value. *)
Definition rectApproximatelyEqual (a b : option ViewportRect) : bool :=
  match a, b with
  | None, None => true
  | Some a, Some b =>
      approximatelyEqual (left a) (left b) &&
      approximatelyEqual (top a) (top b) &&
      approximatelyEqual (width a) (width b) &&
      approximatelyEqual (height a) (height b)
  | _, _ => false
  end.

Definition trackedRectsEqual (a b : TrackedRects) : bool :=
  rectApproximatelyEqual (hover a) (hover b) &&
  rectApproximatelyEqual (selection a) (selection b).

Section Tracker.
Context {Element : Type} `{EqDecision Element}.

(** The live document at the time of a call: whether an element is
    attached, and its bounding rectangle ([None] when reading throws). *)
Variable isConnected : Element -> bool.
Variable getBoundingClientRect : Element -> option DOMRect.

(** The variables of the closure; [rafPending] stands for a non-null
    [rafId], [updates] lists the calls of [onPositionUpdate]. *)
Record state := {
  hoverElement : option Element;
  selectionElement : option Element;
  lastRects : TrackedRects;
  rafPending : bool;
  isDisposed : bool;
  updates : list TrackedRects;
}.

Definition initial : state :=
  {| hoverElement := None; selectionElement := None;
     lastRects := {| hover := None; selection := None |};
     rafPending := false; isDisposed := false; updates := [] |}.

Definition cancelRaf (s : state) : state :=
  {| hoverElement := hoverElement s; selectionElement := selectionElement s;
     lastRects := lastRects s; rafPending := false; isDisposed := isDisposed s;
     updates := updates s |}.

Definition resolveConnected (element : option Element) : option Element :=
  match element with
  | None => None
  | Some e => if isConnected e then Some e else None
  end.

Definition readElementRect (element : option Element) : option ViewportRect :=
  match element with
  | None => None
  | Some e => match getBoundingClientRect e with
              | Some r => toViewportRect r
              | None => None
              end
  end.

Definition computeRects (s : state) : TrackedRects * state :=
  let resolvedHover := resolveConnected (hoverElement s) in
  let resolvedSelection := resolveConnected (selectionElement s) in
  let s :=
    {| hoverElement := resolvedHover; selectionElement := resolvedSelection;
       lastRects := lastRects s; rafPending := rafPending s;
       isDisposed := isDisposed s; updates := updates s |} in
  match resolvedHover, resolvedSelection with
  | Some h, Some sel =>
      if decide (h = sel)
      then let rect := readElementRect resolvedHover in
           ({| hover := rect; selection := rect |}, s)
      else ({| hover := readElementRect resolvedHover;
               selection := readElementRect resolvedSelection |}, s)
  | _, _ =>
      ({| hover := readElementRect resolvedHover;
          selection := readElementRect resolvedSelection |}, s)
  end.

Definition updateIfChanged (s : state) : state :=
  if isDisposed s then s
  else
    let '(nextRects, s) := computeRects s in
    if trackedRectsEqual nextRects (lastRects s) then s
    else {| hoverElement := hoverElement s; selectionElement := selectionElement s;
            lastRects := nextRects; rafPending := rafPending s;
            isDisposed := isDisposed s; updates := updates s ++ [nextRects] |}.

Definition scheduleUpdate (s : state) : state :=
  if isDisposed s then s
  else if rafPending s then s
  else {| hoverElement := hoverElement s; selectionElement := selectionElement s;
          lastRects := lastRects s; rafPending := true; isDisposed := isDisposed s;
          updates := updates s |}.

(** The animation frame: runs the scheduled callback, if any. *)
Definition frame (s : state) : state :=
  if rafPending s then updateIfChanged (cancelRaf s) else s.

Definition handleViewportChange (s : state) : state :=
  match hoverElement s, selectionElement s, hover (lastRects s), selection (lastRects s) with
  | None, None, None, None => s
  | _, _, _, _ => scheduleUpdate s
  end.

Definition setHoverElement (element : option Element) (s : state) : state :=
  if isDisposed s then s
  else if decide (hoverElement s = element) then s
  else scheduleUpdate
         {| hoverElement := element; selectionElement := selectionElement s;
            lastRects := lastRects s; rafPending := rafPending s;
            isDisposed := isDisposed s; updates := updates s |}.

Definition setSelectionElement (element : option Element) (s : state) : state :=
  if isDisposed s then s
  else if decide (selectionElement s = element) then s
  else scheduleUpdate
         {| hoverElement := hoverElement s; selectionElement := element;
            lastRects := lastRects s; rafPending := rafPending s;
            isDisposed := isDisposed s; updates := updates s |}.

Definition forceUpdate (s : state) : state :=
  if isDisposed s then s
  else updateIfChanged (cancelRaf s).

Definition dispose (s : state) : state :=
  {| hoverElement := hoverElement s; selectionElement := selectionElement s;
     lastRects := lastRects s; rafPending := false; isDisposed := true;
     updates := updates s |}.

End Tracker.

End PositionTracker.

(* ===================================================================== *)
(** * core/event-controller.ts                                            *)
(* ===================================================================== *)

Module EventController.

Inductive EventControllerMode := hover | selecting.

#[export] Instance EventControllerMode_eq_dec : EqDecision EventControllerMode.
Proof. solve_decision. Defined.

Record EventModifiers := { alt : bool; shift : bool; ctrl : bool; meta : bool }.

Section Controller.
Context {Element : Type} `{EqDecision Element}.

(** What of a DOM event the handlers read: the composed path, the
    pointer position, the button, the key and the modifier keys. *)
Record event := {
  composedPath : list Element;
  clientX : PositionTracker.number;
  clientY : PositionTracker.number;
  button : Z;
  key : string;
  altKey : bool; shiftKey : bool; ctrlKey : bool; metaKey : bool;
}.

(** The options of the controller and the hit test of the live
    document. *)
Variable isOverlayElement : Element -> bool.
Variable findTargetForSelect : option (Q -> Q -> EventModifiers -> option Element).
Variable elementFromPoint : Q -> Q -> option Element.

(** Calls that leave the controller: the three callbacks, the hit test
    and the blocking of a page event. *)
Inductive call :=
| onHover (element : option Element)
| onSelect (element : Element) (modifiers : EventModifiers)
| onDeselect
| hitTest (x y : Q)
| blockPageEvent.

(** The variables of the closure; [hoverRafId] holds the [forceUpdate]
    argument of the scheduled callback. *)
Record state := {
  mode : EventControllerMode;
  lastHoveredElement : option Element;
  hasPointerPosition : bool;
  lastClientX : PositionTracker.number;
  lastClientY : PositionTracker.number;
  hoverRafId : option bool;
  isDisposed : bool;
  trace : list call;
}.

Definition initial : state :=
  {| mode := hover; lastHoveredElement := None; hasPointerPosition := false;
     lastClientX := PositionTracker.Finite 0; lastClientY := PositionTracker.Finite 0;
     hoverRafId := None; isDisposed := false; trace := [] |}.

Definition tell (c : call) (s : state) : state :=
  {| mode := mode s; lastHoveredElement := lastHoveredElement s;
     hasPointerPosition := hasPointerPosition s;
     lastClientX := lastClientX s; lastClientY := lastClientY s;
     hoverRafId := hoverRafId s; isDisposed := isDisposed s;
     trace := trace s ++ [c] |}.

Definition set_lastHovered (element : option Element) (s : state) : state :=
  {| mode := mode s; lastHoveredElement := element;
     hasPointerPosition := hasPointerPosition s;
     lastClientX := lastClientX s; lastClientY := lastClientY s;
     hoverRafId := hoverRafId s; isDisposed := isDisposed s; trace := trace s |}.

Definition set_hoverRafId (id : option bool) (s : state) : state :=
  {| mode := mode s; lastHoveredElement := lastHoveredElement s;
     hasPointerPosition := hasPointerPosition s;
     lastClientX := lastClientX s; lastClientY := lastClientY s;
     hoverRafId := id; isDisposed := isDisposed s; trace := trace s |}.

Definition set_position (x y : PositionTracker.number) (s : state) : state :=
  {| mode := mode s; lastHoveredElement := lastHoveredElement s;
     hasPointerPosition := true; lastClientX := x; lastClientY := y;
     hoverRafId := hoverRafId s; isDisposed := isDisposed s; trace := trace s |}.

Definition set_mode (m : EventControllerMode) (s : state) : state :=
  {| mode := m; lastHoveredElement := lastHoveredElement s;
     hasPointerPosition := hasPointerPosition s;
     lastClientX := lastClientX s; lastClientY := lastClientY s;
     hoverRafId := hoverRafId s; isDisposed := isDisposed s; trace := trace s |}.

Definition isEventFromEditorUi (ev : event) : bool :=
  existsb isOverlayElement (composedPath ev).

Definition extractModifiers (ev : event) : EventModifiers :=
  {| alt := altKey ev; shift := shiftKey ev; ctrl := ctrlKey ev; meta := metaKey ev |}.

Definition getTargetElementAtFast (clientX clientY : PositionTracker.number) (s : state)
  : option Element * state :=
  match clientX, clientY with
  | PositionTracker.Finite x, PositionTracker.Finite y =>
      let s := tell (hitTest x y) s in
      match elementFromPoint x y with
      | None => (None, s)
      | Some element => if isOverlayElement element then (None, s) else (Some element, s)
      end
  | _, _ => (None, s)
  end.

Definition getTargetElementForSelection (clientX clientY : PositionTracker.number)
  (modifiers : EventModifiers) (s : state) : option Element * state :=
  match clientX, clientY with
  | PositionTracker.Finite x, PositionTracker.Finite y =>
      match findTargetForSelect with
      | Some find =>
          match find x y modifiers with
          | Some target => if isOverlayElement target then (None, s) else (Some target, s)
          | None => (None, s)
          end
      | None => getTargetElementAtFast clientX clientY s
      end
  | _, _ => (None, s)
  end.

Definition cancelHoverRaf (s : state) : state := set_hoverRafId None s.

Definition commitHoverUpdate (forceUpdate : bool) (s : state) : state :=
  let s := set_hoverRafId None s in
  if isDisposed s then s
  else if negb (bool_decide (mode s = hover)) then s
  else if negb (hasPointerPosition s) then s
  else
    let '(nextElement, s) := getTargetElementAtFast (lastClientX s) (lastClientY s) s in
    if negb forceUpdate && bool_decide (nextElement = lastHoveredElement s) then s
    else tell (onHover nextElement) (set_lastHovered nextElement s).

Definition scheduleHoverUpdate (forceUpdate : bool) (s : state) : state :=
  match hoverRafId s with
  | Some _ => s
  | None => if isDisposed s then s else set_hoverRafId (Some forceUpdate) s
  end.

(** The animation frame: runs the scheduled callback, if any. *)
Definition frame (s : state) : state :=
  match hoverRafId s with
  | Some forceUpdate => commitHoverUpdate forceUpdate s
  | None => s
  end.

Definition setMode (nextMode : EventControllerMode) (s : state) : state :=
  if isDisposed s then s
  else if bool_decide (mode s = nextMode) then s
  else
    let prevMode := mode s in
    let s := set_mode nextMode s in
    match prevMode, nextMode with
    | hover, selecting => set_lastHovered None (cancelHoverRaf s)
    | selecting, hover =>
        let s := tell onDeselect (set_lastHovered None s) in
        if hasPointerPosition s then scheduleHoverUpdate true s else s
    | _, _ => s
    end.

Definition handlePointerMove (ev : event) (s : state) : state :=
  if isEventFromEditorUi ev then
    if bool_decide (mode s = hover) && negb (bool_decide (lastHoveredElement s = None))
    then tell (onHover None) (set_lastHovered None s)
    else s
  else
    let s := tell blockPageEvent s in
    let s := set_position (clientX ev) (clientY ev) s in
    if negb (bool_decide (mode s = hover)) then s
    else scheduleHoverUpdate false s.

Definition handlePointerDown (ev : event) (s : state) : state :=
  if isEventFromEditorUi ev then s
  else
    let s := tell blockPageEvent s in
    let s := set_position (clientX ev) (clientY ev) s in
    if negb (bool_decide (mode s = hover)) then s
    else if negb (button ev =? 0)%Z then s
    else
      let modifiers := extractModifiers ev in
      match getTargetElementForSelection (clientX ev) (clientY ev) modifiers s with
      | (None, s) => s
      | (Some target, s) => tell (onSelect target modifiers) (setMode selecting s)
      end.

Definition handleKeyDown (ev : event) (s : state) : state :=
  if isEventFromEditorUi ev then s
  else
    let s := tell blockPageEvent s in
    if bool_decide (key ev = "Escape") && bool_decide (mode s = selecting)
    then setMode hover s
    else s.

Definition handleBlockedEvent (ev : event) (s : state) : state :=
  if isEventFromEditorUi ev then s else tell blockPageEvent s.

Definition dispose (s : state) : state :=
  {| mode := mode s; lastHoveredElement := lastHoveredElement s;
     hasPointerPosition := hasPointerPosition s;
     lastClientX := lastClientX s; lastClientY := lastClientY s;
     hoverRafId := None; isDisposed := true; trace := trace s |}.

(** The calls of [onHover] and the hit tests in a trace. *)
Definition hover_calls (t : list call) : list (option Element) :=
  omap (fun c => match c with onHover e => Some e | _ => None end) t.

Definition hit_tests (t : list call) : list (Q * Q) :=
  omap (fun c => match c with hitTest x y => Some (x, y) | _ => None end) t.

End Controller.

End EventController.

(* ===================================================================== *)
(** * common/web-editor-types: the public API                             *)
(* ===================================================================== *)

Module WebEditorTypes.

Record WebEditorState := { active : bool; version : nat }.

Definition PING : string := "web_editor_ping_v2".
Definition TOGGLE : string := "web_editor_toggle_v2".
Definition START : string := "web_editor_start_v2".
Definition STOP : string := "web_editor_stop_v2".

(** [WebEditorV2Api]: four methods acting on the state [S] of the object
    that implements them. *)
Record WebEditorV2Api (S : Type) := {
  start : S -> S;
  stop : S -> S;
  toggle : S -> bool * S;
  getState : S -> WebEditorState;
}.
Arguments start {S}.
Arguments stop {S}.
Arguments toggle {S}.
Arguments getState {S}.

Inductive WebEditorV2Response :=
| PingResponse (status : string) (active : bool) (version : nat)
| ToggleResponse (active : bool)
| StartResponse (active : bool)
| StopResponse (active : bool).

Definition response_active (r : WebEditorV2Response) : bool :=
  match r with
  | PingResponse _ a _ => a
  | ToggleResponse a => a
  | StartResponse a => a
  | StopResponse a => a
  end.

End WebEditorTypes.

(* ===================================================================== *)
(** * core/editor.ts                                                      *)
(* ===================================================================== *)

Module Editor.
Import WebEditorTypes.

Definition WEB_EDITOR_V2_VERSION : nat := 2.

(** The steps of [start] that can throw. *)
Inductive init_step :=
| mountShadowHost
| overlayRoot_available
| createCanvasOverlay
| createSelectionEngine
| createEventController
| createPositionTracker
| createTransactionManager
| uiRoot_available
| createToolbar
| toolbar_setHistory.

#[export] Instance init_step_eq_dec : EqDecision init_step.
Proof. solve_decision. Defined.

(** [EditorInternalState]; a subsystem slot records whether it holds an
    object, the two element fields whether they hold an element. *)
Record EditorInternalState := {
  state_active : bool;
  shadowHost : bool;
  canvasOverlay : bool;
  eventController : bool;
  positionTracker : bool;
  selectionEngine : bool;
  transactionManager : bool;
  toolbar : bool;
  hoveredElement : bool;
  selectedElement : bool;
}.

Definition created : EditorInternalState :=
  {| state_active := false; shadowHost := false; canvasOverlay := false;
     eventController := false; positionTracker := false; selectionEngine := false;
     transactionManager := false; toolbar := false;
     hoveredElement := false; selectedElement := false |}.

(** All subsystems disposed and their slots cleared. *)
Definition torn_down (active : bool) : EditorInternalState :=
  {| state_active := active; shadowHost := false; canvasOverlay := false;
     eventController := false; positionTracker := false; selectionEngine := false;
     transactionManager := false; toolbar := false;
     hoveredElement := false; selectedElement := false |}.

(** One step of the [try] block: the state after it, or the state at the
    point where it throws. *)
Definition run_step (failure : option init_step) (step : init_step)
  (update : EditorInternalState -> EditorInternalState)
  (s : EditorInternalState + EditorInternalState)
  : EditorInternalState + EditorInternalState :=
  match s with
  | inr thrown => inr thrown
  | inl s => if bool_decide (failure = Some step) then inr s else inl (update s)
  end.

Definition set_slots (s : EditorInternalState)
  (host canvas events tracker engine manager bar : bool) (active : bool)
  : EditorInternalState :=
  {| state_active := active;
     shadowHost := host; canvasOverlay := canvas; eventController := events;
     positionTracker := tracker; selectionEngine := engine;
     transactionManager := manager; toolbar := bar;
     hoveredElement := hoveredElement s; selectedElement := selectedElement s |}.

(** The [try] block of [start]. *)
Definition start_body (failure : option init_step) (s : EditorInternalState)
  : EditorInternalState + EditorInternalState :=
  let run := run_step failure in
  let s := run mountShadowHost
    (fun s => set_slots s true (canvasOverlay s) (eventController s) (positionTracker s)
                (selectionEngine s) (transactionManager s) (toolbar s) (state_active s))
    (inl s) in
  let s := run overlayRoot_available (fun s => s) s in
  let s := run createCanvasOverlay
    (fun s => set_slots s (shadowHost s) true (eventController s) (positionTracker s)
                (selectionEngine s) (transactionManager s) (toolbar s) (state_active s)) s in
  let s := run createSelectionEngine
    (fun s => set_slots s (shadowHost s) (canvasOverlay s) (eventController s)
                (positionTracker s) true (transactionManager s) (toolbar s)
                (state_active s)) s in
  let s := run createEventController
    (fun s => set_slots s (shadowHost s) (canvasOverlay s) true (positionTracker s)
                (selectionEngine s) (transactionManager s) (toolbar s) (state_active s)) s in
  let s := run createPositionTracker
    (fun s => set_slots s (shadowHost s) (canvasOverlay s) (eventController s) true
                (selectionEngine s) (transactionManager s) (toolbar s) (state_active s)) s in
  let s := run createTransactionManager
    (fun s => set_slots s (shadowHost s) (canvasOverlay s) (eventController s)
                (positionTracker s) (selectionEngine s) true (toolbar s)
                (state_active s)) s in
  let s := run uiRoot_available (fun s => s) s in
  let s := run createToolbar
    (fun s => set_slots s (shadowHost s) (canvasOverlay s) (eventController s)
                (positionTracker s) (selectionEngine s) (transactionManager s) true
                (state_active s)) s in
  let s := run toolbar_setHistory (fun s => s) s in
  match s with
  | inl s => inl (set_slots s (shadowHost s) (canvasOverlay s) (eventController s)
                    (positionTracker s) (selectionEngine s) (transactionManager s)
                    (toolbar s) true)
  | inr thrown => inr thrown
  end.

(** [start]: [failure] names the step that throws in this call, if one
    does. *)
Definition start (failure : option init_step) (s : EditorInternalState)
  : EditorInternalState :=
  if state_active s then s
  else match start_body failure s with
       | inl started => started
       | inr _ => torn_down false
       end.

Definition stop (s : EditorInternalState) : EditorInternalState :=
  if negb (state_active s) then s else torn_down false.

Definition toggle (failure : option init_step) (s : EditorInternalState)
  : bool * EditorInternalState :=
  let s := if state_active s then stop s else start failure s in
  (state_active s, s).

Definition getState (s : EditorInternalState) : WebEditorState :=
  {| active := state_active s; version := WEB_EDITOR_V2_VERSION |}.

(** [createWebEditorV2]: the API object, in an environment where the
    next [start] meets [failure]. *)
Definition createWebEditorV2 (failure : option init_step)
  : WebEditorV2Api EditorInternalState :=
  {| WebEditorTypes.start := start failure;
     WebEditorTypes.stop := stop;
     WebEditorTypes.toggle := toggle failure;
     WebEditorTypes.getState := getState |}.

End Editor.

(* ===================================================================== *)
(** * core/message-listener.ts                                            *)
(* ===================================================================== *)

Module MessageListener.
Import WebEditorTypes.

(** A request as the listener reads it: its [action] field when it is an
    object that has one holding a string. *)
Definition request := option string.

Definition isV2Request (request : request) : bool :=
  match request with
  | None => false
  | Some action =>
      bool_decide (action = PING) || bool_decide (action = TOGGLE) ||
      bool_decide (action = START) || bool_decide (action = STOP)
  end.

(** The listener of [installMessageListener]: its return value, the
    response it sends, if any, and the state of the API object after. *)
Definition listener {S : Type} (api : WebEditorV2Api S) (request : request) (s : S)
  : bool * option WebEditorV2Response * S :=
  if negb (isV2Request request) then (false, None, s)
  else
    let action := default "" request in
    if bool_decide (action = PING) then
      (false, Some (PingResponse "pong" (active (getState api s)) 2), s)
    else if bool_decide (action = TOGGLE) then
      let '(now_active, s) := toggle api s in
      (false, Some (ToggleResponse now_active), s)
    else if bool_decide (action = START) then
      let s := start api s in
      (false, Some (StartResponse true), s)
    else if bool_decide (action = STOP) then
      let s := stop api s in
      (false, Some (StopResponse false), s)
    else (false, None, s).

End MessageListener.

(* ===================================================================== *)
(** * Vocabulary of the properties: transaction manager                 *)
(* ===================================================================== *)

Module TransactionManagerSpec.
Import Locator TransactionManager.
Local Open Scope list_scope.

(** A style transaction that touches the single property [p], changing
    it from [b] to [a]. *)
Definition style_edit (tx : Transaction) (p b a : string) : Prop :=
  type tx = style /\ p <> "" /\
  styles (before tx) = Some {[ p := b ]} /\
  styles (after tx) = Some {[ p := a ]}.

(** The string holds a code unit that is no white space. *)
Fixpoint has_ink (s : string) : bool :=
  match s with
  | ""%string => false
  | String c r => negb (Str.is_space c) || has_ink r
  end.

(** A transaction is a style edit of some property. *)
Definition is_style_edit (tx : Transaction) : Prop :=
  exists p b a, style_edit tx p b a.

(** A call of a method of the manager, with the live document it runs
    against, or of a method of one of its handles, with what the
    declaration of the handle holds by then. *)
Inductive api_call :=
| call_beginStyle (d : Dom.document) (target : Dom.ref) (property : string)
| call_commit (inlineStyle : gmap string string) (h : StyleTransactionHandle)
    (merge_option : option bool)
| call_rollback (inlineStyle : gmap string string) (h : StyleTransactionHandle)
| call_applyStyle (d : Dom.document) (target : Dom.ref) (property value : string)
    (merge_option : option bool)
| call_recordStyle (locator : ElementLocator) (property beforeValue afterValue : string)
    (merge_option : option bool)
| call_undo (d : Dom.document)
| call_redo (d : Dom.document)
| call_clear
| call_dispose.

Section Reachable.
Variable options : TransactionManagerOptions.

Definition perform (s : state) (c : api_call) : state :=
  match c with
  | call_beginStyle d target property => snd (beginStyle options d target property s)
  | call_commit d h m => snd (commit options d h m s)
  | call_rollback d h => snd (rollback d h s)
  | call_applyStyle d target property value m =>
      snd (applyStyle options d target property value m s)
  | call_recordStyle locator property b a m =>
      snd (recordStyle options locator property b a m s)
  | call_undo d => snd (undo d s)
  | call_redo d => snd (redo options d s)
  | call_clear => clear s
  | call_dispose => dispose s
  end.

(** A manager right after [createTransactionManager]: whatever the
    module-level counter and the clock have reached. *)
Definition created (s : state) : Prop :=
  undoStack s = [] /\ redoStack s = [] /\ isDisposed s = false.

(** A handle that [beginStyle] has returned, completed since or not. *)
Definition issued (h : StyleTransactionHandle) : Prop :=
  exists d target property s h0 s',
    beginStyle options d target property s = (Some h0, s') /\
    (h = h0 \/ h = complete h0).

(** The methods of a handle are called on handles of the manager. *)
Definition well_formed (c : api_call) : Prop :=
  match c with
  | call_commit _ h _ | call_rollback _ h => issued h
  | _ => True
  end.

Definition reachable (s : state) : Prop :=
  exists s0 calls,
    created s0 /\ Forall well_formed calls /\ s = fold_left perform calls s0.


(** So many entries are no more than [maxHistory]. *)
Definition fits (n : nat) : Prop :=
  match maxHistory options with
  | Whole m => (Z.of_nat n <= m)%Z
  | MinusInfinity => n = 0
  | NaN | PlusInfinity => True
  end.

(** What every reachable state satisfies. *)
Record invariant (s : state) : Prop := {
  inv_disposed : isDisposed s = true -> undoStack s = [] /\ redoStack s = [];
  inv_undo_style : Forall is_style_edit (undoStack s);
  inv_redo_style : Forall is_style_edit (redoStack s);
  inv_size : fits (length (undoStack s) + length (redoStack s));
}.

End Reachable.



Definition button_locator : ElementLocator :=
  {| selectors := ["#go"]; fingerprint := "button|id=go"; path := [0; 1; 0];
     frameChain := None; shadowHostChain := None |}.

(** Default options; the clock advances by 100 ms per reading. *)
Definition default_options : TransactionManagerOptions :=
  {| opt_maxHistory := None; opt_mergeWindowMs := None;
     now := fun n => (100 * Z.of_nat n)%Z |}.

Definition red_to_blue : Transaction :=
  createStyleTransaction "tx_0_1" button_locator "color" "red" "blue" 100.

Definition blue_to_green : Transaction :=
  createStyleTransaction "tx_5k_2" button_locator "color" "blue" "green" 300.

Definition after_first_edit : state :=
  snd (recordStyle default_options button_locator "color" "red" "blue" None initial).

End TransactionManagerSpec.

(* ===================================================================== *)
(** * Vocabulary of the properties: position tracker                    *)
(* ===================================================================== *)

Module PositionTrackerSpec.
Import PositionTracker.
Local Open Scope list_scope.

(** Some component of the new rectangle is at a distance satisfying
    [far] from the one of the old rectangle. *)
Definition component_differs (far : Q -> Prop) (new old : ViewportRect) : Prop :=
  far (Qabs (left new - left old)) \/ far (Qabs (top new - top old)) \/
  far (Qabs (width new - width old)) \/ far (Qabs (height new - height old)).

(** The slot went from no rectangle to one or back, or one of its
    components moved far. *)
Definition slot_differs (far : Q -> Prop) (new old : option ViewportRect) : Prop :=
  match new, old with
  | None, None => False
  | Some n, Some o => component_differs far n o
  | _, _ => True
  end.

Definition rects_differ (far : Q -> Prop) (new old : TrackedRects) : Prop :=
  slot_differs far (hover new) (hover old) \/
  slot_differs far (selection new) (selection old).

(** "By more than the tolerance" and "by at least the tolerance". *)
Definition beyond_tolerance (gap : Q) : Prop := (RECT_EPSILON < gap)%Q.
Definition at_least_tolerance (gap : Q) : Prop := (RECT_EPSILON <= gap)%Q.

(** The least distance that a subtraction of doubles rounds to the
    tolerance: [2^-55] below it, halfway to the double before it. *)
Definition rounded_tolerance : Q := RECT_EPSILON - Double.pow2 (-55).
Definition rounds_to_tolerance (gap : Q) : Prop := (rounded_tolerance <= gap)%Q.

Section Sync.
Context {Element : Type} `{EqDecision Element}.
Variable isConnected : Element -> bool.
Variable getBoundingClientRect : Element -> option DOMRect.

#[local] Abbreviation forceUpdate := (forceUpdate isConnected getBoundingClientRect).
#[local] Abbreviation frame := (frame isConnected getBoundingClientRect).

(** A synchronisation of the tracker: a forced one, or the scheduled
    animation frame. *)
Inductive sync (s : state) : state -> Prop :=
| sync_forced : sync s (forceUpdate s)
| sync_frame : rafPending s = true -> sync s (frame s).

End Sync.

Definition box (l t w h : Q) : ViewportRect :=
  {| left := l; top := t; width := w; height := h |}.

Definition dom_box (l t w h : Q) : DOMRect :=
  {| rect_left := Finite l; rect_top := Finite t;
     rect_width := Finite w; rect_height := Finite h |}.

(** Element 7 is hovered and was last reported at [(0, 0, 10, 10)]. *)
Definition hovering : state (Element := nat) :=
  {| hoverElement := Some 7; selectionElement := None;
     lastRects := {| hover := Some (box 0 0 10 10); selection := None |};
     rafPending := false; isDisposed := false; updates := [] |}.

Definition attached (e : nat) : bool := true.
Definition detached (e : nat) : bool := false.
Definition moved_half_a_pixel (e : nat) : option DOMRect :=
  Some (dom_box (1 # 2) 0 10 10).

(** Element 7 was last reported with its left edge at the double before
    one half, negated; it is now at [3 * 2^-56], less than half a pixel
    to the right. *)
Definition hovering_left_of_zero : state (Element := nat) :=
  {| hoverElement := Some 7; selectionElement := None;
     lastRects :=
       {| hover := Some (box (- (9007199254740991 # 18014398509481984)) 0 10 10);
          selection := None |};
     rafPending := false; isDisposed := false; updates := [] |}.

Definition moved_less_than_half_a_pixel (e : nat) : option DOMRect :=
  Some (dom_box (3 # 72057594037927936) 0 10 10).

End PositionTrackerSpec.

(* ===================================================================== *)
(** * Vocabulary of the properties: event controller                    *)
(* ===================================================================== *)

Module EventControllerSpec.
Import EventController.
Local Open Scope list_scope.

Section Hover.
Context {Element : Type} `{EqDecision Element}.
Variable isOverlayElement : Element -> bool.
Variable elementFromPoint : Q -> Q -> option Element.

#[local] Abbreviation handlePointerMove := (handlePointerMove isOverlayElement).
#[local] Abbreviation event := (event (Element := Element)).
#[local] Abbreviation state := (state (Element := Element)).

(** The pointer moves of one paint cycle, oldest first. *)
Definition pointer_moves (moves : list event) (s : state) : state :=
  fold_left (fun s ev => handlePointerMove ev s) moves s.

(** The element the fast hit test finds at a position. *)
Definition element_under (x y : PositionTracker.number) : option Element :=
  match x, y with
  | PositionTracker.Finite x, PositionTracker.Finite y =>
      match elementFromPoint x y with
      | Some element => if isOverlayElement element then None else Some element
      | None => None
      end
  | _, _ => None
  end.

(** What a pointer move on the page leaves behind in hover mode. *)
Record moved (ev : event) (s s' : state) : Prop := {
  moved_mode : mode s' = hover;
  moved_disposed : isDisposed s' = false;
  moved_last : lastHoveredElement s' = lastHoveredElement s;
  moved_has : hasPointerPosition s' = true;
  moved_x : lastClientX s' = clientX ev;
  moved_y : lastClientY s' = clientY ev;
  moved_raf : hoverRafId s' = Some (default false (hoverRafId s));
  moved_hover : hover_calls (trace s') = hover_calls (trace s);
  moved_hits : hit_tests (trace s') = hit_tests (trace s);
}.

End Hover.

(** Elements 1 and 2 belong to the page, element 99 to the editor UI;
    the hit test finds element 2 everywhere. *)
Definition overlay (e : nat) : bool := (e =? 99)%nat.
Definition always_2 (x y : Q) : option nat := Some 2.

Definition move_over (path : list nat) (x y : Q) : event :=
  {| composedPath := path;
     clientX := PositionTracker.Finite x; clientY := PositionTracker.Finite y;
     button := 0; key := "";
     altKey := false; shiftKey := false; ctrlKey := false; metaKey := false |}.

(** Hover mode, element 1 reported last, nothing scheduled. *)
Definition hovering_1 : state (Element := nat) :=
  {| mode := hover; lastHoveredElement := Some 1; hasPointerPosition := true;
     lastClientX := PositionTracker.Finite 1; lastClientY := PositionTracker.Finite 1;
     hoverRafId := None; isDisposed := false; trace := [] |}.

End EventControllerSpec.

(* ===================================================================== *)
(** * Vocabulary of the properties: CSS.escape                          *)
(* ===================================================================== *)

Module CssEscapeSpec.
Import Locator.
Local Open Scope string_scope.

Definition all_chars : list ascii := map ascii_of_nat (seq 0 256).

(** The four shapes of the text [cssEscape] emits for one code unit. *)
Inductive kind := NulK | HexK | LiteralK | PlainK.

Definition kind_of (at0 at1 hyphen_first single : bool) (c : ascii) : kind :=
  let codeUnit := Str.code c in
  if (codeUnit =? 0)%nat then NulK
  else if ((1 <=? codeUnit)%nat && (codeUnit <=? 31)%nat)
          || (codeUnit =? 127)%nat
          || (at0 && Str.is_digit c)
          || (at1 && Str.is_digit c && hyphen_first)
  then HexK
  else if at0 && single && (codeUnit =? 45)%nat then LiteralK
  else if Str.is_alnum c || (codeUnit =? 45)%nat || (codeUnit =? 95)%nat then PlainK
  else LiteralK.

Definition hex_digits (c : ascii) : string :=
  Str.N_toString 16 (N.of_nat (Str.code c)).

Definition render (k : kind) (c : ascii) : string :=
  match k with
  | NulK => Css.replacement
  | HexK => String Css.backslash (hex_digits c ++ " ")
  | LiteralK => String Css.backslash (String c "")
  | PlainK => String c ""
  end.

Fixpoint all_hex (h : string) : bool :=
  match h with
  | "" => true
  | String c r => Css.is_hex c && all_hex r
  end.

Definition not_nul (c : ascii) : bool := negb (Str.code c =? 0)%nat.

(** What the reader needs to know of each shape. *)
Definition kind_ok (k : kind) (c : ascii) : bool :=
  match k with
  | NulK => negb (not_nul c)
  | HexK =>
      let h := hex_digits c in
      not_nul c && negb (bool_decide (h = "")) && all_hex h
      && (String.length h <=? 6)%nat
      && (fst (Css.take_hex 6 0 h) =? Str.code c)%nat
  | LiteralK => not_nul c && negb (Css.is_hex c) && negb (Css.is_newline c)
  | PlainK => not_nul c && Css.is_name_char c
  end.

Definition both : list bool := [true; false].

Definition kinds_ok (c : ascii) : bool :=
  forallb (fun at0 => forallb (fun at1 => forallb (fun hyphen_first =>
    forallb (fun single => kind_ok (kind_of at0 at1 hyphen_first single c) c) both)
    both) both) both.

Fixpoint nul_free (s : string) : bool :=
  match s with
  | "" => true
  | String c r => not_nul c && nul_free r
  end.

(** The last code unit is no white space (true of a trimmed string). *)
Fixpoint ends_clean (s : string) : bool :=
  match s with
  | "" => true
  | String c "" => negb (Str.is_space c)
  | String _ r => ends_clean r
  end.

Section Escaped.
Variable f : ascii.
Variable len : nat.

Definition kind_at (k : nat) (c : ascii) : kind :=
  kind_of (k =? 0)%nat (k =? 1)%nat (Str.code f =? 45)%nat (len =? 1)%nat c.

(** [cssEscape_from] with the text of the last code unit left open. *)
Fixpoint escape_with (fin : kind -> ascii -> string) (k : nat) (s : string) : string :=
  match s with
  | "" => ""
  | String c "" => fin (kind_at k c) c
  | String c r => render (kind_at k c) c ++ escape_with fin (S k) r
  end.

Definition trimmed (k : kind) (c : ascii) : string := Str.trimEnd (render k c).

(** What reading needs of the text of the last code unit. *)
Definition reads_back (fin : kind -> ascii -> string) : Prop :=
  forall k c fuel,
    kind_ok k c = true -> not_nul c = true -> Str.is_space c = false ->
    Css.consume_name (S fuel) (fin k c) = (String c "", "").

End Escaped.

Definition hyphen (c : ascii) : bool := (Str.code c =? 45)%nat.

(** The input starts with an escape, a name-start code unit or a hyphen. *)
Definition head_shape (s : string) : bool :=
  match s with
  | String c r =>
      if bool_decide (c = Css.backslash)
      then match r with String d _ => negb (Css.is_newline d) | "" => false end
      else Css.is_name_start c || hyphen c
  | "" => false
  end.

Definition is_plain (k : kind) : bool :=
  match k with PlainK => true | _ => false end.

(** At the first position a plain code unit is a name start or a hyphen,
    and no lone hyphen; after a leading hyphen likewise. *)
Definition plain_heads (c : ascii) : bool :=
  forallb (fun hyphen_first => forallb (fun single =>
    implb (is_plain (kind_of true false hyphen_first single c))
          (Css.is_name_start c || hyphen c)
    && implb (is_plain (kind_of true false hyphen_first true c)) (negb (hyphen c))
    && implb (is_plain (kind_of false true true single c))
             (Css.is_name_start c || hyphen c)
    && implb (Css.is_name_start c) (negb (hyphen c) && negb (bool_decide (c = Css.backslash)))
    && implb (hyphen c) (bool_decide (c = "-"%char))) both) both.

(** What the start of an identifier needs of an emitted text. *)
Definition heads (clean_only : bool) (fin : kind -> ascii -> string) : Prop :=
  forall k c rest,
    kind_ok k c = true -> not_nul c = true ->
    (clean_only = true -> Str.is_space c = false) ->
    (is_plain k = true -> Css.is_name_start c || hyphen c = true) ->
    head_shape (fin k c ++ rest) = true /\
    (forall r, fin k c ++ rest = String "-" r -> is_plain k = true /\ hyphen c = true /\ r = rest).

End CssEscapeSpec.

(* ===================================================================== *)
(** * Vocabulary of the properties: locator                             *)
(* ===================================================================== *)

Module LocatorSpec.
Import Dom Locator.
Local Open Scope list_scope.

(** The specification's reading of a resolved chain: hop by hop, the
    host selector matches exactly one element of the current query root
    and that host exposes a shadow root, which is the next query root. *)
Inductive chain_resolves (d : document) : ref -> list string -> ref -> Prop :=
| chain_done root : chain_resolves d root [] root
| chain_hop root hostSelector rest host inner final :
    Css.querySelectorAll d root hostSelector = Some [host] ->
    shadowRoot d host = Some inner ->
    chain_resolves d inner rest final ->
    chain_resolves d root (hostSelector :: rest) final.

(** A hop that cannot be taken from [root]. *)
Definition hop_fails (d : document) (root : ref) (hostSelector : string) : Prop :=
  forall host,
    Css.querySelectorAll d root hostSelector = Some [host] -> shadowRoot d host = None.

Definition plain (tag id : string) (classes : list string) (kids : list element)
  : element :=
  Element tag id classes [] "" ∅ None kids.

Definition shadow_host (tag : string) (open : bool) (inside : list element) : element :=
  Element tag "" [] [] "" ∅ (Some (open, inside)) [].

(** html > (head > title), (body > (div#app > button#go, span.a,
    span.b with id " pad "), a div hosting an open shadow tree
    div > div, an empty div). *)
Definition page : document :=
  [plain "HTML" "" []
     [plain "HEAD" "" [] [plain "TITLE" "" [] []];
      plain "BODY" "" []
        [plain "DIV" "app" []
           [Element "BUTTON" "go" [] [] "Go" ∅ None [];
            plain "SPAN" "" ["a"%string] [];
            plain "SPAN" " pad " ["b"%string] []];
         shadow_host "DIV" true [plain "DIV" "" [] [plain "DIV" "" [] []]];
         plain "DIV" "" [] []]]].

Definition html_ref : ref := [Child 0].
Definition body_ref : ref := [Child 1; Child 0].
Definition go_button : ref := [Child 0; Child 0; Child 1; Child 0].
Definition padded_span : ref := [Child 2; Child 0; Child 1; Child 0].
Definition host_ref : ref := [Child 1; Child 1; Child 0].
Definition shadow_outer_div : ref := Child 0 :: Shadow :: host_ref.
Definition shadow_inner_div : ref := Child 0 :: Child 0 :: Shadow :: host_ref.

(** A paragraph with a unique id inside a closed shadow tree. *)
Definition closed_page : document :=
  [plain "HTML" "" []
     [plain "BODY" "" []
        [shadow_host "DIV" false [plain "P" "note" [] []]]]].

Definition closed_note : ref := [Child 0; Shadow; Child 0; Child 0; Child 0].

(** An id made of NUL and [x]: the escaped selector names U+FFFD
    followed by [x], which no element carries. *)
Definition nul_page : document :=
  [plain "HTML" "" []
     [plain "BODY" "" [] [plain "DIV" (String (ascii_of_nat 0) "x") [] []]]].

End LocatorSpec.

(* ===================================================================== *)
(** * ui/toolbar.ts                                                       *)
(* ===================================================================== *)

(** The toolbar without the construction of its DOM: the variables of
    the closure and what the render functions last wrote to the
    elements. *)

Module Toolbar.

Inductive ToolbarStatus := idle | applying_status | success | error.

#[export] Instance ToolbarStatus_eq_dec : EqDecision ToolbarStatus.
Proof. solve_decision. Defined.

Record ApplyResult := { requestId : option string }.

(** U+00B7, and U+2026 as UTF-8. *)
Definition middle_dot : string := String (ascii_of_nat 183) "".
Definition ellipsis : string :=
  String (ascii_of_nat 226) (String (ascii_of_nat 128) (String (ascii_of_nat 166) "")).

Definition formatStatusMessage (base : string) (result : option ApplyResult) : string :=
  let req :=
    match result ≫= requestId with
    | Some id => if bool_decide (id = "") then "" else "requestId=" ++ id
    | None => ""
    end in
  if bool_decide (req = "") then base else base ++ " (" ++ req ++ ")".

Definition STATUS_RESET_DELAY_MS : Z := 2400.

(** The variables of the closure, then the properties of the elements
    the render functions set: the text of the counts, the [disabled]
    flags and the label of the buttons, [data-status] and the status
    text. *)
Record state := {
  undoCount : Z;
  redoCount : Z;
  status : ToolbarStatus;
  statusMessage : string;
  applying : bool;
  resetTimer : bool;
  counts_text : string;
  undo_disabled : bool;
  redo_disabled : bool;
  apply_disabled : bool;
  apply_text : string;
  data_status : ToolbarStatus;
  status_text : string;
}.

Section Toolbar.
(** Whether the options carry [onApply]. *)
Variable onApply_given : bool.

Definition clearResetTimer (s : state) : state :=
  {| undoCount := undoCount s; redoCount := redoCount s; status := status s;
     statusMessage := statusMessage s; applying := applying s; resetTimer := false;
     counts_text := counts_text s; undo_disabled := undo_disabled s;
     redo_disabled := redo_disabled s; apply_disabled := apply_disabled s;
     apply_text := apply_text s; data_status := data_status s;
     status_text := status_text s |}.

Definition renderCounts (s : state) : state :=
  {| undoCount := undoCount s; redoCount := redoCount s; status := status s;
     statusMessage := statusMessage s; applying := applying s; resetTimer := resetTimer s;
     counts_text :=
       "Undo: " ++ Str.Z_toString 10 (undoCount s) ++ " " ++ middle_dot
       ++ " Redo: " ++ Str.Z_toString 10 (redoCount s);
     undo_disabled := undo_disabled s;
     redo_disabled := redo_disabled s; apply_disabled := apply_disabled s;
     apply_text := apply_text s; data_status := data_status s;
     status_text := status_text s |}.

Definition renderButtons (s : state) : state :=
  {| undoCount := undoCount s; redoCount := redoCount s; status := status s;
     statusMessage := statusMessage s; applying := applying s; resetTimer := resetTimer s;
     counts_text := counts_text s;
     undo_disabled := applying s || (undoCount s <=? 0)%Z;
     redo_disabled := applying s || (redoCount s <=? 0)%Z;
     apply_disabled := applying s || (undoCount s <=? 0)%Z || negb onApply_given;
     apply_text := if applying s then "Applying" ++ ellipsis else "Apply";
     data_status := data_status s; status_text := status_text s |}.

Definition renderStatus (s : state) : state :=
  {| undoCount := undoCount s; redoCount := redoCount s; status := status s;
     statusMessage := statusMessage s; applying := applying s; resetTimer := resetTimer s;
     counts_text := counts_text s; undo_disabled := undo_disabled s;
     redo_disabled := redo_disabled s; apply_disabled := apply_disabled s;
     apply_text := apply_text s;
     data_status := status s;
     status_text := if bool_decide (status s = idle) then "" else statusMessage s |}.

Definition scheduleStatusReset (s : state) : state :=
  let s := clearResetTimer s in
  {| undoCount := undoCount s; redoCount := redoCount s; status := status s;
     statusMessage := statusMessage s; applying := applying s; resetTimer := true;
     counts_text := counts_text s; undo_disabled := undo_disabled s;
     redo_disabled := redo_disabled s; apply_disabled := apply_disabled s;
     apply_text := apply_text s; data_status := data_status s;
     status_text := status_text s |}.

Definition setHistory (nextUndo nextRedo : Q) (s : state) : state :=
  let s :=
    {| undoCount := Z.max 0 (Qfloor nextUndo); redoCount := Z.max 0 (Qfloor nextRedo);
       status := status s; statusMessage := statusMessage s; applying := applying s;
       resetTimer := resetTimer s;
       counts_text := counts_text s; undo_disabled := undo_disabled s;
       redo_disabled := redo_disabled s; apply_disabled := apply_disabled s;
       apply_text := apply_text s; data_status := data_status s;
       status_text := status_text s |} in
  renderButtons (renderCounts s).

Definition setStatus (nextStatus : ToolbarStatus) (message : option string) (s : state)
  : state :=
  let s :=
    {| undoCount := undoCount s; redoCount := redoCount s; status := nextStatus;
       statusMessage := Str.trim (default "" message); applying := applying s;
       resetTimer := resetTimer s;
       counts_text := counts_text s; undo_disabled := undo_disabled s;
       redo_disabled := redo_disabled s; apply_disabled := apply_disabled s;
       apply_text := apply_text s; data_status := data_status s;
       status_text := status_text s |} in
  let s := renderStatus s in
  if bool_decide (status s = success) || bool_decide (status s = error)
  then scheduleStatusReset s
  else clearResetTimer s.

(** The callback of the reset timer, when it is still set. *)
Definition timer_fires (s : state) : state :=
  if resetTimer s then setStatus idle None s else s.

Definition set_applying (b : bool) (s : state) : state :=
  {| undoCount := undoCount s; redoCount := redoCount s; status := status s;
     statusMessage := statusMessage s; applying := b; resetTimer := resetTimer s;
     counts_text := counts_text s; undo_disabled := undo_disabled s;
     redo_disabled := redo_disabled s; apply_disabled := apply_disabled s;
     apply_text := apply_text s; data_status := data_status s;
     status_text := status_text s |}.

(** [handleApply] up to the call of [onApply]: whether it makes the
    call, and the state at that point. *)
Definition handleApply_begin (s : state) : bool * state :=
  if apply_disabled s then (false, s)
  else if negb onApply_given then (false, s)
  else
    let s := renderButtons (set_applying true s) in
    (true, setStatus applying_status (Some ("Sending" ++ ellipsis)) s).

(** [handleApply] from the outcome of [onApply] on: the message of the
    error it threw, or its result, which counts when it is an
    [ApplyResult]. *)
Definition handleApply_end (outcome : string + option ApplyResult) (s : state) : state :=
  let s :=
    match outcome with
    | inr applyResult => setStatus success (Some (formatStatusMessage "Sent" applyResult)) s
    | inl msg => setStatus error (Some (if bool_decide (msg = "") then "Failed" else msg)) s
    end in
  renderButtons (set_applying false s).

(** The state [createToolbar] leaves behind. *)
Definition created : state :=
  renderStatus (renderButtons (renderCounts
    {| undoCount := 0; redoCount := 0; status := idle; statusMessage := "";
       applying := false; resetTimer := false;
       counts_text := ""; undo_disabled := false; redo_disabled := false;
       apply_disabled := false; apply_text := "Apply"; data_status := idle;
       status_text := "" |})).

End Toolbar.

End Toolbar.

(* ===================================================================== *)
(** * core/editor.ts: the toolbar and the transaction manager            *)
(* ===================================================================== *)

(** The wiring [start] sets up between the transaction manager and the
    toolbar: [onChange] is [handleTransactionChange], the Undo and Redo
    buttons call [undo] and [redo], the Apply button calls
    [applyLatestTransaction]. *)

Module EditorHistory.
Import Locator TransactionManager TransactionManagerSpec.
Local Open Scope list_scope.

(** What [applyLatestTransaction] reads of the response of the agent:
    whether [success] is [true], [requestId] and [error] when they are
    strings. *)
Record AgentResponse := {
  response_success : bool;
  response_requestId : option string;
  response_error : option string;
}.

(** [handleTransactionChange]: the counts of the event go to the
    toolbar. *)
Definition handleTransactionChange (event : TransactionChangeEvent) (toolbar : Toolbar.state)
  : Toolbar.state :=
  Toolbar.setHistory true
    (inject_Z (Z.of_nat (undoCount event))) (inject_Z (Z.of_nat (redoCount event)))
    toolbar.

(** [applyLatestTransaction]: the message of the error it throws, or its
    result.  [send] stands for [sendTransactionToAgent]: the message of
    the error it throws, or the response ([None] for [null]). *)
Definition applyLatestTransaction (tm : option state)
  (send : Transaction -> string + option AgentResponse) : string + Toolbar.ApplyResult :=
  match tm with
  | None => inl "Transaction manager not ready"%string
  | Some tm =>
      match last (getUndoStack tm) with
      | None => inl "No changes to apply"%string
      | Some tx =>
          match send tx with
          | inl thrown => inl thrown
          | inr (Some r) =>
              if response_success r
              then inr {| Toolbar.requestId := response_requestId r |}
              else inl (default "Agent request failed"%string (response_error r))
          | inr None => inl "Agent request failed"%string
          end
      end
  end.

(** The manager and the toolbar of a started editor, and the outcome of
    an Apply that has not settled yet. *)
Record session := {
  manager : state;
  toolbar : Toolbar.state;
  in_flight : option (string + Toolbar.ApplyResult);
}.

(** The change events the manager emitted between two of its states go
    to [handleTransactionChange], oldest first. *)
Definition deliver (before after : state) (toolbar : Toolbar.state) : Toolbar.state :=
  fold_left (fun toolbar event => handleTransactionChange event toolbar)
            (omap (fun c => match c with onChange event => Some event | _ => None end)
                  (drop (length (trace before)) (trace after)))
            toolbar.

(** What happens to a started editor: a call of the manager (from the
    key bindings or from a panel), a click on one of the three buttons
    against the live document, the settling of an Apply, the firing of
    the status timer. *)
Inductive action :=
| manager_call (c : api_call)
| click_undo (d : Dom.document)
| click_redo (d : Dom.document)
| click_apply (send : Transaction -> string + option AgentResponse)
| apply_settles
| status_timer.

Section Session.
Variable options : TransactionManagerOptions.

Definition with_manager (m : state) (s : session) : session :=
  {| manager := m; toolbar := deliver (manager s) m (toolbar s); in_flight := in_flight s |}.

Definition act (s : session) (a : action) : session :=
  match a with
  | manager_call c => with_manager (perform options (manager s) c) s
  | click_undo d =>
      if Toolbar.undo_disabled (toolbar s) then s
      else with_manager (snd (undo d (manager s))) s
  | click_redo d =>
      if Toolbar.redo_disabled (toolbar s) then s
      else with_manager (snd (redo options d (manager s))) s
  | click_apply send =>
      match Toolbar.handleApply_begin true (toolbar s) with
      | (true, toolbar) =>
          {| manager := manager s; toolbar := toolbar;
             in_flight := Some (applyLatestTransaction (Some (manager s)) send) |}
      | (false, _) => s
      end
  | apply_settles =>
      match in_flight s with
      | Some outcome =>
          {| manager := manager s;
             toolbar :=
               Toolbar.handleApply_end true
                 (match outcome with inl msg => inl msg | inr r => inr (Some r) end)
                 (toolbar s);
             in_flight := None |}
      | None => s
      end
  | status_timer =>
      {| manager := manager s; toolbar := Toolbar.timer_fires (toolbar s);
         in_flight := in_flight s |}
  end.

(** The session [start] leaves behind: a manager with empty stacks and
    the toolbar after its first [setHistory]. *)
Definition started (s : session) : Prop :=
  created (manager s) /\
  toolbar s = Toolbar.setHistory true 0 0 (Toolbar.created true) /\
  in_flight s = None.

(** [dispose] belongs to [stop], which ends the session. *)
Definition keeps_running (a : action) : Prop :=
  match a with
  | manager_call call_dispose => False
  | _ => True
  end.

End Session.

End EditorHistory.

(* ===================================================================== *)
(** * Vocabulary of the properties: the toolbar of a running editor     *)
(* ===================================================================== *)

Module EditorHistorySpec.
Import TransactionManager EditorHistory.
Local Open Scope list_scope.

(** The counts of the toolbar are the sizes of the stacks. *)
Definition shows_sizes (s : session) : Prop :=
  Toolbar.undoCount (toolbar s) = Z.of_nat (length (undoStack (manager s))) /\
  Toolbar.redoCount (toolbar s) = Z.of_nat (length (redoStack (manager s))).

(** The text and the buttons are as the render functions leave them for
    the current counts and the current [applying] flag. *)
Definition rendered (t : Toolbar.state) : Prop :=
  Toolbar.counts_text t
  = ("Undo: " ++ Str.Z_toString 10 (Toolbar.undoCount t) ++ " " ++ Toolbar.middle_dot
     ++ " Redo: " ++ Str.Z_toString 10 (Toolbar.redoCount t))%string /\
  Toolbar.undo_disabled t = Toolbar.applying t || (Toolbar.undoCount t <=? 0)%Z /\
  Toolbar.redo_disabled t = Toolbar.applying t || (Toolbar.redoCount t <=? 0)%Z /\
  Toolbar.apply_disabled t = Toolbar.applying t || (Toolbar.undoCount t <=? 0)%Z.

(** What holds of a running session. *)
Definition in_step (s : session) : Prop :=
  shows_sizes s /\ rendered (toolbar s) /\ isDisposed (manager s) = false.

(** [applyLatestTransaction] once the transaction is sent: what it makes
    of the answer. *)
Definition settled (answer : string + option AgentResponse) : string + Toolbar.ApplyResult :=
  match answer with
  | inl thrown => inl thrown
  | inr (Some r) =>
      if response_success r
      then inr {| Toolbar.requestId := response_requestId r |}
      else inl (default "Agent request failed"%string (response_error r))
  | inr None => inl "Agent request failed"%string
  end.

(** A session right after [start], and one edit recorded and undone by
    a click on the toolbar. *)
Definition fresh_session : session :=
  {| manager := initial;
     toolbar := Toolbar.setHistory true 0 0 (Toolbar.created true);
     in_flight := None |}.

Definition edit_then_undo : list action :=
  [manager_call
     (TransactionManagerSpec.call_recordStyle TransactionManagerSpec.button_locator
        "color" "red" "blue" None);
   click_undo LocatorSpec.page].

Definition edited_and_undone : session :=
  fold_left (act TransactionManagerSpec.default_options) edit_then_undo fresh_session.

(** One edit recorded, and an agent that accepts what it is sent. *)
Definition one_edit : list action :=
  [manager_call
     (TransactionManagerSpec.call_recordStyle TransactionManagerSpec.button_locator
        "color" "red" "blue" None)].

Definition edited : session :=
  fold_left (act TransactionManagerSpec.default_options) one_edit fresh_session.

Definition accepting_agent (tx : Transaction) : string + option AgentResponse :=
  inr (Some {| response_success := true; response_requestId := Some "r1";
               response_error := None |}).

End EditorHistorySpec.

(* ===================================================================== *)
(** * Vocabulary of the properties: strings and style helpers           *)
(* ===================================================================== *)

Module StyleSpec.

(** The first code unit is no white space. *)
Definition starts_clean (s : string) : bool :=
  match s with
  | "" => true
  | String c _ => negb (Str.is_space c)
  end.

Fixpoint no_upper (s : string) : bool :=
  match s with
  | "" => true
  | String c r => negb (Str.is_upper c) && no_upper r
  end.

Definition clean (s : string) : bool := starts_clean s && CssEscapeSpec.ends_clean s.

End StyleSpec.

(* ===================================================================== *)
(** * Vocabulary of the properties: recorded transactions               *)
(* ===================================================================== *)

Module HistorySpec.
Import Locator TransactionManager TransactionManagerSpec.
Local Open Scope list_scope.


Definition two_entry_options : TransactionManagerOptions :=
  {| opt_maxHistory := Some (Whole 2); opt_mergeWindowMs := None;
     now := fun n => (100 * Z.of_nat n)%Z |}.


(** Three edits of the button, of three properties. *)
Definition coloured : Transaction :=
  createStyleTransaction "tx_0_1" button_locator "color" "red" "blue" 100.
Definition widened : Transaction :=
  createStyleTransaction "tx_5k_2" button_locator "width" "10px" "20px" 300.
Definition raised : Transaction :=
  createStyleTransaction "tx_b4_3" button_locator "height" "10px" "20px" 500.

Definition two_edits : list api_call :=
  [call_recordStyle button_locator "color" "red" "blue" None;
   call_recordStyle button_locator "width" "10px" "20px" None].

Definition three_edits_one_undone : list api_call :=
  two_edits ++ [call_recordStyle button_locator "height" "10px" "20px" None;
                call_undo LocatorSpec.page].

Definition after_two_edits : state :=
  fold_left (perform two_entry_options) two_edits initial.

Definition after_three_edits_one_undone : state :=
  fold_left (perform two_entry_options) three_edits_one_undone initial.

(** A style edit as the manager records it: the key is a normalised
    property name and both values are trimmed. *)
Definition recorded (tx : Transaction) : Prop :=
  exists p b a,
    style_edit tx p b a /\ normalizePropertyName p = p /\
    Str.trim b = b /\ Str.trim a = a.

End HistorySpec.

(* ===================================================================== *)
(** * Vocabulary of the properties: change events                       *)
(* ===================================================================== *)

Module ChangeEventSpec.
Import Locator TransactionManager TransactionManagerSpec.
Local Open Scope list_scope.

(** The events handed to [onChange], oldest first. *)
Definition change_events (t : list call) : list TransactionChangeEvent :=
  omap (fun c => match c with onChange event => Some event | _ => None end) t.

(** The event tells the sizes the stacks have in [s]. *)
Definition tells_sizes (event : TransactionChangeEvent) (s : state) : Prop :=
  undoCount event = length (undoStack s) /\ redoCount event = length (redoStack s).

(** What a call does to the stacks and to the events: nothing, or one
    event that tells the new sizes. *)
Definition quiet (s s' : state) : Prop :=
  undoStack s' = undoStack s /\ redoStack s' = redoStack s /\
  change_events (trace s') = change_events (trace s).

Definition announced (s s' : state) : Prop :=
  exists event,
    change_events (trace s') = change_events (trace s) ++ [event] /\
    tells_sizes event s'.

Definition is_dispose (c : api_call) : bool :=
  match c with call_dispose => true | _ => false end.

Definition is_clear (c : api_call) : bool :=
  match c with call_clear => true | _ => false end.

(** The only event a disposed manager still emits: [clear] with both
    counts at zero. *)
Definition cleared_event : TransactionChangeEvent :=
  {| action := clear_action; transaction := None; undoCount := 0; redoCount := 0 |}.

(** The handle [beginStyle] returns for the colour of the button of
    [LocatorSpec.page], asked of a fresh manager. *)
Definition go_handle : StyleTransactionHandle :=
  {| handle_id := "tx_0_1"; property := "color";
     handle_targetLocator := createElementLocator LocatorSpec.page LocatorSpec.go_button;
     beforeValue := ""; completed := false |}.

(** The manager after the [beginStyle] that gave [go_handle]. *)
Definition after_begin : state :=
  snd (beginStyle default_options LocatorSpec.page LocatorSpec.go_button "color" initial).

End ChangeEventSpec.

(* ===================================================================== *)
(** * Vocabulary of the properties: runs of the position tracker        *)
(* ===================================================================== *)

Module TrackerRunSpec.
Import PositionTracker.
Local Open Scope list_scope.

(** A rectangle, if there is one, has no negative width or height. *)
Definition well_sized (r : option ViewportRect) : Prop :=
  match r with
  | Some r => (0 <= width r)%Q /\ (0 <= height r)%Q
  | None => True
  end.

Definition rects_well_sized (t : TrackedRects) : Prop :=
  well_sized (hover t) /\ well_sized (selection t).

Section Run.
Context {Element : Type} `{EqDecision Element}.

(** A call of the tracker or one of the events it listens to; the ones
    that read the layout come with the live document of that moment. *)
Inductive tracker_call :=
| call_setHoverElement (element : option Element)
| call_setSelectionElement (element : option Element)
| call_viewportChange
| call_forceUpdate (isConnected : Element -> bool)
    (getBoundingClientRect : Element -> option DOMRect)
| call_frame (isConnected : Element -> bool)
    (getBoundingClientRect : Element -> option DOMRect)
| call_dispose.

Definition run (s : state (Element := Element)) (c : tracker_call) : state :=
  match c with
  | call_setHoverElement element => setHoverElement element s
  | call_setSelectionElement element => setSelectionElement element s
  | call_viewportChange => handleViewportChange s
  | call_forceUpdate isConnected getBoundingClientRect =>
      forceUpdate isConnected getBoundingClientRect s
  | call_frame isConnected getBoundingClientRect =>
      frame isConnected getBoundingClientRect s
  | call_dispose => dispose s
  end.

(** Everything reported so far, and what is remembered as last
    reported, is well sized. *)
Definition sized (s : state (Element := Element)) : Prop :=
  Forall rects_well_sized (updates s) /\ rects_well_sized (lastRects s).

(** The calls that read no layout. *)
Definition reads_no_layout (c : tracker_call) : Prop :=
  match c with
  | call_forceUpdate _ _ | call_frame _ _ => False
  | _ => True
  end.

End Run.

End TrackerRunSpec.

(* ===================================================================== *)
(** * Vocabulary of the properties: runs of the event controller        *)
(* ===================================================================== *)

Module ControllerRunSpec.
Import EventController.
Local Open Scope list_scope.

Section Run.
Context {Element : Type} `{EqDecision Element}.
Variable isOverlayElement : Element -> bool.

#[local] Abbreviation state := (state (Element := Element)).
#[local] Abbreviation event := (event (Element := Element)).
#[local] Abbreviation call := (call (Element := Element)).

(** What reaches a controller: the events it listens to, the animation
    frame, and the two methods of its interface.  The ones that hit-test
    come with the hit test of that moment. *)
Inductive input :=
| pointer_move (ev : event)
| pointer_down (ev : event)
    (findTargetForSelect : option (Q -> Q -> EventModifiers -> option Element))
    (elementFromPoint : Q -> Q -> option Element)
| key_down (ev : event)
| blocked_event (ev : event)
| animation_frame (elementFromPoint : Q -> Q -> option Element)
| mode_request (nextMode : EventControllerMode)
| disposal.

Definition handle (s : state) (i : input) : state :=
  match i with
  | pointer_move ev => handlePointerMove isOverlayElement ev s
  | pointer_down ev findTargetForSelect elementFromPoint =>
      handlePointerDown isOverlayElement findTargetForSelect elementFromPoint ev s
  | key_down ev => handleKeyDown isOverlayElement ev s
  | blocked_event ev => handleBlockedEvent isOverlayElement ev s
  | animation_frame elementFromPoint => frame isOverlayElement elementFromPoint s
  | mode_request nextMode => setMode nextMode s
  | disposal => dispose s
  end.

(** The number of page events blocked so far. *)
Definition blocked (t : list call) : nat :=
  length (omap (fun c => match c with blockPageEvent => Some tt | _ => None end) t).

(** What a step appends to the trace. *)
Definition appends (s s' : state) (u : list call) : Prop := trace s' = trace s ++ u.

(** The element of a callback is no part of the editor's own UI. *)
Definition off_overlay (c : call) : Prop :=
  match c with
  | onHover (Some element) => isOverlayElement element = false
  | onSelect element _ => isOverlayElement element = false
  | _ => True
  end.

(** While an element is selected nothing is remembered as hovered and
    no hover update is scheduled. *)
Definition settled_selection (s : state) : Prop :=
  mode s = selecting -> lastHoveredElement s = None /\ hoverRafId s = None.

End Run.

End ControllerRunSpec.

(* ===================================================================== *)
(** * Vocabulary for the locator                                          *)
(* ===================================================================== *)

Module LocatorRunSpec.
Import Dom Locator.
Local Open Scope string_scope.

(** A candidate the resolution loop takes: it has a single match in the
    query root, and the fingerprint, when the locator carries one,
    confirms that match. *)
Definition accepts (d : document) (root : ref) (fingerprint selector : string) (e : ref)
  : Prop :=
  Css.querySelectorAll d root selector = Some [e] /\
  (fingerprint = "" \/ verifyFingerprint (the_element d e) fingerprint = true).

Definition rejects (d : document) (root : ref) (fingerprint selector : string) : Prop :=
  forall e, ~ accepts d root fingerprint selector e.

(** A candidate as [push] stores it. *)
Definition stored (s : string) : Prop := s <> "" /\ Str.trim s = s.

(** No [|] in a string, the separator of the fingerprint parts. *)
Definition bar_free (s : string) : bool := negb (Str.includes_char "|" s).

Definition bar_free_element (e : element) : Prop :=
  bar_free (tagName e) = true /\ bar_free (id e) = true /\
  Forall (fun c => bar_free c = true) (classList e) /\
  bar_free (textContent e) = true.

(** The parts [computeFingerprint] joins. *)
Definition fingerprint_parts (e : element) : list string :=
  ([Str.toLowerCase (tagName e)]
   ++ (if bool_decide (Str.trim (id e) = "") then [] else [("id=" ++ Str.trim (id e))%string])
   ++ (match take FINGERPRINT_MAX_CLASSES (classList e) with
       | [] => []
       | classes => [("class=" ++ Str.join "." classes)%string]
       end)
   ++ (if bool_decide (normalizeText (textContent e) FINGERPRINT_TEXT_MAX_LENGTH = "")
       then []
       else [("text=" ++ normalizeText (textContent e) FINGERPRINT_TEXT_MAX_LENGTH)%string]))%list.

(** What the fingerprint check compares: the tag name without case, and
    the trimmed id when the stored element had one. *)
Definition same_tag_and_id (e e0 : element) : Prop :=
  Str.toLowerCase (tagName e) = Str.toLowerCase (tagName e0) /\
  (Str.trim (id e0) <> "" -> Str.trim (id e) = Str.trim (id e0)).

Definition go_element : element := Element "BUTTON" "go" [] [] "Go" ∅ None [].

(** The same button after its label and classes were changed. *)
Definition relabelled_go : element :=
  Element "button" " go " ["primary"] [] "Send it" ∅ None [].

End LocatorRunSpec.

(* ===================================================================== *)
(** * Vocabulary for the editor life cycle                                *)
(* ===================================================================== *)

Module LifeCycleSpec.
Import WebEditorTypes Editor MessageListener.

(** A call of the API object; a call that may run [start] carries the
    step of the initialisation that throws in it, if one does. *)
Inductive api_call :=
| call_start (failure : option init_step)
| call_stop
| call_toggle (failure : option init_step).

Definition run_call (s : EditorInternalState) (c : api_call) : EditorInternalState :=
  match c with
  | call_start failure => start failure s
  | call_stop => stop s
  | call_toggle failure => snd (toggle failure s)
  end.

(** Every subsystem slot holds an object ([true]) or none does. *)
Definition slots_are (b : bool) (s : EditorInternalState) : Prop :=
  shadowHost s = b /\ canvasOverlay s = b /\ eventController s = b /\
  positionTracker s = b /\ selectionEngine s = b /\ transactionManager s = b /\
  toolbar s = b.

(** The editor holds all its subsystems when active and none when not. *)
Definition whole (s : EditorInternalState) : Prop := slots_are (state_active s) s.

(** A message and the failure its handling meets in [start]. *)
Definition message := (request * option init_step)%type.

(** The request starts the editor and the start fails. *)
Definition failing_start (m : message) (before : EditorInternalState) : Prop :=
  fst m = Some START /\ state_active (start (snd m) before) = false.

End LifeCycleSpec.

(* ===================================================================== *)
(** * overlay/canvas-overlay.ts                                           *)
(* ===================================================================== *)

(** The canvas overlay without the construction of its canvas element:
    the variables of the closure, the size attributes of the canvas and
    the calls made on the 2D context, oldest first. *)

Module CanvasOverlay.
Local Open Scope list_scope.

Record ViewportRect := {
  left : PositionTracker.number;
  top : PositionTracker.number;
  width : PositionTracker.number;
  height : PositionTracker.number;
}.

Record BoxStyle := {
  strokeColor : string;
  fillColor : string;
  lineWidth : Q;
  dashPattern : list Q;
}.

(** [WEB_EDITOR_V2_COLORS.hover] and [WEB_EDITOR_V2_COLORS.selected] of
    constants.ts. *)
Definition COLORS_hover : string := "#3b82f6".
Definition COLORS_selected : string := "#22c55e".

Definition BOX_STYLES_hover : BoxStyle :=
  {| strokeColor := COLORS_hover; fillColor := COLORS_hover ++ "15";
     lineWidth := 2; dashPattern := [6%Q; 4%Q] |}.

Definition BOX_STYLES_selection : BoxStyle :=
  {| strokeColor := COLORS_selected; fillColor := COLORS_selected ++ "20";
     lineWidth := 2; dashPattern := [] |}.

(** [Number.isFinite] *)
Definition isFinite (value : PositionTracker.number) : bool :=
  match value with
  | PositionTracker.Finite _ => true
  | PositionTracker.NotFinite => false
  end.

Definition isFinitePositive (value : PositionTracker.number) : bool :=
  match value with
  | PositionTracker.Finite q => PositionTracker.Qltb 0 q
  | PositionTracker.NotFinite => false
  end.

Definition isValidRect (rect : option ViewportRect) : bool :=
  match rect with
  | None => false
  | Some rect =>
      isFinite (left rect) && isFinite (top rect) &&
      isFinitePositive (width rect) && isFinitePositive (height rect)
  end.

(** [Math.round]: the nearest integer, halves going up. *)
Definition Math_round (q : Q) : Z := Qfloor (q + (1 # 2)).

(** The calls on the 2D context; a property assignment is the call of
    its setter, and [path_rect] is the method [rect]. *)
Inductive ctx_call :=
| setTransform (a b c d e f : Q)
| set_lineJoin (value : string)
| set_lineCap (value : string)
| clearRect (x y w h : Q)
| save
| set_lineWidth (value : Q)
| set_strokeStyle (value : string)
| set_fillStyle (value : string)
| setLineDash (segments : list Q)
| beginPath
| path_rect (x y w h : Q)
| fill
| stroke
| restore.

(** [drawBox]: the context calls it makes. *)
Definition drawBox (rect : option ViewportRect) (style : BoxStyle) : list ctx_call :=
  if negb (isValidRect rect) then []
  else
    match rect with
    | Some r =>
        match left r, top r, width r, height r with
        | PositionTracker.Finite rl, PositionTracker.Finite rt,
          PositionTracker.Finite rw, PositionTracker.Finite rh =>
            let w := Math_round rw in
            let h := Math_round rh in
            if (w <=? 0)%Z || (h <=? 0)%Z then []
            else
              let x := (inject_Z (Math_round rl) + (1 # 2))%Q in
              let y := (inject_Z (Math_round rt) + (1 # 2))%Q in
              [save;
               set_lineWidth (lineWidth style);
               set_strokeStyle (strokeColor style);
               set_fillStyle (fillColor style);
               setLineDash (dashPattern style);
               beginPath;
               path_rect x y (inject_Z w) (inject_Z h);
               fill;
               stroke;
               restore]
        | _, _, _, _ => []
        end
    | None => []
    end.

(** The variables of the closure; [rafPending] stands for a non-null
    [rafId], [canvas_width] and [canvas_height] are the size attributes
    of the canvas element, [drawn] lists the context calls. *)
Record state := {
  hoverRect : option ViewportRect;
  selectionRect : option ViewportRect;
  viewportWidth : Q;
  viewportHeight : Q;
  devicePixelRatio : Q;
  canvas_width : Z;
  canvas_height : Z;
  dirty : bool;
  rafPending : bool;
  isDisposed : bool;
  drawn : list ctx_call;
}.

Definition set_rects (hover selection : option ViewportRect) (s : state) : state :=
  {| hoverRect := hover; selectionRect := selection;
     viewportWidth := viewportWidth s; viewportHeight := viewportHeight s;
     devicePixelRatio := devicePixelRatio s;
     canvas_width := canvas_width s; canvas_height := canvas_height s;
     dirty := dirty s; rafPending := rafPending s; isDisposed := isDisposed s;
     drawn := drawn s |}.

Definition set_viewport (w h : Q) (s : state) : state :=
  {| hoverRect := hoverRect s; selectionRect := selectionRect s;
     viewportWidth := w; viewportHeight := h;
     devicePixelRatio := devicePixelRatio s;
     canvas_width := canvas_width s; canvas_height := canvas_height s;
     dirty := dirty s; rafPending := rafPending s; isDisposed := isDisposed s;
     drawn := drawn s |}.

Definition set_flags (nowDirty pending : bool) (s : state) : state :=
  {| hoverRect := hoverRect s; selectionRect := selectionRect s;
     viewportWidth := viewportWidth s; viewportHeight := viewportHeight s;
     devicePixelRatio := devicePixelRatio s;
     canvas_width := canvas_width s; canvas_height := canvas_height s;
     dirty := nowDirty; rafPending := pending; isDisposed := isDisposed s;
     drawn := drawn s |}.

(** The context calls [calls] are made. *)
Definition draw (calls : list ctx_call) (s : state) : state :=
  {| hoverRect := hoverRect s; selectionRect := selectionRect s;
     viewportWidth := viewportWidth s; viewportHeight := viewportHeight s;
     devicePixelRatio := devicePixelRatio s;
     canvas_width := canvas_width s; canvas_height := canvas_height s;
     dirty := dirty s; rafPending := rafPending s; isDisposed := isDisposed s;
     drawn := drawn s ++ calls |}.

Definition cancelRaf (s : state) : state := set_flags (dirty s) false s.

Definition scheduleRaf (s : state) : state :=
  if rafPending s || isDisposed s then s else set_flags (dirty s) true s.

(** [updateCanvasSize]; [window_devicePixelRatio] is what the window
    reports at the time of the call. *)
Definition updateCanvasSize (window_devicePixelRatio : Q) (s : state) : bool * state :=
  let nextDpr :=
    Qmax 1 (if Qeq_bool window_devicePixelRatio 0 then 1 else window_devicePixelRatio) in
  let cssWidth := Qmax 1 (viewportWidth s) in
  let cssHeight := Qmax 1 (viewportHeight s) in
  let pixelWidth := Math_round (cssWidth * nextDpr) in
  let pixelHeight := Math_round (cssHeight * nextDpr) in
  let needsResize :=
    negb (canvas_width s =? pixelWidth)%Z ||
    negb (canvas_height s =? pixelHeight)%Z ||
    PositionTracker.Qltb (1 # 1000) (Qabs (devicePixelRatio s - nextDpr)) in
  if negb needsResize then (false, s)
  else
    (true,
     {| hoverRect := hoverRect s; selectionRect := selectionRect s;
        viewportWidth := viewportWidth s; viewportHeight := viewportHeight s;
        devicePixelRatio := nextDpr;
        canvas_width := pixelWidth; canvas_height := pixelHeight;
        dirty := dirty s; rafPending := rafPending s; isDisposed := isDisposed s;
        drawn := drawn s ++ [setTransform nextDpr 0 0 nextDpr 0 0;
                             set_lineJoin "round"; set_lineCap "round"] |}).

Definition clearCanvas (window_devicePixelRatio : Q) (s : state) : state :=
  let s := snd (updateCanvasSize window_devicePixelRatio s) in
  draw [clearRect 0 0 (viewportWidth s) (viewportHeight s)] s.

Definition markDirty (s : state) : state :=
  if isDisposed s then s
  else scheduleRaf (set_flags true (rafPending s) s).

Definition render (window_devicePixelRatio : Q) (s : state) : state :=
  if isDisposed s || negb (dirty s) then s
  else
    let s := cancelRaf s in
    let s := set_flags false (rafPending s) s in
    let s := clearCanvas window_devicePixelRatio s in
    let s := draw (drawBox (hoverRect s) BOX_STYLES_hover) s in
    let s := draw (drawBox (selectionRect s) BOX_STYLES_selection) s in
    if dirty s then scheduleRaf s else s.

Definition setHoverRect (rect : option ViewportRect) (s : state) : state :=
  markDirty (set_rects rect (selectionRect s) s).

Definition setSelectionRect (rect : option ViewportRect) (s : state) : state :=
  markDirty (set_rects (hoverRect s) rect s).

Definition clear (s : state) : state := markDirty (set_rects None None s).

(** The animation frame: runs the scheduled callback, if any. *)
Definition frame (window_devicePixelRatio : Q) (s : state) : state :=
  if rafPending s then render window_devicePixelRatio (set_flags (dirty s) false s) else s.

(** The callback of the resize observer; [contentRect] is the width and
    height of the first entry, if it has one. *)
Definition resized (contentRect : option (Q * Q)) (s : state) : state :=
  match contentRect with
  | None => s
  | Some (w, h) =>
      let nextWidth := Qmax 1 w in
      let nextHeight := Qmax 1 h in
      if PositionTracker.Qltb (Qabs (nextWidth - viewportWidth s)) (1 # 2) &&
         PositionTracker.Qltb (Qabs (nextHeight - viewportHeight s)) (1 # 2)
      then s
      else markDirty (set_viewport nextWidth nextHeight s)
  end.

(** [dispose]: the disposer cancels the frame, removes the canvas and
    disconnects the observer. *)
Definition dispose (s : state) : state :=
  {| hoverRect := hoverRect s; selectionRect := selectionRect s;
     viewportWidth := viewportWidth s; viewportHeight := viewportHeight s;
     devicePixelRatio := devicePixelRatio s;
     canvas_width := canvas_width s; canvas_height := canvas_height s;
     dirty := dirty s; rafPending := false; isDisposed := true;
     drawn := drawn s |}.

(** The overlay [createCanvasOverlay] returns; [measured] is the width
    and height of the container, [None] when measuring throws.  A new
    canvas element is 300 by 150. *)
Definition created (measured : option (Q * Q)) : state :=
  markDirty
    {| hoverRect := None; selectionRect := None;
       viewportWidth := match measured with Some (w, _) => Qmax 1 w | None => 1 end;
       viewportHeight := match measured with Some (_, h) => Qmax 1 h | None => 1 end;
       devicePixelRatio := 1;
       canvas_width := 300; canvas_height := 150;
       dirty := true; rafPending := false; isDisposed := false;
       drawn := [] |}.

End CanvasOverlay.

(* ===================================================================== *)
(** * Vocabulary for the canvas overlay                                   *)
(* ===================================================================== *)

Module CanvasOverlaySpec.
Import CanvasOverlay.
Local Open Scope list_scope.

Definition finite_rect (l t w h : Q) : ViewportRect :=
  {| left := PositionTracker.Finite l; top := PositionTracker.Finite t;
     width := PositionTracker.Finite w; height := PositionTracker.Finite h |}.

(** All four numbers are finite, and the width and the height are at
    least half a pixel. *)
Definition drawable (rect : option ViewportRect) : bool :=
  match rect with
  | Some r =>
      match left r, top r, width r, height r with
      | PositionTracker.Finite _, PositionTracker.Finite _,
        PositionTracker.Finite w, PositionTracker.Finite h =>
          Qle_bool (1 # 2) w && Qle_bool (1 # 2) h
      | _, _, _, _ => false
      end
  | None => false
  end.

(** The path, fill and stroke of one box, with the settings of a
    style. *)
Definition box_calls (style : BoxStyle) (x y w h : Q) : list ctx_call :=
  [save; set_lineWidth (lineWidth style); set_strokeStyle (strokeColor style);
   set_fillStyle (fillColor style); setLineDash (dashPattern style);
   beginPath; path_rect x y w h; fill; stroke; restore].

(** A full painting of the current rectangles: the canvas is cleared,
    then the hover box and then the selection box are drawn. *)
Definition painting (s : state) : list ctx_call :=
  clearRect 0 0 (viewportWidth s) (viewportHeight s)
  :: drawBox (hoverRect s) BOX_STYLES_hover
  ++ drawBox (selectionRect s) BOX_STYLES_selection.

(** The last thing drawn is a full painting of the current
    rectangles. *)
Definition shows (s : state) : Prop := exists before, drawn s = before ++ painting s.

(** What reaches an overlay: the methods of its interface, the
    animation frame and the resize observer. *)
Inductive input :=
| call_markDirty
| call_render (window_devicePixelRatio : Q)
| call_clear
| call_setHoverRect (rect : option ViewportRect)
| call_setSelectionRect (rect : option ViewportRect)
| call_dispose
| animation_frame (window_devicePixelRatio : Q)
| resize_observed (contentRect : option (Q * Q)).

Definition handle (s : state) (i : input) : state :=
  match i with
  | call_markDirty => markDirty s
  | call_render dpr => render dpr s
  | call_clear => clear s
  | call_setHoverRect rect => setHoverRect rect s
  | call_setSelectionRect rect => setSelectionRect rect s
  | call_dispose => dispose s
  | animation_frame dpr => frame dpr s
  | resize_observed contentRect => resized contentRect s
  end.

(** What holds of an overlay at any time: a frame is pending exactly
    when something changed since the last painting, and never on a
    disposed overlay. *)
Definition in_sync (s : state) : Prop :=
  (isDisposed s = true -> rafPending s = false) /\
  (isDisposed s = false -> rafPending s = dirty s /\ (dirty s = false -> shows s)).

(** A button of 120.4 by 40 pixels at (10.6, 20). *)
Definition button_rect : ViewportRect := finite_rect (106 # 10) 20%Q (1204 # 10) 40%Q.

End CanvasOverlaySpec.

(* ===================================================================== *)
(** * core/editor.ts: the handlers behind the overlay                     *)
(* ===================================================================== *)

(** The handlers [start] wires to the event controller and to the
    position tracker.  The tracker calls [onPositionUpdate] at the end
    of a synchronisation; here the rectangles it reported during a call
    are handed to [handlePositionUpdate] when the call returns. *)

Module EditorView.
Import PositionTracker.
Local Open Scope list_scope.

Section View.
Context {Element : Type} `{EqDecision Element}.

(** The live page at the time of a call: which elements are attached,
    their bounding rectangles ([None] when reading throws) and the
    device pixel ratio of the window. *)
Record layout := {
  isConnected : Element -> bool;
  getBoundingClientRect : Element -> option DOMRect;
  window_devicePixelRatio : Q;
}.

(** The fields of the editor state the handlers use. *)
Record view := {
  hoveredElement : option Element;
  selectedElement : option Element;
  positionTracker : option (state (Element := Element));
  canvasOverlay : option CanvasOverlay.state;
}.

(** A rectangle of the tracker as the overlay receives it. *)
Definition overlay_rect (r : option ViewportRect) : option CanvasOverlay.ViewportRect :=
  match r with
  | Some r =>
      Some {| CanvasOverlay.left := Finite (left r); CanvasOverlay.top := Finite (top r);
              CanvasOverlay.width := Finite (width r);
              CanvasOverlay.height := Finite (height r) |}
  | None => None
  end.

Definition handlePositionUpdate (page : layout) (rects : TrackedRects) (v : view) : view :=
  match canvasOverlay v with
  | None => v
  | Some overlay =>
      let overlay := CanvasOverlay.setHoverRect (overlay_rect (hover rects)) overlay in
      let overlay := CanvasOverlay.setSelectionRect (overlay_rect (selection rects)) overlay in
      let overlay := CanvasOverlay.render (window_devicePixelRatio page) overlay in
      {| hoveredElement := hoveredElement v; selectedElement := selectedElement v;
         positionTracker := positionTracker v; canvasOverlay := Some overlay |}
  end.

(** Calls on the tracker, if there is one, and the position updates
    they cause. *)
Definition on_tracker (page : layout) (calls : state -> state) (v : view) : view :=
  match positionTracker v with
  | None => v
  | Some tracker =>
      let tracker' := calls tracker in
      fold_left (fun v rects => handlePositionUpdate page rects v)
                (drop (length (updates tracker)) (updates tracker'))
                {| hoveredElement := hoveredElement v; selectedElement := selectedElement v;
                   positionTracker := Some tracker'; canvasOverlay := canvasOverlay v |}
  end.

Definition handleHover (page : layout) (element : option Element) (v : view) : view :=
  let v := {| hoveredElement := element; selectedElement := selectedElement v;
              positionTracker := positionTracker v; canvasOverlay := canvasOverlay v |} in
  on_tracker page
    (fun tracker =>
       forceUpdate (isConnected page) (getBoundingClientRect page)
         (setHoverElement element tracker))
    v.

Definition handleSelect (page : layout) (element : Element)
  (modifiers : EventController.EventModifiers) (v : view) : view :=
  let v := {| hoveredElement := None; selectedElement := Some element;
              positionTracker := positionTracker v; canvasOverlay := canvasOverlay v |} in
  on_tracker page
    (fun tracker =>
       forceUpdate (isConnected page) (getBoundingClientRect page)
         (setSelectionElement (Some element) (setHoverElement None tracker)))
    v.

Definition handleDeselect (page : layout) (v : view) : view :=
  let v := {| hoveredElement := hoveredElement v; selectedElement := None;
              positionTracker := positionTracker v; canvasOverlay := canvasOverlay v |} in
  on_tracker page
    (fun tracker =>
       forceUpdate (isConnected page) (getBoundingClientRect page)
         (setSelectionElement None tracker))
    v.

(** The tracker and the overlay as [start] creates them. *)
Definition started (measured : option (Q * Q)) : view :=
  {| hoveredElement := None; selectedElement := None;
     positionTracker := Some initial;
     canvasOverlay := Some (CanvasOverlay.created measured) |}.

End View.

End EditorView.

(* ===================================================================== *)
(** * Vocabulary for the handlers behind the overlay                      *)
(* ===================================================================== *)

Module EditorViewSpec.
Import PositionTracker EditorView.
Local Open Scope list_scope.

Section View.
Context {Element : Type} `{EqDecision Element}.

#[local] Abbreviation view := (view (Element := Element)).
#[local] Abbreviation layout := (layout (Element := Element)).

(** What happens to the tracker and the overlay of a started editor:
    the three callbacks of the event controller, a scroll or resize
    event and the animation frame of the tracker, the animation frame
    and the resize observer of the overlay. *)
Inductive happening :=
| hover_reported (page : layout) (element : option Element)
| select_reported (page : layout) (element : Element)
    (modifiers : EventController.EventModifiers)
| deselect_reported (page : layout)
| viewport_changed (page : layout)
| tracker_frame (page : layout)
| overlay_frame (window_devicePixelRatio : Q)
| overlay_resized (contentRect : option (Q * Q)).

Definition on_overlay (f : CanvasOverlay.state -> CanvasOverlay.state) (v : view) : view :=
  {| hoveredElement := hoveredElement v; selectedElement := selectedElement v;
     positionTracker := positionTracker v; canvasOverlay := f <$> canvasOverlay v |}.

Definition happen (v : view) (h : happening) : view :=
  match h with
  | hover_reported page element => handleHover page element v
  | select_reported page element modifiers => handleSelect page element modifiers v
  | deselect_reported page => handleDeselect page v
  | viewport_changed page => on_tracker page handleViewportChange v
  | tracker_frame page =>
      on_tracker page (frame (isConnected page) (getBoundingClientRect page)) v
  | overlay_frame dpr => on_overlay (CanvasOverlay.frame dpr) v
  | overlay_resized contentRect => on_overlay (CanvasOverlay.resized contentRect) v
  end.

(** A call on a live tracker that reports nothing, or reports once what
    it then remembers. *)
Definition reports_at_most_once (t t' : state (Element := Element)) : Prop :=
  isDisposed t' = false /\
  ((updates t' = updates t /\ lastRects t' = lastRects t) \/
   updates t' = updates t ++ [lastRects t']).

(** The overlay holds the rectangles the tracker reported last, and is
    in step with its frames. *)
Definition agrees (v : view) : Prop :=
  exists tracker overlay,
    positionTracker v = Some tracker /\ canvasOverlay v = Some overlay /\
    isDisposed tracker = false /\ CanvasOverlay.isDisposed overlay = false /\
    CanvasOverlay.hoverRect overlay = overlay_rect (hover (lastRects tracker)) /\
    CanvasOverlay.selectionRect overlay = overlay_rect (selection (lastRects tracker)) /\
    CanvasOverlaySpec.in_sync overlay.

(** Each component of [r] is less than half a pixel away from the
    corresponding number. *)
Definition within_half_a_pixel (r : ViewportRect) (l t w h : Q) : Prop :=
  (Qabs (l - left r) < 1 # 2)%Q /\ (Qabs (t - top r) < 1 # 2)%Q /\
  (Qabs (w - width r) < 1 # 2)%Q /\ (Qabs (h - height r) < 1 # 2)%Q.

End View.

(** A page on which every element is attached and measures 120.4 by 40
    at (10.6, 20), on a display of ratio 2. *)
Definition sample_page : layout (Element := nat) :=
  {| isConnected := fun _ => true;
     getBoundingClientRect :=
       fun _ => Some (PositionTrackerSpec.dom_box (106 # 10) 20%Q (1204 # 10) 40%Q);
     window_devicePixelRatio := 2 |}.

(** Element 7 is hovered and then clicked on that page. *)
Definition hovered_then_clicked : view (Element := nat) :=
  handleSelect sample_page 7%nat
    (EventController.extractModifiers (EventControllerSpec.move_over [7%nat] 1%Q 1%Q))
    (fold_left happen [hover_reported sample_page (Some 7%nat)] (started None)).

End EditorViewSpec.

(* ===================================================================== *)
(** * Sample evaluations of the string and selector primitives          *)
(* ===================================================================== *)

Example trim_ex : Str.trim "  go " = "go".
Proof. reflexivity. Qed.

Example split_ex : Str.split "|" "div|id=go|text=Go" = ["div"; "id=go"; "text=Go"].
Proof. reflexivity. Qed.

Example base36_ex : Str.Z_toString 36 1295 = "zz".
Proof. reflexivity. Qed.

Example parse_id : Css.parse "#go" = Some [[Css.Id "go"]].
Proof. reflexivity. Qed.

Example parse_path :
  Css.parse "body > div:nth-of-type(2) > span"
  = Some [[Css.Tag "body"]; [Css.Tag "div"; Css.NthOfType 2]; [Css.Tag "span"]].
Proof. reflexivity. Qed.

Example parse_dangling : Css.parse "body > " = None.
Proof. reflexivity. Qed.

Example parse_attr :
  Css.parse "input[name='q\ 1']" = Some [[Css.Tag "input"; Css.AttrEq "name" "q 1"]].
Proof. reflexivity. Qed.

Example parse_escaped_digit : Css.parse "#\31 a" = Some [[Css.Id "1a"]].
Proof. reflexivity. Qed.

(* ===================================================================== *)
(** * Properties of the message listener and the editor life cycle        *)
(* ===================================================================== *)

Module MessageListenerProofs.
Import WebEditorTypes Editor MessageListener.

Lemma start_body_failure (step : init_step) (s : EditorInternalState) :
  exists thrown, start_body (Some step) s = inr thrown.
Proof.
  destruct step; unfold start_body, run_step; simpl; eauto.
Qed.

Lemma start_failure_inactive (step : init_step) (s : EditorInternalState) :
  state_active s = false ->
  start (Some step) s = torn_down false.
Proof.
  intros Hs. unfold start. rewrite Hs.
  destruct (start_body_failure step s) as [thrown ->]. reflexivity.
Qed.

Lemma start_success_active (s : EditorInternalState) :
  state_active (start None s) = true.
Proof.
  unfold start. destruct (state_active s) eqn:Hs; [exact Hs | reflexivity].
Qed.

(** C10. The response to START always says [active = true] and the
    response to STOP always says [active = false], for any object behind
    the API; with the editor of editor.ts, when a step of [start] throws
    while the editor is inactive, the START response still says
    [active = true], the editor is left inactive with every subsystem
    cleared, and a PING that follows reports [active = false]. *)
Theorem start_stop_responses_are_constant :
  (forall (S : Type) (api : WebEditorV2Api S) (s : S),
      listener api (Some START) s
        = (false, Some (StartResponse true), WebEditorTypes.start api s)) /\
  (forall (S : Type) (api : WebEditorV2Api S) (s : S),
      listener api (Some STOP) s
        = (false, Some (StopResponse false), WebEditorTypes.stop api s)) /\
  (forall (step : init_step) (later : option init_step) (s : EditorInternalState),
      state_active s = false ->
      exists s',
        listener (createWebEditorV2 (Some step)) (Some START) s
          = (false, Some (StartResponse true), s') /\
        s' = torn_down false /\
        active (getState s') = false /\
        listener (createWebEditorV2 later) (Some PING) s'
          = (false, Some (PingResponse "pong" false 2), s')).
Proof.
  split; [reflexivity | split; [reflexivity |]].
  intros step later s Hs.
  exists (torn_down false).
  unfold listener; simpl.
  rewrite (start_failure_inactive step s Hs). auto.
Qed.

Lemma start_stop_responses_are_constant_witness :
  exists s',
    listener (createWebEditorV2 (Some createCanvasOverlay)) (Some START) created
      = (false, Some (StartResponse true), s') /\
    s' = torn_down false /\
    active (getState s') = false /\
    listener (createWebEditorV2 None) (Some PING) s'
      = (false, Some (PingResponse "pong" false 2), s').
Proof.
  apply (proj2 (proj2 start_stop_responses_are_constant) createCanvasOverlay None created).
  reflexivity.
Defined.

End MessageListenerProofs.

(* ===================================================================== *)
(** * Properties of the transaction manager                               *)
(* ===================================================================== *)

Module TransactionManagerProofs.
Import Locator TransactionManager TransactionManagerSpec.
Local Open Scope list_scope.

(** ** Stacks *)

Lemma pop_snoc (rest : list Transaction) (tx : Transaction) :
  pop (rest ++ [tx]) = Some (rest, tx).
Proof.
  unfold pop. rewrite reverse_snoc, reverse_involutive. reflexivity.
Qed.

Lemma pop_nil : pop [] = None.
Proof. reflexivity. Qed.

Lemma pop_Some (stack rest : list Transaction) (tx : Transaction) :
  pop stack = Some (rest, tx) -> stack = rest ++ [tx].
Proof.
  unfold pop. destruct (reverse stack) as [|x l] eqn:E; [discriminate |].
  intros [= <- <-].
  rewrite <- (reverse_involutive stack), E, reverse_cons. reflexivity.
Qed.

Lemma pop_None (stack : list Transaction) : pop stack = None -> stack = [].
Proof.
  destruct stack as [|x l] using rev_ind; [reflexivity |].
  rewrite pop_snoc. discriminate.
Qed.

Section Stacks.
Variable options : TransactionManagerOptions.

Lemma maxHistory_cases :
  (exists m, maxHistory options = Whole m /\ (1 <= m)%Z) \/
  maxHistory options = NaN \/ maxHistory options = PlusInfinity.
Proof.
  unfold maxHistory.
  destruct (default (Whole DEFAULT_MAX_HISTORY) (opt_maxHistory options)); auto;
    left; eexists; (split; [reflexivity | lia]).
Qed.

Lemma fits_le n n' : n' <= n -> fits options n -> fits options n'.
Proof. unfold fits. destruct (maxHistory options); intros; auto; lia. Qed.

Lemma fits_1 : fits options 1.
Proof.
  unfold fits. destruct maxHistory_cases as [(m & -> & H) | [-> | ->]]; auto.
Qed.

Lemma fits_0 : fits options 0.
Proof. apply (fits_le 1); [lia | apply fits_1]. Qed.

Lemma mergeWindowMs_nonneg : (0 <= mergeWindowMs options)%Z.
Proof. unfold mergeWindowMs. lia. Qed.

Lemma enforceMaxHistory_length (stack : list Transaction) :
  fits options (length (enforceMaxHistory options stack)).
Proof.
  unfold enforceMaxHistory, fits.
  destruct maxHistory_cases as [(m & -> & H) | [-> | ->]]; auto.
  destruct (Z.ltb_spec m (Z.of_nat (length stack))).
  - rewrite length_drop. lia.
  - assumption.
Qed.

Lemma enforceMaxHistory_fits (stack : list Transaction) :
  fits options (length stack) -> enforceMaxHistory options stack = stack.
Proof.
  unfold enforceMaxHistory, fits.
  destruct maxHistory_cases as [(m & -> & H) | [-> | ->]]; auto.
  intros Hf. destruct (Z.ltb_spec m (Z.of_nat (length stack))); [lia | reflexivity].
Qed.

(** Eviction drops a prefix, the oldest entries: as many as the stack
    has more than a finite [maxHistory]. *)
Lemma enforceMaxHistory_drop (stack : list Transaction) :
  enforceMaxHistory options stack
  = match maxHistory options with
    | Whole m => drop (length stack - Z.to_nat m) stack
    | _ => stack
    end.
Proof.
  unfold enforceMaxHistory.
  destruct maxHistory_cases as [(m & -> & H) | [-> | ->]]; auto.
  destruct (Z.ltb_spec m (Z.of_nat (length stack))).
  - f_equal. lia.
  - replace (length stack - Z.to_nat m) with 0 by lia. reflexivity.
Qed.

Lemma enforceMaxHistory_Forall (P : Transaction -> Prop) (stack : list Transaction) :
  Forall P stack -> Forall P (enforceMaxHistory options stack).
Proof.
  intros H. rewrite enforceMaxHistory_drop.
  destruct (maxHistory options); auto. apply Forall_drop, H.
Qed.

Lemma enforceMaxHistory_last (stack : list Transaction) (tx : Transaction) :
  last (enforceMaxHistory options (stack ++ [tx])) = Some tx.
Proof.
  rewrite enforceMaxHistory_drop.
  destruct maxHistory_cases as [(m & -> & H) | [-> | ->]]; try apply last_snoc.
  rewrite length_app. simpl.
  rewrite drop_app_le by lia.
  apply last_snoc.
Qed.

End Stacks.

(** ** Style edits *)

Lemma style_edit_single tx p b a :
  style_edit tx p b a -> getSingleStyleProperty tx = Some p.
Proof.
  intros (_ & _ & Hb & Ha). unfold getSingleStyleProperty, keys.
  rewrite Hb, Ha, !dom_singleton_L, union_idemp_L, elements_singleton.
  reflexivity.
Qed.

Lemma createStyleTransaction_style_edit id locator property b a t :
  normalizePropertyName property <> "" ->
  style_edit (createStyleTransaction id locator property b a t)
             (normalizePropertyName property) b a.
Proof. intros H. repeat split; assumption. Qed.

Lemma canMerge_style_edit tx1 tx2 p1 b1 a1 p2 b2 a2 (w : Z) :
  style_edit tx1 p1 b1 a1 -> style_edit tx2 p2 b2 a2 ->
  canMerge tx1 tx2 w
  = bool_decide ((Z.abs (timestamp tx2 - timestamp tx1) <= w)%Z /\
                 locatorKey (targetLocator tx1) = locatorKey (targetLocator tx2) /\
                 p1 = p2).
Proof.
  intros H1 H2. unfold canMerge.
  rewrite (style_edit_single _ _ _ _ H1), (style_edit_single _ _ _ _ H2).
  destruct H1 as (T1 & N1 & _ & _), H2 as (T2 & N2 & _ & _).
  rewrite T1, T2. simpl.
  destruct (Z.ltb_spec w (Z.abs (timestamp tx2 - timestamp tx1))).
  { symmetry. apply bool_decide_eq_false. lia. }
  repeat case_bool_decide; simpl; try reflexivity; try congruence; try tauto;
    exfalso; intuition congruence.
Qed.

Lemma mergeInto_style_edit tx1 tx2 p b1 a1 b2 a2 :
  style_edit tx1 p b1 a1 -> style_edit tx2 p b2 a2 ->
  exists top,
    mergeInto tx1 tx2 = Some top /\
    style_edit top p b1 a2 /\
    merged top = true /\ timestamp top = timestamp tx2 /\
    id top = id tx1 /\ targetLocator top = targetLocator tx1 /\
    before top = before tx1.
Proof.
  intros H1 H2. unfold mergeInto.
  rewrite (style_edit_single _ _ _ _ H1).
  destruct H1 as (T1 & N1 & B1 & A1), H2 as (T2 & N2 & B2 & A2).
  rewrite bool_decide_eq_false_2 by assumption.
  rewrite A2. simpl. rewrite lookup_singleton_eq.
  eexists. split; [reflexivity |].
  repeat split; simpl; try assumption.
  rewrite A1. simpl. rewrite insert_singleton_eq. reflexivity.
Qed.

(** ** Pushing *)

Section Push.
Variable options : TransactionManagerOptions.

Lemma undoStack_emit a t s : undoStack (emit a t s) = undoStack s.
Proof. reflexivity. Qed.

Lemma pushTransaction_merged tx s rest last last' :
  redoStack s = [] -> undoStack s = rest ++ [last] ->
  canMerge last tx (mergeWindowMs options) = true ->
  mergeInto last tx = Some last' ->
  undoStack (pushTransaction options tx true s) = rest ++ [last'] /\
  redoStack (pushTransaction options tx true s) = [].
Proof.
  intros Hr Hu Hc Hm. unfold pushTransaction.
  rewrite Hr. simpl. rewrite Hu, pop_snoc, Hc, Hm. simpl. auto.
Qed.

Lemma pushTransaction_pushed tx allowMerge s :
  (redoStack s <> [] \/ allowMerge = false \/ undoStack s = [] \/
   (exists rest last, undoStack s = rest ++ [last] /\
      (canMerge last tx (mergeWindowMs options) = false \/ mergeInto last tx = None))) ->
  undoStack (pushTransaction options tx allowMerge s)
    = enforceMaxHistory options (undoStack s ++ [tx]) /\
  redoStack (pushTransaction options tx allowMerge s) = [].
Proof.
  intros H. unfold pushTransaction.
  destruct (redoStack s) as [|r rs] eqn:Hr; simpl.
  - destruct allowMerge; simpl; [| auto].
    destruct H as [H | [H | [H | (rest & last & Hu & H)]]];
      [congruence | discriminate | rewrite H; simpl; auto |].
    rewrite Hu, pop_snoc.
    destruct H as [-> | H]; [simpl; auto |].
    rewrite H. destruct (canMerge _ _ _); simpl; auto.
  - auto.
Qed.

Lemma pushTransaction_clears_redo tx allowMerge s :
  redoStack (pushTransaction options tx allowMerge s) = [].
Proof.
  unfold pushTransaction.
  destruct (redoStack s) as [|r rs] eqn:Hr; simpl.
  - destruct (if allowMerge then _ else _) as [[rest last'] |]; simpl; assumption.
  - reflexivity.
Qed.

(** C1. Let the top of the undo stack be a style edit of property [p1]
    from [b1] to [a1] and let a second style edit, of [p2] from [b2] to
    [a2], be pushed with merging allowed while the redo stack is empty.
    If both touch the same property, their locator keys agree and their
    time stamps are at most the merge window apart, no entry is added:
    the top entry is replaced by one that goes from [b1] to [a2], is
    marked merged and carries the second time stamp (and keeps the
    identifier, target and before-snapshot of the first).  If the
    property differs, or the locator key differs, or the time stamps
    are further apart, the second edit becomes a new top entry. *)
Theorem merge_rewrites_top_entry s rest tx1 tx2 p1 b1 a1 p2 b2 a2 :
  undoStack s = rest ++ [tx1] ->
  redoStack s = [] ->
  style_edit tx1 p1 b1 a1 ->
  style_edit tx2 p2 b2 a2 ->
  let s' := pushTransaction options tx2 true s in
  (p1 = p2 ->
   locatorKey (targetLocator tx1) = locatorKey (targetLocator tx2) ->
   (Z.abs (timestamp tx2 - timestamp tx1) <= mergeWindowMs options)%Z ->
   exists top,
     undoStack s' = rest ++ [top] /\
     length (undoStack s') = length (undoStack s) /\
     style_edit top p1 b1 a2 /\
     merged top = true /\
     timestamp top = timestamp tx2 /\
     id top = id tx1 /\ targetLocator top = targetLocator tx1 /\
     before top = before tx1) /\
  (p1 <> p2 \/
   locatorKey (targetLocator tx1) <> locatorKey (targetLocator tx2) \/
   (mergeWindowMs options < Z.abs (timestamp tx2 - timestamp tx1))%Z ->
   undoStack s' = enforceMaxHistory options (rest ++ [tx1; tx2]) /\
   last (undoStack s') = Some tx2).
Proof.
  intros Hu Hr H1 H2 s'. subst s'. split.
  - intros <- Hk Ht.
    destruct (mergeInto_style_edit _ _ _ _ _ _ _ H1 H2)
      as (top & Hm & Hs & Hmerged & Hts & Hid & Htl & Hb).
    assert (Hc : canMerge tx1 tx2 (mergeWindowMs options) = true).
    { rewrite (canMerge_style_edit _ _ _ _ _ _ _ _ _ H1 H2).
      apply bool_decide_eq_true. auto. }
    destruct (pushTransaction_merged tx2 s rest tx1 top Hr Hu Hc Hm) as [E _].
    exists top. rewrite E, Hu, !length_app. simpl. auto 10.
  - intros Hne.
    assert (Hc : canMerge tx1 tx2 (mergeWindowMs options) = false).
    { rewrite (canMerge_style_edit _ _ _ _ _ _ _ _ _ H1 H2).
      apply bool_decide_eq_false. intros (? & ? & ?).
      destruct Hne as [? | [? | ?]]; [contradiction | contradiction | lia]. }
    destruct (pushTransaction_pushed tx2 true s) as [E _].
    { right; right; right. exists rest, tx1. auto. }
    rewrite E, Hu, <- app_assoc. simpl. split; [reflexivity |].
    replace (rest ++ [tx1; tx2]) with ((rest ++ [tx1]) ++ [tx2])
      by (rewrite <- app_assoc; reflexivity).
    apply enforceMaxHistory_last.
Qed.

End Push.

(** ** Property names stay non-empty when normalised again *)

Lemma has_ink_nonempty s : has_ink s = true -> s <> ""%string.
Proof. destruct s; [discriminate | discriminate]. Qed.

Lemma trimStart_ink s : has_ink (Str.trimStart s) = has_ink s.
Proof.
  induction s as [| c r IH]; [reflexivity |].
  simpl. destruct (Str.is_space c) eqn:E; simpl; [exact IH | rewrite E; reflexivity].
Qed.

Lemma trimEnd_empty s : Str.trimEnd s = ""%string <-> has_ink s = false.
Proof.
  induction s as [| c r IH]; [split; reflexivity |].
  simpl. destruct (Str.trimEnd r) as [| x y] eqn:E.
  - destruct (Str.is_space c); simpl.
    + rewrite <- IH. split; reflexivity.
    + split; discriminate.
  - split; [discriminate |]. intros H. apply orb_false_iff in H as [_ H].
    apply IH in H. discriminate.
Qed.

Lemma trimEnd_ink s : has_ink (Str.trimEnd s) = has_ink s.
Proof.
  induction s as [| c r IH]; [reflexivity |].
  simpl. destruct (Str.trimEnd r) as [| x y] eqn:E.
  - apply trimEnd_empty in E. rewrite E, orb_false_r.
    destruct (Str.is_space c) eqn:Hc; simpl; [reflexivity | rewrite Hc; reflexivity].
  - rewrite <- IH. reflexivity.
Qed.

Lemma trim_ink s : has_ink (Str.trim s) = has_ink s.
Proof. unfold Str.trim. rewrite trimEnd_ink. apply trimStart_ink. Qed.

Lemma trim_nonempty s : Str.trim s <> ""%string -> has_ink s = true.
Proof.
  intros H. destruct (has_ink s) eqn:E; [reflexivity |].
  exfalso. apply H. unfold Str.trim. apply trimEnd_empty.
  rewrite trimStart_ink. exact E.
Qed.

Lemma lower_char_space c : Str.is_space (Str.lower_char c) = Str.is_space c.
Proof. destruct c as [[] [] [] [] [] [] [] []]; reflexivity. Qed.

Lemma toLowerCase_ink s : has_ink (Str.toLowerCase s) = has_ink s.
Proof.
  induction s as [| c r IH]; [reflexivity |].
  simpl. rewrite lower_char_space, IH. reflexivity.
Qed.

Lemma camel_to_kebab_ink s : has_ink s = true -> has_ink (camel_to_kebab s) = true.
Proof.
  induction s as [| c r IH]; [discriminate |].
  simpl. destruct (Str.is_upper c); [reflexivity |].
  simpl. intros H. apply orb_true_iff in H as [H | H].
  - rewrite H. reflexivity.
  - rewrite (IH H). apply orb_true_r.
Qed.

Lemma normalizePropertyName_ink p :
  has_ink p = true -> has_ink (normalizePropertyName p) = true.
Proof.
  intros H. unfold normalizePropertyName.
  assert (Ht : has_ink (Str.trim p) = true) by (rewrite trim_ink; exact H).
  case_bool_decide as E; [rewrite E in Ht; discriminate |].
  destruct (Str.startsWith "--" (Str.trim p)); [exact Ht |].
  destruct (Str.includes_char "-" (Str.trim p)).
  - rewrite toLowerCase_ink. exact Ht.
  - rewrite toLowerCase_ink. apply camel_to_kebab_ink, Ht.
Qed.

Lemma normalizePropertyName_nonempty p :
  normalizePropertyName p <> ""%string -> has_ink p = true.
Proof.
  unfold normalizePropertyName. case_bool_decide as E; [congruence |].
  intros _. apply trim_nonempty, E.
Qed.

(** Both commit paths normalise the property name, and
    [createStyleTransaction] normalises it once more. *)
Lemma normalizePropertyName_twice p :
  normalizePropertyName p <> ""%string ->
  normalizePropertyName (normalizePropertyName p) <> ""%string.
Proof.
  intros H. apply has_ink_nonempty.
  do 2 apply normalizePropertyName_ink.
  apply normalizePropertyName_nonempty, H.
Qed.

Lemma is_style_edit_type tx : is_style_edit tx -> type tx = style.
Proof. intros (p & b & a & H & _). exact H. Qed.

Lemma createStyleTransaction_is_style_edit id locator property b a t :
  normalizePropertyName property <> ""%string ->
  is_style_edit (createStyleTransaction id locator (normalizePropertyName property) b a t).
Proof.
  intros H. eexists _, b, a.
  apply createStyleTransaction_style_edit, normalizePropertyName_twice, H.
Qed.

Lemma mergeInto_is_style_edit prev next top :
  is_style_edit prev -> mergeInto prev next = Some top -> is_style_edit top.
Proof.
  intros (p & b & a & H) Hm. unfold mergeInto in Hm.
  rewrite (style_edit_single _ _ _ _ H) in Hm.
  destruct H as (T & N & B & A).
  rewrite bool_decide_eq_false_2 in Hm by assumption.
  destruct (styles (after next) ≫= _) as [v |]; [| discriminate].
  injection Hm as <-. exists p, b, v.
  repeat split; simpl; try assumption.
  rewrite A. simpl. rewrite insert_singleton_eq. reflexivity.
Qed.

(** ** The states the API can reach *)

Section Reachable.
Variable options : TransactionManagerOptions.

#[local] Abbreviation perform := (perform options).
#[local] Abbreviation issued := (issued options).
#[local] Abbreviation well_formed := (well_formed options).
#[local] Abbreviation reachable := (reachable options).
#[local] Abbreviation invariant := (invariant options).

Lemma mergeInto_type prev next top :
  mergeInto prev next = Some top -> type top = type prev.
Proof.
  unfold mergeInto. destruct (getSingleStyleProperty prev); [| discriminate].
  case_bool_decide; [discriminate |].
  destruct (styles (after next) ≫= _); [| discriminate].
  intros [= <-]. reflexivity.
Qed.

Lemma pushTransaction_cases tx allowMerge s :
  let s' := pushTransaction options tx allowMerge s in
  isDisposed s' = isDisposed s /\ redoStack s' = [] /\
  ((exists rest last top,
       undoStack s = rest ++ [last] /\ redoStack s = [] /\
       mergeInto last tx = Some top /\ undoStack s' = rest ++ [top]) \/
   undoStack s' = enforceMaxHistory options (undoStack s ++ [tx])).
Proof.
  unfold pushTransaction.
  destruct (redoStack s) as [|r rs] eqn:Hr; simpl; [| auto].
  destruct allowMerge; simpl; [| auto].
  destruct (pop (undoStack s)) as [[rest last] |] eqn:Hp; simpl; [| auto].
  apply pop_Some in Hp.
  destruct (canMerge last tx (mergeWindowMs options)); simpl; [| auto].
  destruct (mergeInto last tx) as [top |] eqn:Hm; simpl; [| auto].
  split; [reflexivity |]. split; [assumption |].
  left. exists rest, last, top. auto.
Qed.

Lemma pushTransaction_invariant tx allowMerge s :
  is_style_edit tx -> isDisposed s = false ->
  invariant s -> invariant (pushTransaction options tx allowMerge s).
Proof.
  intros Ht Hd [I1 I2 I3 I4].
  destruct (pushTransaction_cases tx allowMerge s) as (Ed & Er & Hu).
  split.
  - rewrite Ed, Hd. discriminate.
  - destruct Hu as [(rest & last & top & Eu & _ & Hm & ->) | ->].
    + rewrite Eu in I2. apply Forall_app in I2 as [I2 I2'].
      apply Forall_app. split; [assumption |].
      constructor; [| constructor].
      apply (mergeInto_is_style_edit last tx top); [| assumption].
      inversion I2'; assumption.
    + apply enforceMaxHistory_Forall.
      apply Forall_app. split; [assumption |]. constructor; [assumption | constructor].
  - rewrite Er. constructor.
  - rewrite Er. simpl. rewrite Nat.add_0_r.
    destruct Hu as [(rest & last & top & Eu & Er' & _ & ->) | ->].
    + rewrite Eu, Er' in I4. eapply fits_le; [| exact I4].
      rewrite !length_app. simpl. lia.
    + apply enforceMaxHistory_length.
Qed.

Lemma undo_cases d s :
  let '(result, d', s') := undo d s in
  (result = None /\ d' = d /\ undoStack s' = undoStack s /\ redoStack s' = redoStack s /\
   isDisposed s' = isDisposed s) \/
  (exists rest tx,
     result = Some tx /\ isDisposed s = false /\
     undoStack s = rest ++ [tx] /\
     undoStack s' = rest /\ redoStack s' = redoStack s ++ [tx] /\
     isDisposed s' = isDisposed s).
Proof.
  unfold undo. destruct (isDisposed s) eqn:Hd; [left; auto |].
  destruct (pop (undoStack s)) as [[rest tx] |] eqn:Hp; [| left; auto].
  apply pop_Some in Hp.
  destruct (applyTransaction d tx true) as [d' |].
  - right. exists rest, tx. simpl. auto 10.
  - left. simpl. auto.
Qed.

Lemma redo_cases d s :
  let '(result, d', s') := redo options d s in
  (result = None /\ d' = d /\ undoStack s' = undoStack s /\ redoStack s' = redoStack s /\
   isDisposed s' = isDisposed s) \/
  (exists rest tx,
     result = Some tx /\ isDisposed s = false /\
     redoStack s = rest ++ [tx] /\
     redoStack s' = rest /\
     undoStack s' = enforceMaxHistory options (undoStack s ++ [tx]) /\
     isDisposed s' = isDisposed s).
Proof.
  unfold redo. destruct (isDisposed s) eqn:Hd; [left; auto |].
  destruct (pop (redoStack s)) as [[rest tx] |] eqn:Hp; [| left; auto].
  apply pop_Some in Hp.
  destruct (applyTransaction d tx false) as [d' |].
  - right. exists rest, tx. simpl. auto 10.
  - left. simpl. auto.
Qed.

Lemma invariant_same_stacks s s' :
  undoStack s' = undoStack s -> redoStack s' = redoStack s ->
  isDisposed s' = isDisposed s ->
  invariant s -> invariant s'.
Proof.
  intros Eu Er Ed [I1 I2 I3 I4].
  split; rewrite ?Eu, ?Er, ?Ed; assumption.
Qed.

Lemma fresh_id_stacks s :
  undoStack (snd (fresh_id options s)) = undoStack s /\
  redoStack (snd (fresh_id options s)) = redoStack s /\
  isDisposed (snd (fresh_id options s)) = isDisposed s.
Proof. auto. Qed.

Lemma recordStyle_invariant locator property b a m s :
  invariant s -> invariant (snd (recordStyle options locator property b a m s)).
Proof.
  intros I. unfold recordStyle.
  destruct (isDisposed s) eqn:Hd; [assumption |].
  case_bool_decide as Hp; [assumption |].
  case_bool_decide; [assumption |].
  simpl. apply pushTransaction_invariant; [| assumption |].
  - apply createStyleTransaction_is_style_edit, Hp.
  - eapply invariant_same_stacks; [.. | exact I]; reflexivity.
Qed.

Lemma issued_property h :
  issued h ->
  exists p, property h = normalizePropertyName p /\ normalizePropertyName p <> ""%string.
Proof.
  intros (d & target & p & s & h0 & s' & Hb & Hh).
  unfold beginStyle in Hb.
  destruct (isDisposed s); [discriminate |].
  destruct (Dom.element_at d target); [| discriminate].
  case_bool_decide as Hp; [discriminate |].
  simpl in Hb. injection Hb as <- <-.
  exists p. destruct Hh as [-> | ->]; auto.
Qed.

Lemma commit_invariant d h m s :
  issued h -> invariant s -> invariant (snd (commit options d h m s)).
Proof.
  intros Hh I. unfold commit.
  destruct (completed h); [assumption |].
  destruct (isDisposed s) eqn:Hd; [assumption |].
  simpl. case_bool_decide; [assumption |].
  simpl. apply pushTransaction_invariant; [| assumption |].
  - destruct (issued_property h Hh) as (p & -> & Hp).
    apply createStyleTransaction_is_style_edit, Hp.
  - eapply invariant_same_stacks; [.. | exact I]; reflexivity.
Qed.

Lemma beginStyle_invariant d target property s :
  invariant s -> invariant (snd (beginStyle options d target property s)).
Proof.
  intros I. unfold beginStyle.
  destruct (isDisposed s) eqn:Hd; [assumption |].
  destruct (Dom.element_at d target); [| assumption].
  case_bool_decide; [assumption |].
  simpl. eapply invariant_same_stacks; [.. | exact I]; reflexivity.
Qed.

Lemma beginStyle_handle d target property s h s' :
  beginStyle options d target property s = (Some h, s') ->
  completed h = false /\ isDisposed s' = false /\ isDisposed s = false.
Proof.
  unfold beginStyle.
  destruct (isDisposed s) eqn:Hd; [discriminate |].
  destruct (Dom.element_at d target); [| discriminate].
  case_bool_decide; [discriminate |].
  simpl. intros [= <- <-]. auto.
Qed.

Lemma perform_invariant s c :
  well_formed c -> invariant s -> invariant (perform s c).
Proof.
  intros Hwf I.
  destruct c as [d tg prop | d h m | d h | d tg prop value m | loc prop b a m | d | d | |];
    simpl.
  - apply beginStyle_invariant, I.
  - apply commit_invariant; assumption.
  - unfold rollback. destruct (completed h || isDisposed s); [assumption |].
    simpl. eapply invariant_same_stacks; [.. | exact I]; reflexivity.
  - unfold applyStyle.
    pose proof (beginStyle_invariant d tg prop s I) as I'.
    destruct (beginStyle options d tg prop s) as [[h |] s1] eqn:Hb; [| exact I'].
    assert (Hh : issued h) by (exists d, tg, prop, s, h, s1; auto).
    pose proof (commit_invariant (set (inline_style d tg) h value s1) h m s1 Hh I') as I''.
    destruct (commit options (set (inline_style d tg) h value s1) h m s1) as [[tx h'] s2].
    exact I''.
  - apply recordStyle_invariant, I.
  - pose proof (undo_cases d s) as H.
    destruct (undo d s) as [[result d'] s']. simpl.
    destruct H as [(_ & _ & Eu & Er & Ed) | (rest & tx & _ & Hd & Eu & Eu' & Er' & Ed)].
    + eapply invariant_same_stacks; eauto.
    + destruct I as [I1 I2 I3 I4]. rewrite Eu in *.
      apply Forall_app in I2 as [I2 I2'].
      split; rewrite ?Eu', ?Er', ?Ed, ?Hd.
      * discriminate.
      * assumption.
      * apply Forall_app; auto.
      * eapply fits_le; [| exact I4]. rewrite !length_app. simpl. lia.
  - pose proof (redo_cases d s) as H.
    destruct (redo options d s) as [[result d'] s']. simpl.
    destruct H as [(_ & _ & Eu & Er & Ed) | (rest & tx & _ & Hd & Er & Er' & Eu' & Ed)].
    + eapply invariant_same_stacks; eauto.
    + destruct I as [I1 I2 I3 I4]. rewrite Er in *.
      apply Forall_app in I3 as [I3 I3'].
      rewrite enforceMaxHistory_fits in Eu'
        by (eapply fits_le; [| exact I4]; rewrite !length_app; simpl; lia).
      split; rewrite ?Eu', ?Er', ?Ed, ?Hd.
      * discriminate.
      * apply Forall_app; auto.
      * assumption.
      * eapply fits_le; [| exact I4]. rewrite !length_app. simpl. lia.
  - split; simpl; auto. apply fits_0.
  - split; simpl; auto. apply fits_0.
Qed.

Lemma created_invariant s : created s -> invariant s.
Proof.
  intros (Eu & Er & Ed).
  split; rewrite ?Eu, ?Er, ?Ed; simpl; auto; try discriminate. apply fits_0.
Qed.

Lemma reachable_invariant s : reachable s -> invariant s.
Proof.
  intros (s0 & calls & H0 & Hwf & ->).
  apply created_invariant in H0. revert s0 H0.
  induction Hwf as [| c calls Hc _ IH]; intros s0 H0; simpl; [assumption |].
  apply IH, perform_invariant; assumption.
Qed.

Lemma reachable_created s : created s -> reachable s.
Proof. intros H. exists s, []. auto. Qed.

Lemma reachable_perform s c :
  well_formed c -> reachable s -> reachable (perform s c).
Proof.
  intros Hc (s0 & calls & H0 & Hwf & ->). exists s0, (calls ++ [c]).
  split; [assumption |]. split.
  - apply Forall_app. split; [assumption | constructor; [assumption | constructor]].
  - rewrite fold_left_app. reflexivity.
Qed.

(** In a reachable state every entry of the undo stack is a style edit,
    so the merge theorem applies to its top entry. *)
Lemma reachable_top_is_style_edit s rest tx :
  reachable s -> undoStack s = rest ++ [tx] -> is_style_edit tx.
Proof.
  intros Hr Hu. apply reachable_invariant in Hr as [_ I2 _ _].
  rewrite Hu in I2. apply Forall_app in I2 as [_ I2]. inversion I2; assumption.
Qed.

Lemma with_stacks_same s : with_stacks (undoStack s) (redoStack s) s = s.
Proof. destruct s; reflexivity. Qed.

Lemma nonempty_not_disposed s tx rest :
  invariant s -> undoStack s = rest ++ [tx] \/ redoStack s = rest ++ [tx] ->
  isDisposed s = false.
Proof.
  intros [I1 _ _ _] H. destruct (isDisposed s); [| reflexivity].
  destruct (I1 eq_refl) as [Eu Er]. rewrite Eu, Er in H.
  destruct H as [H | H]; destruct rest; discriminate.
Qed.

(** C2. In every state the API can reach: when the target locator of
    the transaction on top of the undo stack does not resolve in the
    live document, [undo] returns none, writes nothing to the document,
    leaves both stacks as they were and calls the error callback once;
    and the same holds for [redo] and the top of the redo stack. *)
Theorem resolution_failure_restores_stacks s d tx rest :
  reachable s ->
  locateElement d (targetLocator tx) = None ->
  (undoStack s = rest ++ [tx] ->
   exists s',
     undo d s = (None, d, s') /\
     undoStack s' = undoStack s /\ redoStack s' = redoStack s /\
     trace s' = trace s
       ++ [onApplyError ("Failed to locate element for undo: " ++ id tx)%string]) /\
  (redoStack s = rest ++ [tx] ->
   exists s',
     redo options d s = (None, d, s') /\
     undoStack s' = undoStack s /\ redoStack s' = redoStack s /\
     trace s' = trace s
       ++ [onApplyError ("Failed to locate element for redo: " ++ id tx)%string]).
Proof.
  intros Hreach Hloc. apply reachable_invariant in Hreach as I.
  split; intros Hs.
  - pose proof (nonempty_not_disposed s tx rest I (or_introl Hs)) as Hd.
    assert (Ht : type tx = style).
    { destruct I as [_ I2 _ _]. rewrite Hs in I2.
      apply Forall_app in I2 as [_ I2]. apply is_style_edit_type.
      inversion I2; assumption. }
    unfold undo, applyTransaction.
    rewrite Hd, Hs, pop_snoc, Ht, Hloc. simpl.
    eexists. split; [reflexivity |]. simpl. auto.
  - pose proof (nonempty_not_disposed s tx rest I (or_intror Hs)) as Hd.
    assert (Ht : type tx = style).
    { destruct I as [_ _ I3 _]. rewrite Hs in I3.
      apply Forall_app in I3 as [_ I3]. apply is_style_edit_type.
      inversion I3; assumption. }
    unfold redo, applyTransaction.
    rewrite Hd, Hs, pop_snoc, Ht, Hloc. simpl.
    eexists. split; [reflexivity |]. simpl. auto.
Qed.




End Reachable.

(** ** The scenario of the specification: red, blue, green *)

Example first_edit_recorded : undoStack after_first_edit = [red_to_blue].
Proof. reflexivity. Qed.

Example second_edit_merged :
  map (fun tx => (id tx, map_to_list <$> styles (before tx),
                  map_to_list <$> styles (after tx), timestamp tx, merged tx))
      (undoStack (snd (recordStyle default_options button_locator
                         "color" "blue" "green" None after_first_edit)))
  = [("tx_0_1", Some [("color", "red")], Some [("color", "green")], 300%Z, true)].
Proof. vm_compute. reflexivity. Qed.

Lemma after_first_edit_reachable : reachable default_options after_first_edit.
Proof.
  exists initial, [call_recordStyle button_locator "color" "red" "blue" None].
  split; [repeat split; reflexivity |].
  split; [repeat constructor | reflexivity].
Defined.

Lemma merge_rewrites_top_entry_witness :
  exists top,
    undoStack (pushTransaction default_options blue_to_green true after_first_edit)
      = [] ++ [top] /\
    length (undoStack (pushTransaction default_options blue_to_green true after_first_edit))
      = length (undoStack after_first_edit) /\
    style_edit top "color" "red" "green" /\
    merged top = true /\
    timestamp top = timestamp blue_to_green /\
    id top = id red_to_blue /\ targetLocator top = targetLocator red_to_blue /\
    before top = before red_to_blue.
Proof.
  assert (H1 : style_edit red_to_blue "color" "red" "blue")
    by (repeat split; [discriminate | reflexivity ..]).
  assert (H2 : style_edit blue_to_green "color" "blue" "green")
    by (repeat split; [discriminate | reflexivity ..]).
  apply (proj1 (merge_rewrites_top_entry default_options after_first_edit []
                  red_to_blue blue_to_green "color" "red" "blue" "color" "blue" "green"
                  eq_refl eq_refl H1 H2)).
  - reflexivity.
  - reflexivity.
  - vm_compute. discriminate.
Defined.

Lemma resolution_failure_restores_stacks_witness :
  exists s',
    undo [] after_first_edit = (None, [], s') /\
    undoStack s' = undoStack after_first_edit /\
    redoStack s' = redoStack after_first_edit /\
    trace s' = trace after_first_edit
      ++ [onApplyError "Failed to locate element for undo: tx_0_1"].
Proof.
  apply (proj1 (resolution_failure_restores_stacks default_options after_first_edit []
                  red_to_blue [] after_first_edit_reachable eq_refl)).
  reflexivity.
Defined.

(** ** A history of two entries *)

Example two_edits_fill_the_history :
  undoStack HistorySpec.after_two_edits = [HistorySpec.coloured; HistorySpec.widened] /\
  redoStack HistorySpec.after_two_edits = [].
Proof. vm_compute. split; reflexivity. Qed.

Example third_edit_evicts_and_undo_moves_it :
  undoStack HistorySpec.after_three_edits_one_undone = [HistorySpec.widened] /\
  redoStack HistorySpec.after_three_edits_one_undone = [HistorySpec.raised].
Proof. vm_compute. split; reflexivity. Qed.




End TransactionManagerProofs.

(* ===================================================================== *)
(** * Properties of the rounding                                          *)
(* ===================================================================== *)

Module DoubleProofs.
Import Double.
Local Open Scope Q_scope.

Lemma pow2_pos e : 0 < pow2 e.
Proof. apply Qpower_0_lt. reflexivity. Qed.

Lemma pow2_le a b : (a <= b)%Z -> pow2 a <= pow2 b.
Proof. intros H. apply Qpower_le_compat_l; [exact H | discriminate]. Qed.

Lemma pow2_lt a b : (a < b)%Z -> pow2 a < pow2 b.
Proof. intros H. apply Qpower_lt_compat_l; [exact H | reflexivity]. Qed.

Lemma pow2_add a b : pow2 (a + b) == pow2 a * pow2 b.
Proof. apply Qpower_plus. discriminate. Qed.

Lemma pow2_Z k : (0 <= k)%Z -> pow2 k == inject_Z (2 ^ k).
Proof. intros H. unfold pow2. rewrite Zpower_Qpower by exact H. reflexivity. Qed.

Lemma pow2_sub a b : pow2 a / pow2 b == pow2 (a - b).
Proof.
  pose proof (pow2_pos b) as Hb.
  replace a with ((a - b) + b)%Z at 1 by lia. rewrite pow2_add.
  field. intros E. rewrite E in Hb. discriminate.
Qed.

Lemma exponent_spec x : 0 < x -> pow2 (exponent x) <= x /\ x < pow2 (exponent x + 1).
Proof.
  intros Hx. unfold exponent.
  destruct x as [n d]. cbn [Qnum Qden].
  assert (Hn : (0 < n)%Z) by (unfold Qlt in Hx; simpl in Hx; lia).
  set (ln := Z.log2 n). set (ld := Z.log2 (Z.pos d)).
  destruct (Z.log2_spec n Hn) as [Hn1 Hn2].
  destruct (Z.log2_spec (Z.pos d) (Pos2Z.is_pos d)) as [Hd1 Hd2].
  fold ln in Hn1, Hn2. fold ld in Hd1, Hd2.
  assert (Hln : (0 <= ln)%Z) by apply Z.log2_nonneg.
  assert (Hld : (0 <= ld)%Z) by apply Z.log2_nonneg.
  assert (Hq : n # d == inject_Z n / inject_Z (Z.pos d)) by apply Qmake_Qdiv.
  assert (Hdpos : 0 < inject_Z (Z.pos d)) by (unfold Qlt; simpl; lia).
  rewrite Zle_Qle, <- pow2_Z in Hn1, Hd1 by lia.
  rewrite Zlt_Qlt, <- pow2_Z in Hn2, Hd2 by lia.
  assert (Hup : n # d < pow2 (ln - ld + 1)).
  { rewrite Hq. apply Qlt_shift_div_r; [exact Hdpos |].
    apply Qlt_le_trans with (pow2 (Z.succ ln)); [exact Hn2 |].
    replace (Z.succ ln) with ((ln - ld + 1) + ld)%Z by lia. rewrite pow2_add.
    apply Qmult_le_l; [apply pow2_pos | exact Hd1]. }
  assert (Hlow : pow2 (ln - ld - 1) <= n # d).
  { rewrite Hq. apply Qle_shift_div_l; [exact Hdpos |].
    apply Qle_trans with (pow2 ln); [| exact Hn1].
    replace ln with ((ln - ld - 1) + Z.succ ld)%Z at 2 by lia. rewrite pow2_add.
    apply Qmult_le_l; [apply pow2_pos | apply Qlt_le_weak, Hd2]. }
  destruct (Qle_bool (pow2 (ln - ld)) (n # d)) eqn:E.
  - apply Qle_bool_iff in E. split; assumption.
  - split; [exact Hlow |].
    replace (ln - ld - 1 + 1)%Z with (ln - ld)%Z by lia.
    apply Qnot_le_lt. intros H. apply Qle_bool_iff in H. congruence.
Qed.

Lemma nearest_even_floor y :
  (Qfloor y <= nearest_even y <= Qfloor y + 1)%Z.
Proof.
  unfold nearest_even. destruct (Qcompare _ _); [destruct (Z.even _) | |]; lia.
Qed.

Lemma nearest_even_ge n y : inject_Z n <= y -> (n <= nearest_even y)%Z.
Proof.
  intros H. pose proof (nearest_even_floor y).
  apply Qfloor_resp_le in H. rewrite Qfloor_Z in H. lia.
Qed.

(** Below a whole number and a half the nearest whole number is at most
    that number. *)
Lemma nearest_even_below n y : y < inject_Z n + (1 # 2) -> (nearest_even y <= n)%Z.
Proof.
  intros H. unfold nearest_even.
  pose proof (Qfloor_le y) as Hf.
  assert (Hfn : (Qfloor y <= n)%Z).
  { destruct (Z.le_gt_cases (Qfloor y) n) as [L | G]; [exact L |].
    assert (inject_Z (n + 1) <= inject_Z (Qfloor y)) by (rewrite <- Zle_Qle; lia).
    rewrite inject_Z_plus in H0. change (inject_Z 1) with 1 in H0. exfalso. lra. }
  destruct (Z.eq_dec (Qfloor y) n) as [E | Ne].
  - rewrite E. assert (Hc : Qcompare (y - inject_Z n) (1 # 2) = Lt).
    { rewrite <- Qlt_alt. lra. }
    rewrite Hc. lia.
  - destruct (Qcompare _ _); [destruct (Z.even _) | |]; lia.
Qed.

Lemma nearest_even_le n y : y <= inject_Z n -> (nearest_even y <= n)%Z.
Proof. intros H. apply nearest_even_below. lra. Qed.

(** From half below an even whole number on, the nearest whole number is
    at least that number. *)
Lemma inject_Z_pred n : inject_Z (n - 1) == inject_Z n - 1.
Proof. unfold Z.sub. rewrite inject_Z_plus, inject_Z_opp. reflexivity. Qed.

Lemma inject_Z_succ n : inject_Z (n + 1) == inject_Z n + 1.
Proof. rewrite inject_Z_plus. reflexivity. Qed.

Lemma nearest_even_above n y :
  Z.even n = true -> inject_Z n - (1 # 2) <= y -> (n <= nearest_even y)%Z.
Proof.
  intros He H. unfold nearest_even.
  pose proof (Qlt_floor y) as Hf. rewrite inject_Z_succ in Hf.
  assert (Hfn : (n - 1 <= Qfloor y)%Z).
  { destruct (Z.le_gt_cases (n - 1) (Qfloor y)) as [L | G]; [exact L | exfalso].
    assert (H0 : inject_Z (Qfloor y + 1) <= inject_Z (n - 1)) by (rewrite <- Zle_Qle; lia).
    rewrite inject_Z_succ, inject_Z_pred in H0. lra. }
  destruct (Z.eq_dec (Qfloor y) (n - 1)%Z) as [E | Ne].
  - rewrite E.
    assert (Ho : Z.even (n - 1) = false).
    { rewrite Z.even_sub, He. reflexivity. }
    rewrite Ho.
    destruct (Qcompare (y - inject_Z (n - 1)) (1 # 2)) eqn:Hc; try lia.
    exfalso. rewrite <- Qlt_alt, inject_Z_pred in Hc. lra.
  - destruct (Qcompare _ _); [destruct (Z.even (Qfloor y)) | |]; lia.
Qed.


Lemma round_magnitude_ge_pow2 x b :
  0 < x -> (-1022 <= b)%Z -> pow2 b <= x -> pow2 b <= round_magnitude x.
Proof.
  intros Hx Hb Hbx. unfold round_magnitude, ulp_exponent.
  destruct (exponent_spec x Hx) as [E1 E2].
  set (bx := exponent x) in *.
  assert (Hbb : (b <= bx)%Z).
  { destruct (Z.le_gt_cases b bx) as [L | G]; [exact L | exfalso].
    assert (pow2 (bx + 1) <= pow2 b) by (apply pow2_le; lia). lra. }
  replace (Z.max (bx - 52) (-1074)) with (bx - 52)%Z by lia.
  set (e := (bx - 52)%Z).
  pose proof (pow2_pos e) as He.
  assert (Hy : inject_Z (2 ^ 52) <= x / pow2 e).
  { apply Qle_shift_div_l; [exact He |].
    rewrite <- pow2_Z by lia. rewrite <- pow2_add.
    replace (52 + e)%Z with bx by (unfold e; lia). exact E1. }
  apply nearest_even_ge in Hy. rewrite Zle_Qle, <- pow2_Z in Hy by lia.
  apply Qle_trans with (pow2 bx); [apply pow2_le, Hbb |].
  replace bx with (52 + e)%Z at 1 by (unfold e; lia). rewrite pow2_add.
  apply Qmult_le_compat_r; [exact Hy | apply Qlt_le_weak, He].
Qed.


Lemma exponent_unique x b :
  0 < x -> pow2 b <= x -> x < pow2 (b + 1) -> exponent x = b.
Proof.
  intros Hx H1 H2. destruct (exponent_spec x Hx) as [E1 E2].
  destruct (Z.lt_trichotomy (exponent x) b) as [L | [E | G]]; [exfalso | exact E | exfalso].
  - assert (pow2 (exponent x + 1) <= pow2 b) by (apply pow2_le; lia). lra.
  - assert (pow2 (b + 1) <= pow2 (exponent x)) by (apply pow2_le; lia). lra.
Qed.

Lemma round_magnitude_le_pow2 x c :
  0 < x -> (-1074 <= c)%Z -> x <= pow2 c -> round_magnitude x <= pow2 c.
Proof.
  intros Hx Hc Hxc. unfold round_magnitude, ulp_exponent.
  destruct (exponent_spec x Hx) as [E1 E2].
  set (bx := exponent x) in *.
  assert (Hbc : (bx <= c)%Z).
  { destruct (Z.le_gt_cases bx c) as [L | G]; [exact L | exfalso].
    assert (pow2 (c + 1) <= pow2 bx) by (apply pow2_le; lia).
    assert (pow2 c < pow2 (c + 1)) by (apply pow2_lt; lia). lra. }
  set (e := Z.max (bx - 52) (-1074)).
  assert (Hec : (e <= c)%Z) by (unfold e; lia).
  pose proof (pow2_pos e) as He.
  assert (Hy : x / pow2 e <= inject_Z (2 ^ (c - e))).
  { apply Qle_shift_div_r; [exact He |].
    rewrite <- pow2_Z by lia.
    rewrite <- (pow2_add (c - e) e).
    replace (c - e + e)%Z with c by lia. exact Hxc. }
  apply nearest_even_le in Hy. rewrite Zle_Qle, <- pow2_Z in Hy by lia.
  replace (pow2 c) with (pow2 ((c - e) + e)) by (f_equal; lia). rewrite pow2_add.
  apply Qmult_le_compat_r; [exact Hy | apply Qlt_le_weak, He].
Qed.

Lemma round_magnitude_nonneg x : 0 < x -> 0 <= round_magnitude x.
Proof.
  intros Hx. unfold round_magnitude.
  pose proof (pow2_pos (ulp_exponent x)) as He.
  assert (Hy : inject_Z 0 <= x / pow2 (ulp_exponent x)).
  { apply Qle_shift_div_l; [exact He |]. change (inject_Z 0) with 0. lra. }
  apply nearest_even_ge in Hy. rewrite Zle_Qle in Hy.
  apply Qmult_le_0_compat; [exact Hy | apply Qlt_le_weak, He].
Qed.

Lemma round_magnitude_half x :
  (1 # 2) - pow2 (-55) <= x -> 1 # 2 <= round_magnitude x.
Proof.
  intros H.
  assert (Hx : 0 < x).
  { apply Qlt_le_trans with ((1 # 2) - pow2 (-55)); [reflexivity | exact H]. }
  destruct (Qlt_le_dec x (1 # 2)) as [L | G].
  - assert (Eb : exponent x = (-2)%Z).
    { apply exponent_unique; [exact Hx | | exact L].
      apply Qle_trans with ((1 # 2) - pow2 (-55)); [discriminate | exact H]. }
    unfold round_magnitude, ulp_exponent. rewrite Eb.
    change (Z.max (-2 - 52) (-1074)) with (-54)%Z.
    assert (Hy : inject_Z (2 ^ 53) - (1 # 2) <= x / pow2 (-54)).
    { apply Qle_shift_div_l; [apply pow2_pos |].
      apply Qle_trans with ((1 # 2) - pow2 (-55)); [discriminate | exact H]. }
    apply nearest_even_above in Hy; [| reflexivity].
    rewrite Zle_Qle in Hy.
    apply Qle_trans with (inject_Z (2 ^ 53) * pow2 (-54)); [discriminate |].
    apply Qmult_le_compat_r; [exact Hy | discriminate].
  - change (1 # 2) with (pow2 (-1)). apply round_magnitude_ge_pow2; [exact Hx | lia | exact G].
Qed.

Lemma round_magnitude_below_half x :
  0 < x -> x < (1 # 2) - pow2 (-55) -> round_magnitude x < 1 # 2.
Proof.
  intros Hx H.
  destruct (Qlt_le_dec x (pow2 (-2))) as [L | G].
  - apply Qle_lt_trans with (pow2 (-2)); [| reflexivity].
    apply round_magnitude_le_pow2; [exact Hx | lia | apply Qlt_le_weak, L].
  - assert (Eb : exponent x = (-2)%Z).
    { apply exponent_unique; [exact Hx | exact G |].
      apply Qlt_trans with ((1 # 2) - pow2 (-55)); [exact H | reflexivity]. }
    unfold round_magnitude, ulp_exponent. rewrite Eb.
    change (Z.max (-2 - 52) (-1074)) with (-54)%Z.
    assert (Hy : x / pow2 (-54) < inject_Z (2 ^ 53 - 1) + (1 # 2)).
    { apply Qlt_shift_div_r; [apply pow2_pos |].
      apply Qlt_le_trans with ((1 # 2) - pow2 (-55)); [exact H | discriminate]. }
    apply nearest_even_below in Hy. rewrite Zle_Qle in Hy.
    apply Qle_lt_trans with (inject_Z (2 ^ 53 - 1) * pow2 (-54)); [| reflexivity].
    apply Qmult_le_compat_r; [exact Hy | discriminate].
Qed.

(** A difference is rounded to less than one half exactly when it is
    more than [2^-55] below one half. *)
Lemma round_below_half x :
  Qabs (round x) < 1 # 2 <-> Qabs x < (1 # 2) - pow2 (-55).
Proof.
  unfold round. destruct (Qcompare x 0) eqn:E.
  - apply Qeq_alt in E. rewrite E. split; reflexivity.
  - apply Qlt_alt in E.
    assert (Hn : 0 < - x) by lra.
    pose proof (round_magnitude_nonneg _ Hn) as H0.
    rewrite Qabs_opp, (Qabs_pos _ H0), (Qabs_neg x) by lra.
    split; intros H.
    + apply Qnot_le_lt. intros C. apply round_magnitude_half in C. lra.
    + apply round_magnitude_below_half; assumption.
  - apply Qgt_alt in E.
    pose proof (round_magnitude_nonneg _ E) as H0.
    rewrite (Qabs_pos _ H0), (Qabs_pos x) by lra.
    split; intros H.
    + apply Qnot_le_lt. intros C. apply round_magnitude_half in C. lra.
    + apply round_magnitude_below_half; assumption.
Qed.

End DoubleProofs.

(* ===================================================================== *)
(** * Properties of the position tracker                                  *)
(* ===================================================================== *)

Module PositionTrackerProofs.
Import PositionTracker PositionTrackerSpec.
Local Open Scope list_scope.

Lemma approximatelyEqual_false (a b : Q) :
  approximatelyEqual a b = false <-> rounds_to_tolerance (Qabs (a - b)).
Proof.
  unfold approximatelyEqual, Qltb, rounds_to_tolerance, rounded_tolerance, RECT_EPSILON.
  rewrite negb_false_iff, Qle_bool_iff.
  pose proof (DoubleProofs.round_below_half (a - b)) as H.
  split; intros G.
  - apply Qnot_lt_le. intros C. apply H in C. apply (Qlt_not_le _ _ C G).
  - apply Qnot_lt_le. intros C. apply H in C. apply (Qlt_not_le _ _ C G).
Qed.

Lemma approximatelyEqual_true (a b : Q) :
  approximatelyEqual a b = true <-> (Qabs (a - b) < rounded_tolerance)%Q.
Proof.
  pose proof (approximatelyEqual_false a b) as H. unfold rounds_to_tolerance in H.
  destruct (approximatelyEqual a b); split; intros G; try reflexivity; try discriminate.
  - apply Qnot_le_lt. intros C. apply H in C. discriminate.
  - exfalso. apply (Qlt_not_le _ _ G), H. reflexivity.
Qed.

Lemma at_least_rounds gap : at_least_tolerance gap -> rounds_to_tolerance gap.
Proof.
  unfold at_least_tolerance, rounds_to_tolerance, rounded_tolerance. intros H.
  apply Qle_trans with RECT_EPSILON; [discriminate | exact H].
Qed.

Lemma rects_differ_rounds new old :
  rects_differ at_least_tolerance new old -> rects_differ rounds_to_tolerance new old.
Proof.
  assert (Hc : forall n o, component_differs at_least_tolerance n o ->
                           component_differs rounds_to_tolerance n o).
  { unfold component_differs. intros n o [H | [H | [H | H]]];
      apply at_least_rounds in H; auto. }
  assert (Hs : forall n o, slot_differs at_least_tolerance n o ->
                           slot_differs rounds_to_tolerance n o).
  { intros [n |] [o |]; simpl; auto. }
  unfold rects_differ. intros [H | H]; apply Hs in H; auto.
Qed.

Lemma rectApproximatelyEqual_false (new old : option ViewportRect) :
  rectApproximatelyEqual new old = false <-> slot_differs rounds_to_tolerance new old.
Proof.
  destruct new as [n |], old as [o |]; simpl; try (split; [auto | reflexivity]).
  - unfold component_differs. rewrite !andb_false_iff, !approximatelyEqual_false. tauto.
  - split; [discriminate | contradiction].
Qed.

Lemma trackedRectsEqual_false (new old : TrackedRects) :
  trackedRectsEqual new old = false <-> rects_differ rounds_to_tolerance new old.
Proof.
  unfold trackedRectsEqual, rects_differ.
  rewrite andb_false_iff, !rectApproximatelyEqual_false. reflexivity.
Qed.

Section Sync.
Context {Element : Type} `{EqDecision Element}.
Variable isConnected : Element -> bool.
Variable getBoundingClientRect : Element -> option DOMRect.

#[local] Abbreviation computeRects := (computeRects isConnected getBoundingClientRect).
#[local] Abbreviation updateIfChanged := (updateIfChanged isConnected getBoundingClientRect).
#[local] Abbreviation forceUpdate := (forceUpdate isConnected getBoundingClientRect).
#[local] Abbreviation frame := (frame isConnected getBoundingClientRect).
#[local] Abbreviation sync := (sync isConnected getBoundingClientRect).

Lemma sync_updateIfChanged s s' :
  isDisposed s = false -> sync s s' -> s' = updateIfChanged (cancelRaf s).
Proof.
  intros Hd [| Hp].
  - unfold PositionTracker.forceUpdate. rewrite Hd. reflexivity.
  - unfold PositionTracker.frame. rewrite Hp. reflexivity.
Qed.

Lemma computeRects_elements s :
  hoverElement (snd (computeRects s)) = resolveConnected isConnected (hoverElement s) /\
  selectionElement (snd (computeRects s))
    = resolveConnected isConnected (selectionElement s) /\
  lastRects (snd (computeRects s)) = lastRects s /\
  updates (snd (computeRects s)) = updates s.
Proof.
  unfold PositionTracker.computeRects.
  destruct (resolveConnected isConnected (hoverElement s)) as [h |];
    destruct (resolveConnected isConnected (selectionElement s)) as [e |];
    try destruct (decide (h = e)); simpl; auto.
Qed.

Lemma computeRects_detached_hover s e :
  hoverElement s = Some e -> isConnected e = false ->
  hover (fst (computeRects s)) = None.
Proof.
  intros Hh Hc. unfold PositionTracker.computeRects.
  rewrite Hh. simpl. rewrite Hc.
  destruct (resolveConnected isConnected (selectionElement s)); reflexivity.
Qed.

Lemma computeRects_detached_selection s e :
  selectionElement s = Some e -> isConnected e = false ->
  selection (fst (computeRects s)) = None.
Proof.
  intros Hh Hc. unfold PositionTracker.computeRects.
  rewrite Hh. simpl. rewrite Hc.
  destruct (resolveConnected isConnected (hoverElement s)); reflexivity.
Qed.

Lemma updateIfChanged_spec s :
  isDisposed s = false ->
  let next := fst (computeRects s) in
  let s' := updateIfChanged s in
  hoverElement s' = resolveConnected isConnected (hoverElement s) /\
  selectionElement s' = resolveConnected isConnected (selectionElement s) /\
  ((trackedRectsEqual next (lastRects s) = true /\
    lastRects s' = lastRects s /\ updates s' = updates s) \/
   (trackedRectsEqual next (lastRects s) = false /\
    lastRects s' = next /\ updates s' = updates s ++ [next])).
Proof.
  intros Hd next s'. subst next s'. unfold PositionTracker.updateIfChanged.
  rewrite Hd.
  destruct (computeRects_elements s) as (Eh & Es & El & Eu).
  destruct (computeRects s) as [next s1]. simpl in *.
  rewrite El.
  destruct (trackedRectsEqual next (lastRects s)) eqn:E; simpl.
  - split; [assumption |]. split; [assumption |]. left. auto.
  - split; [assumption |]. split; [assumption |]. right. rewrite Eu. auto.
Qed.

(** C9 (amended). On a tracker that is not disposed, a synchronisation
    (forced, or the scheduled frame) clears the reference of every slot
    whose element is detached and leaves [null] as the rectangle of that
    slot, both in what it computes and in what it remembers as last
    reported; it calls the update callback at most once, with the
    rectangles it computed.  It does so exactly when a slot went from no
    rectangle to one or back, or the difference between a component of a
    slot and its last reported value rounds to the tolerance (0.5) or
    more, which it does from [2^-55] below the tolerance on: so always
    when a component is the tolerance or more away, and never when every
    component is less than [0.5 - 2^-55] away. *)
Theorem sync_drops_detached_and_reports_changes s s' :
  isDisposed s = false ->
  sync s s' ->
  let next := fst (computeRects (cancelRaf s)) in
  (forall e, hoverElement s = Some e -> isConnected e = false ->
     hoverElement s' = None /\ hover next = None /\ hover (lastRects s') = None) /\
  (forall e, selectionElement s = Some e -> isConnected e = false ->
     selectionElement s' = None /\ selection next = None /\
     selection (lastRects s') = None) /\
  (updates s' = updates s \/ updates s' = updates s ++ [next]) /\
  (updates s' = updates s ++ [next] <->
   rects_differ rounds_to_tolerance next (lastRects s)) /\
  (rects_differ at_least_tolerance next (lastRects s) ->
   updates s' = updates s ++ [next]).
Proof.
  intros Hd Hsync next.
  rewrite (sync_updateIfChanged s s' Hd Hsync).
  assert (Hd' : isDisposed (cancelRaf s) = false) by exact Hd.
  destruct (updateIfChanged_spec (cancelRaf s) Hd') as (Eh & Es & Hcase).
  fold next in Hcase. simpl in Eh, Es, Hcase.
  assert (Hiff : updates (updateIfChanged (cancelRaf s)) = updates s ++ [next] <->
                 rects_differ rounds_to_tolerance next (lastRects s)).
  { rewrite <- trackedRectsEqual_false.
    destruct Hcase as [(Heq & _ & ->) | (Heq & _ & ->)]; rewrite Heq.
    - split; [| discriminate].
      intros E. apply (f_equal (@length _)) in E.
      rewrite length_app in E. simpl in E. lia.
    - split; reflexivity. }
  split; [| split; [| split; [| split; [exact Hiff |]]]];
    [| | | intros Hfar; apply Hiff, rects_differ_rounds, Hfar].
  - intros e He Hc. rewrite Eh, He. simpl. rewrite Hc.
    assert (Hn : hover next = None)
      by (apply (computeRects_detached_hover (cancelRaf s) e); assumption).
    repeat split; [exact Hn |].
    destruct Hcase as [(Heq & -> & _) | (_ & -> & _)]; [| exact Hn].
    unfold trackedRectsEqual in Heq. rewrite Hn in Heq.
    destruct (hover (lastRects s)); [discriminate | reflexivity].
  - intros e He Hc. rewrite Es, He. simpl. rewrite Hc.
    assert (Hn : selection next = None)
      by (apply (computeRects_detached_selection (cancelRaf s) e); assumption).
    repeat split; [exact Hn |].
    destruct Hcase as [(Heq & -> & _) | (_ & -> & _)]; [| exact Hn].
    unfold trackedRectsEqual in Heq. rewrite Hn, andb_comm in Heq.
    destruct (selection (lastRects s)); [discriminate | reflexivity].
  - destruct Hcase as [(_ & _ & ->) | (_ & _ & ->)]; auto.
Qed.

End Sync.

(** ** A move of exactly half a pixel *)

Example half_pixel_move_is_reported :
  updates (forceUpdate attached moved_half_a_pixel hovering)
  = [{| hover := Some (box (1 # 2) 0 (Qmax 0 10) (Qmax 0 10)); selection := None |}].
Proof. reflexivity. Qed.

(** ** A move of less than half a pixel *)

(** The left edge moves by [0.5 - 2^-56], and the subtraction gives 0.5. *)
Example rounded_move_is_reported :
  updates (forceUpdate attached moved_less_than_half_a_pixel hovering_left_of_zero)
  = [{| hover := Some (box (3 # 72057594037927936) 0 (Qmax 0 10) (Qmax 0 10));
        selection := None |}] /\
  (Qabs ((3 # 72057594037927936) - - (9007199254740991 # 18014398509481984))
   < RECT_EPSILON)%Q.
Proof. split; [vm_compute |]; reflexivity. Qed.

(** C9 as stated fails: an update is emitted although no component of
    either slot differs from the last reported value by more than the
    tolerance (the left edge differs by exactly the tolerance). *)
Lemma update_emitted_at_exact_tolerance :
  ~ (forall (isConnected : nat -> bool) (getBoundingClientRect : nat -> option DOMRect)
            (s : state) (next : TrackedRects),
        isDisposed s = false ->
        updates (forceUpdate isConnected getBoundingClientRect s) = updates s ++ [next] ->
        rects_differ beyond_tolerance next (lastRects s)).
Proof.
  intros H.
  specialize (H attached moved_half_a_pixel hovering _ eq_refl eq_refl).
  destruct H as [H | H]; simpl in H; [| exact H].
  unfold component_differs, beyond_tolerance in H; simpl in H.
  destruct H as [H | [H | [H | H]]]; vm_compute in H; discriminate.
Qed.

Lemma sync_drops_detached_and_reports_changes_witness :
  (hoverElement (forceUpdate detached moved_half_a_pixel hovering) = None /\
   hover (fst (computeRects detached moved_half_a_pixel (cancelRaf hovering))) = None /\
   hover (lastRects (forceUpdate detached moved_half_a_pixel hovering)) = None) /\
  updates (forceUpdate attached moved_half_a_pixel hovering)
  = updates hovering
    ++ [fst (computeRects attached moved_half_a_pixel (cancelRaf hovering))] /\
  updates (forceUpdate attached moved_less_than_half_a_pixel hovering_left_of_zero)
  = updates hovering_left_of_zero
    ++ [fst (computeRects attached moved_less_than_half_a_pixel
               (cancelRaf hovering_left_of_zero))].
Proof.
  split; [| split].
  - apply (proj1 (sync_drops_detached_and_reports_changes detached moved_half_a_pixel
                    hovering _ eq_refl (sync_forced detached moved_half_a_pixel hovering))
                 7 eq_refl eq_refl).
  - apply (proj2 (proj2 (proj2 (proj2
             (sync_drops_detached_and_reports_changes attached moved_half_a_pixel
                hovering _ eq_refl (sync_forced attached moved_half_a_pixel hovering)))))).
    left. left. vm_compute. discriminate.
  - apply (proj1 (proj2 (proj2 (proj2
             (sync_drops_detached_and_reports_changes attached
                moved_less_than_half_a_pixel hovering_left_of_zero _ eq_refl
                (sync_forced attached moved_less_than_half_a_pixel
                   hovering_left_of_zero)))))).
    left. left. vm_compute. discriminate.
Defined.

End PositionTrackerProofs.

(* ===================================================================== *)
(** * Properties of the event controller                                  *)
(* ===================================================================== *)

Module EventControllerProofs.
Import EventController EventControllerSpec.
Local Open Scope list_scope.

Section Hover.
Context {Element : Type} `{EqDecision Element}.
Variable isOverlayElement : Element -> bool.
Variable elementFromPoint : Q -> Q -> option Element.

#[local] Abbreviation handlePointerMove := (handlePointerMove isOverlayElement).
#[local] Abbreviation frame := (frame isOverlayElement elementFromPoint).
#[local] Abbreviation isEventFromEditorUi := (isEventFromEditorUi isOverlayElement).
#[local] Abbreviation event := (event (Element := Element)).
#[local] Abbreviation state := (state (Element := Element)).
#[local] Abbreviation pointer_moves := (pointer_moves isOverlayElement).
#[local] Abbreviation element_under := (element_under isOverlayElement elementFromPoint).

Lemma hover_calls_app (t u : list (call (Element := Element))) :
  hover_calls (t ++ u) = hover_calls t ++ hover_calls u.
Proof. apply omap_app. Qed.

Lemma hit_tests_app (t u : list (call (Element := Element))) :
  hit_tests (t ++ u) = hit_tests t ++ hit_tests u.
Proof. apply omap_app. Qed.

Lemma handlePointerMove_page ev s :
  mode s = hover -> isDisposed s = false -> isEventFromEditorUi ev = false ->
  moved ev s (handlePointerMove ev s).
Proof.
  intros Hm Hd Hui. unfold EventController.handlePointerMove.
  rewrite Hui. simpl. rewrite Hm. simpl.
  unfold scheduleHoverUpdate. simpl.
  destruct (hoverRafId s) as [f |] eqn:Hr; simpl; [| rewrite Hd; simpl];
    split; simpl; auto;
    rewrite ?Hr, ?hover_calls_app, ?hit_tests_app; simpl;
    rewrite ?app_nil_r; reflexivity.
Qed.

Lemma pointer_moves_page moves ev s :
  mode s = hover -> isDisposed s = false ->
  Forall (fun ev => isEventFromEditorUi ev = false) (moves ++ [ev]) ->
  moved ev s (pointer_moves (moves ++ [ev]) s).
Proof.
  revert s. induction moves as [| m moves IH]; intros s Hm Hd Hall; simpl.
  - apply handlePointerMove_page; auto. inversion Hall; assumption.
  - inversion Hall as [| ? ? Hhead Htail]; subst.
    pose proof (handlePointerMove_page m s Hm Hd Hhead) as M.
    destruct (IH (handlePointerMove m s) (moved_mode _ _ _ M) (moved_disposed _ _ _ M) Htail)
      as [I1 I2 I3 I4 I5 I6 I7 I8 I9].
    split; auto.
    + rewrite I3. apply (moved_last _ _ _ M).
    + rewrite I7, (moved_raf _ _ _ M). reflexivity.
    + rewrite I8. apply (moved_hover _ _ _ M).
    + rewrite I9. apply (moved_hits _ _ _ M).
Qed.

Lemma commitHoverUpdate_hover force s :
  mode s = hover -> isDisposed s = false -> hasPointerPosition s = true ->
  let target := element_under (lastClientX s) (lastClientY s) in
  let s' := commitHoverUpdate isOverlayElement elementFromPoint force s in
  hoverRafId s' = None /\
  length (hit_tests (trace s')) <= length (hit_tests (trace s)) + 1 /\
  hover_calls (trace s')
    = hover_calls (trace s)
      ++ (if negb force && bool_decide (target = lastHoveredElement s)
          then [] else [target]) /\
  lastHoveredElement s'
    = (if negb force && bool_decide (target = lastHoveredElement s)
       then lastHoveredElement s else target).
Proof.
  intros Hm Hd Hp. unfold commitHoverUpdate, getTargetElementAtFast, element_under.
  simpl. rewrite Hd, Hm, Hp. simpl.
  destruct (lastClientX s) as [x |], (lastClientY s) as [y |]; simpl;
    try destruct (elementFromPoint x y) as [e |];
    try destruct (isOverlayElement e); simpl;
    match goal with
    | |- context [negb force && bool_decide (?t = ?l)] =>
        destruct (negb force && bool_decide (t = l)); simpl
    end;
    rewrite ?hover_calls_app, ?hit_tests_app, ?length_app; simpl;
    rewrite ?app_nil_r, ?hover_calls_app, ?hit_tests_app, ?length_app; simpl;
    rewrite ?app_nil_r; repeat split; auto; lia.
Qed.

(** C8 (amended). In hover mode, let any positive number of pointer
    moves that do not come from the editor's own UI arrive within one
    paint cycle.  The moves themselves run no hit test and call no hover
    callback; they leave exactly one callback scheduled (forced only if
    a forced one was already scheduled).  The frame then runs at most
    one hit test, at the position of the most recent move, and calls the
    hover callback at most once: with the element under that position,
    and only if it differs from the element reported last or the
    scheduled update was forced. *)
Theorem hover_updates_coalesce_per_frame moves ev s :
  mode s = hover ->
  isDisposed s = false ->
  Forall (fun ev => isEventFromEditorUi ev = false) (moves ++ [ev]) ->
  let forced := default false (hoverRafId s) in
  let target := element_under (clientX ev) (clientY ev) in
  let s1 := pointer_moves (moves ++ [ev]) s in
  let s2 := frame s1 in
  hover_calls (trace s1) = hover_calls (trace s) /\
  hit_tests (trace s1) = hit_tests (trace s) /\
  hoverRafId s1 = Some forced /\
  hoverRafId s2 = None /\
  length (hit_tests (trace s2)) <= length (hit_tests (trace s)) + 1 /\
  hover_calls (trace s2)
    = hover_calls (trace s)
      ++ (if negb forced && bool_decide (target = lastHoveredElement s)
          then [] else [target]).
Proof.
  intros Hm Hd Hall forced target s1 s2.
  destruct (pointer_moves_page moves ev s Hm Hd Hall)
    as [I1 I2 I3 I4 I5 I6 I7 I8 I9].
  fold s1 in I1, I2, I3, I4, I5, I6, I7, I8, I9.
  destruct (commitHoverUpdate_hover forced s1 I1 I2 I4) as (C1 & C2 & C3 & _).
  assert (E : s2 = commitHoverUpdate isOverlayElement elementFromPoint forced s1).
  { subst s2. unfold EventController.frame. rewrite I7. reflexivity. }
  rewrite E. rewrite I5, I6, I3, I8, I9 in *.
  repeat split; assumption.
Qed.

End Hover.

(** ** Two elements and the toolbar *)

Example from_1_to_2_in_one_frame :
  hover_calls
    (trace (frame overlay always_2
              (pointer_moves overlay [move_over [1] 1 1; move_over [2] 5 5] hovering_1)))
  = [Some 2].
Proof. reflexivity. Qed.

Example page_then_toolbar_in_one_frame :
  hover_calls
    (trace (frame overlay always_2
              (pointer_moves overlay [move_over [2] 5 5; move_over [99] 6 6] hovering_1)))
  = [None; Some 2].
Proof. reflexivity. Qed.

(** C8 as stated fails: pointer moves within one paint cycle can lead to
    two hover callbacks, one of them outside the frame, when a move
    lands on the editor's own UI. *)
Lemma two_hover_callbacks_in_one_frame :
  ~ (forall (isOverlayElement : nat -> bool) (elementFromPoint : Q -> Q -> option nat)
            (moves : list event) (s : state),
        mode s = hover -> isDisposed s = false ->
        length (hover_calls
                  (trace (frame isOverlayElement elementFromPoint
                            (pointer_moves isOverlayElement moves s))))
        <= length (hover_calls (trace s)) + 1).
Proof.
  intros H.
  specialize (H overlay always_2 [move_over [2] 5 5; move_over [99] 6 6] hovering_1
                eq_refl eq_refl).
  vm_compute in H. lia.
Qed.

Lemma hover_updates_coalesce_per_frame_witness :
  hover_calls
    (trace (frame overlay always_2
              (pointer_moves overlay ([move_over [1] 1 1] ++ [move_over [2] 5 5])
                 hovering_1)))
  = hover_calls (trace hovering_1) ++ [Some 2].
Proof.
  assert (Hall : Forall (fun ev => isEventFromEditorUi overlay ev = false)
                        ([move_over [1] 1 1] ++ [move_over [2] 5 5]))
    by (repeat constructor).
  destruct (hover_updates_coalesce_per_frame overlay always_2
              [move_over [1] 1 1] (move_over [2] 5 5) hovering_1 eq_refl eq_refl Hall)
    as (_ & _ & _ & _ & _ & E).
  exact E.
Defined.

End EventControllerProofs.

(* ===================================================================== *)
(** * The selector engine reads back what [cssEscape] writes              *)
(* ===================================================================== *)

Module CssEscapeProofs.
Import Locator.
Export CssEscapeSpec.
Local Open Scope string_scope.

(** ** Escaped identifiers are read back *)

Lemma forall_ascii (P : ascii -> bool) :
  forallb P all_chars = true -> forall c, P c = true.
Proof.
  intros H c. rewrite forallb_forall in H. apply H.
  rewrite <- (ascii_nat_embedding c). apply in_map, in_seq.
  pose proof (nat_ascii_bounded c). lia.
Qed.

#[local] Arguments hex_digits : simpl never.
#[local] Arguments kind_of : simpl never.
#[local] Arguments render : simpl never.

Lemma cssEscape_from_cons i f len c rest :
  cssEscape_from i f len (String c rest)
  = render (kind_of (i =? 0)%nat (i =? 1)%nat (Str.code f =? 45)%nat (len =? 1)%nat c) c
    ++ cssEscape_from (S i) f len rest.
Proof.
  cbn [cssEscape_from]. unfold kind_of, render, hex_digits. cbv zeta.
  repeat match goal with
         | |- context [if ?b then _ else _] => destruct b
         end; reflexivity.
Qed.

Lemma kinds_ok_all : forallb kinds_ok all_chars = true.
Proof. vm_compute. reflexivity. Qed.

Lemma in_both (b : bool) : In b both.
Proof. destruct b; simpl; auto. Qed.

Lemma kind_of_ok at0 at1 hyphen_first single c :
  kind_ok (kind_of at0 at1 hyphen_first single c) c = true.
Proof.
  pose proof (forall_ascii kinds_ok kinds_ok_all c) as H.
  unfold kinds_ok in H. rewrite forallb_forall in H.
  specialize (H at0 (in_both _)). rewrite forallb_forall in H.
  specialize (H at1 (in_both _)). rewrite forallb_forall in H.
  specialize (H hyphen_first (in_both _)). rewrite forallb_forall in H.
  exact (H single (in_both _)).
Qed.

(** Facts about single characters, checked on all of them. *)
Lemma hex_not_newline c : Css.is_hex c = true -> Css.is_newline c = false.
Proof.
  revert c. 
  assert (H : forall c, implb (Css.is_hex c) (negb (Css.is_newline c)) = true)
    by (apply forall_ascii; vm_compute; reflexivity).
  intros c Hc. specialize (H c). rewrite Hc in H. simpl in H.
  apply negb_true_iff. exact H.
Qed.

Lemma hex_not_space c : Css.is_hex c = true -> Str.is_space c = false.
Proof.
  revert c.
  assert (H : forall c, implb (Css.is_hex c) (negb (Str.is_space c)) = true)
    by (apply forall_ascii; vm_compute; reflexivity).
  intros c Hc. specialize (H c). rewrite Hc in H. simpl in H.
  apply negb_true_iff. exact H.
Qed.

Lemma plain_kind_not_space at0 at1 hyphen_first single c :
  kind_of at0 at1 hyphen_first single c = PlainK -> Str.is_space c = false.
Proof.
  assert (H : forall c,
             forallb (fun a0 => forallb (fun a1 => forallb (fun hf => forallb (fun sg =>
               implb (is_plain (kind_of a0 a1 hf sg c)) (negb (Str.is_space c)))
               both) both) both) both = true)
    by (apply forall_ascii; vm_compute; reflexivity).
  intros E. specialize (H c). rewrite forallb_forall in H.
  specialize (H at0 (in_both _)). rewrite forallb_forall in H.
  specialize (H at1 (in_both _)). rewrite forallb_forall in H.
  specialize (H hyphen_first (in_both _)). rewrite forallb_forall in H.
  specialize (H single (in_both _)). rewrite E in H. cbn [is_plain implb] in H.
  apply negb_true_iff. exact H.
Qed.

Lemma code_point_code c : not_nul c = true -> Css.code_point (Str.code c) = String c "".
Proof.
  intros H. unfold Css.code_point, not_nul in *.
  apply negb_true_iff in H. rewrite H. simpl.
  pose proof (nat_ascii_bounded c) as Hb. unfold Str.code.
  destruct (Nat.ltb_spec 255 (nat_of_ascii c)); [lia |].
  rewrite ascii_nat_embedding. reflexivity.
Qed.

Lemma append_cons x (a b : string) : String x a ++ b = String x (a ++ b).
Proof. reflexivity. Qed.

Lemma append_nil_r (a : string) : a ++ "" = a.
Proof. induction a as [| x a IH]; [reflexivity |]. rewrite append_cons, IH. reflexivity. Qed.

Lemma append_assoc (a b c : string) : (a ++ b) ++ c = a ++ (b ++ c).
Proof.
  induction a as [| x a IH]; [reflexivity |].
  rewrite !append_cons, IH. reflexivity.
Qed.

Lemma take_hex_all n acc h rest :
  all_hex h = true -> (String.length h <= n)%nat ->
  (match rest with String d _ => Css.is_hex d = false | "" => True end) ->
  Css.take_hex n acc (h ++ rest) = (fst (Css.take_hex n acc h), rest).
Proof.
  revert n acc. induction h as [| x h IH]; intros n acc Hh Hn Hrest.
  - change ("" ++ rest) with rest.
    destruct n, rest as [| d r]; simpl; try reflexivity; rewrite Hrest; reflexivity.
  - simpl in Hh, Hn. apply andb_true_iff in Hh as [Hx Hh].
    destruct n as [| n]; [lia |]. rewrite append_cons. simpl. rewrite Hx.
    apply IH; [assumption | lia | assumption].
Qed.

Lemma consume_name_S fuel c r :
  Css.consume_name (S fuel) (String c r)
  = if Css.is_name_char c then
      let '(n, r') := Css.consume_name fuel r in (String c n, r')
    else if Css.valid_escape (String c r) then
      let '(e, r') := Css.consume_escape r in
      let '(n, r'') := Css.consume_name fuel r' in (e ++ n, r'')
    else ("", String c r).
Proof. reflexivity. Qed.

Lemma consume_name_nil fuel : Css.consume_name fuel "" = ("", "").
Proof. destruct fuel; reflexivity. Qed.

Lemma consume_escape_hex h rest c :
  h <> "" -> all_hex h = true -> (String.length h <= 6)%nat ->
  fst (Css.take_hex 6 0 h) = Str.code c -> not_nul c = true ->
  Css.consume_escape (h ++ String " " rest) = (String c "", rest) /\
  Css.consume_escape h = (String c "", "").
Proof.
  intros Hne Hh Hlen Hv Hc.
  destruct h as [| x h']; [congruence |].
  pose proof Hh as Hh'. simpl in Hh'. apply andb_true_iff in Hh' as [Hx _].
  split.
  - unfold Css.consume_escape. rewrite append_cons, Hx, <- append_cons.
    rewrite (take_hex_all 6 0 (String x h') (String " " rest) Hh Hlen eq_refl).
    rewrite Hv, (code_point_code c Hc). reflexivity.
  - unfold Css.consume_escape. rewrite Hx.
    pose proof (take_hex_all 6 0 (String x h') "" Hh Hlen I) as E.
    rewrite append_nil_r in E.
    rewrite E, Hv, (code_point_code c Hc). reflexivity.
Qed.

Lemma valid_escape_backslash d r :
  Css.is_newline d = false -> Css.valid_escape (String Css.backslash (String d r)) = true.
Proof. intros H. unfold Css.valid_escape. rewrite H. reflexivity. Qed.

(** Reading the text emitted for one code unit gives that code unit back. *)
Lemma consume_render k c rest fuel :
  kind_ok k c = true -> not_nul c = true ->
  Css.consume_name (S fuel) (render k c ++ rest)
  = (let '(n, r) := Css.consume_name fuel rest in (String c n, r)).
Proof.
  intros Hk Hc. destruct k; unfold kind_ok in Hk; cbv zeta in Hk.
  - rewrite Hc in Hk. discriminate.
  - repeat (apply andb_true_iff in Hk as [Hk ?]).
    apply negb_true_iff, bool_decide_eq_false in H2.
    apply Nat.leb_le in H0. apply Nat.eqb_eq in H.
    unfold render. rewrite append_cons, append_assoc, append_cons.
    change ("" ++ rest) with rest.
    destruct (hex_digits c) as [| x h'] eqn:Eh; [congruence |].
    pose proof H1 as H1'. simpl in H1'. apply andb_true_iff in H1' as [Hx _].
    rewrite consume_name_S.
    change (Css.is_name_char Css.backslash) with false. cbv iota.
    rewrite append_cons, (valid_escape_backslash x _ (hex_not_newline x Hx)).
    rewrite <- append_cons.
    destruct (consume_escape_hex (String x h') rest c H2 H1 H0 H Hc) as [-> _].
    destruct (Css.consume_name fuel rest). reflexivity.
  - repeat (apply andb_true_iff in Hk as [Hk ?]).
    apply negb_true_iff in H, H0.
    unfold render. rewrite !append_cons. change ("" ++ rest) with rest.
    rewrite consume_name_S.
    change (Css.is_name_char Css.backslash) with false. cbv iota.
    rewrite (valid_escape_backslash c _ H).
    unfold Css.consume_escape. rewrite H0.
    destruct (Css.consume_name fuel rest). reflexivity.
  - apply andb_true_iff in Hk as [_ Hk].
    unfold render. rewrite append_cons. change ("" ++ rest) with rest.
    rewrite consume_name_S, Hk. reflexivity.
Qed.

Section Escaped.
Variable f : ascii.
Variable len : nat.

#[local] Abbreviation kind_at := (kind_at f len).
#[local] Abbreviation escape_with := (escape_with f len).

Lemma escape_with_render k s : cssEscape_from k f len s = escape_with render k s.
Proof.
  revert k. induction s as [| c r IH]; intros k; [reflexivity |].
  rewrite cssEscape_from_cons, IH.
  destruct r; [apply append_nil_r | reflexivity].
Qed.

Lemma trimEnd_cons_keep c r : Str.is_space c = false ->
  Str.trimEnd (String c r) = String c (Str.trimEnd r).
Proof. intros H. simpl. rewrite H. destruct (Str.trimEnd r); reflexivity. Qed.

Lemma trimEnd_app a b : Str.trimEnd b <> "" -> Str.trimEnd (a ++ b) = a ++ Str.trimEnd b.
Proof.
  intros Hb. induction a as [| x a IH]; [reflexivity |].
  rewrite !append_cons. simpl. rewrite IH.
  destruct (a ++ Str.trimEnd b) eqn:E; [| reflexivity].
  destruct a; [| discriminate]. contradiction.
Qed.

Lemma trimEnd_hex h : h <> "" -> all_hex h = true -> Str.trimEnd (h ++ " ") = h.
Proof.
  induction h as [| x h IH]; [congruence |].
  intros _ Hh. simpl in Hh. apply andb_true_iff in Hh as [Hx Hh].
  rewrite append_cons, (trimEnd_cons_keep _ _ (hex_not_space x Hx)).
  destruct h as [| y h']; [reflexivity |].
  rewrite IH; [reflexivity | discriminate | assumption].
Qed.

Lemma trimmed_eq k c :
  kind_ok k c = true -> not_nul c = true -> Str.is_space c = false ->
  trimmed k c = match k with
                | HexK => String Css.backslash (hex_digits c)
                | _ => render k c
                end.
Proof.
  intros Hk Hc Hs. unfold trimmed. destruct k; unfold kind_ok in Hk; cbv zeta in Hk.
  - rewrite Hc in Hk. discriminate.
  - repeat (apply andb_true_iff in Hk as [Hk ?]).
    apply negb_true_iff, bool_decide_eq_false in H2.
    unfold render. rewrite trimEnd_cons_keep by reflexivity.
    rewrite trimEnd_hex by assumption. reflexivity.
  - unfold render. rewrite trimEnd_cons_keep by reflexivity.
    rewrite trimEnd_cons_keep by assumption. reflexivity.
  - unfold render. rewrite trimEnd_cons_keep by assumption. reflexivity.
Qed.

(** The first code unit of an emitted text is no white space. *)
Lemma render_nonspace at0 at1 hyphen_first single c :
  exists x r,
    render (kind_of at0 at1 hyphen_first single c) c = String x r /\ Str.is_space x = false.
Proof.
  pose proof (plain_kind_not_space at0 at1 hyphen_first single c) as Hp.
  destruct (kind_of at0 at1 hyphen_first single c); unfold render.
  - eexists _, _. split; reflexivity.
  - eexists _, _. split; reflexivity.
  - eexists _, _. split; reflexivity.
  - eexists _, _. split; [reflexivity | apply Hp; reflexivity].
Qed.

Lemma escape_with_render_nonempty k c r :
  Str.trimEnd (escape_with render k (String c r)) <> "".
Proof.
  destruct (render_nonspace (k =? 0)%nat (k =? 1)%nat (Str.code f =? 45)%nat (len =? 1)%nat c)
    as (x & t & E & Hx).
  fold (kind_at k c) in E.
  assert (Hshape : exists t', escape_with render k (String c r) = String x t').
  { destruct r as [| c' r'].
    - change (escape_with render k (String c "")) with (render (kind_at k c) c).
      rewrite E. eauto.
    - change (escape_with render k (String c (String c' r')))
        with (render (kind_at k c) c ++ escape_with render (S k) (String c' r')).
      rewrite E, append_cons. eauto. }
  destruct Hshape as (t' & ->). rewrite trimEnd_cons_keep by assumption. discriminate.
Qed.

Lemma trimEnd_escape k s :
  Str.trimEnd (cssEscape_from k f len s) = escape_with trimmed k s.
Proof.
  rewrite escape_with_render.
  revert k. induction s as [| c r IH]; intros k; [reflexivity |].
  destruct r as [| c' r']; [reflexivity |].
  change (escape_with render k (String c (String c' r')))
    with (render (kind_at k c) c ++ escape_with render (S k) (String c' r')).
  rewrite trimEnd_app by apply escape_with_render_nonempty.
  rewrite IH. reflexivity.
Qed.

Lemma render_reads_back : reads_back render.
Proof.
  intros k c fuel Hk Hc _.
  rewrite <- (append_nil_r (render k c)), consume_render by assumption.
  rewrite consume_name_nil. reflexivity.
Qed.

Lemma trimmed_reads_back : reads_back trimmed.
Proof.
  intros k c fuel Hk Hc Hs. rewrite trimmed_eq by assumption.
  destruct k; try (apply render_reads_back; assumption).
  unfold kind_ok in Hk; cbv zeta in Hk. repeat (apply andb_true_iff in Hk as [Hk ?]).
  apply negb_true_iff, bool_decide_eq_false in H2.
  apply Nat.leb_le in H0. apply Nat.eqb_eq in H.
  destruct (hex_digits c) as [| x h'] eqn:Eh; [congruence |].
  pose proof H1 as H1'. simpl in H1'. apply andb_true_iff in H1' as [Hx _].
  rewrite consume_name_S.
  change (Css.is_name_char Css.backslash) with false. cbv iota.
  rewrite (valid_escape_backslash x _ (hex_not_newline x Hx)).
  destruct (consume_escape_hex (String x h') "" c H2 H1 H0 H Hc) as [_ ->].
  rewrite consume_name_nil. reflexivity.
Qed.

Lemma consume_escape_with fin s :
  reads_back fin ->
  forall k fuel,
    nul_free s = true -> ends_clean s = true -> (String.length s <= fuel)%nat ->
    Css.consume_name fuel (escape_with fin k s) = (s, "").
Proof.
  intros Hfin. induction s as [| c r IH]; intros k fuel Hn He Hl.
  - apply consume_name_nil.
  - simpl in Hn. apply andb_true_iff in Hn as [Hc Hn].
    destruct fuel as [| fuel]; [simpl in Hl; lia |].
    pose proof (kind_of_ok (k =? 0)%nat (k =? 1)%nat (Str.code f =? 45)%nat
                  (len =? 1)%nat c) as Hk. fold (kind_at k c) in Hk.
    destruct r as [| c' r'].
    + simpl in He. apply negb_true_iff in He. apply Hfin; assumption.
    + change (escape_with fin k (String c (String c' r')))
        with (render (kind_at k c) c ++ escape_with fin (S k) (String c' r')).
      rewrite consume_render by assumption.
      rewrite IH; [reflexivity | assumption | exact He | simpl in *; lia].
Qed.

End Escaped.

(** ** Escaped identifiers start an identifier *)

Lemma plain_heads_all : forallb plain_heads all_chars = true.
Proof. vm_compute. reflexivity. Qed.

Lemma plain_heads_at hyphen_first single c :
  (is_plain (kind_of true false hyphen_first single c) = true ->
   Css.is_name_start c || hyphen c = true) /\
  (is_plain (kind_of true false hyphen_first true c) = true -> hyphen c = false) /\
  (is_plain (kind_of false true true single c) = true ->
   Css.is_name_start c || hyphen c = true) /\
  (Css.is_name_start c = true -> hyphen c = false /\ c <> Css.backslash) /\
  (hyphen c = true -> c = "-"%char).
Proof.
  pose proof (forall_ascii plain_heads plain_heads_all c) as H.
  unfold plain_heads in H. rewrite forallb_forall in H.
  specialize (H hyphen_first (in_both _)). rewrite forallb_forall in H.
  specialize (H single (in_both _)).
  apply andb_true_iff in H as [H H5]. apply andb_true_iff in H as [H H4].
  apply andb_true_iff in H as [H H3]. apply andb_true_iff in H as [H1 H2].
  split; [| split; [| split; [| split]]]; intros Hp.
  - rewrite Hp in H1. exact H1.
  - rewrite Hp in H2. apply negb_true_iff. exact H2.
  - rewrite Hp in H3. exact H3.
  - rewrite Hp in H4. simpl in H4. apply andb_true_iff in H4 as [Hy Hb].
    apply negb_true_iff in Hy. apply negb_true_iff, bool_decide_eq_false in Hb. auto.
  - rewrite Hp in H5. apply bool_decide_eq_true in H5. exact H5.
Qed.

Lemma starts_ident_shape s :
  head_shape s = true ->
  (forall r, s = String "-" r -> head_shape r = true) ->
  Css.starts_ident s = true.
Proof.
  destruct s as [| c r]; [discriminate |].
  intros Hh Hr. unfold Css.starts_ident. fold (hyphen c).
  destruct (plain_heads_at true true c) as (_ & _ & _ & Hns & Hhy).
  destruct (hyphen c) eqn:Ec.
  - rewrite (Hhy eq_refl) in *. specialize (Hr r eq_refl).
    destruct r as [| d r']; [discriminate |].
    unfold head_shape in Hr. fold (hyphen d).
    unfold Css.valid_escape.
    destruct (bool_decide (d = Css.backslash)); simpl.
    + destruct r' as [| e r'']; [discriminate |]. rewrite Hr. apply orb_true_r.
    + rewrite Hr. reflexivity.
  - unfold head_shape in Hh. unfold Css.valid_escape.
    destruct (bool_decide (c = Css.backslash)); simpl.
    + destruct r as [| e r'']; [discriminate |]. rewrite Hh. apply orb_true_r.
    + rewrite Ec, orb_false_r in Hh. rewrite Hh. reflexivity.
Qed.

Lemma backslash_not_hyphen r r' : String Css.backslash r <> String "-" r'.
Proof. intros H. apply (f_equal (fun s => match s with String c _ => Str.code c | "" => 0 end)) in H. vm_compute in H. discriminate. Qed.

Lemma render_heads : heads false render.
Proof.
  intros k c rest Hk Hc _ Hp. destruct k; unfold kind_ok in Hk; cbv zeta in Hk.
  - rewrite Hc in Hk. discriminate.
  - repeat (apply andb_true_iff in Hk as [Hk ?]).
    apply negb_true_iff, bool_decide_eq_false in H2.
    unfold render. rewrite append_cons, append_assoc.
    destruct (hex_digits c) as [| x h'] eqn:Eh; [congruence |].
    pose proof H1 as H1'. simpl in H1'. apply andb_true_iff in H1' as [Hx _].
    rewrite append_cons. split.
    + unfold head_shape. rewrite bool_decide_eq_true_2 by reflexivity.
      rewrite (hex_not_newline x Hx). reflexivity.
    + intros r E. destruct (backslash_not_hyphen _ _ E).
  - repeat (apply andb_true_iff in Hk as [Hk ?]). apply negb_true_iff in H.
    unfold render. rewrite !append_cons. split.
    + unfold head_shape. rewrite bool_decide_eq_true_2 by reflexivity.
      rewrite H. reflexivity.
    + intros r E. destruct (backslash_not_hyphen _ _ E).
  - unfold render. rewrite append_cons. change ("" ++ rest) with rest.
    specialize (Hp eq_refl).
    destruct (plain_heads_at true true c) as (_ & _ & _ & Hns & Hhy).
    split.
    + unfold head_shape. destruct (bool_decide (c = Css.backslash)) eqn:Eb; [| exact Hp].
      apply bool_decide_eq_true in Eb. subst c. vm_compute in Hp. discriminate.
    + intros r [= -> ->]. repeat split; reflexivity.
Qed.

Lemma trimmed_heads : heads true trimmed.
Proof.
  intros k c rest Hk Hc Hs Hp. specialize (Hs eq_refl).
  rewrite trimmed_eq by assumption.
  destruct k; try (apply render_heads; [assumption .. | discriminate | assumption]).
  unfold kind_ok in Hk; cbv zeta in Hk.
  repeat (apply andb_true_iff in Hk as [Hk ?]).
  apply negb_true_iff, bool_decide_eq_false in H2.
  destruct (hex_digits c) as [| x h'] eqn:Eh; [congruence |].
  pose proof H1 as H1'. simpl in H1'. apply andb_true_iff in H1' as [Hx _].
  rewrite !append_cons. split.
  - unfold head_shape. rewrite bool_decide_eq_true_2 by reflexivity.
    rewrite (hex_not_newline x Hx). reflexivity.
  - intros r E. destruct (backslash_not_hyphen _ _ E).
Qed.

Lemma heads_weaken fin : heads false fin -> heads true fin.
Proof. intros H k c rest Hk Hc _ Hp. apply H; [assumption .. | discriminate | assumption]. Qed.

Lemma escape_with_starts fin c r :
  heads true fin ->
  nul_free (String c r) = true -> ends_clean (String c r) = true ->
  Css.starts_ident (escape_with c (String.length (String c r)) fin 0 (String c r)) = true.
Proof.
  intros Hfin Hn He.
  simpl in Hn. apply andb_true_iff in Hn as [Hc Hn].
  set (len := String.length (String c r)).
  pose proof (kind_of_ok true false (Str.code c =? 45)%nat (len =? 1)%nat c) as Hk.
  destruct (plain_heads_at (Str.code c =? 45)%nat (len =? 1)%nat c) as (P0 & _ & _ & _ & _).
  destruct r as [| c2 r2].
  - change (escape_with c len fin 0 (String c ""))
      with (fin (kind_of true false (Str.code c =? 45)%nat true c) c).
    change (len =? 1)%nat with true in Hk, P0.
    simpl in He. apply negb_true_iff in He.
    destruct (Hfin _ c "" Hk Hc (fun _ => He) P0) as [Hh Hr].
    rewrite append_nil_r in Hh, Hr.
    apply starts_ident_shape; [exact Hh |].
    intros r E. destruct (Hr r E) as (Hp & Hy & _).
    destruct (plain_heads_at (Str.code c =? 45)%nat true c) as (_ & P1 & _).
    rewrite (P1 Hp) in Hy. discriminate.
  - change (escape_with c len fin 0 (String c (String c2 r2)))
      with (render (kind_of true false (Str.code c =? 45)%nat (len =? 1)%nat c) c
            ++ escape_with c len fin 1 (String c2 r2)).
    destruct (render_heads _ c (escape_with c len fin 1 (String c2 r2)) Hk Hc
                (fun H => match Bool.diff_false_true H with end) P0) as [Hh Hr].
    apply starts_ident_shape; [exact Hh |].
    intros r E. destruct (Hr r E) as (Hp & Hy & ->).
    unfold hyphen in Hy.
    simpl in Hn. apply andb_true_iff in Hn as [Hc2 Hn].
    pose proof (kind_of_ok false true true (len =? 1)%nat c2) as Hk2.
    destruct (plain_heads_at true (len =? 1)%nat c2) as (_ & _ & P2 & _ & _).
    destruct r2 as [| c3 r3].
    + change (escape_with c len fin 1 (String c2 ""))
        with (fin (kind_of false true (Str.code c =? 45)%nat (len =? 1)%nat c2) c2).
      rewrite Hy.
      simpl in He. apply negb_true_iff in He.
      destruct (Hfin _ c2 "" Hk2 Hc2 (fun _ => He) P2) as [Hh2 _].
      rewrite append_nil_r in Hh2. exact Hh2.
    + change (escape_with c len fin 1 (String c2 (String c3 r3)))
        with (render (kind_of false true (Str.code c =? 45)%nat (len =? 1)%nat c2) c2
              ++ escape_with c len fin 2 (String c3 r3)).
      rewrite Hy.
      apply (render_heads _ c2 _ Hk2 Hc2); [discriminate | exact P2].
Qed.

(** ** The id selector *)

Lemma length_append (a b : string) :
  String.length (a ++ b) = String.length a + String.length b.
Proof.
  induction a as [| x a IH]; [reflexivity |].
  rewrite append_cons. simpl. rewrite IH. reflexivity.
Qed.

Lemma render_length k c : 1 <= String.length (render k c).
Proof. destruct k; unfold render; simpl; lia. Qed.

Lemma trimmed_length k c :
  kind_ok k c = true -> not_nul c = true -> Str.is_space c = false ->
  1 <= String.length (trimmed k c).
Proof.
  intros Hk Hc Hs. rewrite trimmed_eq by assumption.
  destruct k; try apply render_length. simpl. lia.
Qed.

Lemma escape_with_length f len fin s :
  (forall k c, kind_ok k c = true -> not_nul c = true -> Str.is_space c = false ->
               1 <= String.length (fin k c)) ->
  forall k,
    nul_free s = true -> ends_clean s = true ->
    String.length s <= String.length (escape_with f len fin k s).
Proof.
  intros Hfin. induction s as [| c r IH]; intros k Hn He; [simpl; lia |].
  simpl in Hn. apply andb_true_iff in Hn as [Hc Hn].
  destruct r as [| c' r'].
  - simpl in He. apply negb_true_iff in He.
    change (escape_with f len fin k (String c "")) with (fin (kind_at f len k c) c).
    pose proof (Hfin (kind_at f len k c) c (kind_of_ok _ _ _ _ c) Hc He). simpl. lia.
  - change (escape_with f len fin k (String c (String c' r')))
      with (render (kind_at f len k c) c ++ escape_with f len fin (S k) (String c' r')).
    rewrite length_append.
    pose proof (render_length (kind_at f len k c) c).
    pose proof (IH (S k) Hn He).
    change (String.length (String c (String c' r'))) with (S (String.length (String c' r'))).
    lia.
Qed.

Lemma parse_ident_escape_with fin c r :
  reads_back fin -> heads true fin ->
  (forall k c, kind_ok k c = true -> not_nul c = true -> Str.is_space c = false ->
               1 <= String.length (fin k c)) ->
  nul_free (String c r) = true -> ends_clean (String c r) = true ->
  Css.parse_ident (escape_with c (String.length (String c r)) fin 0 (String c r))
  = Some (String c r, "").
Proof.
  intros Hr Hh Hl Hn He. unfold Css.parse_ident.
  rewrite (escape_with_starts fin c r Hh Hn He).
  rewrite (consume_escape_with _ _ fin (String c r) Hr); [reflexivity | assumption ..|].
  pose proof (escape_with_length c (String.length (String c r)) fin (String c r) Hl 0 Hn He).
  lia.
Qed.

Lemma parse_subclasses_hash fuel r :
  Css.parse_subclasses (S fuel) (String "#" r)
  = match Css.parse_ident r with
    | Some (n, s') =>
        match Css.parse_subclasses fuel s' with
        | Some (xs, s'') => Some (Css.Id n :: xs, s'')
        | None => None
        end
    | None => None
    end.
Proof.
  cbn [Css.parse_subclasses]. 
  destruct (Css.parse_ident r) as [[n s'] |]; reflexivity.
Qed.

Lemma parse_id_selector e i :
  Css.parse_ident e = Some (i, "") ->
  Css.parse (String "#" e) = Some [[Css.Id i]].
Proof.
  intros H. unfold Css.parse.
  change (Css.skip_ws (String "#" e)) with (String "#" e).
  unfold Css.parse_compound.
  change (Css.parse_ident (String "#" e)) with (@None (string * string)).
  cbv iota.
  rewrite parse_subclasses_hash, H.
  reflexivity.
Qed.

Lemma ends_clean_trimEnd s : ends_clean (Str.trimEnd s) = true.
Proof.
  induction s as [| c r IH]; [reflexivity |].
  simpl. destruct (Str.trimEnd r) as [| x y] eqn:E.
  - destruct (Str.is_space c) eqn:Hc; simpl; [reflexivity | rewrite Hc; reflexivity].
  - exact IH.
Qed.

Lemma trim_fixed_ends_clean s : Str.trim s = s -> ends_clean s = true.
Proof. intros <-. apply ends_clean_trimEnd. Qed.

Lemma trim_hash e : Str.trim (String "#" e) = String "#" (Str.trimEnd e).
Proof. unfold Str.trim. simpl Str.trimStart. apply trimEnd_cons_keep. reflexivity. Qed.

(** The selector [tryIdSelector] builds for a clean id, and its trimmed
    form, both denote "the elements whose id is [i]". *)
Lemma id_selector_parses i :
  i <> "" -> nul_free i = true -> ends_clean i = true ->
  Css.parse ("#" ++ cssEscape i) = Some [[Css.Id i]] /\
  Css.parse (Str.trim ("#" ++ cssEscape i)) = Some [[Css.Id i]].
Proof.
  intros Hne Hn He. destruct i as [| c r]; [congruence |].
  change ("#" ++ cssEscape (String c r)) with (String "#" (cssEscape (String c r))).
  rewrite trim_hash. unfold cssEscape.
  rewrite trimEnd_escape, escape_with_render.
  split; apply parse_id_selector.
  - apply parse_ident_escape_with; try assumption.
    + apply render_reads_back.
    + apply heads_weaken, render_heads.
    + intros. apply render_length.
  - apply parse_ident_escape_with; try assumption.
    + apply trimmed_reads_back.
    + apply trimmed_heads.
    + apply trimmed_length.
Qed.

End CssEscapeProofs.

(* ===================================================================== *)
(** * Properties of the locator                                           *)
(* ===================================================================== *)

Module LocatorProofs.
Import Dom Locator CssEscapeProofs LocatorSpec.
Local Open Scope list_scope.

(** ** The document tree *)

Lemma subtree_forest (r : ref) (e : element) :
  subtree r e = r :: forest r 0 (children e).
Proof.
  destruct e as [t i c a x s sh k]. simpl. f_equal.
  generalize 0. induction k as [| y k IH]; intros n; simpl; [reflexivity |].
  rewrite IH. reflexivity.
Qed.

Lemma subtree_root (e : element) :
  forall r x, x ∈ subtree r e -> getRootNode x = getRootNode r.
Proof.
  induction e as [t i c a txt s sh k IH] using element_children_ind.
  intros r x. rewrite subtree_forest. simpl.
  rewrite elem_of_cons. intros [-> | Hx]; [reflexivity |].
  revert Hx. generalize 0.
  induction IH as [| y k Hy _ IHk]; intros n; simpl.
  - intros Hx. inversion Hx.
  - rewrite elem_of_app. intros [Hx | Hx].
    + rewrite (Hy _ _ Hx). reflexivity.
    + apply (IHk _ Hx).
Qed.

Lemma forest_root (ks : list element) :
  forall r n x, x ∈ forest r n ks -> getRootNode x = getRootNode r.
Proof.
  induction ks as [| y ks IH]; intros r n x; simpl.
  - intros Hx. inversion Hx.
  - rewrite elem_of_app. intros [Hx | Hx].
    + rewrite (subtree_root _ _ _ Hx). reflexivity.
    + apply (IH _ _ _ Hx).
Qed.

(** What a query on a root returns lies in the tree of that root. *)
Lemma descendants_root (d : document) (root x : ref) :
  x ∈ descendants d root -> getRootNode x = getRootNode root.
Proof. apply forest_root. Qed.

(** ** Resolution through the shadow host chain *)

Lemma unique_match (d : document) (root : ref) (selector : string) :
  isSelectorUnique d root selector = true ->
  exists x, Css.querySelectorAll d root selector = Some [x] /\
            safeQuerySelector d root selector = Some x.
Proof.
  unfold isSelectorUnique, safeQuerySelector, Css.querySelector.
  destruct (Css.querySelectorAll d root selector) as [[| x [| y l]] |];
    simpl; try discriminate.
  intros _. exists x. auto.
Qed.

Lemma resolveShadowHostChain_sound d chain :
  forall root final,
    resolveShadowHostChain d root chain = Some final ->
    chain_resolves d root chain final.
Proof.
  induction chain as [| sel rest IH]; intros root final; simpl.
  - intros [= <-]. constructor.
  - destruct (isSelectorUnique d root sel) eqn:Hu; simpl; [| discriminate].
    destruct (unique_match d root sel Hu) as (host & Hq & ->).
    destruct (shadowRoot d host) as [inner |] eqn:Hs; [| discriminate].
    intros Hr. econstructor; eauto.
Qed.

Lemma resolveShadowHostChain_complete d chain root final :
  chain_resolves d root chain final ->
  resolveShadowHostChain d root chain = Some final.
Proof.
  induction 1 as [| root sel rest host inner final Hq Hs _ IH]; simpl; [reflexivity |].
  unfold isSelectorUnique, safeQuerySelector, Css.querySelector.
  rewrite Hq. simpl. rewrite Hs. exact IH.
Qed.

Lemma chain_resolves_app d pre post root mid final :
  chain_resolves d root pre mid -> chain_resolves d mid post final ->
  chain_resolves d root (pre ++ post) final.
Proof.
  induction 1; intros H2; simpl; [assumption |]. econstructor; eauto.
Qed.

Lemma chain_resolves_split d pre post :
  forall root final,
    chain_resolves d root (pre ++ post) final ->
    exists mid, chain_resolves d root pre mid /\ chain_resolves d mid post final.
Proof.
  induction pre as [| sel pre IH]; intros root final; simpl.
  - intros H. exists root. split; [constructor | assumption].
  - intros H. inversion H as [| ? ? ? host inner ? Hq Hs Hrest]; subst.
    destruct (IH _ _ Hrest) as (mid & H1 & H2).
    exists mid. split; [econstructor; eauto | assumption].
Qed.

Lemma chain_resolves_functional d chain :
  forall root a b,
    chain_resolves d root chain a -> chain_resolves d root chain b -> a = b.
Proof.
  induction chain as [| sel rest IH]; intros root a b Ha Hb.
  - inversion Ha; inversion Hb; congruence.
  - inversion Ha as [| ? ? ? h1 i1 ? Hq1 Hs1 Hr1]; subst.
    inversion Hb as [| ? ? ? h2 i2 ? Hq2 Hs2 Hr2]; subst.
    rewrite Hq1 in Hq2. injection Hq2 as <-.
    rewrite Hs1 in Hs2. injection Hs2 as <-.
    eapply IH; eauto.
Qed.

Lemma chain_resolves_is_root d chain :
  forall root final,
    chain_resolves d root chain final -> getRootNode root = root ->
    getRootNode final = final.
Proof.
  induction chain as [| sel rest IH]; intros root final H Hroot.
  - inversion H; subst. assumption.
  - inversion H as [| ? ? ? host inner ? Hq Hs Hrest]; subst.
    apply (IH _ _ Hrest).
    unfold shadowRoot in Hs.
    destruct (element_at d host) as [e |]; [| discriminate].
    destruct (shadow e) as [[[] ?] |]; try discriminate.
    injection Hs as <-. reflexivity.
Qed.

Lemma trySelectors_found d root fingerprint candidates e :
  trySelectors d root fingerprint candidates = Some e ->
  exists selector,
    selector ∈ candidates /\
    Css.querySelectorAll d root selector = Some [e].
Proof.
  induction candidates as [| sel rest IH]; simpl; [discriminate |].
  destruct (isSelectorUnique d root sel) eqn:Hu; simpl.
  - destruct (unique_match d root sel Hu) as (x & Hq & ->).
    destruct (negb (bool_decide (fingerprint = ""%string)) &&
              negb (verifyFingerprint (the_element d x) fingerprint)).
    + intros H. destruct (IH H) as (s & Hin & Hs).
      exists s. split; [right; assumption | assumption].
    + intros [= <-]. exists sel. split; [left | assumption].
  - intros H. destruct (IH H) as (s & Hin & Hs).
    exists s. split; [right; assumption | assumption].
Qed.

Lemma query_result_in_root d root selector e :
  Css.querySelectorAll d root selector = Some [e] ->
  e ∈ descendants d root.
Proof.
  unfold Css.querySelectorAll.
  destruct (Css.parse selector) as [sel |]; simpl; [| discriminate].
  intros [= H].
  assert (Hin : e ∈ filter (fun r => Css.matches d sel r = true) (descendants d root))
    by (rewrite H; left).
  apply list_elem_of_filter in Hin as [_ Hin]. exact Hin.
Qed.

(** C6. For a locator with a non-empty shadow host chain: if
    [locateElement] returns an element, then every hop of the chain
    resolved (its selector matched exactly one element of the query root
    of that hop, and that host exposed a shadow root), and the element
    is the single match of one of the locator's selectors in the root
    the whole chain leads to, which is the root the element lives in;
    and if some hop cannot be taken, because its selector does not match
    exactly one element or the host exposes no shadow root, the result
    is none. *)
Theorem shadow_chain_must_resolve (d : document) (locator : ElementLocator)
  (chain : list string) :
  shadowHostChain locator = Some chain ->
  chain <> [] ->
  (forall e,
      locateElement d locator = Some e ->
      exists final selector,
        chain_resolves d [] chain final /\
        selector ∈ selectors locator /\
        Css.querySelectorAll d final selector = Some [e] /\
        e ∈ descendants d final /\
        getRootNode e = final) /\
  (forall pre hostSelector post root,
      chain = pre ++ hostSelector :: post ->
      chain_resolves d [] pre root ->
      isSelectorUnique d root hostSelector = false \/ hop_fails d root hostSelector ->
      locateElement d locator = None).
Proof.
  intros Hchain Hne. split.
  - intros e. unfold locateElement. rewrite Hchain. simpl.
    destruct (frameChain locator) as [[| f fs] |]; simpl; try discriminate.
    + destruct (resolveShadowHostChain d [] chain) as [final |] eqn:Hr; [| discriminate].
      intros Ht. apply resolveShadowHostChain_sound in Hr.
      destruct (trySelectors_found _ _ _ _ _ Ht) as (sel & Hin & Hq).
      pose proof (query_result_in_root _ _ _ _ Hq) as Hd.
      exists final, sel. repeat split; try assumption.
      rewrite (descendants_root _ _ _ Hd).
      apply (chain_resolves_is_root d chain [] final Hr). reflexivity.
    + destruct (resolveShadowHostChain d [] chain) as [final |] eqn:Hr; [| discriminate].
      intros Ht. apply resolveShadowHostChain_sound in Hr.
      destruct (trySelectors_found _ _ _ _ _ Ht) as (sel & Hin & Hq).
      pose proof (query_result_in_root _ _ _ _ Hq) as Hd.
      exists final, sel. repeat split; try assumption.
      rewrite (descendants_root _ _ _ Hd).
      apply (chain_resolves_is_root d chain [] final Hr). reflexivity.
  - intros pre sel post root -> Hpre Hfail.
    unfold locateElement. rewrite Hchain. simpl.
    destruct (resolveFrameChain d (default [] (frameChain locator))) as [doc |] eqn:Hf;
      [| reflexivity].
    assert (doc = []) as ->.
    { unfold resolveFrameChain in Hf.
      destruct (default [] (frameChain locator)); [congruence | discriminate]. }
    destruct (resolveShadowHostChain d [] (pre ++ sel :: post)) as [final |] eqn:Hr;
      [| reflexivity].
    exfalso. apply resolveShadowHostChain_sound in Hr.
    destruct (chain_resolves_split _ _ _ _ _ Hr) as (mid & H1 & H2).
    rewrite (chain_resolves_functional _ _ _ _ _ H1 Hpre) in H2.
    inversion H2 as [| ? ? ? host inner ? Hq Hs Hrest]; subst.
    destruct Hfail as [Hu | Hh].
    + unfold isSelectorUnique in Hu. rewrite Hq in Hu. discriminate.
    + rewrite (Hh _ Hq) in Hs. discriminate.
Qed.

(** ** Locating an element by its id *)

Lemma matches_id d i r :
  i <> ""%string ->
  (Css.matches d [[Css.Id i]] r = true) <-> (id (the_element d r) = i).
Proof.
  intros Hne. unfold Css.matches, the_element. simpl.
  unfold Css.matches_compound.
  destruct (element_at d r) as [e |]; simpl.
  - rewrite andb_true_r. apply bool_decide_eq_true.
  - split; [discriminate | congruence].
Qed.

Lemma id_selector_query d root i :
  i <> ""%string -> nul_free i = true -> ends_clean i = true ->
  let found := filter (fun r => id (the_element d r) = i) (descendants d root) in
  Css.querySelectorAll d root ("#" ++ cssEscape i)%string = Some found /\
  Css.querySelectorAll d root (Str.trim ("#" ++ cssEscape i)%string) = Some found.
Proof.
  intros Hne Hn He found.
  destruct (id_selector_parses i Hne Hn He) as [P1 P2].
  unfold Css.querySelectorAll. rewrite P1, P2. simpl.
  assert (E : filter (fun r => Css.matches d [[Css.Id i]] r = true) (descendants d root)
              = found).
  { apply list_filter_iff. intros r. apply matches_id, Hne. }
  rewrite E. auto.
Qed.

Lemma push_keeps_head s l x : head (push (s :: l) x) = Some s.
Proof.
  unfold push. destruct x as [sel |]; [| reflexivity].
  destruct (bool_decide (Str.trim sel = ""%string) || bool_decide (Str.trim sel ∈ s :: l));
    reflexivity.
Qed.

Lemma push_cons s l x : exists l', push (s :: l) x = s :: l'.
Proof.
  unfold push. destruct x as [sel |]; [| eauto].
  destruct (bool_decide (Str.trim sel = ""%string) || bool_decide (Str.trim sel ∈ s :: l));
    simpl; eauto.
Qed.

Lemma verifyFingerprint_self e : verifyFingerprint e (computeFingerprint e) = true.
Proof.
  unfold verifyFingerprint.
  rewrite bool_decide_eq_true_2 by reflexivity. simpl.
  destruct (List.find _ _); [apply bool_decide_eq_true_2 |]; reflexivity.
Qed.

Lemma getShadowHostChain_light d E :
  isShadowRoot (getRootNode E) = false -> getShadowHostChain d E = None.
Proof.
  intros H. unfold getShadowHostChain. simpl. rewrite H. reflexivity.
Qed.

Lemma getQueryRoot_light E :
  isShadowRoot (getRootNode E) = false -> getQueryRoot E = [].
Proof. intros H. unfold getQueryRoot. rewrite H. reflexivity. Qed.

Lemma selectors_createElementLocator d E :
  selectors (createElementLocator d E)
  = take 5
      (push (push (push (push [] (tryIdSelector d E (getQueryRoot E)))
                        (tryDataAttrSelector d E (getQueryRoot E)))
                  (tryClassSelector d E (getQueryRoot E)))
            (Some (buildPathSelector d E (getQueryRoot E)))).
Proof. reflexivity. Qed.

(** C5 (amended). Let the element [E] carry an id that is not empty, has
    no white space around it and no NUL in it, and let [E] be the only
    element of its query root with that id.  Then the first selector of
    the locator built for [E] is the escaped id selector, and resolving
    the locator against the same document returns [E] whenever the
    shadow host chain of the locator resolves to the query root of [E];
    in particular whenever [E] is in the document tree itself. *)
Theorem unique_id_is_first_and_resolves (d : document) (E : ref) (e : element) :
  element_at d E = Some e ->
  id e <> ""%string ->
  Str.trim (id e) = id e ->
  nul_free (id e) = true ->
  filter (fun r => id (the_element d r) = id e) (descendants d (getQueryRoot E)) = [E] ->
  head (selectors (createElementLocator d E))
    = Some (Str.trim ("#" ++ cssEscape (id e))%string) /\
  (resolveShadowHostChain d [] (default [] (getShadowHostChain d E))
     = Some (getQueryRoot E) ->
   locateElement d (createElementLocator d E) = Some E) /\
  (isShadowRoot (getRootNode E) = false ->
   locateElement d (createElementLocator d E) = Some E).
Proof.
  intros He Hne Htrim Hn Huniq.
  pose proof (trim_fixed_ends_clean _ Htrim) as Hclean.
  destruct (id_selector_query d (getQueryRoot E) (id e) Hne Hn Hclean) as [Q1 Q2].
  rewrite Huniq in Q1, Q2.
  assert (Hthe : the_element d E = e) by (unfold the_element; rewrite He; reflexivity).
  assert (Htry : tryIdSelector d E (getQueryRoot E)
                 = Some ("#" ++ cssEscape (id e))%string).
  { unfold tryIdSelector. rewrite Hthe, Htrim.
    rewrite bool_decide_eq_false_2 by assumption.
    unfold isUnique. rewrite Q1. reflexivity. }
  set (first := Str.trim ("#" ++ cssEscape (id e))%string) in *.
  assert (Hfirst : first <> ""%string).
  { subst first.
    change ("#" ++ cssEscape (id e))%string with (String "#" (cssEscape (id e))).
    rewrite trim_hash. discriminate. }
  assert (Hsel : exists rest, selectors (createElementLocator d E) = first :: rest).
  { rewrite selectors_createElementLocator, Htry.
    assert (P1 : push [] (Some ("#" ++ cssEscape (id e))%string) = [first]).
    { unfold push. fold first.
      rewrite (bool_decide_eq_false_2 (first = ""%string)) by assumption.
      rewrite bool_decide_eq_false_2 by (intros Hin; inversion Hin). reflexivity. }
    rewrite P1.
    destruct (push_cons first [] (tryDataAttrSelector d E (getQueryRoot E))) as (l1 & ->).
    destruct (push_cons first l1 (tryClassSelector d E (getQueryRoot E))) as (l2 & ->).
    destruct (push_cons first l2 (Some (buildPathSelector d E (getQueryRoot E))))
      as (l3 & ->).
    eexists. reflexivity. }
  destruct Hsel as (rest & Hsel).
  assert (Hresolve :
    resolveShadowHostChain d [] (default [] (getShadowHostChain d E))
      = Some (getQueryRoot E) ->
    locateElement d (createElementLocator d E) = Some E).
  { intros Hchain. unfold locateElement. rewrite Hsel.
    change (frameChain (createElementLocator d E)) with (@None (list string)).
    change (shadowHostChain (createElementLocator d E)) with (getShadowHostChain d E).
    change (fingerprint (createElementLocator d E))
      with (computeFingerprint (the_element d E)).
    simpl resolveFrameChain. cbv iota. rewrite Hchain.
    unfold trySelectors, isSelectorUnique, safeQuerySelector, Css.querySelector.
    rewrite Q2. simpl.
    rewrite verifyFingerprint_self, andb_false_r. reflexivity. }
  split; [rewrite Hsel; reflexivity |]. split; [exact Hresolve |].
  intros Hlight. apply Hresolve.
  rewrite (getShadowHostChain_light d E Hlight), (getQueryRoot_light E Hlight).
  reflexivity.
Qed.

(** ** A page *)

Example go_button_locator :
  createElementLocator page go_button
  = {| selectors := ["#go"; "body > div:nth-of-type(1) > button"]%string;
       fingerprint := "button|id=go|text=Go";
       path := [0; 1; 0; 0];
       frameChain := None; shadowHostChain := None |}.
Proof. vm_compute. reflexivity. Qed.

Example go_button_resolves :
  locateElement page (createElementLocator page go_button) = Some go_button.
Proof. vm_compute. reflexivity. Qed.

Example shadow_inner_div_locator :
  createElementLocator page shadow_inner_div
  = {| selectors := ["div > div"%string];
       fingerprint := "div";
       path := [0; 0];
       frameChain := None;
       shadowHostChain := Some ["body > div:nth-of-type(2)"%string] |}.
Proof. vm_compute. reflexivity. Qed.

(** C5 as stated fails: the span has a non-empty id that no other
    element of the document carries, yet the first selector of its
    locator is not an id selector (the id is trimmed before it is
    escaped, and the trimmed id matches nothing). *)
Lemma padded_id_is_not_first :
  ~ (forall (d : document) (E : ref) (e : element),
        element_at d E = Some e ->
        id e <> ""%string ->
        filter (fun r => id (the_element d r) = id e) (descendants d (getQueryRoot E))
          = [E] ->
        exists escaped,
          head (selectors (createElementLocator d E)) = Some ("#" ++ escaped)%string).
Proof.
  intros H.
  destruct (H page padded_span (plain "SPAN" " pad " ["b"%string] []))
    as (escaped & Hhead).
  - reflexivity.
  - discriminate.
  - vm_compute. reflexivity.
  - vm_compute in Hhead. discriminate.
Qed.

Lemma unique_id_is_first_and_resolves_witness :
  head (selectors (createElementLocator page go_button))
    = Some (Str.trim ("#" ++ cssEscape "go")%string) /\
  locateElement page (createElementLocator page go_button) = Some go_button.
Proof.
  destruct (unique_id_is_first_and_resolves page go_button
              (Element "BUTTON" "go" [] [] "Go" ∅ None []))
    as (Hhead & _ & Hlight).
  - reflexivity.
  - discriminate.
  - reflexivity.
  - reflexivity.
  - vm_compute. reflexivity.
  - split; [exact Hhead | apply Hlight; reflexivity].
Defined.

Lemma shadow_chain_must_resolve_witness :
  exists final selector,
    chain_resolves page [] ["body > div:nth-of-type(2)"%string] final /\
    selector ∈ selectors (createElementLocator page shadow_inner_div) /\
    Css.querySelectorAll page final selector = Some [shadow_inner_div] /\
    shadow_inner_div ∈ descendants page final /\
    getRootNode shadow_inner_div = final.
Proof.
  assert (Hchain : shadowHostChain (createElementLocator page shadow_inner_div)
                   = Some ["body > div:nth-of-type(2)"%string])
    by (vm_compute; reflexivity).
  assert (Hne : ["body > div:nth-of-type(2)"%string] <> []) by discriminate.
  apply (proj1 (shadow_chain_must_resolve page
                  (createElementLocator page shadow_inner_div)
                  ["body > div:nth-of-type(2)"%string] Hchain Hne) shadow_inner_div).
  vm_compute. reflexivity.
Defined.

(** ** Why the amended claim asks for more than a unique id *)

(** The id selector comes first, but the host does not expose its
    closed shadow root and resolution fails. *)
Example closed_shadow_root_is_not_entered :
  selectors (createElementLocator closed_page closed_note)
    = ["#note"; "p"]%string /\
  shadowHostChain (createElementLocator closed_page closed_note)
    = Some ["body > div"%string] /\
  locateElement closed_page (createElementLocator closed_page closed_note) = None.
Proof. vm_compute. repeat split; reflexivity. Qed.

Example nul_id_is_not_first :
  selectors (createElementLocator nul_page [Child 0; Child 0; Child 0])
    = ["body > div"%string].
Proof. vm_compute. reflexivity. Qed.

(** ** The structural path at the boundaries *)

(** C7 fails on the code.  For the body element the structural path is
    [body > ] followed by nothing, which is no selector: the query
    throws, and the locator, whose only candidate it is, resolves to
    nothing.  For the html element the path is [body > html], which
    matches nothing.  In a shadow tree the path is not anchored at the
    root: for the outer of two nested divs it is [div], which matches
    both. *)
Theorem structural_path_fails_at_boundaries :
  (buildPathSelector page body_ref [] = "body > "%string /\
   Css.querySelectorAll page [] "body > " = None /\
   selectors (createElementLocator page body_ref) = ["body >"%string] /\
   locateElement page (createElementLocator page body_ref) = None) /\
  (buildPathSelector page html_ref [] = "body > html"%string /\
   Css.querySelectorAll page [] "body > html" = Some [] /\
   locateElement page (createElementLocator page html_ref) = None) /\
  (buildPathSelector page shadow_outer_div (getQueryRoot shadow_outer_div) = "div"%string /\
   Css.querySelectorAll page (getQueryRoot shadow_outer_div) "div"
     = Some [shadow_outer_div; shadow_inner_div] /\
   locateElement page (createElementLocator page shadow_outer_div) = None).
Proof. vm_compute. repeat split; reflexivity. Qed.

End LocatorProofs.

(* ===================================================================== *)
(** * Properties of the style helpers                                   *)
(* ===================================================================== *)

Module StyleHelperProofs.
Import Locator TransactionManager TransactionManagerSpec StyleSpec.

Lemma trimStart_starts_clean s : starts_clean (Str.trimStart s) = true.
Proof.
  induction s as [| c r IH]; [reflexivity |].
  simpl. destruct (Str.is_space c) eqn:E; [exact IH |]. simpl. rewrite E. reflexivity.
Qed.

Lemma trimStart_fixed s : starts_clean s = true -> Str.trimStart s = s.
Proof.
  destruct s as [| c r]; [reflexivity |]. simpl. intros H.
  apply negb_true_iff in H. rewrite H. reflexivity.
Qed.

Lemma trimEnd_starts_clean s : starts_clean s = true -> starts_clean (Str.trimEnd s) = true.
Proof.
  destruct s as [| c r]; [reflexivity |]. simpl. intros H.
  apply negb_true_iff in H. rewrite H.
  destruct (Str.trimEnd r); simpl; rewrite H; reflexivity.
Qed.

Lemma trimEnd_fixed s : CssEscapeSpec.ends_clean s = true -> Str.trimEnd s = s.
Proof.
  induction s as [| c r IH]; [reflexivity |].
  destruct r as [| c' r'].
  - simpl. intros H. apply negb_true_iff in H. rewrite H. reflexivity.
  - intros H. change (CssEscapeSpec.ends_clean (String c (String c' r')))
      with (CssEscapeSpec.ends_clean (String c' r')) in H.
    specialize (IH H).
    change (Str.trimEnd (String c (String c' r')))
      with (match Str.trimEnd (String c' r') with
            | "" => if Str.is_space c then "" else String c ""
            | r'' => String c r''
            end).
    rewrite IH. reflexivity.
Qed.

Lemma trim_clean s : clean (Str.trim s) = true.
Proof.
  unfold clean, Str.trim. rewrite CssEscapeProofs.ends_clean_trimEnd, andb_true_r.
  apply trimEnd_starts_clean, trimStart_starts_clean.
Qed.

Lemma trim_fixed s : clean s = true -> Str.trim s = s.
Proof.
  unfold clean, Str.trim. intros H. apply andb_true_iff in H as [H1 H2].
  rewrite (trimStart_fixed s H1). apply trimEnd_fixed, H2.
Qed.

Lemma trim_trim s : Str.trim (Str.trim s) = Str.trim s.
Proof. apply trim_fixed, trim_clean. Qed.


Lemma lower_char_twice c : Str.lower_char (Str.lower_char c) = Str.lower_char c.
Proof. destruct c as [[] [] [] [] [] [] [] []]; reflexivity. Qed.

Lemma lower_char_not_upper c : Str.is_upper (Str.lower_char c) = false.
Proof. destruct c as [[] [] [] [] [] [] [] []]; reflexivity. Qed.

Lemma lower_char_hyphen c :
  bool_decide ("-"%char = Str.lower_char c) = bool_decide ("-"%char = c).
Proof. destruct c as [[] [] [] [] [] [] [] []]; reflexivity. Qed.

Lemma upper_not_hyphen c : Str.is_upper c = true -> bool_decide ("-"%char = c) = false.
Proof. destruct c as [[] [] [] [] [] [] [] []]; simpl; try discriminate; reflexivity. Qed.

Lemma upper_not_space c : Str.is_upper c = true -> Str.is_space c = false.
Proof. destruct c as [[] [] [] [] [] [] [] []]; simpl; try discriminate; reflexivity. Qed.

Lemma toLowerCase_no_upper s : no_upper (Str.toLowerCase s) = true.
Proof.
  induction s as [| c r IH]; [reflexivity |].
  simpl. rewrite lower_char_not_upper, IH. reflexivity.
Qed.

Lemma camel_to_kebab_fixed s : no_upper s = true -> camel_to_kebab s = s.
Proof.
  induction s as [| c r IH]; [reflexivity |].
  simpl. intros H. apply andb_true_iff in H as [Hc Hr].
  apply negb_true_iff in Hc. rewrite Hc, (IH Hr). reflexivity.
Qed.

Lemma toLowerCase_includes_hyphen s :
  Str.includes_char "-" (Str.toLowerCase s) = Str.includes_char "-" s.
Proof.
  induction s as [| c r IH]; [reflexivity |].
  simpl. rewrite lower_char_hyphen, IH. reflexivity.
Qed.

Lemma startsWith_hyphens s :
  Str.startsWith "--" s
  = match s with
    | String a (String b _) => bool_decide ("-"%char = a) && bool_decide ("-"%char = b)
    | _ => false
    end.
Proof.
  destruct s as [| a [| b r]]; simpl; try reflexivity.
  - rewrite andb_false_r. reflexivity.
  - rewrite andb_true_r. reflexivity.
Qed.

Lemma toLowerCase_startsWith_hyphens s :
  Str.startsWith "--" (Str.toLowerCase s) = Str.startsWith "--" s.
Proof.
  rewrite !startsWith_hyphens.
  destruct s as [| a [| b r]]; simpl; try reflexivity.
  rewrite !lower_char_hyphen. reflexivity.
Qed.

Lemma toLowerCase_starts_clean s : starts_clean (Str.toLowerCase s) = starts_clean s.
Proof.
  destruct s as [| c r]; [reflexivity |]. simpl.
  rewrite TransactionManagerProofs.lower_char_space. reflexivity.
Qed.

Lemma toLowerCase_ends_clean s :
  CssEscapeSpec.ends_clean (Str.toLowerCase s) = CssEscapeSpec.ends_clean s.
Proof.
  induction s as [| c r IH]; [reflexivity |].
  destruct r as [| c' r'].
  - simpl. rewrite TransactionManagerProofs.lower_char_space. reflexivity.
  - exact IH.
Qed.

Lemma toLowerCase_clean s : clean (Str.toLowerCase s) = clean s.
Proof. unfold clean. rewrite toLowerCase_starts_clean, toLowerCase_ends_clean. reflexivity. Qed.

Lemma camel_to_kebab_starts_clean s :
  starts_clean s = true -> starts_clean (camel_to_kebab s) = true.
Proof.
  destruct s as [| c r]; [reflexivity |]. simpl.
  destruct (Str.is_upper c); [reflexivity | auto].
Qed.

Lemma camel_to_kebab_nonempty c r : camel_to_kebab (String c r) <> "".
Proof. simpl. destruct (Str.is_upper c); discriminate. Qed.

Lemma camel_to_kebab_ends_clean s :
  CssEscapeSpec.ends_clean s = true -> CssEscapeSpec.ends_clean (camel_to_kebab s) = true.
Proof.
  induction s as [| c r IH]; [reflexivity |].
  destruct r as [| c' r'].
  - simpl. destruct (Str.is_upper c) eqn:E; simpl; [| auto].
    intros _. rewrite TransactionManagerProofs.lower_char_space.
    rewrite (upper_not_space c E). reflexivity.
  - intros H. change (CssEscapeSpec.ends_clean (String c (String c' r')))
      with (CssEscapeSpec.ends_clean (String c' r')) in H.
    specialize (IH H).
    pose proof (camel_to_kebab_nonempty c' r') as Hne.
    change (camel_to_kebab (String c (String c' r')))
      with (if Str.is_upper c
            then String "-" (String (Str.lower_char c) (camel_to_kebab (String c' r')))
            else String c (camel_to_kebab (String c' r'))).
    destruct (camel_to_kebab (String c' r')) as [| x y] eqn:E; [congruence |].
    destruct (Str.is_upper c); exact IH.
Qed.

Lemma camel_to_kebab_clean s : clean s = true -> clean (camel_to_kebab s) = true.
Proof.
  unfold clean. intros H. apply andb_true_iff in H as [H1 H2].
  rewrite camel_to_kebab_starts_clean, camel_to_kebab_ends_clean by assumption.
  reflexivity.
Qed.

(** A name without hyphen does not begin with two hyphens once it is
    converted. *)
Lemma camel_to_kebab_startsWith_hyphens s :
  Str.includes_char "-" s = false ->
  Str.startsWith "--" (camel_to_kebab s) = false.
Proof.
  rewrite startsWith_hyphens.
  destruct s as [| c r]; [reflexivity |]. simpl.
  intros H. apply orb_false_iff in H as [Hc Hr].
  destruct (Str.is_upper c) eqn:E.
  - rewrite lower_char_hyphen, Hc. apply andb_false_r.
  - destruct (camel_to_kebab r); [reflexivity |]. rewrite Hc. reflexivity.
Qed.

Lemma camel_to_kebab_includes_hyphen s :
  Str.includes_char "-" s = false ->
  Str.includes_char "-" (camel_to_kebab s) = negb (no_upper s).
Proof.
  induction s as [| c r IH]; [reflexivity |]. simpl.
  intros H. apply orb_false_iff in H as [Hc Hr].
  destruct (Str.is_upper c) eqn:E; simpl; [reflexivity |].
  rewrite Hc. apply IH, Hr.
Qed.

Lemma normalizePropertyName_clean p : clean (normalizePropertyName p) = true.
Proof.
  unfold normalizePropertyName. pose proof (trim_clean p) as H.
  case_bool_decide; [reflexivity |].
  destruct (Str.startsWith "--" (Str.trim p)); [exact H |].
  destruct (Str.includes_char "-" (Str.trim p)).
  - rewrite toLowerCase_clean. exact H.
  - rewrite toLowerCase_clean. apply camel_to_kebab_clean, H.
Qed.

Lemma toLowerCase_twice s : Str.toLowerCase (Str.toLowerCase s) = Str.toLowerCase s.
Proof.
  induction s as [| c r IH]; [reflexivity |].
  simpl. rewrite lower_char_twice, IH. reflexivity.
Qed.

Lemma normalizePropertyName_idem p :
  normalizePropertyName (normalizePropertyName p) = normalizePropertyName p.
Proof.
  pose proof (normalizePropertyName_clean p) as Hc.
  unfold normalizePropertyName at 1. rewrite (trim_fixed _ Hc).
  case_bool_decide as E; [congruence |].
  unfold normalizePropertyName in *.
  destruct (bool_decide (Str.trim p = "")); [congruence |].
  destruct (Str.startsWith "--" (Str.trim p)) eqn:E1; [rewrite E1; reflexivity |].
  destruct (Str.includes_char "-" (Str.trim p)) eqn:E2.
  - rewrite toLowerCase_startsWith_hyphens, E1, toLowerCase_includes_hyphen, E2.
    apply toLowerCase_twice.
  - rewrite toLowerCase_startsWith_hyphens, (camel_to_kebab_startsWith_hyphens _ E2).
    rewrite toLowerCase_includes_hyphen, (camel_to_kebab_includes_hyphen _ E2).
    destruct (no_upper (Str.trim p)) eqn:E3; simpl.
    + rewrite (camel_to_kebab_fixed _ E3).
      rewrite (camel_to_kebab_fixed _ (toLowerCase_no_upper _)).
      apply toLowerCase_twice.
    + apply toLowerCase_twice.
Qed.


(** X1. Normalising a property name a second time changes nothing, and
    a normalised name carries no white space at either end: the name a
    handle shows is the key under which its transaction stores the
    values. *)
Theorem normalizePropertyName_idempotent (p : string) :
  normalizePropertyName (normalizePropertyName p) = normalizePropertyName p /\
  Str.trim (normalizePropertyName p) = normalizePropertyName p.
Proof.
  split; [apply normalizePropertyName_idem |].
  apply trim_fixed, normalizePropertyName_clean.
Qed.

End StyleHelperProofs.

(* ===================================================================== *)
(** * Properties of undo and redo on the document                       *)
(* ===================================================================== *)

Module HistoryProofs.
Import Dom Locator TransactionManager TransactionManagerSpec HistorySpec ChangeEventSpec.
Import TransactionManagerProofs StyleHelperProofs.
Local Open Scope list_scope.

Lemma readStyleValue_trimmed (st : gmap string string) (p : string) :
  Str.trim (readStyleValue st p) = readStyleValue st p.
Proof.
  unfold readStyleValue. case_bool_decide; [reflexivity | apply trim_trim].
Qed.

Lemma createStyleTransaction_recorded id locator p b a t :
  normalizePropertyName p <> ""%string ->
  recorded (createStyleTransaction id locator (normalizePropertyName p)
              (Str.trim b) (Str.trim a) t).
Proof.
  intros Hp. exists (normalizePropertyName (normalizePropertyName p)), (Str.trim b), (Str.trim a).
  split; [| split; [| split]].
  - apply createStyleTransaction_style_edit, normalizePropertyName_twice, Hp.
  - apply normalizePropertyName_idem.
  - apply trim_trim.
  - apply trim_trim.
Qed.

Lemma style_edit_unique tx p b a p' b' a' :
  style_edit tx p b a -> style_edit tx p' b' a' -> p = p' /\ b = b' /\ a = a'.
Proof.
  intros (_ & _ & B & A) (_ & _ & B' & A').
  rewrite B in B'. rewrite A in A'.
  apply (inj Some) in B'. apply (inj Some) in A'.
  apply map_singleton_inj in B' as [-> ->].
  apply map_singleton_inj in A' as [_ ->]. auto.
Qed.

Lemma mergeInto_recorded prev next top :
  recorded prev -> recorded next -> mergeInto prev next = Some top -> recorded top.
Proof.
  intros (p & b & a & H & Hp & Hb & Ha) (p' & b' & a' & H' & _ & _ & Ha') Hm.
  unfold mergeInto in Hm.
  rewrite (style_edit_single _ _ _ _ H) in Hm.
  destruct H as (T & N & B & A), H' as (_ & _ & _ & A').
  rewrite bool_decide_eq_false_2 in Hm by assumption.
  rewrite A' in Hm. simpl in Hm.
  destruct (decide (p' = p)) as [-> | Hne].
  - rewrite lookup_singleton_eq in Hm. injection Hm as <-.
    exists p, b, a'. repeat split; simpl; try assumption.
    rewrite A. simpl. rewrite insert_singleton_eq. reflexivity.
  - rewrite lookup_singleton_ne in Hm by assumption. discriminate.
Qed.

Section Stacks.
Variable options : TransactionManagerOptions.

Lemma pushTransaction_recorded tx allowMerge s :
  recorded tx ->
  Forall recorded (undoStack s) ->
  Forall recorded (undoStack (pushTransaction options tx allowMerge s)).
Proof.
  intros Ht Hu.
  destruct (pushTransaction_cases options tx allowMerge s)
    as (_ & _ & [(rest & last & top & Eu & _ & Hm & ->) | ->]).
  - rewrite Eu in Hu. apply Forall_app in Hu as [Hu Hl].
    apply Forall_app. split; [assumption |].
    constructor; [| constructor].
    apply (mergeInto_recorded last tx top); [| assumption ..].
    inversion Hl; assumption.
  - apply enforceMaxHistory_Forall.
    apply Forall_app. split; [assumption |]. constructor; [assumption | constructor].
Qed.

Lemma issued_recorded h :
  issued options h ->
  exists p b, property h = normalizePropertyName p /\
              normalizePropertyName p <> ""%string /\
              beforeValue h = Str.trim b.
Proof.
  intros (d & target & p & s & h0 & s' & Hb & Hh).
  unfold beginStyle in Hb.
  destruct (isDisposed s); [discriminate |].
  destruct (Dom.element_at d target) as [e |]; [| discriminate].
  case_bool_decide as Hp; [discriminate |].
  simpl in Hb. injection Hb as <- <-.
  exists p, (readStyleValue (Dom.style e) (normalizePropertyName p)).
  rewrite readStyleValue_trimmed.
  destruct Hh as [-> | ->]; auto.
Qed.

Lemma perform_recorded s c :
  well_formed options c ->
  Forall recorded (undoStack s) /\ Forall recorded (redoStack s) ->
  Forall recorded (undoStack (perform options s c)) /\
  Forall recorded (redoStack (perform options s c)).
Proof.
  intros Hwf [Hu Hr].
  assert (Hcommit : forall d h m s1,
             issued options h ->
             Forall recorded (undoStack s1) -> Forall recorded (redoStack s1) ->
             Forall recorded (undoStack (snd (commit options d h m s1))) /\
             Forall recorded (redoStack (snd (commit options d h m s1)))).
  { intros d h m s1 Hh Hu1 Hr1. unfold commit.
    destruct (completed h || isDisposed s1); [auto |].
    simpl. case_bool_decide; [auto |]. simpl.
    destruct (issued_recorded h Hh) as (p & b & Ep & Hp & Eb).
    split.
    - apply pushTransaction_recorded; [| assumption].
      rewrite Ep, Eb, <- (readStyleValue_trimmed _ (normalizePropertyName p)).
      apply createStyleTransaction_recorded, Hp.
    - erewrite pushTransaction_clears_redo. constructor. }
  destruct c as [d tg prop | d h m | d h | d tg prop value m | loc prop b a m | d | d | |];
    simpl.
  - unfold beginStyle. destruct (isDisposed s); [auto |].
    destruct (Dom.element_at d tg); [| auto]. case_bool_decide; auto.
  - apply Hcommit; assumption.
  - unfold rollback. destruct (completed h || isDisposed s); auto.
  - unfold applyStyle.
    destruct (beginStyle options d tg prop s) as [[h |] s1] eqn:Hb.
    + assert (Hh : issued options h) by (exists d, tg, prop, s, h, s1; auto).
      assert (Es : undoStack s1 = undoStack s /\ redoStack s1 = redoStack s).
      { unfold beginStyle in Hb. destruct (isDisposed s); [discriminate |].
        destruct (Dom.element_at d tg); [| discriminate].
        case_bool_decide; [discriminate |]. simpl in Hb. injection Hb as _ <-. auto. }
      destruct Es as [Eu Er].
      pose proof (Hcommit (set (inline_style d tg) h value s1) h m s1 Hh) as Hc.
      rewrite Eu, Er in Hc. specialize (Hc Hu Hr).
      destruct (commit options (set (inline_style d tg) h value s1) h m s1) as [[tx h'] s2].
      exact Hc.
    + unfold beginStyle in Hb. destruct (isDisposed s); [injection Hb as <-; auto |].
      destruct (Dom.element_at d tg); [| injection Hb as <-; auto].
      case_bool_decide; [injection Hb as <-; auto | discriminate].
  - unfold recordStyle. destruct (isDisposed s); [auto |].
    case_bool_decide as Hp; [auto |]. case_bool_decide; [auto |]. simpl. split.
    + apply pushTransaction_recorded; [| assumption].
      apply createStyleTransaction_recorded, Hp.
    + erewrite pushTransaction_clears_redo. constructor.
  - pose proof (undo_cases d s) as H.
    destruct (undo d s) as [[result d'] s']. simpl.
    destruct H as [(_ & _ & -> & -> & _) | (rest & tx & _ & _ & Eu & -> & -> & _)];
      [auto |].
    rewrite Eu in Hu. apply Forall_app in Hu as [Hu Hl].
    split; [assumption | apply Forall_app; auto].
  - pose proof (redo_cases options d s) as H.
    destruct (redo options d s) as [[result d'] s']. simpl.
    destruct H as [(_ & _ & -> & -> & _) | (rest & tx & _ & _ & Er & -> & -> & _)];
      [auto |].
    rewrite Er in Hr. apply Forall_app in Hr as [Hr Hl].
    split; [| assumption].
    apply enforceMaxHistory_Forall, Forall_app. auto.
  - split; constructor.
  - split; constructor.
Qed.

Lemma reachable_recorded s :
  reachable options s ->
  Forall recorded (undoStack s) /\ Forall recorded (redoStack s).
Proof.
  intros (s0 & calls & (Eu & Er & _) & Hwf & ->).
  assert (H0 : Forall recorded (undoStack s0) /\ Forall recorded (redoStack s0))
    by (rewrite Eu, Er; split; constructor).
  clear Eu Er. revert s0 H0.
  induction Hwf as [| c calls Hc _ IH]; intros s0 H0; simpl; [assumption |].
  apply IH, perform_recorded; assumption.
Qed.

End Stacks.

(** ** Writing a recorded value *)

Lemma applyStylesSnapshot_single d target p v :
  applyStylesSnapshot d target (Some {[ p := v ]}) = write_inline d target p v.
Proof. unfold applyStylesSnapshot. rewrite map_to_list_singleton. reflexivity. Qed.

Section UndoRedo.
Variable options : TransactionManagerOptions.

(** X3. In every state the API can reach, when the locator of the
    transaction on top of the undo stack resolves to an element, [undo]
    succeeds, and what it does to the document is one write to the
    inline declaration of that element: of the before-value of the
    transaction under its property, a normalised name and a trimmed
    value, so that the write hands on exactly what was recorded.  [redo]
    does the same with the after-value of the top of the redo stack. *)
Theorem undo_and_redo_write_the_recorded_values s d tx rest target p b a :
  reachable options s ->
  style_edit tx p b a ->
  locateElement d (targetLocator tx) = Some target ->
  (undoStack s = rest ++ [tx] ->
   normalizePropertyName p = p /\ Str.trim b = b /\
   exists s', undo d s = (Some tx, write_inline d target p b, s')) /\
  (redoStack s = rest ++ [tx] ->
   normalizePropertyName p = p /\ Str.trim a = a /\
   exists s', redo options d s = (Some tx, write_inline d target p a, s')).
Proof.
  intros Hreach Hedit Hloc.
  pose proof (reachable_invariant options s Hreach) as I.
  destruct (reachable_recorded options s Hreach) as [Ru Rr].
  pose proof Hedit as (T & N & B & A).
  assert (Hrec : recorded tx -> normalizePropertyName p = p /\ Str.trim b = b /\ Str.trim a = a).
  { intros (p' & b' & a' & H' & Hp & Hb & Ha).
    destruct (style_edit_unique tx p b a p' b' a' Hedit H') as (-> & -> & ->). auto. }
  split; intros Hs.
  - pose proof (nonempty_not_disposed options s tx rest I (or_introl Hs)) as Hd.
    rewrite Hs in Ru. apply Forall_app in Ru as [_ Ru]. inversion Ru as [| ? ? Rtx _]; subst.
    destruct (Hrec Rtx) as (Hp & Hb & _).
    split; [exact Hp |]. split; [exact Hb |].
    unfold undo, applyTransaction.
    rewrite Hd, Hs, pop_snoc, T, Hloc. simpl. rewrite B, applyStylesSnapshot_single.
    eexists. reflexivity.
  - pose proof (nonempty_not_disposed options s tx rest I (or_intror Hs)) as Hd.
    rewrite Hs in Rr. apply Forall_app in Rr as [_ Rr]. inversion Rr as [| ? ? Rtx _]; subst.
    destruct (Hrec Rtx) as (Hp & _ & Ha).
    split; [exact Hp |]. split; [exact Ha |].
    unfold redo, applyTransaction.
    rewrite Hd, Hs, pop_snoc, T, Hloc. simpl. rewrite A, applyStylesSnapshot_single.
    eexists. reflexivity.
Qed.

End UndoRedo.

Lemma red_to_blue_edit : style_edit red_to_blue "color" "red" "blue".
Proof. repeat split; [discriminate | reflexivity ..]. Defined.

Lemma undo_and_redo_write_the_recorded_values_witness :
  normalizePropertyName "color" = "color"%string /\ Str.trim "red" = "red"%string /\
  exists s',
    undo LocatorSpec.page after_first_edit
    = (Some red_to_blue, write_inline LocatorSpec.page LocatorSpec.go_button "color" "red", s').
Proof.
  apply (proj1 (undo_and_redo_write_the_recorded_values default_options after_first_edit
                  LocatorSpec.page red_to_blue [] LocatorSpec.go_button
                  "color" "red" "blue"
                  after_first_edit_reachable red_to_blue_edit
                  ltac:(vm_compute; reflexivity))).
  reflexivity.
Defined.

(** ** Handles *)

Section Handles.
Variable options : TransactionManagerOptions.

Lemma readStyleValue_normalised (st : gmap string string) (p : string) :
  readStyleValue st (normalizePropertyName p) = readStyleValue st p.
Proof. unfold readStyleValue. rewrite normalizePropertyName_idem. reflexivity. Qed.

(** C4. A style edit whose before-value equals its after-value once both
    are trimmed is not recorded.  [recordStyle] returns none and leaves
    the manager as it was.  The [commit] of a handle returns none and
    leaves the manager as it was, the handle being marked completed,
    when the value the declaration of the handle holds for the property
    by then is, trimmed, the before-value of the handle: the value
    [beginStyle] read from the declaration, trimmed. *)
Theorem noop_edit_is_not_recorded :
  (forall locator property beforeValue afterValue merge_option s,
      Str.trim beforeValue = Str.trim afterValue ->
      recordStyle options locator property beforeValue afterValue merge_option s
        = (None, s)) /\
  (forall inlineStyle h merge_option s,
      readStyleValue inlineStyle (property h) = beforeValue h ->
      exists h',
        commit options inlineStyle h merge_option s = (None, h', s) /\
        undoStack (snd (commit options inlineStyle h merge_option s)) = undoStack s) /\
  (forall d target property s h s1 inlineStyle merge_option,
      beginStyle options d target property s = (Some h, s1) ->
      readStyleValue inlineStyle property
        = readStyleValue (inline_style d target) property ->
      beforeValue h = readStyleValue (inline_style d target) property /\
      commit options inlineStyle h merge_option s1 = (None, complete h, s1)).
Proof.
  split; [| split].
  - intros locator property b a m s H. unfold recordStyle.
    destruct (isDisposed s); [reflexivity |].
    case_bool_decide; [reflexivity |].
    rewrite bool_decide_eq_true_2 by assumption. reflexivity.
  - intros inlineStyle h m s H. unfold commit.
    destruct (completed h || isDisposed s); [eauto |].
    simpl. rewrite bool_decide_eq_true_2 by assumption. eauto.
  - intros d target p s h s1 inlineStyle m Hb Hread. unfold beginStyle in Hb.
    destruct (isDisposed s) eqn:Hd; [discriminate |].
    destruct (element_at d target) as [e |] eqn:He; [| discriminate].
    case_bool_decide as Hp; [discriminate |].
    simpl in Hb. injection Hb as <- <-.
    assert (Hbefore : readStyleValue (Dom.style e) (normalizePropertyName p)
                      = readStyleValue (inline_style d target) p).
    { unfold inline_style, the_element. rewrite He. apply readStyleValue_normalised. }
    split; [exact Hbefore |].
    unfold commit. simpl. rewrite Hd. simpl.
    rewrite bool_decide_eq_true_2; [reflexivity |].
    rewrite readStyleValue_normalised, Hread. symmetry. exact Hbefore.
Qed.

(** X5. A handle is used up by its first [commit] or [rollback]: both
    return it completed, and on a completed handle [set] writes
    nothing, [commit] returns none and records nothing, and [rollback]
    writes and emits nothing. *)
Theorem handle_is_single_use d h m s :
  completed h = false -> isDisposed s = false ->
  completed (snd (fst (commit options d h m s))) = true /\
  completed (snd (fst (rollback d h s))) = true /\
  (forall h' d' v m' s',
      completed h' = true ->
      set d' h' v s' = d' /\
      commit options d' h' m' s' = (None, h', s') /\
      rollback d' h' s' = (d', h', s')).
Proof.
  intros Hc Hd. split; [| split].
  - unfold commit. rewrite Hc, Hd. simpl.
    case_bool_decide; [reflexivity |].
    destruct (read_clock options s). reflexivity.
  - unfold rollback. rewrite Hc, Hd. reflexivity.
  - intros h' d' v m' s' H. unfold set, commit, rollback. rewrite H. auto.
Qed.

End Handles.

(** ** Undo followed by redo *)

Section RoundTrip.
Variable options : TransactionManagerOptions.


End RoundTrip.


(** ** Change events *)

Section Events.
Variable options : TransactionManagerOptions.

Lemma change_events_app t u :
  change_events (t ++ u) = change_events t ++ change_events u.
Proof. apply omap_app. Qed.

Lemma emit_announces a t s :
  exists event,
    change_events (trace (emit a t s)) = change_events (trace s) ++ [event] /\
    tells_sizes event (emit a t s).
Proof.
  eexists. unfold emit. simpl. rewrite change_events_app. simpl.
  split; [reflexivity | split; reflexivity].
Qed.

Lemma pushTransaction_announces tx allowMerge s :
  exists event,
    change_events (trace (pushTransaction options tx allowMerge s))
      = change_events (trace s) ++ [event] /\
    tells_sizes event (pushTransaction options tx allowMerge s).
Proof.
  unfold pushTransaction.
  match goal with
  | |- context [match ?m with Some _ => _ | None => _ end] => destruct m as [[rest last'] |]
  end.
  - destruct (emit_announces merge (Some last')
                (with_stacks (rest ++ [last']) (redoStack
                   (if (0 <? length (redoStack s))%nat
                    then with_stacks (undoStack s) [] s else s))
                   (if (0 <? length (redoStack s))%nat
                    then with_stacks (undoStack s) [] s else s)))
      as (event & He & Hs).
    exists event. split; [| exact Hs]. rewrite He.
    destruct (0 <? length (redoStack s))%nat; reflexivity.
  - match goal with
    | |- context [emit push (Some tx) ?s1] =>
        destruct (emit_announces push (Some tx) s1) as (event & He & Hs)
    end.
    exists event. split; [| exact Hs]. rewrite He.
    destruct (0 <? length (redoStack s))%nat; reflexivity.
Qed.

Lemma quiet_refl s : quiet s s.
Proof. repeat split. Qed.

Lemma announced_same_trace s1 s s' :
  trace s1 = trace s -> announced s1 s' -> announced s s'.
Proof. intros E (event & He & Hs). exists event. rewrite <- E. auto. Qed.

Lemma commit_announces d h m s :
  let s' := snd (commit options d h m s) in quiet s s' \/ announced s s'.
Proof.
  unfold commit. destruct (completed h || isDisposed s); [left; apply quiet_refl |].
  simpl. case_bool_decide; [left; apply quiet_refl |].
  right. simpl.
  eapply announced_same_trace; [| apply pushTransaction_announces]. reflexivity.
Qed.

Lemma beginStyle_quiet d target p s :
  quiet s (snd (beginStyle options d target p s)).
Proof.
  unfold beginStyle. destruct (isDisposed s); [apply quiet_refl |].
  destruct (Dom.element_at d target); [| apply quiet_refl].
  case_bool_decide; [apply quiet_refl |]. repeat split.
Qed.

Lemma perform_announces s c :
  is_dispose c = false ->
  quiet s (perform options s c) \/ announced s (perform options s c).
Proof.
  intros Hc.
  destruct c as [d tg prop | d h m | d h | d tg prop value m | loc prop b a m | d | d | |];
    simpl; try discriminate.
  - left. apply beginStyle_quiet.
  - apply commit_announces.
  - unfold rollback. destruct (completed h || isDisposed s); [left; apply quiet_refl |].
    right. simpl. apply emit_announces.
  - unfold applyStyle.
    pose proof (beginStyle_quiet d tg prop s) as Hq.
    destruct (beginStyle options d tg prop s) as [[h |] s1]; [| left; exact Hq].
    simpl in Hq. destruct Hq as (Eu & Er & Et).
    pose proof (commit_announces (set (inline_style d tg) h value s1) h m s1) as Hcm.
    destruct (commit options (set (inline_style d tg) h value s1) h m s1) as [[tx h'] s2].
    simpl in *.
    destruct Hcm as [(Eu' & Er' & Et') | (event & He & Hs)].
    + left. repeat split; congruence.
    + right. exists event. split; [congruence | exact Hs].
  - unfold recordStyle. destruct (isDisposed s); [left; apply quiet_refl |].
    case_bool_decide; [left; apply quiet_refl |].
    case_bool_decide; [left; apply quiet_refl |].
    right. simpl.
    eapply announced_same_trace; [| apply pushTransaction_announces]. reflexivity.
  - unfold undo. destruct (isDisposed s); [left; apply quiet_refl |].
    destruct (pop (undoStack s)) as [[rest tx] |] eqn:Hp; [| left; apply quiet_refl].
    apply pop_Some in Hp.
    destruct (applyTransaction d tx true).
    + right. simpl.
      eapply announced_same_trace; [| apply emit_announces]. reflexivity.
    + left. unfold quiet. simpl. split; [auto |]. split; [reflexivity |].
      rewrite change_events_app. apply app_nil_r.
  - unfold redo. destruct (isDisposed s); [left; apply quiet_refl |].
    destruct (pop (redoStack s)) as [[rest tx] |] eqn:Hp; [| left; apply quiet_refl].
    apply pop_Some in Hp.
    destruct (applyTransaction d tx false).
    + right. simpl.
      eapply announced_same_trace; [| apply emit_announces]. reflexivity.
    + left. unfold quiet. simpl. split; [reflexivity |]. split; [auto |].
      rewrite change_events_app. apply app_nil_r.
  - right. unfold clear.
    eapply announced_same_trace; [| apply emit_announces]. reflexivity.
Qed.

(** X7. Every call of the manager other than [dispose] either leaves
    both stacks as they were and emits no change event, or emits exactly
    one change event whose counts are the sizes the stacks have after
    the call. *)
Theorem every_stack_change_is_announced s c :
  is_dispose c = false ->
  quiet s (perform options s c) \/ announced s (perform options s c).
Proof. apply perform_announces. Qed.

(** The trace only grows. *)
Lemma trace_refl (t : list call) : exists u, t = t ++ u.
Proof. exists []. symmetry. apply app_nil_r. Qed.

Lemma pushTransaction_trace tx allowMerge s :
  exists u, trace (pushTransaction options tx allowMerge s) = trace s ++ u.
Proof.
  unfold pushTransaction.
  match goal with
  | |- context [match ?m with Some _ => _ | None => _ end] => destruct m as [[rest last'] |]
  end; simpl; destruct (0 <? length (redoStack s))%nat; simpl; eauto.
Qed.

Lemma commit_trace d h m s :
  exists u, trace (snd (commit options d h m s)) = trace s ++ u.
Proof.
  unfold commit. destruct (completed h || isDisposed s); [apply trace_refl |].
  simpl. case_bool_decide; [apply trace_refl |]. simpl.
  destruct (pushTransaction_trace
              (createStyleTransaction (handle_id h) (handle_targetLocator h) (property h)
                 (beforeValue h)
                 (readStyleValue d (property h))
                 (now options (ticks s)))
              (allows_merge m) (snd (read_clock options s))) as [u Hu].
  exists u. exact Hu.
Qed.

Lemma perform_trace s c :
  exists u, trace (perform options s c) = trace s ++ u.
Proof.
  destruct c as [d tg prop | d h m | d h | d tg prop value m | loc prop b a m | d | d | |];
    simpl.
  - unfold beginStyle. destruct (isDisposed s); [apply trace_refl |].
    destruct (Dom.element_at d tg); [| apply trace_refl].
    case_bool_decide; apply trace_refl.
  - apply commit_trace.
  - unfold rollback. destruct (completed h || isDisposed s); simpl; eauto.
    apply trace_refl.
  - unfold applyStyle.
    assert (Hb : trace (snd (beginStyle options d tg prop s)) = trace s).
    { unfold beginStyle. destruct (isDisposed s); [reflexivity |].
      destruct (Dom.element_at d tg); [| reflexivity]. case_bool_decide; reflexivity. }
    destruct (beginStyle options d tg prop s) as [[h |] s1]; simpl in Hb.
    + destruct (commit_trace (set (inline_style d tg) h value s1) h m s1) as [u Hu].
      destruct (commit options (set (inline_style d tg) h value s1) h m s1) as [[tx h'] s2].
      simpl in *. exists u. congruence.
    + simpl. exists []. rewrite Hb, app_nil_r. reflexivity.
  - unfold recordStyle. destruct (isDisposed s); [apply trace_refl |].
    case_bool_decide; [apply trace_refl |].
    case_bool_decide; [apply trace_refl |]. simpl.
    match goal with
    | |- context [pushTransaction options ?tx ?m ?s1] =>
        destruct (pushTransaction_trace tx m s1) as [u Hu]
    end.
    exists u. exact Hu.
  - unfold undo. destruct (isDisposed s); [apply trace_refl |].
    destruct (pop (undoStack s)) as [[rest tx] |]; [| apply trace_refl].
    destruct (applyTransaction d tx true); simpl; eauto.
  - unfold redo. destruct (isDisposed s); [apply trace_refl |].
    destruct (pop (redoStack s)) as [[rest tx] |]; [| apply trace_refl].
    destruct (applyTransaction d tx false); simpl; eauto.
  - simpl. eauto.
  - apply trace_refl.
Qed.

Lemma perform_disposed s c :
  isDisposed s = true -> undoStack s = [] -> redoStack s = [] ->
  let s' := perform options s c in
  isDisposed s' = true /\ undoStack s' = [] /\ redoStack s' = [] /\
  change_events (trace s')
  = change_events (trace s) ++ (if is_clear c then [cleared_event] else []).
Proof.
  intros Hd Hu Hr.
  destruct c as [d tg prop | d h m | d h | d tg prop value m | loc prop b a m | d | d | |];
    simpl.
  - unfold beginStyle. rewrite Hd. simpl. rewrite app_nil_r. auto.
  - unfold commit. rewrite Hd, orb_true_r. simpl. rewrite app_nil_r. auto.
  - unfold rollback. rewrite Hd, orb_true_r. simpl. rewrite app_nil_r. auto.
  - unfold applyStyle, beginStyle. rewrite Hd. simpl. rewrite app_nil_r. auto.
  - unfold recordStyle. rewrite Hd. simpl. rewrite app_nil_r. auto.
  - unfold undo. rewrite Hd. simpl. rewrite app_nil_r. auto.
  - unfold redo. rewrite Hd. simpl. rewrite app_nil_r. auto.
  - rewrite change_events_app. auto.
  - rewrite app_nil_r. auto.
Qed.

(** X8. Once disposed, a manager stays disposed with both stacks empty
    whatever is called on it.  It writes nothing to the document and
    records nothing: [beginStyle], [applyStyle], [recordStyle], [undo],
    [redo] and the methods of any handle return none and change
    nothing.  The one callback it still makes is [onChange] from
    [clear], with both counts at zero. *)
Theorem disposed_manager_records_and_writes_nothing s0 calls :
  let s := fold_left (perform options) calls (dispose s0) in
  isDisposed s = true /\ undoStack s = [] /\ redoStack s = [] /\
  change_events (trace s)
  = change_events (trace s0)
    ++ repeat cleared_event (length (filter (fun c => is_clear c = true) calls)) /\
  (forall d target p v m h inlineStyle,
      beginStyle options d target p s = (None, s) /\
      applyStyle options d target p v m s = (None, d, s) /\
      set inlineStyle h v s = inlineStyle /\
      commit options inlineStyle h m s = (None, h, s) /\
      rollback inlineStyle h s = (inlineStyle, h, s) /\
      undo d s = (None, d, s) /\
      redo options d s = (None, d, s)) /\
  (forall locator p b a m, recordStyle options locator p b a m s = (None, s)).
Proof.
  intros s.
  assert (H : isDisposed s = true /\ undoStack s = [] /\ redoStack s = [] /\
              change_events (trace s)
              = change_events (trace s0)
                ++ repeat cleared_event
                     (length (filter (fun c => is_clear c = true) calls))).
  { subst s. induction calls as [| c calls IH] using rev_ind.
    - simpl. rewrite app_nil_r. auto.
    - rewrite fold_left_app. simpl.
      destruct IH as (Hd & Hu & Hr & Ht).
      destruct (perform_disposed _ c Hd Hu Hr) as (Hd' & Hu' & Hr' & Ht').
      repeat (split; [assumption |]).
      rewrite Ht', Ht, filter_app, length_app, repeat_app, <- app_assoc. f_equal. f_equal.
      rewrite filter_cons, filter_nil.
      destruct c; simpl; try reflexivity. }
  destruct H as (Hd & Hu & Hr & Ht).
  repeat (split; [assumption |]).
  split.
  - intros d target p v m h inlineStyle.
    unfold applyStyle, beginStyle, set, commit, rollback, undo, redo.
    rewrite Hd, !orb_true_r. auto 10.
  - intros locator p b a m. unfold recordStyle. rewrite Hd. reflexivity.
Qed.

End Events.

Lemma noop_edit_is_not_recorded_witness :
  recordStyle default_options button_locator "color" (String (ascii_of_nat 160) "red")
    "red " None initial
  = (None, initial) /\
  (beforeValue go_handle
   = readStyleValue (inline_style LocatorSpec.page LocatorSpec.go_button) "color" /\
   commit default_options
     (set (inline_style LocatorSpec.page LocatorSpec.go_button) go_handle "  " after_begin)
     go_handle None after_begin
   = (None, complete go_handle, after_begin)).
Proof.
  split.
  - apply (proj1 (noop_edit_is_not_recorded default_options)). reflexivity.
  - apply (proj2 (proj2 (noop_edit_is_not_recorded default_options))
             LocatorSpec.page LocatorSpec.go_button "color" initial).
    + reflexivity.
    + reflexivity.
Defined.

Lemma handle_is_single_use_witness :
  completed (snd (fst (commit default_options
                         (inline_style LocatorSpec.page LocatorSpec.go_button)
                         go_handle None initial)))
  = true /\
  completed (snd (fst (rollback (inline_style LocatorSpec.page LocatorSpec.go_button)
                         go_handle initial))) = true.
Proof.
  destruct (handle_is_single_use default_options
              (inline_style LocatorSpec.page LocatorSpec.go_button) go_handle None initial
              eq_refl eq_refl) as (H1 & H2 & _).
  split; assumption.
Defined.

Lemma every_stack_change_is_announced_witness :
  quiet after_first_edit (perform default_options after_first_edit (call_undo LocatorSpec.page))
  \/ announced after_first_edit
       (perform default_options after_first_edit (call_undo LocatorSpec.page)).
Proof.
  apply (every_stack_change_is_announced default_options after_first_edit
           (call_undo LocatorSpec.page)).
  reflexivity.
Defined.

End HistoryProofs.

(* ===================================================================== *)
(** * Properties of the toolbar of a running editor                     *)
(* ===================================================================== *)

Module EditorHistoryProofs.
Import Locator TransactionManager TransactionManagerSpec ChangeEventSpec.
Import EditorHistory EditorHistorySpec.
Import TransactionManagerProofs HistoryProofs.
Local Open Scope list_scope.

#[local] Arguments Qfloor : simpl never.
#[local] Arguments inject_Z : simpl never.

Lemma setHistory_counts (u r : nat) (t : Toolbar.state) :
  let t' := Toolbar.setHistory true (inject_Z (Z.of_nat u)) (inject_Z (Z.of_nat r)) t in
  Toolbar.undoCount t' = Z.of_nat u /\ Toolbar.redoCount t' = Z.of_nat r /\
  Toolbar.applying t' = Toolbar.applying t /\ rendered t'.
Proof.
  simpl. rewrite !Qfloor_Z. rewrite !Z.max_r by lia.
  repeat split. simpl. rewrite orb_false_r. reflexivity.
Qed.

Section Session.
Variable options : TransactionManagerOptions.

Lemma deliver_quiet m m' t :
  (exists u, trace m' = trace m ++ u) ->
  change_events (trace m') = change_events (trace m) ->
  deliver m m' t = t.
Proof.
  intros [u Hu] He. unfold deliver. rewrite Hu, drop_app_length.
  rewrite Hu, change_events_app in He.
  assert (E : change_events u = []).
  { apply (app_inv_head (change_events (trace m))). rewrite app_nil_r. exact He. }
  unfold change_events in E. rewrite E. reflexivity.
Qed.

Lemma deliver_announced m m' t event :
  (exists u, trace m' = trace m ++ u) ->
  change_events (trace m') = change_events (trace m) ++ [event] ->
  deliver m m' t = handleTransactionChange event t.
Proof.
  intros [u Hu] He. unfold deliver. rewrite Hu, drop_app_length.
  rewrite Hu, change_events_app in He.
  apply app_inv_head in He. unfold change_events in He. rewrite He. reflexivity.
Qed.

(** A state of the manager replaces the current one, stacks announced. *)
Lemma with_manager_in_step m s :
  (exists u, trace m = trace (manager s) ++ u) ->
  quiet (manager s) m \/ announced (manager s) m ->
  shows_sizes s -> rendered (toolbar s) ->
  shows_sizes (with_manager m s) /\ rendered (toolbar (with_manager m s)) /\
  Toolbar.applying (toolbar (with_manager m s)) = Toolbar.applying (toolbar s) /\
  in_flight (with_manager m s) = in_flight s.
Proof.
  intros Ht H [Su Sr] R. unfold with_manager, shows_sizes. simpl.
  destruct H as [(Eu & Er & Ee) | (event & Ee & Cu & Cr)].
  - rewrite (deliver_quiet _ _ _ Ht Ee), Eu, Er. auto.
  - rewrite (deliver_announced _ _ _ event Ht Ee).
    unfold handleTransactionChange. rewrite Cu, Cr.
    destruct (setHistory_counts (length (undoStack m)) (length (redoStack m)) (toolbar s))
      as (H1 & H2 & H3 & H4).
    auto.
Qed.

Lemma setStatus_keeps st msg t :
  let t' := Toolbar.setStatus st msg t in
  Toolbar.undoCount t' = Toolbar.undoCount t /\
  Toolbar.redoCount t' = Toolbar.redoCount t /\
  Toolbar.applying t' = Toolbar.applying t /\
  Toolbar.counts_text t' = Toolbar.counts_text t /\
  Toolbar.undo_disabled t' = Toolbar.undo_disabled t /\
  Toolbar.redo_disabled t' = Toolbar.redo_disabled t /\
  Toolbar.apply_disabled t' = Toolbar.apply_disabled t.
Proof.
  unfold Toolbar.setStatus. simpl.
  destruct (bool_decide (st = Toolbar.success) || bool_decide (st = Toolbar.error));
    simpl; auto 10.
Qed.

#[local] Arguments Toolbar.setStatus : simpl never.

Lemma setStatus_rendered st msg t : rendered t -> rendered (Toolbar.setStatus st msg t).
Proof.
  intros (R1 & R2 & R3 & R4).
  destruct (setStatus_keeps st msg t) as (E1 & E2 & E3 & E4 & E5 & E6 & E7).
  unfold rendered. rewrite E1, E2, E3, E4, E5, E6, E7. auto.
Qed.

Lemma renderButtons_rendered t :
  Toolbar.counts_text t
  = ("Undo: " ++ Str.Z_toString 10 (Toolbar.undoCount t) ++ " " ++ Toolbar.middle_dot
     ++ " Redo: " ++ Str.Z_toString 10 (Toolbar.redoCount t))%string ->
  rendered (Toolbar.renderButtons true t).
Proof. intros H. unfold rendered. simpl. rewrite orb_false_r. auto. Qed.

Lemma perform_keeps_alive m c :
  is_dispose c = false -> isDisposed (perform options m c) = isDisposed m.
Proof.
  intros Hc.
  assert (Hcommit : forall d h mo m1, isDisposed (snd (commit options d h mo m1)) = isDisposed m1).
  { intros d h mo m1. unfold commit.
    destruct (completed h || isDisposed m1); [reflexivity |].
    simpl. case_bool_decide; [reflexivity |]. simpl.
    match goal with
    | |- context [pushTransaction options ?tx ?a ?s1] =>
        destruct (pushTransaction_cases options tx a s1) as (E & _)
    end. exact E. }
  destruct c as [d tg prop | d h mo | d h | d tg prop value mo | loc prop b a mo | d | d | |];
    simpl; try discriminate.
  - unfold beginStyle. destruct (isDisposed m) eqn:E; [exact E |].
    destruct (Dom.element_at d tg); [| exact E]. case_bool_decide; exact E.
  - apply Hcommit.
  - unfold rollback. destruct (completed h || isDisposed m); reflexivity.
  - unfold applyStyle.
    assert (Hb : isDisposed (snd (beginStyle options d tg prop m)) = isDisposed m).
    { unfold beginStyle. destruct (isDisposed m) eqn:E; [exact E |].
      destruct (Dom.element_at d tg); [| exact E]. case_bool_decide; exact E. }
    destruct (beginStyle options d tg prop m) as [[h |] m1]; simpl in Hb; [| exact Hb].
    pose proof (Hcommit (set (inline_style d tg) h value m1) h mo m1) as Hc'.
    destruct (commit options (set (inline_style d tg) h value m1) h mo m1) as [[tx h'] m2].
    simpl in *. congruence.
  - unfold recordStyle. destruct (isDisposed m) eqn:E; [exact E |].
    case_bool_decide; [exact E |]. case_bool_decide; [exact E |]. simpl.
    match goal with
    | |- context [pushTransaction options ?tx ?a ?s1] =>
        destruct (pushTransaction_cases options tx a s1) as (E' & _)
    end. rewrite E'. exact E.
  - pose proof (undo_cases d m) as H. destruct (undo d m) as [[r d'] m'].
    simpl. destruct H as [(_ & _ & _ & _ & E) | (? & ? & _ & _ & _ & _ & _ & E)]; exact E.
  - pose proof (redo_cases options d m) as H. destruct (redo options d m) as [[r d'] m'].
    simpl. destruct H as [(_ & _ & _ & _ & E) | (? & ? & _ & _ & _ & _ & _ & E)]; exact E.
  - reflexivity.
Qed.

Lemma act_in_step s a :
  keeps_running a -> in_step s -> in_step (act options s a).
Proof.
  intros Ha (S & R & A).
  destruct a as [c | d | d | send | |]; simpl.
  - assert (Hc : is_dispose c = false) by (destruct c; simpl in *; tauto).
    destruct (with_manager_in_step (perform options (manager s) c) s
                (perform_trace options _ c) (perform_announces options _ c Hc) S R)
      as (H1 & H2 & _).
    split; [exact H1 | split; [exact H2 |]].
    exact (eq_trans (perform_keeps_alive (manager s) c Hc) A).
  - destruct (Toolbar.undo_disabled (toolbar s)); [split; [exact S | split; [exact R | exact A]] |].
    destruct (with_manager_in_step (snd (undo d (manager s))) s
                (perform_trace options _ (call_undo d))
                (perform_announces options _ (call_undo d) eq_refl) S R)
      as (H1 & H2 & _).
    split; [exact H1 | split; [exact H2 |]].
    exact (eq_trans (perform_keeps_alive (manager s) (call_undo d) eq_refl) A).
  - destruct (Toolbar.redo_disabled (toolbar s)); [split; [exact S | split; [exact R | exact A]] |].
    destruct (with_manager_in_step (snd (redo options d (manager s))) s
                (perform_trace options _ (call_redo d))
                (perform_announces options _ (call_redo d) eq_refl) S R)
      as (H1 & H2 & _).
    split; [exact H1 | split; [exact H2 |]].
    exact (eq_trans (perform_keeps_alive (manager s) (call_redo d) eq_refl) A).
  - unfold Toolbar.handleApply_begin.
    destruct (Toolbar.apply_disabled (toolbar s)); [split; [exact S | split; [exact R | exact A]] |]. simpl.
    destruct S as [Su Sr]. destruct R as (R1 & _).
    split; [| split; [| exact A]].
    + unfold shows_sizes. simpl. auto.
    + simpl. apply setStatus_rendered, renderButtons_rendered. exact R1.
  - destruct (in_flight s) as [outcome |]; [| split; [exact S | split; [exact R | exact A]]].
    destruct S as [Su Sr]. destruct R as (R1 & _).
    unfold Toolbar.handleApply_end. split; [| split; [| exact A]].
    + unfold shows_sizes. simpl. destruct outcome as [msg | r]; simpl; auto.
    + simpl. apply renderButtons_rendered. simpl.
      destruct outcome as [msg | r]; simpl; exact R1.
  - unfold Toolbar.timer_fires.
    destruct (Toolbar.resetTimer (toolbar s)); [| split; [exact S | split; [exact R | exact A]]].
    destruct S as [Su Sr]. split; [| split; [| exact A]].
    + unfold shows_sizes. simpl. auto.
    + simpl. apply setStatus_rendered, R.
Qed.

Lemma started_in_step s : started s -> in_step s.
Proof.
  intros ((Eu & Er & Ed) & Et & _). split; [| split; [| exact Ed]].
  - unfold shows_sizes. rewrite Et, Eu, Er. split; reflexivity.
  - rewrite Et. repeat split.
Qed.

Lemma run_in_step s0 actions :
  started s0 -> Forall keeps_running actions ->
  in_step (fold_left (act options) actions s0).
Proof.
  intros H0 Ha. apply started_in_step in H0. revert s0 H0.
  induction Ha as [| a actions Hk _ IH]; intros s0 H0; simpl; [assumption |].
  apply IH, act_in_step; assumption.
Qed.

Lemma nonempty_last {A} (l : list A) :
  (0 < length l)%nat -> exists rest x, l = rest ++ [x].
Proof.
  destruct l as [| y l] using rev_ind; [simpl; lia |]. eauto.
Qed.

(** X9. In a started editor, after any sequence of manager calls
    (other than [dispose], which belongs to [stop]), clicks on the
    toolbar buttons, settled applies and timer callbacks, the toolbar
    shows the sizes of the two stacks: its counts equal them, the count
    text spells them, and each of Undo, Redo and Apply is disabled
    exactly when an apply is in flight or the stack it needs is empty. *)
Theorem toolbar_shows_the_stack_sizes s0 actions :
  started s0 -> Forall keeps_running actions ->
  let s := fold_left (act options) actions s0 in
  Toolbar.undoCount (toolbar s) = Z.of_nat (length (undoStack (manager s))) /\
  Toolbar.redoCount (toolbar s) = Z.of_nat (length (redoStack (manager s))) /\
  Toolbar.counts_text (toolbar s)
  = ("Undo: " ++ Str.nat_toString (length (undoStack (manager s))) ++ " "
     ++ Toolbar.middle_dot
     ++ " Redo: " ++ Str.nat_toString (length (redoStack (manager s))))%string /\
  Toolbar.undo_disabled (toolbar s)
  = Toolbar.applying (toolbar s) || negb (canUndo (manager s)) /\
  Toolbar.redo_disabled (toolbar s)
  = Toolbar.applying (toolbar s) || negb (canRedo (manager s)) /\
  Toolbar.apply_disabled (toolbar s)
  = Toolbar.applying (toolbar s) || negb (canUndo (manager s)).
Proof.
  intros H0 Ha s.
  destruct (run_in_step s0 actions H0 Ha) as ([Su Sr] & (R1 & R2 & R3 & R4) & _).
  fold s in Su, Sr, R1, R2, R3, R4.
  assert (Hz : forall n : nat, Str.Z_toString 10 (Z.of_nat n) = Str.nat_toString n).
  { intros n. unfold Str.Z_toString, Str.nat_toString.
    destruct (Z.ltb_spec (Z.of_nat n) 0); [lia |].
    rewrite <- nat_N_Z, Zabs2N.id. reflexivity. }
  assert (Hl : forall n : nat, (Z.of_nat n <=? 0)%Z = negb (0 <? n)%nat).
  { intros n. destruct (Z.leb_spec (Z.of_nat n) 0), (Nat.ltb_spec 0 n);
      simpl; try reflexivity; lia. }
  rewrite R1, R2, R3, R4, Su, Sr, !Hz, !Hl. unfold canUndo, canRedo. auto 10.
Qed.

(** X10. In a started editor, after any such sequence: when the Apply
    button is enabled, a click on it finds a transaction on top of the
    undo stack and [applyLatestTransaction] sends that one (it does not
    end in "No changes to apply"); when the Undo (Redo) button is
    enabled, the undo (redo) stack of the live manager is not empty. *)
Theorem enabled_buttons_find_a_transaction s0 actions :
  started s0 -> Forall keeps_running actions ->
  let s := fold_left (act options) actions s0 in
  isDisposed (manager s) = false /\
  (forall send,
      Toolbar.apply_disabled (toolbar s) = false ->
      exists rest tx,
        undoStack (manager s) = rest ++ [tx] /\
        in_flight (act options s (click_apply send)) = Some (settled (send tx)) /\
        applyLatestTransaction (Some (manager s)) send = settled (send tx)) /\
  (Toolbar.undo_disabled (toolbar s) = false ->
   exists rest tx, undoStack (manager s) = rest ++ [tx]) /\
  (Toolbar.redo_disabled (toolbar s) = false ->
   exists rest tx, redoStack (manager s) = rest ++ [tx]).
Proof.
  intros H0 Ha s.
  destruct (run_in_step s0 actions H0 Ha) as ([Su Sr] & (R1 & R2 & R3 & R4) & A).
  fold s in Su, Sr, R1, R2, R3, R4, A.
  assert (Hne : forall (b c : bool) (n : nat) (z : Z),
             b = c || (z <=? 0)%Z -> z = Z.of_nat n -> b = false -> (0 < n)%nat).
  { intros b c n z -> -> H. apply orb_false_iff in H as [_ H].
    apply Z.leb_gt in H. lia. }
  split; [exact A |]. split; [| split].
  - intros send Hen.
    destruct (nonempty_last _ (Hne _ _ _ _ R4 Su Hen)) as (rest & tx & E).
    exists rest, tx. split; [exact E |].
    assert (Hs : applyLatestTransaction (Some (manager s)) send = settled (send tx)).
    { unfold applyLatestTransaction, getUndoStack. rewrite E, last_snoc. reflexivity. }
    split; [| exact Hs].
    cbn [act]. unfold Toolbar.handleApply_begin. rewrite Hen. cbn [negb in_flight].
    rewrite Hs. reflexivity.
  - intros Hen. apply nonempty_last, (Hne _ _ _ _ R2 Su Hen).
  - intros Hen. apply nonempty_last, (Hne _ _ _ _ R3 Sr Hen).
Qed.

End Session.

Lemma fresh_session_started : started fresh_session.
Proof. repeat split. Defined.

Lemma edit_then_undo_keeps_running : Forall keeps_running edit_then_undo.
Proof. repeat constructor. Defined.

Lemma toolbar_shows_the_stack_sizes_witness :
  Toolbar.undoCount (toolbar edited_and_undone)
  = Z.of_nat (length (undoStack (manager edited_and_undone))) /\
  Toolbar.redoCount (toolbar edited_and_undone)
  = Z.of_nat (length (redoStack (manager edited_and_undone))) /\
  Toolbar.counts_text (toolbar edited_and_undone)
  = ("Undo: " ++ Str.nat_toString (length (undoStack (manager edited_and_undone))) ++ " "
     ++ Toolbar.middle_dot
     ++ " Redo: " ++ Str.nat_toString (length (redoStack (manager edited_and_undone))))%string /\
  Toolbar.undo_disabled (toolbar edited_and_undone)
  = Toolbar.applying (toolbar edited_and_undone) || negb (canUndo (manager edited_and_undone)) /\
  Toolbar.redo_disabled (toolbar edited_and_undone)
  = Toolbar.applying (toolbar edited_and_undone) || negb (canRedo (manager edited_and_undone)) /\
  Toolbar.apply_disabled (toolbar edited_and_undone)
  = Toolbar.applying (toolbar edited_and_undone) || negb (canUndo (manager edited_and_undone)).
Proof.
  exact (toolbar_shows_the_stack_sizes TransactionManagerSpec.default_options
           fresh_session edit_then_undo fresh_session_started edit_then_undo_keeps_running).
Defined.

Lemma one_edit_keeps_running : Forall keeps_running one_edit.
Proof. repeat constructor. Defined.

Lemma enabled_buttons_find_a_transaction_witness :
  Toolbar.apply_disabled (toolbar edited) = false /\
  (exists rest tx,
     undoStack (manager edited) = rest ++ [tx] /\
     in_flight (act TransactionManagerSpec.default_options edited
                  (click_apply accepting_agent))
     = Some (settled (accepting_agent tx)) /\
     applyLatestTransaction (Some (manager edited)) accepting_agent
     = settled (accepting_agent tx)) /\
  (exists rest tx, undoStack (manager edited) = rest ++ [tx]) /\
  (exists rest tx, redoStack (manager edited_and_undone) = rest ++ [tx]).
Proof.
  pose proof (enabled_buttons_find_a_transaction TransactionManagerSpec.default_options
                fresh_session one_edit fresh_session_started one_edit_keeps_running)
    as (_ & Happly & Hundo & _).
  pose proof (enabled_buttons_find_a_transaction TransactionManagerSpec.default_options
                fresh_session edit_then_undo fresh_session_started
                edit_then_undo_keeps_running)
    as (_ & _ & _ & Hredo).
  split; [vm_compute; reflexivity |].
  split; [apply Happly; vm_compute; reflexivity |].
  split; [apply Hundo; vm_compute; reflexivity |].
  apply Hredo. vm_compute. reflexivity.
Defined.

End EditorHistoryProofs.

(* ===================================================================== *)
(** * Properties of runs of the position tracker                        *)
(* ===================================================================== *)

Module TrackerRunProofs.
Import PositionTracker PositionTrackerSpec TrackerRunSpec PositionTrackerProofs.
Local Open Scope list_scope.

Lemma toViewportRect_well_sized r : well_sized (toViewportRect r).
Proof.
  unfold toViewportRect.
  destruct (rect_left r), (rect_top r), (rect_width r), (rect_height r); simpl; auto.
  split; apply Q.le_max_l.
Qed.

Lemma approximatelyEqual_refl a : approximatelyEqual a a = true.
Proof.
  apply PositionTrackerProofs.approximatelyEqual_true.
  assert (H : Qabs (a - a) == 0) by (rewrite (Qplus_opp_r a); reflexivity).
  rewrite H. reflexivity.
Qed.

Lemma rectApproximatelyEqual_refl r : rectApproximatelyEqual r r = true.
Proof. destruct r; simpl; [| reflexivity]. rewrite !approximatelyEqual_refl. reflexivity. Qed.

Lemma trackedRectsEqual_refl t : trackedRectsEqual t t = true.
Proof. unfold trackedRectsEqual. rewrite !rectApproximatelyEqual_refl. reflexivity. Qed.

Section Run.
Context {Element : Type} `{EqDecision Element}.

#[local] Abbreviation state := (state (Element := Element)).
#[local] Abbreviation tracker_call := (tracker_call (Element := Element)).

Lemma readElementRect_well_sized bcr (e : option Element) :
  well_sized (readElementRect bcr e).
Proof.
  destruct e as [e |]; simpl; [| exact I].
  destruct (bcr e); [apply toViewportRect_well_sized | exact I].
Qed.

Lemma computeRects_well_sized ic bcr (s : state) :
  rects_well_sized (fst (computeRects ic bcr s)).
Proof.
  unfold computeRects.
  destruct (resolveConnected ic (hoverElement s)) as [h |];
    destruct (resolveConnected ic (selectionElement s)) as [e |];
    try destruct (decide (h = e)); unfold rects_well_sized; cbn [fst hover selection];
    split; apply readElementRect_well_sized.
Qed.

Lemma updateIfChanged_sized ic bcr (s : state) :
  sized s -> sized (updateIfChanged ic bcr s).
Proof.
  intros [Hu Hl]. unfold updateIfChanged.
  destruct (isDisposed s); [split; assumption |].
  pose proof (computeRects_well_sized ic bcr s) as Hn.
  destruct (@computeRects_elements _ _ ic bcr s) as (_ & _ & El & Eu).
  destruct (computeRects ic bcr s) as [next s1]. simpl in *.
  destruct (trackedRectsEqual next (lastRects s1)).
  - split; [rewrite Eu | rewrite El]; assumption.
  - split; simpl; [| assumption].
    rewrite Eu. apply Forall_app. split; [assumption | constructor; [assumption | constructor]].
Qed.

Lemma scheduleUpdate_same (s : state) :
  updates (scheduleUpdate s) = updates s /\ lastRects (scheduleUpdate s) = lastRects s /\
  hoverElement (scheduleUpdate s) = hoverElement s /\
  selectionElement (scheduleUpdate s) = selectionElement s /\
  isDisposed (scheduleUpdate s) = isDisposed s.
Proof.
  unfold scheduleUpdate. destruct (isDisposed s) eqn:E; [auto |].
  destruct (rafPending s); simpl; auto.
Qed.

Lemma quiet_call (s : state) (c : tracker_call) :
  reads_no_layout c ->
  updates (run s c) = updates s /\ lastRects (run s c) = lastRects s.
Proof.
  destruct c as [e | e | | ic bcr | ic bcr |]; simpl; try contradiction; intros _.
  - unfold setHoverElement. destruct (isDisposed s); [auto |].
    destruct (decide (hoverElement s = e)); [auto |].
    match goal with |- context [scheduleUpdate ?x] =>
      destruct (scheduleUpdate_same x) as (E1 & E2 & _) end.
    rewrite E1, E2. auto.
  - unfold setSelectionElement. destruct (isDisposed s); [auto |].
    destruct (decide (selectionElement s = e)); [auto |].
    match goal with |- context [scheduleUpdate ?x] =>
      destruct (scheduleUpdate_same x) as (E1 & E2 & _) end.
    rewrite E1, E2. auto.
  - unfold handleViewportChange.
    destruct (scheduleUpdate_same s) as (E1 & E2 & _).
    destruct (hoverElement s), (selectionElement s), (hover (lastRects s)),
      (selection (lastRects s)); auto.
  - auto.
Qed.

Lemma run_sized (s : state) (c : tracker_call) : sized s -> sized (run s c).
Proof.
  intros Hs.
  destruct c as [e | e | | ic bcr | ic bcr |].
  - destruct (quiet_call s (call_setHoverElement e) I) as [E1 E2].
    unfold sized. rewrite E1, E2. exact Hs.
  - destruct (quiet_call s (call_setSelectionElement e) I) as [E1 E2].
    unfold sized. rewrite E1, E2. exact Hs.
  - destruct (quiet_call s call_viewportChange I) as [E1 E2].
    unfold sized. rewrite E1, E2. exact Hs.
  - simpl. unfold forceUpdate. destruct (isDisposed s); [exact Hs |].
    apply updateIfChanged_sized. exact Hs.
  - simpl. unfold frame. destruct (rafPending s); [| exact Hs].
    apply updateIfChanged_sized. exact Hs.
  - exact Hs.
Qed.

(** X11. Whatever is called on a tracker, in whatever order and
    against whatever layout, no rectangle it hands to
    [onPositionUpdate], nor the one it remembers as last reported, has a
    negative width or height. *)
Theorem reported_rectangles_have_no_negative_size (calls : list tracker_call) :
  let s := fold_left run calls initial in
  Forall rects_well_sized (updates s) /\ rects_well_sized (lastRects s).
Proof.
  assert (H : forall s0 : state, sized s0 -> sized (fold_left run calls s0)).
  { induction calls as [| c calls IH]; intros s0 H0; simpl; [assumption |].
    apply IH, run_sized, H0. }
  apply H. split; [constructor | split; exact I].
Qed.

Lemma frame_not_pending ic bcr (s : state) : rafPending (frame ic bcr s) = false.
Proof.
  unfold frame. destruct (rafPending s) eqn:E; [| exact E].
  unfold updateIfChanged. simpl. destruct (isDisposed s); [reflexivity |].
  unfold computeRects.
  destruct (resolveConnected ic (hoverElement (cancelRaf s))) as [h |];
    destruct (resolveConnected ic (selectionElement (cancelRaf s))) as [e |];
    try destruct (decide (h = e)); cbn [fst snd lastRects rafPending];
    match goal with |- context [trackedRectsEqual ?a ?b] => destruct (trackedRectsEqual a b) end;
    reflexivity.
Qed.

(** X12. Between two frames the tracker reads no layout and reports
    nothing: setting the hover or selection element and scroll or
    resize events leave the reported rectangles and the remembered ones
    as they were, however many of them arrive; with nothing tracked and
    nothing drawn a scroll or resize event changes nothing at all; and
    a frame reports at most once and leaves no frame pending. *)
Theorem tracker_reports_only_in_a_frame :
  (forall (calls : list tracker_call) (s : state),
      Forall reads_no_layout calls ->
      updates (fold_left run calls s) = updates s /\
      lastRects (fold_left run calls s) = lastRects s) /\
  (forall s : state,
      hoverElement s = None -> selectionElement s = None ->
      hover (lastRects s) = None -> selection (lastRects s) = None ->
      handleViewportChange s = s) /\
  (forall ic bcr (s : state),
      rafPending (frame ic bcr s) = false /\
      (updates (frame ic bcr s) = updates s \/
       exists rects, updates (frame ic bcr s) = updates s ++ [rects])).
Proof.
  split; [| split].
  - intros calls s Hc. revert s.
    induction Hc as [| c calls Hq _ IH]; intros s; simpl; [auto |].
    destruct (IH (run s c)) as [E1 E2].
    destruct (quiet_call s c Hq) as [E3 E4]. rewrite E1, E2. auto.
  - intros s H1 H2 H3 H4. unfold handleViewportChange. rewrite H1, H2, H3, H4. reflexivity.
  - intros ic bcr s. split; [apply frame_not_pending |].
    unfold frame. destruct (rafPending s); [| auto].
    destruct (isDisposed s) eqn:Hd.
    + left. unfold updateIfChanged. simpl. rewrite Hd. reflexivity.
    + destruct (@updateIfChanged_spec _ _ ic bcr (cancelRaf s) Hd)
        as (_ & _ & [(_ & _ & E) | (_ & _ & E)]); simpl in E; rewrite E; eauto.
Qed.

Lemma resolveConnected_twice ic (e : option Element) :
  resolveConnected ic (resolveConnected ic e) = resolveConnected ic e.
Proof.
  destruct e as [e |]; [| reflexivity]. simpl.
  destruct (ic e) eqn:E; simpl; [rewrite E |]; reflexivity.
Qed.

(** Computing the rectangles again, against the same layout, from the
    state the first computation left gives the same rectangles and the
    same state. *)
Lemma computeRects_twice ic bcr (s : state) :
  computeRects ic bcr (snd (computeRects ic bcr s))
  = (fst (computeRects ic bcr s), snd (computeRects ic bcr s)).
Proof.
  unfold computeRects.
  destruct (resolveConnected ic (hoverElement s)) as [h |] eqn:Eh;
    destruct (resolveConnected ic (selectionElement s)) as [e |] eqn:Es;
    try destruct (decide (h = e)) as [-> | Hne]; cbn [fst snd hoverElement selectionElement];
    rewrite <- ?Eh, <- ?Es, ?resolveConnected_twice, ?Eh, ?Es;
    try (destruct (decide (e = e)); [| congruence]);
    try (destruct (decide (h = e)); [congruence |]);
    reflexivity.
Qed.

Lemma computeRects_shape ic bcr (s : state) :
  computeRects ic bcr s
  = (fst (computeRects ic bcr s),
     {| hoverElement := resolveConnected ic (hoverElement s);
        selectionElement := resolveConnected ic (selectionElement s);
        lastRects := lastRects s; rafPending := rafPending s;
        isDisposed := isDisposed s; updates := updates s |}).
Proof.
  unfold computeRects.
  destruct (resolveConnected ic (hoverElement s)) as [h |];
    destruct (resolveConnected ic (selectionElement s)) as [e |];
    try destruct (decide (h = e)); reflexivity.
Qed.

Lemma computeRects_rects ic bcr (s s' : state) :
  hoverElement s = hoverElement s' /\ selectionElement s = selectionElement s' ->
  fst (computeRects ic bcr s) = fst (computeRects ic bcr s').
Proof.
  intros [E1 E2]. unfold computeRects. rewrite E1, E2.
  destruct (resolveConnected ic (hoverElement s')) as [h |];
    destruct (resolveConnected ic (selectionElement s')) as [e |];
    try destruct (decide (h = e)); reflexivity.
Qed.

Lemma updateIfChanged_twice ic bcr (s : state) :
  updateIfChanged ic bcr (updateIfChanged ic bcr s) = updateIfChanged ic bcr s.
Proof.
  unfold updateIfChanged at 2 3.
  destruct (isDisposed s) eqn:Hd.
  { unfold updateIfChanged. rewrite Hd. reflexivity. }
  pose proof (computeRects_twice ic bcr s) as Ht.
  destruct (@computeRects_elements _ _ ic bcr s) as (_ & _ & El & _).
  assert (Ed : isDisposed (snd (computeRects ic bcr s)) = false).
  { unfold computeRects.
    destruct (resolveConnected ic (hoverElement s)) as [h |];
      destruct (resolveConnected ic (selectionElement s)) as [e |];
      try destruct (decide (h = e)); exact Hd. }
  destruct (computeRects ic bcr s) as [next s1] eqn:Ec. simpl in *.
  destruct (trackedRectsEqual next (lastRects s1)) eqn:Eq.
  - unfold updateIfChanged. rewrite Ed, Ht, Eq. reflexivity.
  - unfold updateIfChanged. cbn [isDisposed]. rewrite Ed.
    assert (Ht' : computeRects ic bcr
                    {| hoverElement := hoverElement s1;
                       selectionElement := selectionElement s1;
                       lastRects := next; rafPending := rafPending s1;
                       isDisposed := isDisposed s1;
                       updates := updates s1 ++ [next] |}
                  = (next, {| hoverElement := hoverElement s1;
                              selectionElement := selectionElement s1;
                              lastRects := next; rafPending := rafPending s1;
                              isDisposed := isDisposed s1;
                              updates := updates s1 ++ [next] |})).
    { rewrite computeRects_shape. cbn [hoverElement selectionElement lastRects
                                        rafPending isDisposed updates].
      rewrite computeRects_shape in Ht. injection Ht as E1 E2.
      pose proof (f_equal hoverElement E2) as Eh.
      pose proof (f_equal selectionElement E2) as Es.
      cbn [hoverElement selectionElement] in Eh, Es. rewrite Eh, Es.
      rewrite (computeRects_rects ic bcr _ s1) by (split; reflexivity).
      rewrite E1. reflexivity. }
    rewrite Ed in Ht'. rewrite Ht'. cbn [lastRects].
    rewrite trackedRectsEqual_refl. reflexivity.
Qed.

(** X13. A second synchronisation against an unchanged layout does
    nothing: [forceUpdate] applied twice in a row gives the state it
    gives applied once, so no rectangle is reported twice; and on a
    tracker that is not disposed the rectangles remembered after a
    forced update are within the tolerance of the ones the layout
    gives. *)
Theorem second_forced_update_is_silent ic bcr (s : state) :
  forceUpdate ic bcr (forceUpdate ic bcr s) = forceUpdate ic bcr s /\
  (isDisposed s = false ->
   trackedRectsEqual (fst (computeRects ic bcr (forceUpdate ic bcr s)))
                     (lastRects (forceUpdate ic bcr s)) = true).
Proof.
  assert (Hd : isDisposed s = false ->
               isDisposed (updateIfChanged ic bcr (cancelRaf s)) = false
               /\ cancelRaf (updateIfChanged ic bcr (cancelRaf s))
                  = updateIfChanged ic bcr (cancelRaf s)).
  { intros Hd. unfold updateIfChanged. cbn [isDisposed cancelRaf]. rewrite Hd.
    unfold computeRects.
    destruct (resolveConnected ic (hoverElement (cancelRaf s))) as [h |];
      destruct (resolveConnected ic (selectionElement (cancelRaf s))) as [e |];
      try destruct (decide (h = e));
      match goal with |- context [trackedRectsEqual ?a ?b] => destruct (trackedRectsEqual a b) end;
      split; first [exact Hd | reflexivity]. }
  split.
  - unfold forceUpdate at 2 3. destruct (isDisposed s) eqn:E.
    + unfold forceUpdate. rewrite E. reflexivity.
    + destruct (Hd eq_refl) as [Hd1 Hd2].
      unfold forceUpdate. rewrite Hd1, Hd2. apply updateIfChanged_twice.
  - intros E. unfold forceUpdate. rewrite E.
    pose proof (updateIfChanged_twice ic bcr (cancelRaf s)) as Ht.
    unfold updateIfChanged at 1 in Ht.
    destruct (Hd E) as [Hd1 _]. rewrite Hd1 in Ht.
    destruct (computeRects ic bcr (updateIfChanged ic bcr (cancelRaf s))) as [next s1] eqn:Ec.
    cbn [fst].
    pose proof (@computeRects_elements _ _ ic bcr (updateIfChanged ic bcr (cancelRaf s)))
      as (_ & _ & El & Eu).
    rewrite Ec in El, Eu. simpl in El, Eu. rewrite <- El.
    destruct (trackedRectsEqual next (lastRects s1)) eqn:Eq; [reflexivity |].
    exfalso. apply (f_equal updates) in Ht. simpl in Ht. rewrite Eu in Ht.
    apply (f_equal (@length _)) in Ht. rewrite length_app in Ht. simpl in Ht. lia.
Qed.

End Run.

Lemma tracker_reports_only_in_a_frame_witness :
  updates (fold_left run [call_setSelectionElement (Some 3); call_viewportChange]
             PositionTrackerSpec.hovering)
  = updates PositionTrackerSpec.hovering /\
  lastRects (fold_left run [call_setSelectionElement (Some 3); call_viewportChange]
               PositionTrackerSpec.hovering)
  = lastRects PositionTrackerSpec.hovering.
Proof.
  apply (proj1 tracker_reports_only_in_a_frame
           [call_setSelectionElement (Some 3); call_viewportChange]
           PositionTrackerSpec.hovering).
  repeat constructor.
Defined.

Lemma second_forced_update_is_silent_witness :
  forceUpdate PositionTrackerSpec.attached PositionTrackerSpec.moved_half_a_pixel
    (forceUpdate PositionTrackerSpec.attached PositionTrackerSpec.moved_half_a_pixel
       PositionTrackerSpec.hovering)
  = forceUpdate PositionTrackerSpec.attached PositionTrackerSpec.moved_half_a_pixel
      PositionTrackerSpec.hovering /\
  trackedRectsEqual
    (fst (computeRects PositionTrackerSpec.attached PositionTrackerSpec.moved_half_a_pixel
            (forceUpdate PositionTrackerSpec.attached PositionTrackerSpec.moved_half_a_pixel
               PositionTrackerSpec.hovering)))
    (lastRects (forceUpdate PositionTrackerSpec.attached
                  PositionTrackerSpec.moved_half_a_pixel PositionTrackerSpec.hovering))
  = true.
Proof.
  split.
  - apply (proj1 (second_forced_update_is_silent PositionTrackerSpec.attached
                    PositionTrackerSpec.moved_half_a_pixel PositionTrackerSpec.hovering)).
  - apply (proj2 (second_forced_update_is_silent PositionTrackerSpec.attached
                    PositionTrackerSpec.moved_half_a_pixel PositionTrackerSpec.hovering)).
    reflexivity.
Defined.

End TrackerRunProofs.

(* ===================================================================== *)
(** * Properties of runs of the event controller                        *)
(* ===================================================================== *)

Module ControllerRunProofs.
Import EventController EventControllerSpec ControllerRunSpec EventControllerProofs.
Local Open Scope list_scope.

Section Run.
Context {Element : Type} `{EqDecision Element}.
Variable isOverlayElement : Element -> bool.

#[local] Abbreviation state := (state (Element := Element)).
#[local] Abbreviation event := (event (Element := Element)).
#[local] Abbreviation call := (call (Element := Element)).
#[local] Abbreviation input := (input (Element := Element)).
#[local] Abbreviation handle := (handle isOverlayElement).
#[local] Abbreviation blocked := (blocked (Element := Element)).
#[local] Abbreviation off_overlay := (off_overlay isOverlayElement).
#[local] Abbreviation isEventFromEditorUi := (isEventFromEditorUi isOverlayElement).

Lemma blocked_snoc (t : list call) (c : call) :
  blocked (t ++ [c]) = (blocked t + match c with blockPageEvent => 1 | _ => 0 end)%nat.
Proof.
  unfold ControllerRunSpec.blocked. rewrite omap_app, length_app. f_equal.
  destruct c; reflexivity.
Qed.

Lemma blocked_app (t u : list call) : blocked (t ++ u) = (blocked t + blocked u)%nat.
Proof. unfold ControllerRunSpec.blocked. rewrite omap_app, length_app. reflexivity. Qed.

#[local] Abbreviation appends := (appends (Element := Element)).

Lemma appends_nil (s s' : state) : trace s' = trace s -> appends s s' [].
Proof. intros E. unfold appends. rewrite app_nil_r. exact E. Qed.

Lemma scheduleHoverUpdate_trace b (s : state) : trace (scheduleHoverUpdate b s) = trace s.
Proof.
  unfold scheduleHoverUpdate. destruct (hoverRafId s); [reflexivity |].
  destruct (isDisposed s); reflexivity.
Qed.

Lemma scheduleHoverUpdate_mode b (s : state) : mode (scheduleHoverUpdate b s) = mode s.
Proof.
  unfold scheduleHoverUpdate. destruct (hoverRafId s); [reflexivity |].
  destruct (isDisposed s); reflexivity.
Qed.

Lemma setMode_appends m (s : state) :
  appends s (setMode m s) [] \/ appends s (setMode m s) [onDeselect].
Proof.
  unfold setMode. destruct (isDisposed s); [left; apply appends_nil; reflexivity |].
  case_bool_decide; [left; apply appends_nil; reflexivity |].
  destruct (mode s), m; try (left; apply appends_nil; reflexivity).
  right. unfold appends. cbn [set_mode set_lastHovered tell hasPointerPosition].
  destruct (hasPointerPosition s); [rewrite scheduleHoverUpdate_trace |]; reflexivity.
Qed.

Lemma getTargetElementAtFast_spec efp x y (s : state) :
  let r := getTargetElementAtFast isOverlayElement efp x y s in
  fst r = element_under isOverlayElement efp x y /\
  (forall e, fst r = Some e -> isOverlayElement e = false) /\
  mode (snd r) = mode s /\ lastHoveredElement (snd r) = lastHoveredElement s /\
  hoverRafId (snd r) = hoverRafId s /\ isDisposed (snd r) = isDisposed s /\
  hasPointerPosition (snd r) = hasPointerPosition s /\
  lastClientX (snd r) = lastClientX s /\ lastClientY (snd r) = lastClientY s /\
  trace (snd r)
  = trace s ++ match x, y with
               | PositionTracker.Finite a, PositionTracker.Finite b => [hitTest a b]
               | _, _ => []
               end.
Proof.
  unfold getTargetElementAtFast, element_under.
  destruct x as [a |], y as [b |]; simpl; rewrite ?app_nil_r; try (repeat split; congruence).
  destruct (efp a b) as [e |]; simpl; [| repeat split; congruence].
  destruct (isOverlayElement e) eqn:E; simpl; repeat split; try congruence.
Qed.

Lemma getTargetElementForSelection_spec find efp x y mods (s : state) :
  let r := getTargetElementForSelection isOverlayElement find efp x y mods s in
  (forall e, fst r = Some e -> isOverlayElement e = false) /\
  mode (snd r) = mode s /\ lastHoveredElement (snd r) = lastHoveredElement s /\
  hoverRafId (snd r) = hoverRafId s /\ isDisposed (snd r) = isDisposed s /\
  blocked (trace (snd r)) = blocked (trace s) /\
  hover_calls (trace (snd r)) = hover_calls (trace s) /\
  exists u, trace (snd r) = trace s ++ u /\
            Forall (fun c => exists a b, c = hitTest a b) u.
Proof.
  unfold getTargetElementForSelection.
  assert (Hs : forall (o : option Element),
             (forall e, o = Some e -> isOverlayElement e = false) ->
             (forall e, (o, s).1 = Some e -> isOverlayElement e = false) /\
             mode (o, s).2 = mode s /\ lastHoveredElement (o, s).2 = lastHoveredElement s /\
             hoverRafId (o, s).2 = hoverRafId s /\ isDisposed (o, s).2 = isDisposed s /\
             blocked (trace (o, s).2) = blocked (trace s) /\
             hover_calls (trace (o, s).2) = hover_calls (trace s) /\
             exists u, trace (o, s).2 = trace s ++ u /\
                       Forall (fun c => exists a b, c = hitTest a b) u).
  { intros o Ho. simpl. repeat split; try assumption.
    exists []. rewrite app_nil_r. split; [reflexivity | constructor]. }
  destruct x as [a |], y as [b |]; try (apply Hs; discriminate).
  destruct find as [f |].
  - destruct (f a b mods) as [t |]; [| apply Hs; discriminate].
    destruct (isOverlayElement t) eqn:E; apply Hs; congruence.
  - destruct (getTargetElementAtFast_spec efp (PositionTracker.Finite a)
                (PositionTracker.Finite b) s)
      as (_ & H1 & H2 & H3 & H4 & H5 & _ & _ & _ & H6).
    repeat split; try assumption.
    + rewrite H6, blocked_snoc. apply Nat.add_0_r.
    + rewrite H6, hover_calls_app. simpl. apply app_nil_r.
    + exists [hitTest a b]. split; [exact H6 |]. constructor; [eauto | constructor].
Qed.

Lemma setMode_blocked m (s : state) : blocked (trace (setMode m s)) = blocked (trace s).
Proof.
  destruct (setMode_appends m s) as [E | E]; unfold ControllerRunSpec.appends in E;
    rewrite E, blocked_app; unfold ControllerRunSpec.blocked; simpl; lia.
Qed.

(** X14. An event that comes from the editor's own UI is never blocked
    and never selects or deselects: pointer-down, key-down and the
    blocked event types leave the controller exactly as it was, and a
    pointer move changes neither the mode nor the tracked position.  An
    event that comes from the page is blocked exactly once by each of
    the four handlers, whatever else the handler does. *)
Theorem page_events_are_blocked_and_editor_events_pass
  (find : option (Q -> Q -> EventModifiers -> option Element))
  (efp : Q -> Q -> option Element) (ev : event) (s : state) :
  (isEventFromEditorUi ev = true ->
   handlePointerDown isOverlayElement find efp ev s = s /\
   handleKeyDown isOverlayElement ev s = s /\
   handleBlockedEvent isOverlayElement ev s = s /\
   blocked (trace (handlePointerMove isOverlayElement ev s)) = blocked (trace s) /\
   mode (handlePointerMove isOverlayElement ev s) = mode s /\
   hasPointerPosition (handlePointerMove isOverlayElement ev s) = hasPointerPosition s /\
   lastClientX (handlePointerMove isOverlayElement ev s) = lastClientX s /\
   lastClientY (handlePointerMove isOverlayElement ev s) = lastClientY s) /\
  (isEventFromEditorUi ev = false ->
   blocked (trace (handlePointerMove isOverlayElement ev s)) = S (blocked (trace s)) /\
   blocked (trace (handlePointerDown isOverlayElement find efp ev s))
     = S (blocked (trace s)) /\
   blocked (trace (handleKeyDown isOverlayElement ev s)) = S (blocked (trace s)) /\
   blocked (trace (handleBlockedEvent isOverlayElement ev s)) = S (blocked (trace s))).
Proof.
  split; intros Hui.
  - unfold handlePointerDown, handleKeyDown, handleBlockedEvent, handlePointerMove.
    rewrite Hui. repeat (split; [reflexivity |]).
    destruct (bool_decide (mode s = hover) && negb (bool_decide (lastHoveredElement s = None)));
      simpl; rewrite ?blocked_snoc; simpl; repeat split; lia.
  - assert (Hb : blocked (trace (tell blockPageEvent s)) = S (blocked (trace s))).
    { simpl. rewrite blocked_snoc. lia. }
    split; [| split; [| split]].
    + unfold handlePointerMove. rewrite Hui. cbn [set_position mode tell].
      destruct (negb (bool_decide (mode s = hover))); [exact Hb |].
      rewrite scheduleHoverUpdate_trace. exact Hb.
    + unfold handlePointerDown. rewrite Hui. cbn [set_position mode tell].
      destruct (negb (bool_decide (mode s = hover))); [exact Hb |].
      destruct (negb (button ev =? 0)%Z); [exact Hb |].
      match goal with
      | |- context [getTargetElementForSelection _ _ _ ?x ?y ?m ?s1] =>
          pose proof (getTargetElementForSelection_spec find efp x y m s1)
            as (_ & _ & _ & _ & _ & Hbl & _);
          destruct (getTargetElementForSelection isOverlayElement find efp x y m s1)
            as [[t |] s2]
      end; simpl in Hbl.
      * simpl. rewrite blocked_snoc, setMode_blocked, Hbl. cbn [trace]. rewrite blocked_snoc.
        simpl. lia.
      * rewrite Hbl. cbn [trace]. rewrite blocked_snoc. simpl. lia.
    + unfold handleKeyDown. rewrite Hui.
      destruct (bool_decide (key ev = "Escape") && bool_decide (mode (tell blockPageEvent s) = selecting));
        [rewrite setMode_blocked |]; exact Hb.
    + unfold handleBlockedEvent. rewrite Hui. exact Hb.
Qed.

#[local] Abbreviation settled_selection := (settled_selection (Element := Element)).

Lemma setMode_settled m (s : state) : settled_selection s -> settled_selection (setMode m s).
Proof.
  intros Hs. unfold setMode. destruct (isDisposed s); [exact Hs |].
  case_bool_decide as Em; [exact Hs |].
  destruct (mode s) eqn:E, m; try congruence.
  - intros _. split; reflexivity.
  - intros Hm. exfalso. revert Hm. cbn [set_mode set_lastHovered tell hasPointerPosition].
    destruct (hasPointerPosition s); [rewrite scheduleHoverUpdate_mode |]; discriminate.
Qed.

Lemma setMode_quiet m (s : state) :
  exists u, trace (setMode m s) = trace s ++ u /\ Forall off_overlay u /\ hover_calls u = [].
Proof.
  destruct (setMode_appends m s) as [E | E]; unfold ControllerRunSpec.appends in E;
    eexists; (split; [exact E |]); split; try reflexivity; repeat constructor.
Qed.

Lemma commitHoverUpdate_appends efp b (s : state) :
  mode (commitHoverUpdate isOverlayElement efp b s) = mode s /\
  exists u, trace (commitHoverUpdate isOverlayElement efp b s) = trace s ++ u /\
            Forall off_overlay u.
Proof.
  unfold commitHoverUpdate. cbn [set_hoverRafId isDisposed mode hasPointerPosition
                                  lastClientX lastClientY].
  destruct (isDisposed s); [split; [reflexivity | exists []; rewrite app_nil_r; auto] |].
  destruct (negb (bool_decide (mode s = hover)));
    [split; [reflexivity | exists []; rewrite app_nil_r; auto] |].
  destruct (negb (hasPointerPosition s));
    [split; [reflexivity | exists []; rewrite app_nil_r; auto] |].
  match goal with
  | |- context [getTargetElementAtFast _ _ ?x ?y ?s1] =>
      pose proof (getTargetElementAtFast_spec efp x y s1)
        as (_ & Hoff & Hm & _ & _ & _ & _ & _ & _ & Ht);
      destruct (getTargetElementAtFast isOverlayElement efp x y s1) as [next s2]
  end. simpl in Hoff, Hm, Ht.
  assert (Hhit : Forall off_overlay
                   match lastClientX s, lastClientY s with
                   | PositionTracker.Finite a, PositionTracker.Finite b0 => [hitTest a b0]
                   | _, _ => []
                   end).
  { destruct (lastClientX s), (lastClientY s); repeat constructor. }
  destruct (negb b && bool_decide (next = lastHoveredElement s2)).
  - split; [exact Hm |]. eexists. split; [exact Ht | exact Hhit].
  - split; [exact Hm |]. cbn [tell set_lastHovered trace]. rewrite Ht, <- app_assoc.
    eexists. split; [reflexivity |]. apply Forall_app. split; [exact Hhit |].
    constructor; [| constructor]. destruct next as [e |]; [apply Hoff; reflexivity | exact I].
Qed.

(** One input: the selection stays settled, and what is appended to the
    trace names no element of the overlay; while an element is selected
    no [onHover] is appended. *)
Lemma handle_step (s : state) (i : input) :
  settled_selection s ->
  settled_selection (handle s i) /\
  (exists u, trace (handle s i) = trace s ++ u /\ Forall off_overlay u /\
             (mode s = selecting -> hover_calls u = [])).
Proof.
  intros Hs.
  assert (Hsame : forall s' : state,
             mode s' = mode s -> lastHoveredElement s' = lastHoveredElement s ->
             hoverRafId s' = hoverRafId s -> settled_selection s').
  { intros s' E1 E2 E3 Hm. rewrite E1 in Hm. rewrite E2, E3. apply Hs, Hm. }
  assert (Hnil : forall t : list call, exists u, t = t ++ u /\ Forall off_overlay u /\
                               (mode s = selecting -> hover_calls u = [])).
  { intros t. exists []. rewrite app_nil_r. repeat split; auto. }
  assert (Hone : forall (t : list call) c, off_overlay c ->
             (mode s = selecting -> hover_calls [c] = []) ->
             exists u, t ++ [c] = t ++ u /\ Forall off_overlay u /\
                       (mode s = selecting -> hover_calls u = [])).
  { intros t c Hc Hh. exists [c]. repeat split; auto. }
  destruct i as [ev | ev find efp | ev | ev | efp | m |]; cbn [ControllerRunSpec.handle].
  - (* pointer move *)
    unfold handlePointerMove. destruct (isEventFromEditorUi ev).
    + destruct (bool_decide (mode s = hover)) eqn:Em; simpl.
      * apply bool_decide_eq_true in Em.
        destruct (negb (bool_decide (lastHoveredElement s = None))); simpl.
        -- split; [intros Hm; simpl in Hm; congruence |].
           apply Hone; [exact I | congruence].
        -- split; [exact Hs | apply Hnil].
      * split; [exact Hs | apply Hnil].
    + cbn [set_position tell mode].
      destruct (bool_decide (mode s = hover)) eqn:Em; simpl.
      * apply bool_decide_eq_true in Em. split.
        -- intros Hm. rewrite scheduleHoverUpdate_mode in Hm. simpl in Hm. congruence.
        -- rewrite scheduleHoverUpdate_trace. simpl. apply Hone; [exact I | reflexivity].
      * split; [apply Hsame; reflexivity |]. apply Hone; [exact I | reflexivity].
  - (* pointer down *)
    unfold handlePointerDown. destruct (isEventFromEditorUi ev).
    { split; [exact Hs | apply Hnil]. }
    cbn [set_position tell mode].
    destruct (bool_decide (mode s = hover)) eqn:Em; simpl.
    2:{ split; [apply Hsame; reflexivity |]. apply Hone; [exact I | reflexivity]. }
    apply bool_decide_eq_true in Em.
    destruct (negb (button ev =? 0)%Z); simpl.
    { split; [intros Hm; simpl in Hm; congruence |]. apply Hone; [exact I | reflexivity]. }
    match goal with
    | |- context [getTargetElementForSelection _ _ _ ?x ?y ?mo ?s1] =>
        pose proof (getTargetElementForSelection_spec find efp x y mo s1)
          as (Hoff & Hmode & Hlast & Hraf & _ & _ & _ & (u & Hu & Hhit));
        destruct (getTargetElementForSelection isOverlayElement find efp x y mo s1)
          as [[t |] s2]
    end; simpl in Hoff, Hmode, Hlast, Hraf, Hu.
    + assert (Hs2 : settled_selection s2) by (intros Hm; congruence).
      split.
      * intros Hm. apply (setMode_settled selecting s2 Hs2). exact Hm.
      * destruct (setMode_quiet selecting s2) as (v & Hv & Hov & _).
        cbn [tell trace]. rewrite Hv, Hu.
        exists ([blockPageEvent] ++ u ++ v ++ [onSelect t (extractModifiers ev)]).
        rewrite <- !app_assoc.
        split; [reflexivity |]. split; [| congruence].
        constructor; [exact I |]. apply Forall_app. split.
        { eapply Forall_impl; [exact Hhit |]. intros c (a & b & ->). exact I. }
        apply Forall_app. split; [exact Hov |].
        constructor; [apply Hoff; reflexivity | constructor].
    + split; [intros Hm; congruence |].
      rewrite Hu. exists ([blockPageEvent] ++ u). rewrite <- app_assoc.
      split; [reflexivity |]. split; [| congruence].
      constructor; [exact I |].
      eapply Forall_impl; [exact Hhit |]. intros c (a & b & ->). exact I.
  - (* key down *)
    unfold handleKeyDown. destruct (isEventFromEditorUi ev).
    { split; [exact Hs | apply Hnil]. }
    assert (Hs1 : settled_selection (tell blockPageEvent s)) by (apply Hsame; reflexivity).
    destruct (bool_decide (key ev = "Escape")
              && bool_decide (mode (tell blockPageEvent s) = selecting)).
    + split; [apply setMode_settled, Hs1 |].
      destruct (setMode_quiet hover (tell blockPageEvent s)) as (v & Hv & Hov & Hh).
      rewrite Hv. cbn [tell trace]. exists ([blockPageEvent] ++ v). rewrite <- app_assoc.
      split; [reflexivity |]. split; [constructor; [exact I | exact Hov] |].
      intros _. exact Hh.
    + split; [exact Hs1 |]. apply Hone; [exact I | reflexivity].
  - (* blocked event *)
    unfold handleBlockedEvent. destruct (isEventFromEditorUi ev).
    { split; [exact Hs | apply Hnil]. }
    split; [apply Hsame; reflexivity |]. apply Hone; [exact I | reflexivity].
  - (* animation frame *)
    unfold frame. destruct (hoverRafId s) as [b |] eqn:Er; [| split; [exact Hs | apply Hnil]].
    assert (Em : mode s = hover).
    { destruct (mode s) eqn:E; [reflexivity |]. destruct (Hs E) as [_ H']. congruence. }
    destruct (commitHoverUpdate_appends efp b s) as (Hm & u & Hu & Hov).
    split; [intros Hsel; congruence |].
    exists u. split; [exact Hu |]. split; [exact Hov | congruence].
  - (* setMode *)
    split; [apply setMode_settled, Hs |].
    destruct (setMode_quiet m s) as (v & Hv & Hov & Hh). exists v. auto.
  - (* dispose *)
    split; [| apply Hnil].
    intros Hm. simpl in Hm. destruct (Hs Hm) as [H1 _]. split; [exact H1 | reflexivity].
Qed.

Lemma run_settled (inputs : list input) :
  forall s0 : state,
    settled_selection s0 -> Forall off_overlay (trace s0) ->
    settled_selection (fold_left handle inputs s0) /\
    Forall off_overlay (trace (fold_left handle inputs s0)).
Proof.
  induction inputs as [| i inputs IH]; intros s0 H0 T0; simpl; [auto |].
  destruct (handle_step s0 i H0) as (H1 & u & Hu & Hov & _).
  apply IH; [exact H1 |]. rewrite Hu. apply Forall_app. auto.
Qed.

(** X15. Whatever reaches a controller, in whatever order: while it
    is in selecting mode no element is remembered as hovered and no
    hover update is scheduled, and no input of any kind makes it call
    [onHover]. *)
Theorem selection_freezes_hover (inputs : list input) :
  let s := fold_left handle inputs initial in
  mode s = selecting ->
  lastHoveredElement s = None /\ hoverRafId s = None /\
  (forall i, hover_calls (trace (handle s i)) = hover_calls (trace s)).
Proof.
  intros s Hm.
  assert (H0 : settled_selection (initial (Element := Element))) by discriminate.
  destruct (run_settled inputs initial H0 (@List.Forall_nil _ _)) as [Hs _].
  fold s in Hs. destruct (Hs Hm) as [H1 H2].
  split; [exact H1 |]. split; [exact H2 |].
  intros i. destruct (handle_step s i Hs) as (_ & u & Hu & _ & Hh).
  rewrite Hu, hover_calls_app, (Hh Hm). apply app_nil_r.
Qed.

(** X16. Whatever reaches a controller, in whatever order and with
    whatever hit tests: no element it ever hands to [onHover] or to
    [onSelect] belongs to the editor's own UI. *)
Theorem callbacks_never_name_the_overlay (inputs : list input) :
  Forall off_overlay (trace (fold_left handle inputs initial)).
Proof.
  assert (H0 : settled_selection (initial (Element := Element))) by discriminate.
  apply (run_settled inputs initial H0 (@List.Forall_nil _ _)).
Qed.

(** X17. On a live controller in hover mode, a primary-button press
    on the page at a finite position where the target finder gives an
    element outside the overlay blocks the event, enters selecting mode
    with nothing hovered and no hover update pending, and calls
    [onSelect] once with that element and the modifiers of the event.
    On a live controller in selecting mode with a known finite pointer
    position and no hover update pending, Escape from the page followed
    by the next frame blocks the event, calls [onDeselect], hit-tests
    once and calls [onHover] with the element under the pointer, even
    when it is the element hovered before the selection. *)
Theorem click_selects_and_escape_resumes_hover :
  (forall (s : state) (ev : event) find efp x y target,
      isDisposed s = false -> mode s = hover ->
      isEventFromEditorUi ev = false -> button ev = 0%Z ->
      clientX ev = PositionTracker.Finite x -> clientY ev = PositionTracker.Finite y ->
      find x y (extractModifiers ev) = Some target ->
      isOverlayElement target = false ->
      let s' := handlePointerDown isOverlayElement (Some find) efp ev s in
      mode s' = selecting /\ lastHoveredElement s' = None /\ hoverRafId s' = None /\
      trace s' = trace s ++ [blockPageEvent; onSelect target (extractModifiers ev)]) /\
  (forall (s : state) (ev : event) efp x y,
      isDisposed s = false -> mode s = selecting -> hoverRafId s = None ->
      hasPointerPosition s = true ->
      lastClientX s = PositionTracker.Finite x -> lastClientY s = PositionTracker.Finite y ->
      isEventFromEditorUi ev = false -> key ev = "Escape"%string ->
      let s' := frame isOverlayElement efp (handleKeyDown isOverlayElement ev s) in
      let under :=
        element_under isOverlayElement efp (PositionTracker.Finite x)
          (PositionTracker.Finite y) in
      mode s' = hover /\ lastHoveredElement s' = under /\ hoverRafId s' = None /\
      trace s' = trace s ++ [blockPageEvent; onDeselect; hitTest x y; onHover under]).
Proof.
  split.
  - intros s ev find efp x y target Hd Hm Hui Hb Hx Hy Hf Ho s'. subst s'.
    unfold handlePointerDown. rewrite Hui. cbn [set_position tell mode].
    rewrite Hm, Hb, Hx, Hy. simpl.
    unfold getTargetElementForSelection. rewrite Hf, Ho.
    unfold setMode. simpl. rewrite Hd, Hm. simpl.
    rewrite <- app_assoc. auto.
  - intros s ev efp x y Hd Hm Hr Hp Hx Hy Hui Hk s' under. subst s' under.
    unfold handleKeyDown. rewrite Hui, Hk. cbn [tell mode]. rewrite Hm. simpl.
    unfold setMode. simpl. rewrite Hd, Hm. simpl.
    rewrite Hp. unfold scheduleHoverUpdate. simpl. rewrite Hr, Hd.
    unfold frame. simpl.
    unfold commitHoverUpdate. simpl. rewrite Hd, Hp, Hx, Hy. simpl.
    unfold element_under.
    destruct (efp x y) as [e |]; simpl; [destruct (isOverlayElement e); simpl |];
      rewrite <- !app_assoc; auto.
Qed.

End Run.

Lemma page_events_are_blocked_and_editor_events_pass_witness :
  blocked (trace (handlePointerMove EventControllerSpec.overlay
                    (EventControllerSpec.move_over [1%nat] 1%Q 1%Q) EventControllerSpec.hovering_1))
  = S (blocked (trace EventControllerSpec.hovering_1)) /\
  blocked (trace (handlePointerDown EventControllerSpec.overlay None
                    EventControllerSpec.always_2
                    (EventControllerSpec.move_over [1%nat] 1%Q 1%Q) EventControllerSpec.hovering_1))
  = S (blocked (trace EventControllerSpec.hovering_1)) /\
  blocked (trace (handleKeyDown EventControllerSpec.overlay
                    (EventControllerSpec.move_over [1%nat] 1%Q 1%Q) EventControllerSpec.hovering_1))
  = S (blocked (trace EventControllerSpec.hovering_1)) /\
  blocked (trace (handleBlockedEvent EventControllerSpec.overlay
                    (EventControllerSpec.move_over [1%nat] 1%Q 1%Q) EventControllerSpec.hovering_1))
  = S (blocked (trace EventControllerSpec.hovering_1)).
Proof.
  apply (proj2 (page_events_are_blocked_and_editor_events_pass EventControllerSpec.overlay
                  None EventControllerSpec.always_2
                  (EventControllerSpec.move_over [1%nat] 1%Q 1%Q) EventControllerSpec.hovering_1)).
  reflexivity.
Defined.

Lemma selection_freezes_hover_witness :
  lastHoveredElement
    (fold_left (handle EventControllerSpec.overlay)
       [pointer_down (EventControllerSpec.move_over [1%nat] 1%Q 1%Q) None
          EventControllerSpec.always_2] initial) = None /\
  hoverRafId
    (fold_left (handle EventControllerSpec.overlay)
       [pointer_down (EventControllerSpec.move_over [1%nat] 1%Q 1%Q) None
          EventControllerSpec.always_2] initial) = None /\
  (forall i,
      hover_calls
        (trace (handle EventControllerSpec.overlay
                  (fold_left (handle EventControllerSpec.overlay)
                     [pointer_down (EventControllerSpec.move_over [1%nat] 1%Q 1%Q) None
                        EventControllerSpec.always_2] initial) i))
      = hover_calls
          (trace (fold_left (handle EventControllerSpec.overlay)
                    [pointer_down (EventControllerSpec.move_over [1%nat] 1%Q 1%Q) None
                       EventControllerSpec.always_2] initial))).
Proof.
  apply (selection_freezes_hover EventControllerSpec.overlay
           [pointer_down (EventControllerSpec.move_over [1%nat] 1%Q 1%Q) None
              EventControllerSpec.always_2]).
  reflexivity.
Defined.

Lemma click_selects_and_escape_resumes_hover_witness :
  mode (handlePointerDown EventControllerSpec.overlay (Some (fun _ _ _ => Some 2%nat))
          EventControllerSpec.always_2 (EventControllerSpec.move_over [1%nat] 1%Q 1%Q)
          EventControllerSpec.hovering_1) = selecting /\
  lastHoveredElement
    (handlePointerDown EventControllerSpec.overlay (Some (fun _ _ _ => Some 2%nat))
       EventControllerSpec.always_2 (EventControllerSpec.move_over [1%nat] 1%Q 1%Q)
       EventControllerSpec.hovering_1) = None /\
  hoverRafId
    (handlePointerDown EventControllerSpec.overlay (Some (fun _ _ _ => Some 2%nat))
       EventControllerSpec.always_2 (EventControllerSpec.move_over [1%nat] 1%Q 1%Q)
       EventControllerSpec.hovering_1) = None /\
  trace (handlePointerDown EventControllerSpec.overlay (Some (fun _ _ _ => Some 2%nat))
           EventControllerSpec.always_2 (EventControllerSpec.move_over [1%nat] 1%Q 1%Q)
           EventControllerSpec.hovering_1)
  = trace EventControllerSpec.hovering_1
    ++ [blockPageEvent;
        onSelect 2%nat (extractModifiers (EventControllerSpec.move_over [1%nat] 1%Q 1%Q))].
Proof.
  apply (proj1 (click_selects_and_escape_resumes_hover EventControllerSpec.overlay)
           EventControllerSpec.hovering_1 (EventControllerSpec.move_over [1%nat] 1%Q 1%Q)
           (fun _ _ _ => Some 2%nat) EventControllerSpec.always_2 1%Q 1%Q 2%nat);
    reflexivity.
Defined.

End ControllerRunProofs.

(* ===================================================================== *)
(** * Properties of CSS.escape                                          *)
(* ===================================================================== *)

Module CssEscapeMoreProofs.
Import Locator CssEscapeSpec CssEscapeProofs.
Local Open Scope string_scope.

#[local] Arguments hex_digits : simpl never.
#[local] Arguments kind_of : simpl never.
#[local] Arguments render : simpl never.

Lemma consume_cssEscape_from s :
  forall k f len fuel,
    nul_free s = true -> String.length s <= fuel ->
    Css.consume_name fuel (cssEscape_from k f len s) = (s, "").
Proof.
  induction s as [| c r IH]; intros k f len fuel Hn Hf.
  - apply consume_name_nil.
  - simpl in Hn. apply andb_true_iff in Hn as [Hc Hn].
    destruct fuel as [| fuel]; [simpl in Hf; lia |].
    rewrite cssEscape_from_cons, consume_render by (try apply kind_of_ok; assumption).
    rewrite IH by (try assumption; simpl in Hf; lia). reflexivity.
Qed.

Lemma cssEscape_from_length s :
  forall k f len, String.length s <= String.length (cssEscape_from k f len s).
Proof.
  induction s as [| c r IH]; intros k f len; [simpl; lia |].
  rewrite cssEscape_from_cons, length_append.
  pose proof (render_length
                (kind_of (k =? 0)%nat (k =? 1)%nat (Str.code f =? 45)%nat (len =? 1)%nat c) c).
  pose proof (IH (S k) f len). simpl. lia.
Qed.

Lemma cssEscape_starts c r :
  nul_free (String c r) = true ->
  Css.starts_ident (cssEscape (String c r)) = true.
Proof.
  intros Hn. unfold cssEscape.
  simpl in Hn. apply andb_true_iff in Hn as [Hc Hn].
  set (len := String.length (String c r)).
  rewrite cssEscape_from_cons.
  change (0 =? 0)%nat with true. change (0 =? 1)%nat with false.
  pose proof (kind_of_ok true false (Str.code c =? 45)%nat (len =? 1)%nat c) as Hk.
  destruct (plain_heads_at (Str.code c =? 45)%nat (len =? 1)%nat c) as (P0 & _ & _ & _ & _).
  destruct (render_heads _ c (cssEscape_from 1 c len r) Hk Hc
              (fun H => match Bool.diff_false_true H with end) P0) as [Hh Hr].
  apply starts_ident_shape; [exact Hh |].
  intros r' E. destruct (Hr r' E) as (Hp & Hy & ->).
  destruct r as [| c2 r2].
  - exfalso. subst len. change (String.length (String c "") =? 1)%nat with true in Hp.
    destruct (plain_heads_at (Str.code c =? 45)%nat true c) as (_ & P1 & _).
    rewrite (P1 Hp) in Hy. discriminate.
  - simpl in Hn. apply andb_true_iff in Hn as [Hc2 Hn].
    rewrite cssEscape_from_cons.
    change (1 =? 0)%nat with false. change (1 =? 1)%nat with true.
    unfold hyphen in Hy. rewrite Hy.
    pose proof (kind_of_ok false true true (len =? 1)%nat c2) as Hk2.
    destruct (plain_heads_at true (len =? 1)%nat c2) as (_ & _ & P2 & _ & _).
    apply (render_heads _ c2 _ Hk2 Hc2); [discriminate | exact P2].
Qed.

Lemma cssEscape_parse_ident s :
  s <> "" -> nul_free s = true -> Css.parse_ident (cssEscape s) = Some (s, "").
Proof.
  intros Hne Hn. destruct s as [| c r]; [congruence |].
  unfold Css.parse_ident. rewrite (cssEscape_starts c r Hn).
  unfold cssEscape. rewrite consume_cssEscape_from; [reflexivity | exact Hn |].
  pose proof (cssEscape_from_length (String c r) 0 c (String.length (String c r))). lia.
Qed.

(** X18. Escaping is undone by reading: for every non-empty string
    without a NUL code unit, the output of [cssEscape] is read by the
    selector grammar as one identifier, which is the string itself with
    nothing left over; so [#] followed by the escaped string is the id
    selector of exactly that string. *)
Theorem escaped_identifier_reads_back (s : string) :
  s <> "" -> nul_free s = true ->
  Css.parse_ident (cssEscape s) = Some (s, "") /\
  Css.parse ("#" ++ cssEscape s) = Some [[Css.Id s]].
Proof.
  intros Hne Hn. split; [apply cssEscape_parse_ident; assumption |].
  change ("#" ++ cssEscape s) with (String "#" (cssEscape s)).
  apply parse_id_selector, cssEscape_parse_ident; assumption.
Qed.

Lemma escaped_identifier_reads_back_witness :
  Css.parse_ident (cssEscape "1st item") = Some ("1st item", "") /\
  Css.parse ("#" ++ cssEscape "1st item") = Some [[Css.Id "1st item"]].
Proof.
  apply (escaped_identifier_reads_back "1st item"); [discriminate | reflexivity].
Defined.

(** ** Class names that pass the filter *)

Lemma plain_class_head a hyphen_first single :
  Str.is_alpha a || (Str.code a =? 95)%nat = true ->
  kind_of true false hyphen_first single a = PlainK /\ (Str.code a =? 45)%nat = false.
Proof.
  assert (H : forall c,
             implb (Str.is_alpha c || (Str.code c =? 95)%nat)
               (forallb (fun hf => forallb (fun sg =>
                  is_plain (kind_of true false hf sg c)) both) both
                && negb (Str.code c =? 45)%nat) = true)
    by (apply forall_ascii; vm_compute; reflexivity).
  intros Ha. specialize (H a). rewrite Ha in H. cbn [implb] in H.
  apply andb_true_iff in H as [H Hh]. apply negb_true_iff in Hh.
  split; [| exact Hh].
  rewrite forallb_forall in H. specialize (H hyphen_first (in_both _)).
  rewrite forallb_forall in H. specialize (H single (in_both _)).
  destruct (kind_of true false hyphen_first single a); try discriminate. reflexivity.
Qed.

Lemma plain_class_tail c at1 single :
  Str.is_alnum c || (Str.code c =? 95)%nat || (Str.code c =? 45)%nat = true ->
  kind_of false at1 false single c = PlainK.
Proof.
  assert (H : forall c,
             implb (Str.is_alnum c || (Str.code c =? 95)%nat || (Str.code c =? 45)%nat)
               (forallb (fun a1 => forallb (fun sg =>
                  is_plain (kind_of false a1 false sg c)) both) both) = true)
    by (apply forall_ascii; vm_compute; reflexivity).
  intros Hc. specialize (H c). rewrite Hc in H. cbn [implb] in H.
  rewrite forallb_forall in H. specialize (H at1 (in_both _)).
  rewrite forallb_forall in H. specialize (H single (in_both _)).
  destruct (kind_of false at1 false single c); try discriminate. reflexivity.
Qed.

Lemma cssEscape_from_plain r :
  forall k f len,
    (Str.code f =? 45)%nat = false ->
    forallb (fun x => Str.is_alnum x || (Str.code x =? 95)%nat || (Str.code x =? 45)%nat)
            (list_ascii_of_string r) = true ->
    cssEscape_from (S k) f len r = r.
Proof.
  induction r as [| c r IH]; intros k f len Hf Hr; [reflexivity |].
  simpl in Hr. apply andb_true_iff in Hr as [Hc Hr].
  rewrite cssEscape_from_cons, Hf.
  change (S k =? 0)%nat with false.
  rewrite (plain_class_tail c _ _ Hc), (IH (S k) f len Hf Hr). reflexivity.
Qed.

(** X19. A class name that passes the filter of [tryClassSelector]
    (a letter or underscore followed by letters, digits, underscores and
    hyphens) is left as it is by [cssEscape]: the class selectors the
    locator emits spell the class names literally. *)
Theorem plain_class_needs_no_escape (c : string) :
  is_plain_class c = true -> cssEscape c = c.
Proof.
  destruct c as [| a r]; [discriminate |].
  unfold is_plain_class. intros H. apply andb_true_iff in H as [Ha Hr].
  destruct (plain_class_head a (Str.code a =? 45)%nat
              (String.length (String a r) =? 1)%nat Ha) as [Hk Hh].
  unfold cssEscape. rewrite cssEscape_from_cons.
  change (0 =? 0)%nat with true. change (0 =? 1)%nat with false.
  rewrite Hk, (cssEscape_from_plain r 0 a _ Hh Hr). reflexivity.
Qed.

Lemma plain_class_needs_no_escape_witness : cssEscape "btn-primary_2" = "btn-primary_2".
Proof. apply (plain_class_needs_no_escape "btn-primary_2"). reflexivity. Defined.

End CssEscapeMoreProofs.

(* ===================================================================== *)
(** * Properties of the locator                                           *)
(* ===================================================================== *)

Module LocatorRunProofs.
Import Dom Locator LocatorSpec LocatorRunSpec CssEscapeProofs.
Local Open Scope string_scope.
Local Open Scope list_scope.

(** ** The shortcut strategies *)

Lemma isUnique_single d root sel :
  isUnique d root sel = true -> exists x, Css.querySelectorAll d root sel = Some [x].
Proof.
  unfold isUnique.
  destruct (Css.querySelectorAll d root sel) as [[| x [| y l]] |]; simpl; try discriminate.
  eauto.
Qed.

Lemma tryIdSelector_unique d el root sel :
  tryIdSelector d el root = Some sel -> isUnique d root sel = true.
Proof.
  unfold tryIdSelector. case_bool_decide; [discriminate |].
  destruct (isUnique d root _) eqn:E; [intros [= <-]; exact E | discriminate].
Qed.

Lemma tryDataAttrs_unique d el root attrs sel :
  tryDataAttrs d el root attrs = Some sel -> isUnique d root sel = true.
Proof.
  induction attrs as [| a rest IH]; cbn [tryDataAttrs]; [discriminate |].
  destruct (Str.trim <$> getAttribute _ a) as [v |]; [| exact IH].
  case_bool_decide; [exact IH |].
  destruct (isUnique d root ("[" ++ a ++ "=" ++ dq ++ cssEscape v ++ dq ++ "]")%string) eqn:E1;
    [intros [= <-]; exact E1 |].
  destruct (isUnique d root (tag_of d el ++ _)%string) eqn:E2;
    [intros [= <-]; exact E2 | exact IH].
Qed.

Lemma tryClassSelector_unique d el root sel :
  tryClassSelector d el root = Some sel -> isUnique d root sel = true.
Proof.
  unfold tryClassSelector.
  destruct (filter _ (classList (the_element d el))); [discriminate |].
  intros H. apply find_some in H as [_ H]. exact H.
Qed.

(** X20. A selector returned by the id strategy, the data-attribute
    strategy or the class strategy matches exactly one element of the
    query root it was generated for. *)
Theorem strategy_selectors_match_one_element (d : document) (element root : ref)
  (selector : string) :
  tryIdSelector d element root = Some selector \/
  tryDataAttrSelector d element root = Some selector \/
  tryClassSelector d element root = Some selector ->
  exists x, Css.querySelectorAll d root selector = Some [x].
Proof.
  intros [H | [H | H]]; apply isUnique_single.
  - exact (tryIdSelector_unique _ _ _ _ H).
  - exact (tryDataAttrs_unique _ _ _ _ _ H).
  - exact (tryClassSelector_unique _ _ _ _ H).
Qed.

Lemma strategy_selectors_match_one_element_witness :
  exists x, Css.querySelectorAll page [] ".a" = Some [x].
Proof.
  apply (strategy_selectors_match_one_element page [Child 1; Child 0; Child 1; Child 0] [] ".a").
  right. right. vm_compute. reflexivity.
Defined.

(** ** The candidate list *)

Lemma push_NoDup l x : NoDup l -> NoDup (push l x).
Proof.
  intros H. destruct x as [s |]; [| exact H]. unfold push.
  destruct (bool_decide (Str.trim s = ""%string)); [exact H |].
  cbn [orb]. case_bool_decide as Hin; [exact H |].
  apply NoDup_app. split; [exact H |]. split; [| apply NoDup_singleton].
  intros y Hy Hy'. apply list_elem_of_singleton in Hy'. subst y. contradiction.
Qed.

Lemma push_stored l x : Forall stored l -> Forall stored (push l x).
Proof.
  intros H. destruct x as [s |]; [| exact H]. unfold push.
  case_bool_decide as He; [exact H |].
  cbn [orb]. case_bool_decide as Hin; [exact H |].
  apply Forall_app. split; [exact H |].
  apply Forall_singleton. split; [exact He | apply StyleHelperProofs.trim_trim].
Qed.

Lemma push_length l x : length (push l x) <= S (length l).
Proof.
  destruct x as [s |]; [| simpl; lia]. unfold push.
  destruct (_ || _); [lia |]. rewrite length_app. simpl. lia.
Qed.

Lemma push_some_nonempty l s : Str.trim s <> ""%string -> push l (Some s) <> [].
Proof.
  intros He. unfold push.
  case_bool_decide; [contradiction |].
  cbn [orb]. case_bool_decide as Hin.
  - intros ->. inversion Hin.
  - destruct l; discriminate.
Qed.

Lemma document_path_has_ink d element root :
  isShadowRoot root = false -> Str.trim (buildPathSelector d element root) <> ""%string.
Proof.
  intros Hr. unfold buildPathSelector. rewrite Hr. cbn [negb].
  intros H. apply TransactionManagerProofs.trimEnd_empty in H.
  rewrite TransactionManagerProofs.trimStart_ink in H.
  rewrite append_cons in H. simpl in H. discriminate.
Qed.

(** X21. The candidates of [generateSelectorCandidates] are pairwise
    distinct, each is non-empty and trimmed, and there are at most four
    of them and at most [max(1, maxCandidates)]; for an element whose
    query root is the document there is at least one, so that
    [generateCssSelector] is not the empty string. *)
Theorem candidates_are_distinct_trimmed_and_bounded (d : document) (element : ref)
  (options : SelectorGenerationOptions) :
  let candidates := generateSelectorCandidates d element options in
  NoDup candidates /\
  Forall stored candidates /\
  length candidates <= 4 /\
  length candidates <= Nat.max 1 (default DEFAULT_MAX_CANDIDATES (opt_maxCandidates options)) /\
  (isShadowRoot (default (getQueryRoot element) (opt_root options)) = false ->
   candidates <> [] /\ generateCssSelector d element options <> ""%string).
Proof.
  cbv zeta. unfold generateCssSelector, generateSelectorCandidates.
  set (root := default (getQueryRoot element) (opt_root options)).
  set (n := Nat.max 1 _).
  set (c1 := push [] (tryIdSelector d element root)).
  set (c2 := push c1 (tryDataAttrSelector d element root)).
  set (c3 := push c2 (tryClassSelector d element root)).
  set (c4 := push c3 (Some (buildPathSelector d element root))).
  assert (Hd : NoDup c4) by (repeat apply push_NoDup; apply NoDup_nil_2).
  assert (Hs : Forall stored c4) by (repeat apply push_stored; apply List.Forall_nil).
  assert (Hl : length c4 <= 4).
  { pose proof (push_length c3 (Some (buildPathSelector d element root))).
    pose proof (push_length c2 (tryClassSelector d element root)).
    pose proof (push_length c1 (tryDataAttrSelector d element root)).
    pose proof (push_length [] (tryIdSelector d element root)).
    fold c1 in H2. fold c2 in H1. fold c3 in H0. fold c4 in H. simpl in H2. lia. }
  split; [exact (sublist_NoDup _ _ Hd (sublist_take c4 n)) |].
  split; [apply Forall_take; exact Hs |].
  rewrite length_take.
  split; [lia |]. split; [lia |].
  intros Hr.
  assert (Hne : take n c4 <> []).
  { pose proof (push_some_nonempty c3 _ (document_path_has_ink d element root Hr)) as H.
    fold c4 in H. destruct c4 as [| x c4']; [contradiction |].
    assert (Hn : exists m, n = S m) by (exists (Nat.pred n); subst n; lia).
    destruct Hn as [m ->]. discriminate. }
  split; [exact Hne |].
  pose proof (Forall_take stored n _ Hs) as Hs'.
  destruct (take n c4) as [| x l]; [contradiction |].
  apply Forall_cons in Hs' as [[Hx _] _]. exact Hx.
Qed.

(** ** Resolution *)

Lemma unique_of_match d root sel e :
  Css.querySelectorAll d root sel = Some [e] -> isSelectorUnique d root sel = true.
Proof. unfold isSelectorUnique. intros ->. reflexivity. Qed.

Lemma trySelectors_first d root fp candidates :
  match trySelectors d root fp candidates with
  | Some e =>
      exists pre sel post,
        candidates = pre ++ sel :: post /\
        Forall (rejects d root fp) pre /\ accepts d root fp sel e
  | None => Forall (rejects d root fp) candidates
  end.
Proof.
  induction candidates as [| sel rest IH]; cbn [trySelectors]; [constructor |].
  assert (Hnext : rejects d root fp sel ->
            match trySelectors d root fp rest with
            | Some e =>
                exists pre sel0 post,
                  sel :: rest = pre ++ sel0 :: post /\
                  Forall (rejects d root fp) pre /\ accepts d root fp sel0 e
            | None => Forall (rejects d root fp) (sel :: rest)
            end).
  { intros Hrej. destruct (trySelectors d root fp rest) as [e |].
    - destruct IH as (pre & s & post & -> & Hpre & Hacc).
      exists (sel :: pre), s, post. split; [reflexivity |].
      split; [constructor; assumption | exact Hacc].
    - constructor; assumption. }
  destruct (isSelectorUnique d root sel) eqn:Hu; cbn [negb].
  - destruct (LocatorProofs.unique_match d root sel Hu) as (x & Hq & ->).
    case_bool_decide as Hfp; cbn [negb andb].
    + exists [], sel, rest. split; [reflexivity |].
      split; [constructor | split; [exact Hq | left; exact Hfp]].
    + destruct (verifyFingerprint (the_element d x) fp) eqn:Hv; cbn [negb].
      * exists [], sel, rest. split; [reflexivity |].
        split; [constructor | split; [exact Hq | right; exact Hv]].
      * apply Hnext. intros e [Hq' [He | He]]; [contradiction |].
        rewrite Hq in Hq'. injection Hq' as <-. congruence.
  - apply Hnext. intros e [Hq _]. apply unique_of_match in Hq. congruence.
Qed.

(** X22. [locateElement] takes the first candidate that is acceptable:
    once the shadow host chain has led to a query root, the result is
    the single match of the first selector, in the order of the
    locator, that matches exactly one element of that root and whose
    match the fingerprint (when the locator has one) confirms; every
    selector before it is not acceptable, and the result is none
    exactly when no selector is. *)
Theorem first_acceptable_selector_wins (d : document) (locator : ElementLocator)
  (root : ref) :
  default [] (frameChain locator) = [] ->
  resolveShadowHostChain d [] (default [] (shadowHostChain locator)) = Some root ->
  match locateElement d locator with
  | Some e =>
      exists pre sel post,
        selectors locator = pre ++ sel :: post /\
        Forall (rejects d root (fingerprint locator)) pre /\
        accepts d root (fingerprint locator) sel e
  | None => Forall (rejects d root (fingerprint locator)) (selectors locator)
  end.
Proof.
  intros Hf Hr. unfold locateElement. rewrite Hf. cbn [resolveFrameChain]. rewrite Hr.
  apply trySelectors_first.
Qed.

Lemma first_acceptable_selector_wins_witness :
  match locateElement page (createElementLocator page go_button) with
  | Some e =>
      exists pre sel post,
        selectors (createElementLocator page go_button) = pre ++ sel :: post /\
        Forall (rejects page [] (fingerprint (createElementLocator page go_button))) pre /\
        accepts page [] (fingerprint (createElementLocator page go_button)) sel e
  | None =>
      Forall (rejects page [] (fingerprint (createElementLocator page go_button)))
             (selectors (createElementLocator page go_button))
  end.
Proof.
  apply (first_acceptable_selector_wins page (createElementLocator page go_button) []);
    vm_compute; reflexivity.
Defined.

(** ** The fingerprint *)

Lemma computeFingerprint_parts e :
  computeFingerprint e = Str.join "|" (fingerprint_parts e).
Proof.
  unfold computeFingerprint, fingerprint_parts.
  destruct (bool_decide (Str.trim (id e) = ""%string));
    destruct (take FINGERPRINT_MAX_CLASSES (classList e));
    destruct (bool_decide (normalizeText (textContent e) FINGERPRINT_TEXT_MAX_LENGTH = ""%string));
    reflexivity.
Qed.

Lemma bar_free_cons c s :
  bar_free (String c s) = negb (bool_decide ("|"%char = c)) && bar_free s.
Proof. unfold bar_free. simpl. apply negb_orb. Qed.

Lemma bar_free_app a b : bar_free (a ++ b) = bar_free a && bar_free b.
Proof.
  induction a as [| c a IH]; [reflexivity |].
  rewrite append_cons, !bar_free_cons, IH. apply andb_assoc.
Qed.

Lemma lower_char_bar c :
  bool_decide ("|"%char = Str.lower_char c) = bool_decide ("|"%char = c).
Proof.
  assert (H : forall c,
             Bool.eqb (bool_decide ("|"%char = Str.lower_char c))
                      (bool_decide ("|"%char = c)) = true)
    by (apply forall_ascii; vm_compute; reflexivity).
  apply Bool.eqb_prop, H.
Qed.

Lemma bar_free_lower s : bar_free (Str.toLowerCase s) = bar_free s.
Proof.
  induction s as [| c s IH]; [reflexivity |].
  cbn [Str.toLowerCase]. rewrite !bar_free_cons, lower_char_bar, IH. reflexivity.
Qed.

Lemma bar_free_trimStart s : bar_free s = true -> bar_free (Str.trimStart s) = true.
Proof.
  induction s as [| c s IH]; [auto |].
  intros H. cbn [Str.trimStart]. destruct (Str.is_space c); [| exact H].
  rewrite bar_free_cons in H. apply andb_true_iff in H as [_ H]. auto.
Qed.

Lemma bar_free_trimEnd s : bar_free s = true -> bar_free (Str.trimEnd s) = true.
Proof.
  induction s as [| c s IH]; [auto |].
  intros H. rewrite bar_free_cons in H. apply andb_true_iff in H as [Hc H].
  specialize (IH H). cbn [Str.trimEnd].
  destruct (Str.trimEnd s) as [| c' r'].
  - destruct (Str.is_space c); [reflexivity |].
    rewrite bar_free_cons, Hc. reflexivity.
  - rewrite bar_free_cons, Hc, IH. reflexivity.
Qed.

Lemma bar_free_trim s : bar_free s = true -> bar_free (Str.trim s) = true.
Proof. intros H. apply bar_free_trimEnd, bar_free_trimStart, H. Qed.

Lemma bar_free_take n s : bar_free s = true -> bar_free (Str.take n s) = true.
Proof.
  revert s. induction n as [| n IH]; intros [| c s] H; try reflexivity.
  rewrite bar_free_cons in H. apply andb_true_iff in H as [Hc H].
  cbn [Str.take]. rewrite bar_free_cons, Hc, (IH s H). reflexivity.
Qed.

Lemma bar_free_collapse s :
  forall b, bar_free s = true -> bar_free (collapse_spaces b s) = true.
Proof.
  induction s as [| c s IH]; intros b H; [reflexivity |].
  rewrite bar_free_cons in H. apply andb_true_iff in H as [Hc H].
  cbn [collapse_spaces]. destruct (Str.is_space c).
  - destruct b; [auto |]. rewrite bar_free_cons, (IH true H). reflexivity.
  - rewrite bar_free_cons, Hc, (IH false H). reflexivity.
Qed.

Lemma bar_free_join_dot l :
  Forall (fun c => bar_free c = true) l -> bar_free (Str.join "." l) = true.
Proof.
  induction 1 as [| x l Hx Hl IH]; [reflexivity |].
  destruct l as [| y l']; [exact Hx |].
  change (Str.join "." (x :: y :: l')) with (x ++ "." ++ Str.join "." (y :: l'))%string.
  rewrite !bar_free_app, Hx, IH. reflexivity.
Qed.

Lemma fingerprint_parts_bar_free e :
  bar_free_element e -> Forall (fun p => bar_free p = true) (fingerprint_parts e).
Proof.
  intros (Ht & Hi & Hc & Hx). unfold fingerprint_parts.
  repeat apply Forall_app_2.
  - apply Forall_singleton. rewrite bar_free_lower. exact Ht.
  - case_bool_decide; [constructor |]. apply Forall_singleton.
    rewrite bar_free_app, bar_free_trim by exact Hi. reflexivity.
  - pose proof (Forall_take _ FINGERPRINT_MAX_CLASSES _ Hc) as Hc'.
    destruct (take FINGERPRINT_MAX_CLASSES (classList e)) as [| c cs]; [constructor |].
    apply Forall_singleton. rewrite bar_free_app, bar_free_join_dot by exact Hc'. reflexivity.
  - case_bool_decide; [constructor |]. apply Forall_singleton.
    rewrite bar_free_app. unfold normalizeText.
    rewrite bar_free_take by (apply bar_free_trim, bar_free_collapse, Hx). reflexivity.
Qed.

Lemma split_plain t : bar_free t = true -> Str.split "|" t = [t].
Proof.
  induction t as [| c t IH]; [reflexivity |].
  rewrite bar_free_cons. intros H. apply andb_true_iff in H as [Hc H].
  cbn [Str.split]. apply negb_true_iff, bool_decide_eq_false in Hc.
  case_bool_decide as E; [congruence |].
  rewrite (IH H). reflexivity.
Qed.

Lemma split_app t y :
  bar_free t = true -> Str.split "|" (t ++ String "|" y) = t :: Str.split "|" y.
Proof.
  induction t as [| c t IH].
  - intros _. change ("" ++ String "|" y)%string with (String "|" y).
    cbn [Str.split]. rewrite bool_decide_eq_true_2 by reflexivity. reflexivity.
  - rewrite bar_free_cons. intros H. apply andb_true_iff in H as [Hc H].
    rewrite append_cons. cbn [Str.split]. apply negb_true_iff, bool_decide_eq_false in Hc.
    case_bool_decide as E; [congruence |].
    rewrite (IH H). reflexivity.
Qed.

Lemma split_join parts :
  parts <> [] -> Forall (fun p => bar_free p = true) parts ->
  Str.split "|" (Str.join "|" parts) = parts.
Proof.
  intros Hne H. induction H as [| p l Hp Hl IH]; [contradiction |].
  destruct l as [| q l']; [apply split_plain, Hp |].
  change (Str.join "|" (p :: q :: l')) with (p ++ String "|" (Str.join "|" (q :: l')))%string.
  rewrite (split_app _ _ Hp), IH by discriminate. reflexivity.
Qed.

Lemma find_id_part e :
  Str.startsWith "id=" (Str.toLowerCase (tagName e)) = false ->
  List.find (Str.startsWith "id=") (fingerprint_parts e) =
  if bool_decide (Str.trim (id e) = ""%string) then None
  else Some ("id=" ++ Str.trim (id e))%string.
Proof.
  intros Ht. unfold fingerprint_parts. cbn [app List.find]. rewrite Ht.
  case_bool_decide; [| reflexivity]. cbn [app].
  destruct (take FINGERPRINT_MAX_CLASSES (classList e));
    destruct (bool_decide (normalizeText (textContent e) FINGERPRINT_TEXT_MAX_LENGTH = ""%string));
    reflexivity.
Qed.

Lemma fingerprint_parts_head e :
  head (fingerprint_parts e) = Some (Str.toLowerCase (tagName e)).
Proof. reflexivity. Qed.

Lemma fingerprint_parts_nonempty e : fingerprint_parts e <> [].
Proof. discriminate. Qed.

(** X23. What a fingerprint guards.  For elements whose tag name, id,
    classes and text hold no [|], and a stored element whose tag name
    does not begin with [id=]: [verifyFingerprint] accepts an element
    against the fingerprint computed from the stored one exactly when
    the two have the same tag name up to case and, if the stored
    element had a non-blank id, the same trimmed id.  Classes and text
    are part of the fingerprint but take no part in the check. *)
Theorem fingerprint_checks_tag_and_id_only (e e0 : element) :
  bar_free_element e -> bar_free_element e0 ->
  Str.startsWith "id=" (Str.toLowerCase (tagName e0)) = false ->
  verifyFingerprint e (computeFingerprint e0) = true <-> same_tag_and_id e e0.
Proof.
  intros He He0 Hid. unfold verifyFingerprint, same_tag_and_id.
  rewrite !computeFingerprint_parts.
  rewrite !split_join
    by (try apply fingerprint_parts_nonempty; apply fingerprint_parts_bar_free; assumption).
  rewrite !fingerprint_parts_head, (find_id_part e0 Hid).
  case_bool_decide as Hh; cbn [negb].
  - injection Hh as Hh.
    rewrite (find_id_part e) by (rewrite <- Hh; exact Hid).
    destruct (bool_decide (Str.trim (id e0) = ""%string)) eqn:E0.
    + apply bool_decide_eq_true in E0.
      split; [intros _; split; [auto | intros Hn; contradiction] | reflexivity].
    + apply bool_decide_eq_false in E0. rewrite bool_decide_eq_true.
      split.
      * intros H. split; [auto |]. intros _.
        destruct (bool_decide (Str.trim (id e) = ""%string)); [discriminate |].
        injection H as H. symmetry. exact H.
      * intros [_ H]. specialize (H E0).
        rewrite H, bool_decide_eq_false_2 by exact E0. reflexivity.
  - split; [discriminate |]. intros [Ht _]. exfalso. apply Hh. rewrite Ht. reflexivity.
Qed.

Lemma fingerprint_checks_tag_and_id_only_witness :
  verifyFingerprint relabelled_go (computeFingerprint go_element) = true <->
  same_tag_and_id relabelled_go go_element.
Proof.
  apply (fingerprint_checks_tag_and_id_only relabelled_go go_element).
  - repeat split; try reflexivity. repeat constructor.
  - repeat split; try reflexivity. constructor.
  - reflexivity.
Defined.

End LocatorRunProofs.

(* ===================================================================== *)
(** * Properties of the editor life cycle                                 *)
(* ===================================================================== *)

Module LifeCycleProofs.
Import WebEditorTypes Editor MessageListener LifeCycleSpec.

Lemma torn_down_whole : whole (torn_down false).
Proof. repeat split. Qed.

Lemma start_whole failure s : whole s -> whole (start failure s).
Proof.
  intros Hs. unfold start. destruct (state_active s) eqn:Ha; [exact Hs |].
  destruct failure as [step |].
  - destruct (MessageListenerProofs.start_body_failure step s) as [thrown ->].
    apply torn_down_whole.
  - repeat split.
Qed.

Lemma stop_whole s : whole s -> whole (stop s).
Proof.
  intros Hs. unfold stop. destruct (state_active s); [apply torn_down_whole | exact Hs].
Qed.

Lemma run_call_whole s c : whole s -> whole (run_call s c).
Proof.
  intros Hs. destruct c as [f | | f]; cbn [run_call].
  - apply start_whole, Hs.
  - apply stop_whole, Hs.
  - unfold toggle. cbn [snd]. destruct (state_active s);
      [apply stop_whole | apply start_whole]; exact Hs.
Qed.

Lemma run_call_clears s c :
  hoveredElement s = false /\ selectedElement s = false ->
  hoveredElement (run_call s c) = false /\ selectedElement (run_call s c) = false.
Proof.
  intros Hs.
  assert (Hstart : forall f, hoveredElement (start f s) = false /\
                             selectedElement (start f s) = false).
  { intros f. unfold start. destruct (state_active s); [exact Hs |].
    destruct f as [step |].
    - destruct (MessageListenerProofs.start_body_failure step s) as [thrown ->].
      split; reflexivity.
    - exact Hs. }
  assert (Hstop : hoveredElement (stop s) = false /\ selectedElement (stop s) = false).
  { unfold stop. destruct (state_active s); [split; reflexivity | exact Hs]. }
  destruct c as [f | | f]; cbn [run_call]; auto.
  unfold toggle. cbn [snd]. destruct (state_active s); auto.
Qed.

(** X25. The editor never holds half of its subsystems.  After any
    sequence of [start], [stop] and [toggle] calls on a new editor, in
    which any step of any initialisation may throw, the editor is
    either active with all seven subsystems in place or inactive with
    every slot cleared; a failed start leaves nothing behind. *)
Theorem editor_is_whole_after_any_calls (calls : list api_call) :
  let s := foldl run_call created calls in
  whole s /\ hoveredElement s = false /\ selectedElement s = false.
Proof.
  cbv zeta.
  assert (H : forall s,
             whole s /\ hoveredElement s = false /\ selectedElement s = false ->
             whole (foldl run_call s calls) /\
             hoveredElement (foldl run_call s calls) = false /\
             selectedElement (foldl run_call s calls) = false).
  { induction calls as [| c calls IH]; intros s Hs; [exact Hs |].
    cbn [foldl]. apply IH. destruct Hs as [Hw Hc].
    split; [apply run_call_whole, Hw | apply run_call_clears, Hc]. }
  apply H. repeat split.
Qed.

Lemma listener_editor m s :
  (exists response,
      listener (createWebEditorV2 (snd m)) (fst m) s
        = (false, Some response, run_call s
             (if bool_decide (fst m = Some TOGGLE) then call_toggle (snd m)
              else if bool_decide (fst m = Some START) then call_start (snd m)
              else call_stop)) /\
      fst m <> Some PING /\ isV2Request (fst m) = true /\
      (failing_start m s \/
       response_active response =
       state_active (run_call s
             (if bool_decide (fst m = Some TOGGLE) then call_toggle (snd m)
              else if bool_decide (fst m = Some START) then call_start (snd m)
              else call_stop)))) \/
  (fst m = Some PING /\
   listener (createWebEditorV2 (snd m)) (fst m) s
     = (false, Some (PingResponse "pong" (state_active s) 2), s)) \/
  (isV2Request (fst m) = false /\
   listener (createWebEditorV2 (snd m)) (fst m) s = (false, None, s)).
Proof.
  destruct m as [[action |] f]; cbn [fst snd]; [| right; right; split; reflexivity].
  destruct (isV2Request (Some action)) eqn:Hv;
    [| right; right; split; [reflexivity |]; unfold listener; rewrite Hv; reflexivity].
  unfold listener. rewrite Hv. cbn [negb default from_option id].
  destruct (bool_decide (action = PING)) eqn:Ep.
  { apply bool_decide_eq_true in Ep. subst action. right. left. split; reflexivity. }
  apply bool_decide_eq_false in Ep.
  left.
  destruct (bool_decide (action = TOGGLE)) eqn:Et.
  { apply bool_decide_eq_true in Et. subst action.
    rewrite bool_decide_eq_true_2 by reflexivity.
    eexists. split; [reflexivity |]. split; [congruence |]. split; [reflexivity |].
    right. reflexivity. }
  apply bool_decide_eq_false in Et.
  rewrite (bool_decide_eq_false_2 (Some action = Some TOGGLE)) by congruence.
  destruct (bool_decide (action = START)) eqn:Es.
  { apply bool_decide_eq_true in Es. subst action.
    rewrite bool_decide_eq_true_2 by reflexivity.
    eexists. split; [reflexivity |]. split; [congruence |]. split; [reflexivity |].
    cbn [run_call response_active WebEditorTypes.start createWebEditorV2].
    destruct (state_active (start f s)) eqn:Ea; [right; reflexivity |].
    left. split; [reflexivity | exact Ea]. }
  apply bool_decide_eq_false in Es.
  rewrite (bool_decide_eq_false_2 (Some action = Some START)) by congruence.
  destruct (bool_decide (action = STOP)) eqn:Eo.
  { apply bool_decide_eq_true in Eo. subst action.
    eexists. split; [reflexivity |]. split; [congruence |]. split; [reflexivity |].
    right. cbn [run_call response_active WebEditorTypes.stop createWebEditorV2].
    unfold stop. destruct (state_active s) eqn:Ea; [reflexivity | auto]. }
  apply bool_decide_eq_false in Eo.
  unfold isV2Request in Hv.
  rewrite !bool_decide_eq_false_2 in Hv by assumption. discriminate.
Qed.

(** X26. What the responses tell.  For every request handled by the
    listener on the editor of editor.ts: the listener returns [false];
    a request that is no editor request gets no response and leaves the
    editor as it was; every other request gets exactly one response,
    and the [active] flag of that response is the state the editor is
    in after the request, unless the request is a START whose
    initialisation failed. *)
Theorem responses_tell_the_state_after (m : message) (s : EditorInternalState) :
  let '(result, response, s') := listener (createWebEditorV2 (snd m)) (fst m) s in
  result = false /\
  (isV2Request (fst m) = false -> response = None /\ s' = s) /\
  (isV2Request (fst m) = true ->
   exists r, response = Some r /\
             (failing_start m s \/ response_active r = state_active s')).
Proof.
  destruct (listener_editor m s)
    as [(r & -> & Hp & Hv & Hr) | [(Hp & ->) | (Hv & ->)]].
  - split; [reflexivity |]. split; [congruence |]. intros _. eauto.
  - split; [reflexivity |]. split.
    + intros Hv. rewrite Hp in Hv. discriminate.
    + intros _. eexists. split; [reflexivity |]. right. reflexivity.
  - split; [reflexivity |]. split; [auto |]. congruence.
Qed.

End LifeCycleProofs.

(* ===================================================================== *)
(** * Properties of the canvas overlay                                    *)
(* ===================================================================== *)

Module CanvasOverlayProofs.
Import CanvasOverlay CanvasOverlaySpec.
Local Open Scope list_scope.

Lemma Math_round_pos (w : Q) : (0 < Math_round w)%Z <-> (1 # 2 <= w)%Q.
Proof.
  unfold Math_round. split; intros H.
  - pose proof (Qfloor_le (w + (1 # 2))) as Hf.
    assert (H1 : (inject_Z 1 <= inject_Z (Qfloor (w + (1 # 2))))%Q)
      by (rewrite <- Zle_Qle; lia).
    change (inject_Z 1) with 1%Q in H1. lra.
  - assert (H1 : (inject_Z 1 <= w + (1 # 2))%Q) by (change (inject_Z 1) with 1%Q; lra).
    apply Qfloor_resp_le in H1. rewrite Qfloor_Z in H1. lia.
Qed.

Lemma Math_round_close (q : Q) : (Qabs (inject_Z (Math_round q) - q) <= 1 # 2)%Q.
Proof.
  unfold Math_round.
  pose proof (Qfloor_le (q + (1 # 2))) as H1.
  pose proof (Qlt_floor (q + (1 # 2))) as H2.
  rewrite inject_Z_plus in H2. change (inject_Z 1) with 1%Q in H2.
  apply Qabs_Qle_condition. split; lra.
Qed.

Lemma not_positive_round (w : Q) : Qle_bool (1 # 2) w = false -> (Math_round w <=? 0)%Z = true.
Proof.
  intros H. apply Z.leb_le.
  destruct (Z.lt_ge_cases 0 (Math_round w)) as [Hp | Hp]; [| lia].
  apply Math_round_pos, Qle_bool_iff in Hp. congruence.
Qed.

Lemma half_is_positive (w : Q) : (1 # 2 <= w)%Q -> PositionTracker.Qltb 0 w = true.
Proof.
  intros H. unfold PositionTracker.Qltb. apply negb_true_iff.
  destruct (Qle_bool w 0) eqn:E; [| reflexivity].
  apply Qle_bool_iff in E. lra.
Qed.

(** X27. [drawBox] draws a rectangle exactly when its four numbers are
    finite and its width and height are at least half a pixel (a
    thinner rectangle passes [isValidRect] and is still not drawn).
    The box drawn has whole-pixel width and height of at least one,
    each within half a pixel of the rectangle's, and its corner lies
    half a pixel after a whole pixel that is within half a pixel of the
    rectangle's corner. *)
Theorem box_is_drawn_from_half_a_pixel (box : option ViewportRect) (style : BoxStyle) :
  (drawable box = false -> drawBox box style = []) /\
  (forall l t w h,
      box = Some (finite_rect l t w h) -> (1 # 2 <= w)%Q -> (1 # 2 <= h)%Q ->
      drawBox box style
      = box_calls style (inject_Z (Math_round l) + (1 # 2)) (inject_Z (Math_round t) + (1 # 2))
          (inject_Z (Math_round w)) (inject_Z (Math_round h)) /\
      (1 <= Math_round w)%Z /\ (1 <= Math_round h)%Z /\
      (Qabs (inject_Z (Math_round w) - w) <= 1 # 2)%Q /\
      (Qabs (inject_Z (Math_round h) - h) <= 1 # 2)%Q /\
      (Qabs (inject_Z (Math_round l) - l) <= 1 # 2)%Q /\
      (Qabs (inject_Z (Math_round t) - t) <= 1 # 2)%Q).
Proof.
  split.
  - unfold drawable, drawBox. destruct box as [[l t w h] |]; [| reflexivity].
    cbn [left top width height].
    destruct (isValidRect _); cbn [negb]; [| reflexivity].
    destruct l as [l |], t as [t |], w as [w |], h as [h |]; try reflexivity.
    intros H. apply andb_false_iff in H as [H | H];
      rewrite (not_positive_round _ H), ?orb_true_r; reflexivity.
  - intros l t w h -> Hw Hh.
    pose proof (proj2 (Math_round_pos w) Hw) as Pw.
    pose proof (proj2 (Math_round_pos h) Hh) as Ph.
    split; [| repeat split; try lia; apply Math_round_close].
    unfold drawBox, isValidRect, finite_rect. cbn [left top width height isFinite isFinitePositive].
    rewrite !half_is_positive by assumption. cbn [andb negb].
    destruct (Z.leb_spec (Math_round w) 0); [lia |].
    destruct (Z.leb_spec (Math_round h) 0); [lia |]. reflexivity.
Qed.

Lemma box_is_drawn_from_half_a_pixel_witness :
  drawBox (Some button_rect) BOX_STYLES_selection
  = box_calls BOX_STYLES_selection
      (inject_Z (Math_round (106 # 10)) + (1 # 2)) (inject_Z (Math_round 20%Q) + (1 # 2))
      (inject_Z (Math_round (1204 # 10))) (inject_Z (Math_round 40%Q)) /\
  (1 <= Math_round (1204 # 10))%Z /\ (1 <= Math_round 40%Q)%Z /\
  (Qabs (inject_Z (Math_round (1204 # 10)) - (1204 # 10)) <= 1 # 2)%Q /\
  (Qabs (inject_Z (Math_round 40%Q) - 40) <= 1 # 2)%Q /\
  (Qabs (inject_Z (Math_round (106 # 10)) - (106 # 10)) <= 1 # 2)%Q /\
  (Qabs (inject_Z (Math_round 20%Q) - 20) <= 1 # 2)%Q.
Proof.
  apply (proj2 (box_is_drawn_from_half_a_pixel (Some button_rect) BOX_STYLES_selection)
           (106 # 10) 20%Q (1204 # 10) 40%Q); [reflexivity | discriminate | discriminate].
Defined.

(** ** Frames and paintings *)

Lemma markDirty_keeps (s : state) :
  hoverRect (markDirty s) = hoverRect s /\
  selectionRect (markDirty s) = selectionRect s /\
  isDisposed (markDirty s) = isDisposed s /\
  (isDisposed s = false -> dirty (markDirty s) = true).
Proof.
  unfold markDirty, scheduleRaf. destruct (isDisposed s) eqn:Hd.
  - repeat split; [exact Hd | discriminate].
  - cbn [set_flags rafPending isDisposed]. rewrite Hd, orb_false_r.
    destruct (rafPending s); cbn [set_flags hoverRect selectionRect isDisposed dirty]; auto.
Qed.

Lemma markDirty_in_sync (s : state) :
  (isDisposed s = true -> rafPending s = false) -> in_sync (markDirty s).
Proof.
  intros H. unfold markDirty, in_sync. destruct (isDisposed s) eqn:Hd.
  - rewrite Hd. split; [exact H | discriminate].
  - unfold scheduleRaf. cbn [set_flags rafPending isDisposed]. rewrite Hd, orb_false_r.
    destruct (rafPending s) eqn:Hp; cbn [set_flags rafPending isDisposed dirty];
      rewrite ?Hd, ?Hp; (split; [discriminate |]); intros _; (split; [reflexivity | discriminate]).
Qed.

Lemma in_sync_disposed (s : state) : in_sync s -> isDisposed s = true -> rafPending s = false.
Proof. intros [H _]. exact H. Qed.

Lemma updateCanvasSize_keeps (dpr : Q) (s : state) :
  hoverRect (snd (updateCanvasSize dpr s)) = hoverRect s /\
  selectionRect (snd (updateCanvasSize dpr s)) = selectionRect s /\
  viewportWidth (snd (updateCanvasSize dpr s)) = viewportWidth s /\
  viewportHeight (snd (updateCanvasSize dpr s)) = viewportHeight s /\
  isDisposed (snd (updateCanvasSize dpr s)) = isDisposed s /\
  dirty (snd (updateCanvasSize dpr s)) = dirty s /\
  rafPending (snd (updateCanvasSize dpr s)) = rafPending s /\
  exists sizing, drawn (snd (updateCanvasSize dpr s)) = drawn s ++ sizing.
Proof.
  unfold updateCanvasSize.
  match goal with |- context [if negb ?c then _ else _] => destruct (negb c) end;
    cbn [snd hoverRect selectionRect viewportWidth viewportHeight isDisposed dirty
         rafPending drawn];
    repeat (split; [reflexivity |]).
  - exists []. symmetry. apply app_nil_r.
  - eexists. reflexivity.
Qed.

Lemma render_live (dpr : Q) (s : state) :
  isDisposed s = false -> dirty s = true ->
  hoverRect (render dpr s) = hoverRect s /\
  selectionRect (render dpr s) = selectionRect s /\
  viewportWidth (render dpr s) = viewportWidth s /\
  viewportHeight (render dpr s) = viewportHeight s /\
  isDisposed (render dpr s) = false /\
  dirty (render dpr s) = false /\
  rafPending (render dpr s) = false /\
  exists sizing, drawn (render dpr s) = (drawn s ++ sizing) ++ painting s.
Proof.
  intros Hd Hy. unfold render. rewrite Hd, Hy. cbn [orb negb]. cbv zeta.
  unfold clearCanvas. cbv zeta.
  match goal with
  | |- context [snd (updateCanvasSize dpr ?x)] =>
      pose proof (updateCanvasSize_keeps dpr x) as (K1 & K2 & K3 & K4 & K5 & K6 & K7 & sizing & K8);
      remember (snd (updateCanvasSize dpr x)) as u eqn:Eu; clear Eu
  end.
  cbn [cancelRaf set_flags hoverRect selectionRect viewportWidth viewportHeight isDisposed
       dirty rafPending drawn] in K1, K2, K3, K4, K5, K6, K7, K8.
  cbn [draw hoverRect selectionRect viewportWidth viewportHeight isDisposed dirty
       rafPending drawn].
  rewrite K6.
  cbn [draw hoverRect selectionRect viewportWidth viewportHeight isDisposed dirty
       rafPending drawn].
  rewrite K1, K2, K3, K4, K5, K7, K8, Hd.
  repeat (split; [first [reflexivity | assumption] |]).
  exists sizing. unfold painting. rewrite <- !app_assoc. reflexivity.
Qed.

Lemma render_in_sync (dpr : Q) (s : state) : in_sync s -> in_sync (render dpr s).
Proof.
  intros Hs. destruct (isDisposed s) eqn:Hd.
  { unfold render. rewrite Hd. exact Hs. }
  destruct (dirty s) eqn:Hy.
  2:{ unfold render. rewrite Hd, Hy. exact Hs. }
  destruct (render_live dpr s Hd Hy) as (Hh & Hsel & Hw & Hv & Hd' & Hy' & Hp' & sizing & Hdr).
  split; [congruence |]. intros _. split; [congruence |]. intros _.
  exists (drawn s ++ sizing). rewrite Hdr. unfold painting. rewrite Hh, Hsel, Hw, Hv.
  reflexivity.
Qed.

Lemma frame_in_sync (dpr : Q) (s : state) : in_sync s -> in_sync (frame dpr s).
Proof.
  intros Hs. unfold frame. destruct (rafPending s) eqn:Hp; [| exact Hs].
  destruct (isDisposed s) eqn:Hd.
  { rewrite (in_sync_disposed s Hs Hd) in Hp. discriminate. }
  destruct Hs as [_ Hs]. destruct (Hs Hd) as [Hy _]. rewrite Hp in Hy.
  assert (H1 : isDisposed (set_flags (dirty s) false s) = false) by exact Hd.
  assert (H2 : dirty (set_flags (dirty s) false s) = true) by (symmetry; exact Hy).
  destruct (render_live dpr _ H1 H2) as (Hh & Hsel & Hw & Hv & Hd' & Hy' & Hp' & sizing & Hdr).
  split; [congruence |]. intros _. split; [congruence |]. intros _.
  exists (drawn s ++ sizing). rewrite Hdr. unfold painting. rewrite Hh, Hsel, Hw, Hv.
  reflexivity.
Qed.

Lemma frame_shows (dpr : Q) (s : state) :
  in_sync s -> isDisposed s = false -> shows (frame dpr s).
Proof.
  intros Hs Hd. pose proof (frame_in_sync dpr s Hs) as [_ Hf].
  destruct Hs as [_ Hs]. destruct (Hs Hd) as [Hp Hshow].
  unfold frame in *. destruct (rafPending s) eqn:Er.
  - assert (H1 : isDisposed (set_flags (dirty s) false s) = false) by exact Hd.
    assert (H2 : dirty (set_flags (dirty s) false s) = true) by (symmetry; exact Hp).
    destruct (render_live dpr _ H1 H2) as (_ & _ & _ & _ & Hd' & Hy' & _).
    apply (Hf Hd'), Hy'.
  - apply Hshow. congruence.
Qed.

Lemma handle_in_sync (s : state) (i : input) : in_sync s -> in_sync (handle s i).
Proof.
  intros Hs. pose proof (in_sync_disposed s Hs) as Hd.
  destruct i as [| dpr | | r | r | | dpr | [[w h] |]]; cbn [handle].
  - apply markDirty_in_sync, Hd.
  - apply render_in_sync, Hs.
  - apply markDirty_in_sync, Hd.
  - apply markDirty_in_sync, Hd.
  - apply markDirty_in_sync, Hd.
  - split; [reflexivity | discriminate].
  - apply frame_in_sync, Hs.
  - unfold resized. destruct (_ && _); [exact Hs | apply markDirty_in_sync, Hd].
  - exact Hs.
Qed.

Lemma created_in_sync measured : in_sync (created measured).
Proof. apply markDirty_in_sync. discriminate. Qed.

Lemma run_in_sync measured inputs : in_sync (fold_left handle inputs (created measured)).
Proof.
  assert (H : forall s, in_sync s -> in_sync (fold_left handle inputs s)).
  { induction inputs as [| i inputs IH]; intros s Hs; [exact Hs |].
    cbn [fold_left]. apply IH, handle_in_sync, Hs. }
  apply H, created_in_sync.
Qed.

Lemma disposed_stays (s : state) (i : input) :
  isDisposed s = true -> rafPending s = false ->
  isDisposed (handle s i) = true /\ drawn (handle s i) = drawn s /\
  rafPending (handle s i) = false.
Proof.
  intros Hd Hp.
  assert (Hm : forall s0, isDisposed s0 = true -> markDirty s0 = s0)
    by (intros s0 H0; unfold markDirty; rewrite H0; reflexivity).
  destruct i as [| dpr | | r | r | | dpr | [[w h] |]]; cbn [handle].
  - rewrite Hm by exact Hd. auto.
  - unfold render. rewrite Hd. auto.
  - unfold clear. rewrite Hm by exact Hd. auto.
  - unfold setHoverRect. rewrite Hm by exact Hd. auto.
  - unfold setSelectionRect. rewrite Hm by exact Hd. auto.
  - auto.
  - unfold frame. rewrite Hp. auto.
  - unfold resized. destruct (_ && _); [auto |]. rewrite Hm by exact Hd. auto.
  - auto.
Qed.

(** X28. The overlay is never left stale.  After any sequence of
    calls, animation frames and resize notifications on a new overlay
    that is not disposed, a frame is pending exactly when something
    changed since the last painting; when nothing did, the last thing
    drawn is a full painting of the current rectangles (the canvas
    cleared, then the hover box, then the selection box), and in any
    case it is after the next frame, which leaves no frame pending.
    On a disposed overlay nothing is drawn and no frame is requested
    any more. *)
Theorem overlay_is_never_stale (measured : option (Q * Q)) (inputs : list input) :
  let s := fold_left handle inputs (created measured) in
  (isDisposed s = false ->
   rafPending s = dirty s /\
   (dirty s = false -> shows s) /\
   (forall dpr,
       shows (frame dpr s) /\ dirty (frame dpr s) = false /\
       rafPending (frame dpr s) = false /\
       hoverRect (frame dpr s) = hoverRect s /\
       selectionRect (frame dpr s) = selectionRect s)) /\
  (isDisposed s = true ->
   forall i,
     isDisposed (handle s i) = true /\ drawn (handle s i) = drawn s /\
     rafPending (handle s i) = false).
Proof.
  intros s. pose proof (run_in_sync measured inputs) as Hs. fold s in Hs.
  split.
  - intros Hd. destruct Hs as [_ Hs]. destruct (Hs Hd) as [Hp Hshow].
    split; [exact Hp |]. split; [exact Hshow |].
    intros dpr. unfold frame. destruct (rafPending s) eqn:Er.
    + assert (H1 : isDisposed (set_flags (dirty s) false s) = false) by exact Hd.
      assert (H2 : dirty (set_flags (dirty s) false s) = true) by (symmetry; exact Hp).
      destruct (render_live dpr _ H1 H2)
        as (Hh & Hsel & Hw & Hv & Hd' & Hy' & Hp' & sizing & Hdr).
      split; [| auto].
      exists (drawn s ++ sizing). rewrite Hdr. unfold painting. rewrite Hh, Hsel, Hw, Hv.
      reflexivity.
    + split; [apply Hshow; congruence |]. split; [congruence |]. auto.
  - intros Hd i. apply disposed_stays; [exact Hd |]. apply (in_sync_disposed s Hs Hd).
Qed.

Lemma overlay_is_never_stale_witness :
  rafPending (fold_left handle [call_setHoverRect (Some button_rect)] (created None))
  = dirty (fold_left handle [call_setHoverRect (Some button_rect)] (created None)) /\
  (dirty (fold_left handle [call_setHoverRect (Some button_rect)] (created None)) = false ->
   shows (fold_left handle [call_setHoverRect (Some button_rect)] (created None))) /\
  (forall dpr,
      shows (frame dpr (fold_left handle [call_setHoverRect (Some button_rect)] (created None)))
      /\ dirty (frame dpr (fold_left handle [call_setHoverRect (Some button_rect)]
                             (created None))) = false
      /\ rafPending (frame dpr (fold_left handle [call_setHoverRect (Some button_rect)]
                                  (created None))) = false
      /\ hoverRect (frame dpr (fold_left handle [call_setHoverRect (Some button_rect)]
                                 (created None)))
         = hoverRect (fold_left handle [call_setHoverRect (Some button_rect)] (created None))
      /\ selectionRect (frame dpr (fold_left handle [call_setHoverRect (Some button_rect)]
                                     (created None)))
         = selectionRect (fold_left handle [call_setHoverRect (Some button_rect)]
                            (created None))).
Proof.
  apply (proj1 (overlay_is_never_stale None [call_setHoverRect (Some button_rect)])).
  reflexivity.
Defined.

End CanvasOverlayProofs.

(* ===================================================================== *)
(** * Properties of the handlers behind the overlay                       *)
(* ===================================================================== *)

Module EditorViewProofs.
Import PositionTracker EditorView EditorViewSpec.
Local Open Scope list_scope.

Lemma approximatelyEqual_close (a b : Q) :
  approximatelyEqual a b = true -> (Qabs (a - b) < 1 # 2)%Q.
Proof.
  intros H. apply PositionTrackerProofs.approximatelyEqual_true in H.
  apply Qlt_trans with PositionTrackerSpec.rounded_tolerance; [exact H | reflexivity].
Qed.

Section View.
Context {Element : Type} `{EqDecision Element}.

#[local] Abbreviation state := (state (Element := Element)).
#[local] Abbreviation view := (view (Element := Element)).
#[local] Abbreviation layout := (layout (Element := Element)).
#[local] Abbreviation started := (started (Element := Element)).

(** ** The overlay side *)

Lemma update_overlay (dpr : Q) (h sel : option CanvasOverlay.ViewportRect)
  (o : CanvasOverlay.state) :
  CanvasOverlay.isDisposed o = false ->
  let o' := CanvasOverlay.render dpr
              (CanvasOverlay.setSelectionRect sel (CanvasOverlay.setHoverRect h o)) in
  CanvasOverlay.isDisposed o' = false /\
  CanvasOverlay.hoverRect o' = h /\ CanvasOverlay.selectionRect o' = sel /\
  CanvasOverlaySpec.in_sync o' /\ CanvasOverlay.dirty o' = false.
Proof.
  intros Hd o'. subst o'.
  unfold CanvasOverlay.setHoverRect, CanvasOverlay.setSelectionRect.
  set (o1 := CanvasOverlay.markDirty (CanvasOverlay.set_rects h (CanvasOverlay.selectionRect o) o)).
  destruct (CanvasOverlayProofs.markDirty_keeps
              (CanvasOverlay.set_rects h (CanvasOverlay.selectionRect o) o))
    as (A1 & A2 & A3 & A4).
  fold o1 in A1, A2, A3, A4.
  cbn [CanvasOverlay.set_rects CanvasOverlay.hoverRect CanvasOverlay.selectionRect
       CanvasOverlay.isDisposed] in A1, A2, A3, A4.
  set (o2 := CanvasOverlay.markDirty (CanvasOverlay.set_rects (CanvasOverlay.hoverRect o1) sel o1)).
  destruct (CanvasOverlayProofs.markDirty_keeps
              (CanvasOverlay.set_rects (CanvasOverlay.hoverRect o1) sel o1))
    as (B1 & B2 & B3 & B4).
  fold o2 in B1, B2, B3, B4.
  cbn [CanvasOverlay.set_rects CanvasOverlay.hoverRect CanvasOverlay.selectionRect
       CanvasOverlay.isDisposed] in B1, B2, B3, B4.
  assert (D2 : CanvasOverlay.isDisposed o2 = false) by congruence.
  assert (Y2 : CanvasOverlay.dirty o2 = true) by (apply B4; congruence).
  assert (S2 : CanvasOverlaySpec.in_sync o2).
  { apply CanvasOverlayProofs.markDirty_in_sync.
    cbn [CanvasOverlay.set_rects CanvasOverlay.isDisposed]. congruence. }
  destruct (CanvasOverlayProofs.render_live dpr o2 D2 Y2)
    as (R1 & R2 & _ & _ & R5 & R6 & _).
  split; [exact R5 |]. split; [congruence |]. split; [congruence |].
  split; [apply CanvasOverlayProofs.render_in_sync, S2 | exact R6].
Qed.

(** ** The tracker side *)

Lemma setHoverElement_quiet (e : option Element) (t : state) :
  isDisposed t = false ->
  isDisposed (setHoverElement e t) = false /\
  updates (setHoverElement e t) = updates t /\
  lastRects (setHoverElement e t) = lastRects t /\
  hoverElement (setHoverElement e t) = e /\
  selectionElement (setHoverElement e t) = selectionElement t.
Proof.
  intros Hd. unfold setHoverElement. rewrite Hd.
  destruct (decide (hoverElement t = e)) as [E | E]; [auto |].
  match goal with |- context [scheduleUpdate ?x] =>
    destruct (TrackerRunProofs.scheduleUpdate_same x) as (E1 & E2 & E3 & E4 & E5) end.
  rewrite E1, E2, E3, E4, E5. auto.
Qed.

Lemma setSelectionElement_quiet (e : option Element) (t : state) :
  isDisposed t = false ->
  isDisposed (setSelectionElement e t) = false /\
  updates (setSelectionElement e t) = updates t /\
  lastRects (setSelectionElement e t) = lastRects t /\
  hoverElement (setSelectionElement e t) = hoverElement t /\
  selectionElement (setSelectionElement e t) = e.
Proof.
  intros Hd. unfold setSelectionElement. rewrite Hd.
  destruct (decide (selectionElement t = e)) as [E | E]; [auto |].
  match goal with |- context [scheduleUpdate ?x] =>
    destruct (TrackerRunProofs.scheduleUpdate_same x) as (E1 & E2 & E3 & E4 & E5) end.
  rewrite E1, E2, E3, E4, E5. auto.
Qed.

Lemma handleViewportChange_quiet (t : state) :
  isDisposed t = false -> reports_at_most_once t (handleViewportChange t).
Proof.
  intros Hd. unfold handleViewportChange.
  destruct (TrackerRunProofs.scheduleUpdate_same t) as (E1 & E2 & _ & _ & E5).
  destruct (hoverElement t), (selectionElement t), (hover (lastRects t)),
    (selection (lastRects t)); split; first [congruence | auto].
Qed.

Lemma updateIfChanged_live ic bcr (t : state) :
  isDisposed t = false -> isDisposed (updateIfChanged ic bcr t) = false.
Proof.
  intros Hd. unfold updateIfChanged. rewrite Hd.
  rewrite TrackerRunProofs.computeRects_shape.
  cbn [lastRects]. destruct (trackedRectsEqual _ _); exact Hd.
Qed.

Lemma updateIfChanged_reports ic bcr (t : state) :
  isDisposed t = false -> reports_at_most_once t (updateIfChanged ic bcr t).
Proof.
  intros Hd. split; [apply updateIfChanged_live, Hd |].
  destruct (PositionTrackerProofs.updateIfChanged_spec ic bcr t Hd)
    as (_ & _ & [(_ & E1 & E2) | (_ & E1 & E2)]).
  - left. auto.
  - right. rewrite E2, E1. reflexivity.
Qed.

Lemma forceUpdate_reports ic bcr (t : state) :
  isDisposed t = false -> reports_at_most_once t (forceUpdate ic bcr t).
Proof.
  intros Hd. unfold forceUpdate. rewrite Hd.
  apply (updateIfChanged_reports ic bcr (cancelRaf t)). exact Hd.
Qed.

Lemma frame_reports ic bcr (t : state) :
  isDisposed t = false -> reports_at_most_once t (frame ic bcr t).
Proof.
  intros Hd. unfold frame. destruct (rafPending t).
  - apply (updateIfChanged_reports ic bcr (cancelRaf t)). exact Hd.
  - split; auto.
Qed.

Lemma reports_after_quiet (t t1 t2 : state) :
  updates t1 = updates t -> lastRects t1 = lastRects t ->
  reports_at_most_once t1 t2 -> reports_at_most_once t t2.
Proof. intros E1 E2 [Hd H]. split; [exact Hd |]. rewrite <- E1, <- E2. exact H. Qed.

(** ** The two together *)

Lemma handlePositionUpdate_tracker page rects (v : view) :
  positionTracker (handlePositionUpdate page rects v) = positionTracker v /\
  hoveredElement (handlePositionUpdate page rects v) = hoveredElement v /\
  selectedElement (handlePositionUpdate page rects v) = selectedElement v.
Proof. unfold handlePositionUpdate. destruct (canvasOverlay v); auto. Qed.

Lemma on_tracker_fields page f (v : view) :
  positionTracker (on_tracker page f v) = f <$> positionTracker v /\
  hoveredElement (on_tracker page f v) = hoveredElement v /\
  selectedElement (on_tracker page f v) = selectedElement v.
Proof.
  unfold on_tracker. destruct (positionTracker v) as [t |] eqn:Et; [| rewrite Et; auto].
  cbn [fmap option_fmap option_map].
  generalize (drop (length (updates t)) (updates (f t))). intros l.
  match goal with |- context [fold_left _ l ?v0] =>
    change (positionTracker (fold_left (fun v rects => handlePositionUpdate page rects v) l v0)
            = positionTracker v0 /\
            hoveredElement (fold_left (fun v rects => handlePositionUpdate page rects v) l v0)
            = hoveredElement v0 /\
            selectedElement (fold_left (fun v rects => handlePositionUpdate page rects v) l v0)
            = selectedElement v0);
    generalize v0
  end.
  induction l as [| r l IH]; intros v0; [auto |].
  cbn [fold_left]. destruct (IH (handlePositionUpdate page r v0)) as (E1 & E2 & E3).
  destruct (handlePositionUpdate_tracker page r v0) as (F1 & F2 & F3).
  rewrite E1, E2, E3. auto.
Qed.

Lemma on_tracker_agrees page f (v : view) :
  agrees v ->
  (forall t, isDisposed t = false -> reports_at_most_once t (f t)) ->
  agrees (on_tracker page f v).
Proof.
  intros (t & o & Ht & Ho & Dt & Do & Rh & Rs & So) Hf.
  destruct (Hf t Dt) as [Dt' Hr].
  unfold on_tracker. rewrite Ht.
  destruct Hr as [[Eu El] | Eu].
  - rewrite Eu, drop_all. cbn [fold_left].
    exists (f t), o. rewrite El. auto 10.
  - rewrite Eu, drop_app_length. cbn [fold_left].
    unfold handlePositionUpdate. cbn [canvasOverlay]. rewrite Ho.
    destruct (update_overlay (window_devicePixelRatio page)
                (overlay_rect (hover (lastRects (f t))))
                (overlay_rect (selection (lastRects (f t)))) o Do)
      as (U1 & U2 & U3 & U4 & _).
    eexists (f t), _. cbn [positionTracker canvasOverlay].
    split; [reflexivity |]. split; [reflexivity |]. auto 10.
Qed.

Lemma on_overlay_agrees f (v : view) :
  agrees v ->
  (forall o, CanvasOverlaySpec.in_sync o ->
             CanvasOverlaySpec.in_sync (f o) /\
             CanvasOverlay.isDisposed (f o) = CanvasOverlay.isDisposed o /\
             CanvasOverlay.hoverRect (f o) = CanvasOverlay.hoverRect o /\
             CanvasOverlay.selectionRect (f o) = CanvasOverlay.selectionRect o) ->
  agrees (on_overlay f v).
Proof.
  intros (t & o & Ht & Ho & Dt & Do & Rh & Rs & So) Hf.
  destruct (Hf o So) as (F1 & F2 & F3 & F4).
  exists t, (f o). unfold on_overlay. cbn [positionTracker canvasOverlay].
  rewrite Ho. cbn [fmap option_fmap option_map].
  split; [exact Ht |]. split; [reflexivity |]. split; [exact Dt |].
  split; [congruence |]. split; [congruence |]. split; [congruence | exact F1].
Qed.

Lemma overlay_frame_keeps dpr (o : CanvasOverlay.state) :
  CanvasOverlaySpec.in_sync o ->
  CanvasOverlaySpec.in_sync (CanvasOverlay.frame dpr o) /\
  CanvasOverlay.isDisposed (CanvasOverlay.frame dpr o) = CanvasOverlay.isDisposed o /\
  CanvasOverlay.hoverRect (CanvasOverlay.frame dpr o) = CanvasOverlay.hoverRect o /\
  CanvasOverlay.selectionRect (CanvasOverlay.frame dpr o) = CanvasOverlay.selectionRect o.
Proof.
  intros So. split; [apply CanvasOverlayProofs.frame_in_sync, So |].
  unfold CanvasOverlay.frame. destruct (CanvasOverlay.rafPending o) eqn:Hp; [| auto].
  destruct (CanvasOverlay.isDisposed o) eqn:Hd.
  { rewrite (CanvasOverlayProofs.in_sync_disposed o So Hd) in Hp. discriminate. }
  destruct So as [_ So]. destruct (So Hd) as [Hy _]. rewrite Hp in Hy.
  assert (H1 : CanvasOverlay.isDisposed
                 (CanvasOverlay.set_flags (CanvasOverlay.dirty o) false o) = false)
    by exact Hd.
  assert (H2 : CanvasOverlay.dirty
                 (CanvasOverlay.set_flags (CanvasOverlay.dirty o) false o) = true)
    by (symmetry; exact Hy).
  destruct (CanvasOverlayProofs.render_live dpr _ H1 H2) as (R1 & R2 & _ & _ & R5 & _).
  auto.
Qed.

Lemma overlay_resized_keeps contentRect (o : CanvasOverlay.state) :
  CanvasOverlaySpec.in_sync o ->
  CanvasOverlaySpec.in_sync (CanvasOverlay.resized contentRect o) /\
  CanvasOverlay.isDisposed (CanvasOverlay.resized contentRect o)
  = CanvasOverlay.isDisposed o /\
  CanvasOverlay.hoverRect (CanvasOverlay.resized contentRect o) = CanvasOverlay.hoverRect o /\
  CanvasOverlay.selectionRect (CanvasOverlay.resized contentRect o)
  = CanvasOverlay.selectionRect o.
Proof.
  intros So.
  split; [exact (CanvasOverlayProofs.handle_in_sync o
                   (CanvasOverlaySpec.resize_observed contentRect) So) |].
  unfold CanvasOverlay.resized. destruct contentRect as [[w h] |]; [| auto].
  destruct (_ && _); [auto |].
  match goal with |- context [CanvasOverlay.markDirty ?x] =>
    destruct (CanvasOverlayProofs.markDirty_keeps x) as (M1 & M2 & M3 & _) end.
  rewrite M1, M2, M3. auto.
Qed.

Lemma happen_agrees (v : view) (h : happening) : agrees v -> agrees (happen v h).
Proof.
  intros Hv.
  destruct h as [page e | page e m | page | page | page | dpr | rect]; cbn [happen].
  - unfold handleHover. apply on_tracker_agrees; [exact Hv |].
    intros t Dt. destruct (setHoverElement_quiet e t Dt) as (D1 & U1 & L1 & _).
    apply (reports_after_quiet t _ _ U1 L1), forceUpdate_reports, D1.
  - unfold handleSelect. apply on_tracker_agrees; [exact Hv |].
    intros t Dt. destruct (setHoverElement_quiet None t Dt) as (D1 & U1 & L1 & _).
    destruct (setSelectionElement_quiet (Some e) _ D1) as (D2 & U2 & L2 & _).
    apply (reports_after_quiet t _ _ (eq_trans U2 U1) (eq_trans L2 L1)),
      forceUpdate_reports, D2.
  - unfold handleDeselect. apply on_tracker_agrees; [exact Hv |].
    intros t Dt. destruct (setSelectionElement_quiet None t Dt) as (D1 & U1 & L1 & _).
    apply (reports_after_quiet t _ _ U1 L1), forceUpdate_reports, D1.
  - apply on_tracker_agrees; [exact Hv |]. intros t Dt. apply handleViewportChange_quiet, Dt.
  - apply on_tracker_agrees; [exact Hv |]. intros t Dt. apply frame_reports, Dt.
  - apply on_overlay_agrees; [exact Hv |]. apply overlay_frame_keeps.
  - apply on_overlay_agrees; [exact Hv |]. apply overlay_resized_keeps.
Qed.

Lemma started_agrees measured : agrees (started measured).
Proof.
  exists initial, (CanvasOverlay.created measured).
  repeat split; try reflexivity; try discriminate;
    apply (CanvasOverlayProofs.created_in_sync measured).
Qed.

Lemma run_agrees measured (hs : list happening) :
  agrees (fold_left happen hs (started measured)).
Proof.
  assert (H : forall v, agrees v -> agrees (fold_left happen hs v)).
  { induction hs as [| h hs IH]; intros v Hv; [exact Hv |].
    cbn [fold_left]. apply IH, happen_agrees, Hv. }
  apply H, started_agrees.
Qed.

(** X29. The overlay holds what the tracker reported last.  In a
    started editor, after any sequence of hover, select and deselect
    callbacks, scroll or resize events and animation frames, against
    whatever layout: the tracker and the overlay are both alive, the
    hover and selection rectangles of the overlay are the ones the
    tracker remembers as last reported, and the overlay has a frame
    pending exactly when it has not painted them yet. *)
Theorem overlay_holds_what_the_tracker_reported (measured : option (Q * Q))
  (hs : list happening) :
  exists tracker overlay,
    positionTracker (fold_left happen hs (started measured)) = Some tracker /\
    canvasOverlay (fold_left happen hs (started measured)) = Some overlay /\
    isDisposed tracker = false /\ CanvasOverlay.isDisposed overlay = false /\
    CanvasOverlay.hoverRect overlay = overlay_rect (hover (lastRects tracker)) /\
    CanvasOverlay.selectionRect overlay = overlay_rect (selection (lastRects tracker)) /\
    CanvasOverlay.rafPending overlay = CanvasOverlay.dirty overlay /\
    (CanvasOverlay.dirty overlay = false -> CanvasOverlaySpec.shows overlay).
Proof.
  destruct (run_agrees measured hs) as (t & o & Ht & Ho & Dt & Do & Rh & Rs & _ & So).
  exists t, o. destruct (So Do) as [S1 S2]. auto 10.
Qed.

Lemma select_tracks (page : layout) (target : Element) (t : state) (l tp w h : Q) :
  isDisposed t = false ->
  isConnected page target = true ->
  getBoundingClientRect page target = Some (PositionTrackerSpec.dom_box l tp w h) ->
  let t' := forceUpdate (isConnected page) (getBoundingClientRect page)
              (setSelectionElement (Some target) (setHoverElement None t)) in
  hoverElement t' = None /\ selectionElement t' = Some target /\
  hover (lastRects t') = None /\
  exists r, selection (lastRects t') = Some r /\
            within_half_a_pixel r l tp (Qmax 0 w) (Qmax 0 h).
Proof.
  intros Dt Hc Hb t'. subst t'.
  destruct (setHoverElement_quiet None t Dt) as (D1 & _ & _ & H1 & _).
  destruct (setSelectionElement_quiet (Some target) _ D1) as (D2 & _ & _ & H2 & S2).
  set (t2 := setSelectionElement (Some target) (setHoverElement None t)) in *.
  rewrite H1 in H2.
  unfold forceUpdate. rewrite D2.
  destruct (PositionTrackerProofs.updateIfChanged_spec (isConnected page)
              (getBoundingClientRect page) (cancelRaf t2) D2) as (Eh & Es & Hcase).
  cbn [cancelRaf hoverElement selectionElement lastRects updates] in Eh, Es, Hcase.
  rewrite H2 in Eh. rewrite S2 in Es. cbn [resolveConnected] in Eh, Es. rewrite Hc in Es.
  split; [exact Eh |]. split; [exact Es |].
  assert (Hn : fst (computeRects (isConnected page) (getBoundingClientRect page) (cancelRaf t2))
               = {| hover := None;
                    selection := Some (PositionTrackerSpec.box l tp (Qmax 0 w) (Qmax 0 h)) |}).
  { unfold computeRects. cbn [cancelRaf hoverElement selectionElement].
    rewrite H2, S2. cbn [resolveConnected]. rewrite Hc.
    cbn [fst readElementRect]. rewrite Hb. reflexivity. }
  rewrite Hn in Hcase.
  assert (Hself : within_half_a_pixel (PositionTrackerSpec.box l tp (Qmax 0 w) (Qmax 0 h))
                    l tp (Qmax 0 w) (Qmax 0 h)).
  { repeat split; apply approximatelyEqual_close, TrackerRunProofs.approximatelyEqual_refl. }
  destruct Hcase as [(Heq & -> & _) | (_ & -> & _)].
  - unfold trackedRectsEqual in Heq. cbn [hover selection] in Heq.
    apply andb_true_iff in Heq as [Hh Hs].
    destruct (hover (lastRects t2)); [discriminate |].
    split; [reflexivity |].
    destruct (selection (lastRects t2)) as [r |]; [| discriminate].
    exists r. split; [reflexivity |].
    cbn [rectApproximatelyEqual PositionTrackerSpec.box left top width height] in Hs.
    apply andb_true_iff in Hs as [Hs H4]. apply andb_true_iff in Hs as [Hs H3].
    apply andb_true_iff in Hs as [H1' H2'].
    repeat split; apply approximatelyEqual_close; assumption.
  - split; [reflexivity |]. eexists. split; [reflexivity | exact Hself].
Qed.

(** X30. The selection box follows the element.  In a started editor,
    whatever happened before, when the event controller reports the
    selection of an attached element whose bounding rectangle is
    finite: the editor remembers the element as selected and none as
    hovered, the tracker tracks it alone, the overlay holds no hover
    rectangle and a selection rectangle each of whose numbers is less
    than half a pixel away from the element's left, top, width and
    height (negative sizes counted as zero), and after the next frame
    of the overlay, at the latest, that is what is painted. *)
Theorem selection_box_follows_the_element (measured : option (Q * Q))
  (hs : list happening) (page : layout) (target : Element)
  (modifiers : EventController.EventModifiers) (l tp w h : Q) :
  isConnected page target = true ->
  getBoundingClientRect page target = Some (PositionTrackerSpec.dom_box l tp w h) ->
  let v := handleSelect page target modifiers (fold_left happen hs (started measured)) in
  hoveredElement v = None /\ selectedElement v = Some target /\
  exists tracker overlay r,
    positionTracker v = Some tracker /\ canvasOverlay v = Some overlay /\
    hoverElement tracker = None /\ selectionElement tracker = Some target /\
    CanvasOverlay.hoverRect overlay = None /\
    CanvasOverlay.selectionRect overlay = overlay_rect (Some r) /\
    within_half_a_pixel r l tp (Qmax 0 w) (Qmax 0 h) /\
    (forall dpr, CanvasOverlaySpec.shows (CanvasOverlay.frame dpr overlay)).
Proof.
  intros Hc Hb v.
  pose proof (run_agrees measured hs) as H0.
  set (v0 := fold_left happen hs (started measured)) in *.
  pose proof (happen_agrees v0 (select_reported page target modifiers) H0) as H1.
  cbn [happen] in H1. change (handleSelect page target modifiers v0) with v in H1.
  pose proof (on_tracker_fields page
                (fun tracker =>
                   forceUpdate (isConnected page) (getBoundingClientRect page)
                     (setSelectionElement (Some target) (setHoverElement None tracker)))
                {| hoveredElement := None; selectedElement := Some target;
                   positionTracker := positionTracker v0;
                   canvasOverlay := canvasOverlay v0 |}) as (F1 & F2 & F3).
  change (on_tracker page _ _) with v in F1, F2, F3.
  clearbody v.
  cbn [positionTracker hoveredElement selectedElement] in F1, F2, F3.
  destruct H0 as (t0 & o0 & Ht0 & _ & Dt0 & _).
  destruct H1 as (t1 & o1 & Ht1 & Ho1 & Dt1 & Do1 & Rh & Rs & So).
  rewrite Ht0 in F1. cbn [fmap option_fmap option_map] in F1.
  rewrite F1 in Ht1. injection Ht1 as <-.
  destruct (select_tracks page target t0 l tp w h Dt0 Hc Hb) as (T1 & T2 & T3 & r & T4 & T5).
  split; [exact F2 |]. split; [exact F3 |].
  eexists _, o1, r.
  split; [exact F1 |]. split; [exact Ho1 |]. split; [exact T1 |]. split; [exact T2 |].
  split; [rewrite Rh, T3; reflexivity |].
  split; [rewrite Rs, T4; reflexivity |].
  split; [exact T5 |].
  intros dpr. apply CanvasOverlayProofs.frame_shows; assumption.
Qed.

End View.

Lemma selection_box_follows_the_element_witness :
  hoveredElement hovered_then_clicked = None /\
  selectedElement hovered_then_clicked = Some 7%nat /\
  exists tracker overlay r,
    positionTracker hovered_then_clicked = Some tracker /\
    canvasOverlay hovered_then_clicked = Some overlay /\
    hoverElement tracker = None /\ selectionElement tracker = Some 7%nat /\
    CanvasOverlay.hoverRect overlay = None /\
    CanvasOverlay.selectionRect overlay = overlay_rect (Some r) /\
    within_half_a_pixel r (106 # 10) 20 (Qmax 0 (1204 # 10)) (Qmax 0 40) /\
    (forall dpr, CanvasOverlaySpec.shows (CanvasOverlay.frame dpr overlay)).
Proof.
  apply (selection_box_follows_the_element None
           [hover_reported sample_page (Some 7%nat)] sample_page 7%nat
           (EventController.extractModifiers
              (EventControllerSpec.move_over [7%nat] 1%Q 1%Q))
           (106 # 10) 20 (1204 # 10) 40); reflexivity.
Defined.

End EditorViewProofs.
